(** * The RAMP kinodynamic planner of Basic-Robotics

    A shallow embedding of
    [advanced_algos/motion_planning/sampling_methods/single_query/ramp_planner.py]:
    the per-axis trajectory-segment solver (time-optimal duration, minimum
    acceleration at a fixed duration, state evaluation), the lazy edge
    validator, and the two-tree planner with its repair step.

    Numbers.  The source computes with IEEE doubles (numpy [float64]).  The
    embedding uses the real numbers of the Standard Library: every closed form
    is read as exact arithmetic, and rounding is outside the model.  Division
    is the source's [/]; the denominators are [amax], [vmax], [T] and a
    selected acceleration, all strictly positive wherever a theorem below uses
    them.  The only quotients whose denominator can vanish for positive
    [vmax], [amax], [T] are the cruise-class accelerations of the
    minimum-acceleration solver; numpy yields [inf] or [nan] there, and the
    embedding keeps those two values (type [accel]) because they decide
    between "returns None" and "raises". *)

From Stdlib Require Import Reals Lra Lia List Bool Arith ZArith.
Import ListNotations.
Open Scope R_scope.

(** ** Comparisons and small numeric helpers *)

Definition Rleb (x y : R) : bool := if Rle_dec x y then true else false.
Definition Rltb (x y : R) : bool := if Rlt_dec x y then true else false.
Definition Reqb (x y : R) : bool := if Req_dec_T x y then true else false.

(** Python exceptions that the planner can raise. *)
Inductive exn : Type := ValueError | TypeError | IndexError | AttributeError.

(** Result of a call: a value, a raised exception, or [NoFuel] when a loop
    of the source was cut off by the fuel that bounds it in the embedding (the
    theorems show that the fuel given is never exhausted). *)
Inductive res (A : Type) : Type :=
| Ok (x : A)
| Raise (e : exn)
| NoFuel.
Arguments Ok {A} x.
Arguments Raise {A} e.
Arguments NoFuel {A}.

Definition bind {A B} (m : res A) (k : A -> res B) : res B :=
  match m with
  | Ok x => k x
  | Raise e => Raise e
  | NoFuel => NoFuel
  end.

Notation "x <- m ;; k" := (bind m (fun x => k))
  (at level 61, m at next level, right associativity).

(** The four motion-primitive classes, the strings ['P+P-'], ['P-P+'],
    ['P+L+P-'] and ['P-L-P+'] of the source. *)
Inductive primitive : Type := PpPm | PmPp | PpLpPm | PmLmPp.

(** [solve_quadratic], the local helper of both solvers: the real roots of
    [a x^2 + b x + c], the [+] root first; no root when the discriminant is
    negative. *)
Definition solve_quadratic (a b c : R) : list R :=
  let discriminant := b ^ 2 - 4 * a * c in
  if Rltb discriminant 0 then []
  else
    let sqrt_discriminant := sqrt discriminant in
    [ (- b + sqrt_discriminant) / (2 * a); (- b - sqrt_discriminant) / (2 * a) ].

(** [min] of a non-empty Python list of floats ([np.min] likewise). *)
Definition list_min (x : R) (l : list R) : R := fold_left Rmin l x.
Definition list_max (x : R) (l : list R) : R := fold_left Rmax l x.

(** ** Time-optimal duration: [_univariate_time_optimal_interpolants] *)

Module TimeOptimal.
Section Axis.
Variables x1 x2 v1 v2 vmax amax : R.

(* Class P+P- *)
Definition compute_p_plus_p_minus : option R :=
  let solutions :=
    solve_quadratic amax (2 * v1) ((v1 ^ 2 - v2 ^ 2) / (2 * amax) + x1 - x2) in
  let valid_t :=
    filter (fun t => Rleb (Rmax ((v2 - v1) / amax) 0) t
                     && Rleb t ((vmax - v1) / amax)) solutions in
  match valid_t with
  | [] => None
  | t_p :: _ => Some (2 * t_p + (v1 - v2) / amax)
  end.

(* Class P-P+ *)
Definition compute_p_minus_p_plus : option R :=
  let solutions :=
    solve_quadratic amax (- 2 * v1) ((v1 ^ 2 - v2 ^ 2) / (2 * amax) + x2 - x1) in
  let valid_t :=
    filter (fun t => Rleb (Rmax ((v1 - v2) / amax) 0) t
                     && Rleb t ((vmax + v1) / amax)) solutions in
  match valid_t with
  | [] => None
  | t_p :: _ => Some (2 * t_p + (v2 - v1) / amax)
  end.

(* Class P+L+P- *)
Definition compute_p_plus_l_plus_p_minus : option R :=
  let t_p1 := (vmax - v1) / amax in
  let t_p2 := (vmax - v2) / amax in
  let t_l := (v2 ^ 2 + v1 ^ 2 - 2 * vmax ^ 2) / (2 * vmax * amax) + (x2 - x1) / vmax in
  if Rltb t_p1 0 || Rltb t_p2 0 || Rltb t_l 0 then None
  else Some (t_p1 + t_l + t_p2).

(* Class P-L+P+ (the source's name for the negative cruise class) *)
Definition compute_p_minus_l_plus_p_plus : option R :=
  let t_p1 := (vmax + v1) / amax in
  let t_p2 := (vmax + v2) / amax in
  let t_l := (v2 ^ 2 + v1 ^ 2 - 2 * vmax ^ 2) / (2 * vmax * amax) - (x2 - x1) / vmax in
  if Rltb t_p1 0 || Rltb t_p2 0 || Rltb t_l 0 then None
  else Some (t_p1 + t_l + t_p2).

(** The list [times] of the source: the candidates that are not [None], in
    the order P+P-, P-P+, P+L+P-, P-L-P+. *)
Definition keep_some {A} (l : list (option A)) : list A :=
  flat_map (fun o => match o with Some x => [x] | None => [] end) l.

Definition times : list R :=
  keep_some [ compute_p_plus_p_minus; compute_p_minus_p_plus;
              compute_p_plus_l_plus_p_minus; compute_p_minus_l_plus_p_plus ].

Definition _univariate_time_optimal_interpolants : option R :=
  match times with
  | [] => None
  | t :: ts => Some (list_min t ts)
  end.
End Axis.
End TimeOptimal.

(** ** Minimum acceleration at a fixed duration:
       [_minimum_acceleration_interpolants] *)

(** A candidate acceleration as numpy computes it: a finite number, or the
    [inf] / [nan] that a zero denominator produces. *)
Inductive accel : Type := Fin (a : R) | Inf | NaN.

(** [x < y] on candidate accelerations, with the IEEE rules: every comparison
    with [nan] is false, and [inf] is above every finite number. *)
Definition accel_ltb (x y : accel) : bool :=
  match x, y with
  | Fin a, Fin b => Rltb a b
  | Fin _, Inf => true
  | _, _ => false
  end.

(** [x <= bound] for a finite bound. *)
Definition accel_leb (x : accel) (bound : R) : bool :=
  match x with
  | Fin a => Rleb a bound
  | _ => false
  end.

(** Python's [min(l, key=...)] on a non-empty list: the running best is
    replaced only by a strictly smaller key. *)
Definition min_by_key {A} (ltb : A -> A -> bool) (x : A) (l : list A) : A :=
  fold_left (fun best y => if ltb y best then y else best) l x.

(** [np.clip(a, lo, hi)]. *)
Definition clip (a lo hi : R) : R := Rmin (Rmax a lo) hi.

Definition t_margin : R := 1e-4.
Definition a_margin : R := 1e-6.

Module MinAccel.
Section Axis.
Variables x1 x2 v1 v2 vmax T : R.

(* Class P+P- *)
Definition compute_p_plus_p_minus : option (accel * primitive) :=
  let solutions :=
    solve_quadratic (T ^ 2) (2 * T * (v1 + v2) + 4 * (x1 - x2)) (- (v2 - v1) ^ 2) in
  let valid_a :=
    filter (fun a =>
              if Rleb a 0 then false
              else
                let t_s := 0.5 * (T + (v2 - v1) / a) in
                Rltb 0 t_s && Rltb t_s (T + t_margin)
                && Rleb (Rabs (v1 + a * t_s)) vmax) solutions in
  match valid_a with
  | [] => None
  | a :: rest => Some (Fin (list_min a rest), PpPm)
  end.

(* Class P-P+ *)
Definition compute_p_minus_p_plus : option (accel * primitive) :=
  let solutions :=
    solve_quadratic (T ^ 2) (- 2 * T * (v1 + v2) - 4 * (x1 - x2)) (- (v2 - v1) ^ 2) in
  let valid_a :=
    filter (fun a =>
              if Rleb a 0 then false
              else
                let t_s := 0.5 * (T + (v1 - v2) / a) in
                Rltb 0 t_s && Rltb t_s (T + t_margin)
                && Rleb (Rabs (v1 - a * t_s)) vmax) solutions in
  match valid_a with
  | [] => None
  | a :: rest => Some (Fin (list_min a rest), PmPp)
  end.

(** The tail shared by the two cruise classes once the acceleration is
    known, for the numerators [n1], [n2] of the two ramp durations.  With
    [a = inf] both ramps take time [0] and the cruise takes [T]; with
    [a = nan] every guard is false. *)
Definition cruise_candidate (num den n1 n2 : R) (tag : primitive)
  : option (accel * primitive) :=
  if Reqb den 0 then
    if Reqb num 0 then Some (NaN, tag)
    else if Rltb T 0 then None else Some (Inf, tag)
  else
    let a := num / den in
    if Rleb a 0 then None
    else
      let t_p1 := n1 / a in
      let t_p2 := n2 / a in
      let t_l := T - t_p1 - t_p2 in
      if Rltb t_p1 0 || Rltb t_p2 0 || Rltb t_l 0 then None
      else Some (Fin a, tag).

(* Class P+L+P- *)
Definition compute_p_plus_l_plus_p_minus : option (accel * primitive) :=
  cruise_candidate
    (vmax ^ 2 - vmax * (v1 + v2) + 0.5 * (v1 ^ 2 + v2 ^ 2))
    (T * vmax - (x2 - x1))
    (vmax - v1) (vmax - v2) PpLpPm.

(* Class P-L-P+ *)
Definition compute_p_minus_l_minus_p_plus : option (accel * primitive) :=
  cruise_candidate
    (vmax ^ 2 + vmax * (v1 + v2) + 0.5 * (v1 ^ 2 + v2 ^ 2))
    (T * vmax + (x2 - x1))
    (vmax + v1) (vmax + v2) PmLmPp.

Definition valid_results : list (accel * primitive) :=
  TimeOptimal.keep_some
    [ compute_p_plus_p_minus; compute_p_minus_p_plus;
      compute_p_plus_l_plus_p_minus; compute_p_minus_l_minus_p_plus ].

(** The pair selected by [min(valid_results, key=lambda x: x[0])]. *)
Definition selected : option (accel * primitive) :=
  match valid_results with
  | [] => None
  | r :: rs => Some (min_by_key (fun p q => accel_ltb (fst p) (fst q)) r rs)
  end.

(** [amax] is [self.amax[dim]].  The result is [Raise ValueError] ("No
    valid result"), [Ok None] (acceleration above the limit) or
    [Ok (Some (a, class))]. *)
Definition _minimum_acceleration_interpolants (amax : R)
  : res (option (R * primitive)) :=
  match selected with
  | None => Raise ValueError
  | Some (a_min, selected_primitive) =>
      if accel_leb a_min (amax + a_margin) then
        match a_min with
        | Fin a => Ok (Some (clip a 0 amax, selected_primitive))
        | _ => Ok None
        end
      else Ok None
  end.
End Axis.
End MinAccel.

(** ** State evaluation: [_compute_trajectory_state] *)

(** The divisions by [a] are those of the reals.  The solver returns
    [a > 0] only; [a = 0] is recorded only by [generate_max_braking_trajectory],
    on an axis at rest of a state that moves on another axis, and there numpy
    evaluates [0 / 0] and the position of that axis is [nan]. *)
Definition _compute_trajectory_state
    (x1 x2 v1 v2 a vmax T : R) (trajectory_type : primitive) (t : R) : R * R :=
  match trajectory_type with
  | PpPm =>
      let t_s := 0.5 * (T + (v2 - v1) / a) in
      if Rleb t t_s then
        (x1 + v1 * t + 0.5 * a * t ^ 2, v1 + a * t)
      else
        let delta_t := t - t_s in
        let v_peak := v1 + a * t_s in
        (x1 + v1 * t_s + 0.5 * a * t_s ^ 2 + v_peak * delta_t - 0.5 * a * delta_t ^ 2,
         v_peak - a * delta_t)
  | PmPp =>
      let t_s := 0.5 * (T + (v1 - v2) / a) in
      if Rleb t t_s then
        (x1 + v1 * t - 0.5 * a * t ^ 2, v1 - a * t)
      else
        let delta_t := t - t_s in
        let v_valley := v1 - a * t_s in
        (x1 + v1 * t_s - 0.5 * a * t_s ^ 2 + v_valley * delta_t + 0.5 * a * delta_t ^ 2,
         v_valley + a * delta_t)
  | PpLpPm =>
      let t_p1 := (vmax - v1) / a in
      let t_p2 := (vmax - v2) / a in
      let t_l := T - t_p1 - t_p2 in
      if Rleb t t_p1 then
        (x1 + v1 * t + 0.5 * a * t ^ 2, v1 + a * t)
      else if Rleb t (t_p1 + t_l) then
        let delta_t := t - t_p1 in
        (x1 + v1 * t_p1 + 0.5 * a * t_p1 ^ 2 + vmax * delta_t, vmax)
      else
        let delta_t := t - t_p1 - t_l in
        (x1 + v1 * t_p1 + 0.5 * a * t_p1 ^ 2 + vmax * t_l
         + vmax * delta_t - 0.5 * a * delta_t ^ 2,
         vmax - a * delta_t)
  | PmLmPp =>
      let t_p1 := (vmax + v1) / a in
      let t_p2 := (vmax + v2) / a in
      let t_l := T - t_p1 - t_p2 in
      if Rleb t t_p1 then
        (x1 + v1 * t - 0.5 * a * t ^ 2, v1 - a * t)
      else if Rleb t (t_p1 + t_l) then
        let delta_t := t - t_p1 in
        (x1 + v1 * t_p1 - 0.5 * a * t_p1 ^ 2 + (- vmax) * delta_t, - vmax)
      else
        let delta_t := t - t_p1 - t_l in
        (x1 + v1 * t_p1 - 0.5 * a * t_p1 ^ 2 + (- vmax) * t_l
         + (- vmax) * delta_t + 0.5 * a * delta_t ^ 2,
         - vmax + a * delta_t)
  end.

Definition safe_margin : R := 1e-6.

(** ** The data model: nodes, the object store, the planner *)

(** The tree a node belongs to: the strings ['forward'] and ['backward']. *)
Inductive tree_kind : Type := forward | backward.

Definition tree_kind_eqb (a b : tree_kind) : bool :=
  match a, b with
  | forward, forward | backward, backward => true
  | _, _ => false
  end.

Definition other_kind (k : tree_kind) : tree_kind :=
  match k with forward => backward | backward => forward end.

(** A [Node] object.  References to other nodes ([parent], [children]) are
    addresses in the object store; [uuid] only serves the plots and is left
    out.  [state] is the flat array of length [2 * dimension]: positions, then
    velocities. *)
Record Node : Type := mkNode {
  state : list R;
  tree_type : tree_kind;
  parent : option nat;
  segment_time : option R;
  trajectory_info : option (list (R * primitive));
  children : list nat
}.

(** The constructor [Node(state, tree_type, parent, segment_time,
    trajectory_info)]: [children] starts empty. *)
Definition new_Node (s : list R) (k : tree_kind) (p : option nat)
    (st : option R) (ti : option (list (R * primitive))) : Node :=
  mkNode s k p st ti [].

(** The mutable part of a [RampPlanner]: the store of all [Node] objects
    created so far and the two tree lists, which hold addresses.  [self.start]
    and [self.goal] are the first two objects created. *)
Record store : Type := mkStore {
  heap : list Node;
  forward_tree : list nat;
  backward_tree : list nat
}.

Definition start : nat := 0%nat.
Definition goal : nat := 1%nat.

Definition dummy_Node : Node := new_Node [] forward None None None.

Definition deref (h : list Node) (a : nat) : Node := nth a h dummy_Node.

Fixpoint update {A} (l : list A) (i : nat) (f : A -> A) : list A :=
  match l, i with
  | [], _ => []
  | x :: r, O => f x :: r
  | x :: r, S j => x :: update r j f
  end.

Definition set_parent (p : option nat) (nd : Node) : Node :=
  mkNode (state nd) (tree_type nd) p (segment_time nd) (trajectory_info nd) (children nd).
Definition set_tree_type (k : tree_kind) (nd : Node) : Node :=
  mkNode (state nd) k (parent nd) (segment_time nd) (trajectory_info nd) (children nd).
Definition set_segment (t : option R) (ti : option (list (R * primitive))) (nd : Node) : Node :=
  mkNode (state nd) (tree_type nd) (parent nd) t ti (children nd).
Definition set_children (c : list nat) (nd : Node) : Node :=
  mkNode (state nd) (tree_type nd) (parent nd) (segment_time nd) (trajectory_info nd) c.

Definition tree_of (k : tree_kind) (s : store) : list nat :=
  match k with forward => forward_tree s | backward => backward_tree s end.

Definition set_heap (h : list Node) (s : store) : store :=
  mkStore h (forward_tree s) (backward_tree s).
Definition set_tree (k : tree_kind) (t : list nat) (s : store) : store :=
  match k with
  | forward => mkStore (heap s) t (backward_tree s)
  | backward => mkStore (heap s) (forward_tree s) t
  end.

(** Creating an object: it gets the next free address. *)
Definition alloc (nd : Node) (s : store) : nat * store :=
  (length (heap s), set_heap (heap s ++ [nd]) s).

(** [l.remove(x)]: drops the first occurrence, [ValueError] when absent. *)
Fixpoint list_remove (x : nat) (l : list nat) : option (list nat) :=
  match l with
  | [] => None
  | y :: r =>
      if Nat.eqb x y then Some r
      else match list_remove x r with
           | Some r' => Some (y :: r')
           | None => None
           end
  end.

Fixpoint all_some {A} (l : list (option A)) : option (list A) :=
  match l with
  | [] => Some []
  | None :: _ => None
  | Some x :: r =>
      match all_some r with
      | Some r' => Some (x :: r')
      | None => None
      end
  end.

Fixpoint mapM {A B} (f : A -> res B) (l : list A) : res (list B) :=
  match l with
  | [] => Ok []
  | x :: r => y <- f x ;; ys <- mapM f r ;; Ok (y :: ys)
  end.

Fixpoint map2 {A B C} (f : A -> B -> C) (l : list A) (m : list B) : list C :=
  match l, m with
  | x :: l', y :: m' => f x y :: map2 f l' m'
  | _, _ => []
  end.

Fixpoint list_Reqb (l m : list R) : bool :=
  match l, m with
  | [], [] => true
  | x :: l', y :: m' => Reqb x y && list_Reqb l' m'
  | _, _ => false
  end.

(** [int(x)] of a float: truncation towards zero. *)
Definition int_trunc (x : R) : Z :=
  if Rleb 0 x then Int_part x else (- Int_part (- x))%Z.

(** [np.linspace(0, stop, num)]: [num] points [i * stop / (num - 1)]; the
    single point [0] when [num = 1]. *)
Definition linspace (stop : R) (num : nat) : list R :=
  match num with
  | O => []
  | S O => [0]
  | S m => map (fun i => INR i * (stop / INR m)) (seq 0 num)
  end.

(** The construction parameters that never change. *)
Record RampPlanner : Type := mkPlanner {
  max_iters : nat;
  collision_checker : list R -> bool;
  position_limits : list R * list R;
  vmax : list R;
  amax : list R
}.

Definition dimension (self : RampPlanner) : nat := length (vmax self).

(** [init_weights]. *)
Definition weights (self : RampPlanner) : list R :=
  let '(min_pos, max_pos) := position_limits self in
  let position_weights := map2 (fun hi lo => 1 / (hi - lo) ^ 2) max_pos min_pos in
  let velocity_weights := map (fun v => 1 / (v * 2) ^ 2) (vmax self) in
  position_weights ++ velocity_weights.

(** [RampPlanner.__init__]: the two seed nodes are created, the trees are
    empty. *)
Definition init_store (start_state goal_state : list R) : store :=
  mkStore [ new_Node start_state forward None None None;
            new_Node goal_state backward None None None ] [] [].

(** ** The planner's methods *)

Section Planner.

Variable self : RampPlanner.

(** Modelled from the spec: the smoothing routine [FSBAS(...).smooth_path()]
    of [advanced_algos.motion_planning.smoothing], which is not part of the
    sources at hand.  The spec (section 6) gives it as an opaque function from
    the coarse sequence of states, the limits, the collision predicate and an
    iteration count to a refined sequence of states. *)
Variable FSBAS_smooth_path : RampPlanner -> list (list R) -> nat -> list (list R).

(** [state.reshape(2, dimension)[row][dim]]. *)
Definition axis (s : list R) (row dim : nat) : R :=
  nth (row * dimension self + dim) s 0.

Definition _check_state_limits (s : list R) : bool :=
  let '(pos_min, pos_max) := position_limits self in
  forallb (fun '(x, (lo, hi)) => Rleb lo x && Rleb x hi)
          (combine (firstn (dimension self) s) (combine pos_min pos_max)).

(** [_calculate_segment_time].  A [None] among the per-axis times makes
    [np.max(...) + safe_margin] a [TypeError]; [np.max] of no axis at all is a
    [ValueError]. *)
Definition _calculate_segment_time (start_state end_state : list R) : res R :=
  let t_requireds :=
    map (fun dim =>
           TimeOptimal._univariate_time_optimal_interpolants
             (axis start_state 0 dim) (axis end_state 0 dim)
             (axis start_state 1 dim) (axis end_state 1 dim)
             (nth dim (vmax self) 0) (nth dim (amax self) 0))
        (seq 0 (dimension self)) in
  match all_some t_requireds with
  | None => Raise TypeError
  | Some [] => Raise ValueError
  | Some (t :: ts) => Ok (list_max t ts + safe_margin)
  end.

Definition _calculate_segment_trajectory (start_state end_state : list R)
    (segment_time : R) : res (option (list (R * primitive))) :=
  trajectory_data <-
    mapM (fun dim =>
            MinAccel._minimum_acceleration_interpolants
              (axis start_state 0 dim) (axis end_state 0 dim)
              (axis start_state 1 dim) (axis end_state 1 dim)
              (nth dim (vmax self) 0) segment_time (nth dim (amax self) 0))
         (seq 0 (dimension self)) ;;
  Ok (all_some trajectory_data).

Definition _compute_optimal_segment (start_state end_state : list R)
    : res (R * list (R * primitive)) :=
  segment_time <- _calculate_segment_time start_state end_state ;;
  segment_trajectory <-
    _calculate_segment_trajectory start_state end_state segment_time ;;
  match segment_trajectory with
  | None => Raise ValueError
  | Some tr => Ok (segment_time, tr)
  end.

Definition _get_state_in_segment (start_state end_state : list R)
    (segment_time : R) (segment_trajectory : list (R * primitive)) (t : R)
    : list R * list R :=
  let per_dim :=
    map (fun dim =>
           let '(acc, trajectory_type) := nth dim segment_trajectory (0, PpPm) in
           _compute_trajectory_state
             (axis start_state 0 dim) (axis end_state 0 dim)
             (axis start_state 1 dim) (axis end_state 1 dim)
             acc (nth dim (vmax self) 0) segment_time trajectory_type t)
        (seq 0 (dimension self)) in
  (map fst per_dim, map snd per_dim).

(** The loop [for t in times] of [_check_edge_collision]: [False] at the
    first sampled position that the collision checker rejects. *)
Fixpoint check_samples (position_at : R -> list R) (times : list R) : bool :=
  match times with
  | [] => true
  | t :: rest =>
      if negb (collision_checker self (position_at t)) then false
      else check_samples position_at rest
  end.

(** The sample times [np.linspace(0, segment_time, num_samples)] with
    [num_samples = int(segment_time / time_step) + 1]; a negative number of
    samples is a [ValueError] of [np.linspace].  The quotient is the exact
    one: where the exact quotient is a whole number the rounded quotient of
    two floats can fall just below it and give one sample less. *)
Definition sample_times (segment_time time_step : R) : res (list R) :=
  let num_samples := (int_trunc (segment_time / time_step) + 1)%Z in
  if (num_samples <? 0)%Z then Raise ValueError
  else Ok (linspace segment_time (Z.to_nat num_samples)).

(** [_check_edge_collision]; the two nodes are passed by their states. *)
Definition _check_edge_collision (start_state end_state : list R)
    (segment_time : R) (trajectory_info : list (R * primitive)) (time_step : R)
    : res bool :=
  if Reqb segment_time 0 then Ok true
  else
    times <- sample_times segment_time time_step ;;
    Ok (check_samples
          (fun t => fst (_get_state_in_segment start_state end_state
                           segment_time trajectory_info t))
          times).

Definition time_step_default : R := 0.01.

(** The same call on the attributes of a node, which are [None] on a root.
    With [segment_time = None] the test [None == 0] is false and the division
    [None / time_step] is a [TypeError].  With a duration and
    [trajectory_info = None] the call still returns [True] when the duration
    is [0] or no time is sampled; otherwise the first sample indexes [None],
    a [TypeError] (with no axis at all nothing is indexed and the empty
    position is checked). *)
Definition check_edge_of (h : list Node) (start_node end_node : nat) : res bool :=
  match segment_time (deref h end_node) with
  | None => Raise TypeError
  | Some t =>
      match trajectory_info (deref h end_node) with
      | Some ti =>
          _check_edge_collision (state (deref h start_node)) (state (deref h end_node))
                                t ti time_step_default
      | None =>
          if Reqb t 0 then Ok true
          else
            times <- sample_times t time_step_default ;;
            match times with
            | [] => Ok true
            | _ :: _ =>
                if Nat.eqb (dimension self) 0
                then Ok (check_samples (fun _ => []) times)
                else Raise TypeError
            end
      end
  end.

(** [generate_max_braking_trajectory]: [None] stands for the triple
    [(None, None, None)]. *)
Definition generate_max_braking_trajectory (s : list R)
    : res (option (list R * R * list (R * primitive))) :=
  let pos_dim := dimension self in
  let position := firstn pos_dim s in
  let velocity := skipn pos_dim s in
  let acceleration_times := map2 (fun v a => Rabs v / a) velocity (amax self) in
  match acceleration_times with
  | [] => Raise ValueError
  | t0 :: ts =>
      let t_max := list_max t0 ts in
      let per_dim :=
        map2 (fun p v =>
                if Rltb 0 t_max then
                  let a := v / t_max in
                  let delta_p := - 0.5 * a * t_max ^ 2 in
                  (p + delta_p, (Rabs a, PpPm))
                else (p, (0, PpPm)))
             position velocity in
      let initial_position := map fst per_dim in
      let trajectory_info := map snd per_dim in
      let initial_state := initial_position ++ map (fun _ => 0) velocity in
      if negb (_check_state_limits initial_state) then Ok None
      else if negb (collision_checker self initial_state) then Ok None
      else Ok (Some (initial_state, t_max, trajectory_info))
  end.

(** One round of the loop of [seed_trees]: [false] is [return False], [true]
    lets the loop go on. *)
Definition seed_one (tree : tree_kind) (seed_node : nat) (s : store)
    : res (bool * store) :=
  r <- generate_max_braking_trajectory (state (deref (heap s) seed_node)) ;;
  match r with
  | None => Ok (true, s)
  | Some (initial_state, segment_time, trajectory_info) =>
      let '(new_node, s1) := alloc (new_Node initial_state tree None None None) s in
      let s2 := set_tree tree (tree_of tree s1 ++ [new_node]) s1 in
      let s3 :=
        set_heap (update (heap s2) seed_node
                         (set_segment (Some segment_time) (Some trajectory_info))) s2 in
      free <- _check_edge_collision initial_state (state (deref (heap s3) seed_node))
                                    segment_time trajectory_info time_step_default ;;
      Ok (free, s3)
  end.

Definition seed_trees (s : store) : res (bool * store) :=
  r1 <- seed_one forward start s ;;
  if fst r1 then seed_one backward goal (snd r1) else Ok (false, snd r1).

(** [_sample_free_space_state]; [u j] is the unit sample behind component
    [j] of [np.random.uniform(min_pos, max_pos)], which is
    [min_pos + (max_pos - min_pos) * u]. *)
Definition _sample_free_space_state (u : nat -> R) : list R :=
  let pos_dim := dimension self in
  let '(min_pos, max_pos) := position_limits self in
  let random_position :=
    map2 (fun lh j => fst lh + (snd lh - fst lh) * u j)
         (combine min_pos max_pos) (seq 0 (length min_pos)) in
  let zero_velocity := repeat 0 pos_dim in
  random_position ++ zero_velocity.

(** [extend_tree(tree)].  The tree list is named by its kind; [k] and [u] are
    the draws behind [random.choice] and [np.random.uniform]. *)
Definition extend_tree (tree : tree_kind) (k : nat) (u : nat -> R) (s : store)
    : res (option nat * store) :=
  match tree_of tree s with
  | [] => Raise IndexError
  | t0 :: _ =>
      let sampled_node := nth (k mod length (tree_of tree s)) (tree_of tree s) t0 in
      let random_state := _sample_free_space_state u in
      if negb (collision_checker self random_state) then Ok (None, s)
      else
        seg <- _compute_optimal_segment (state (deref (heap s) sampled_node))
                                        random_state ;;
        let nd := new_Node random_state (tree_type (deref (heap s) sampled_node))
                           (Some sampled_node) (Some (fst seg)) (Some (snd seg)) in
        let '(new_node, s1) := alloc nd s in
        let s2 := set_tree tree (tree_of tree s1 ++ [new_node]) s1 in
        let s3 :=
          set_heap (update (heap s2) sampled_node
                           (fun p => set_children (children p ++ [new_node]) p)) s2 in
        Ok (Some new_node, s3)
  end.

(** The rows handed to [KDTree]: a state scaled by [sqrt(weights)]. *)
Definition weighted_state (s : list R) : list R :=
  map2 (fun x w => x * sqrt w) s (weights self).

Definition euclidean (a b : list R) : R :=
  sqrt (fold_right Rplus 0 (map2 (fun x y => (x - y) ^ 2) a b)).

(** [KDTree(data).query(x)] of scipy: the row nearest to [x] and its
    distance.  Ties go to the first row; no theorem depends on that choice. *)
Fixpoint nearest_from (x : list R) (best : R * nat) (i : nat) (data : list (list R))
    : R * nat :=
  match data with
  | [] => best
  | row :: rest =>
      let d := euclidean row x in
      if Rltb d (fst best) then nearest_from x (d, i) (S i) rest
      else nearest_from x best (S i) rest
  end.

Definition kdtree_query (data : list (list R)) (x : list R) : res (R * nat) :=
  match data with
  | [] => Raise ValueError
  | row :: rest => Ok (nearest_from x (euclidean row x, 0%nat) 1%nat rest)
  end.

Definition _find_nearest_node (h : list Node) (tree : list nat) (target_node : nat)
    : res (nat * R) :=
  let tree_states := map (fun a => state (deref h a)) tree in
  q <- kdtree_query (map weighted_state tree_states)
                    (weighted_state (state (deref h target_node))) ;;
  Ok (nth (snd q) tree 0%nat, fst q).

(** The loop of [_trace_path]; [path] grows by [append]. *)
Fixpoint trace_up (fuel : nat) (h : list Node) (current_node : nat) (path : list nat)
    : res (list nat) :=
  match fuel with
  | O => NoFuel
  | S f =>
      let path' := path ++ [current_node] in
      match parent (deref h current_node) with
      | Some p => trace_up f h p path'
      | None => Ok path'
      end
  end.

Definition _trace_path (h : list Node) (node : nat) : res (list nat) :=
  path <- trace_up (S (length h)) h node [] ;;
  Ok (rev path).

Definition epsilon_default : R := 0.1.

Definition connect_trees (h : list Node) (tree : list nat) (node : nat) (epsilon : R)
    : res (option (list nat * list nat)) :=
  nd <- _find_nearest_node h tree node ;;
  if Rltb epsilon (snd nd) then Ok None
  else
    path1 <- _trace_path h (fst nd) ;;
    path2 <- _trace_path h node ;;
    Ok (Some (path1, path2)).

Fixpoint _check_path_collision (h : list Node) (path : list nat)
    : res (option (nat * nat)) :=
  match path with
  | start_node :: rest =>
      match rest with
      | end_node :: _ =>
          free <- check_edge_of h start_node end_node ;;
          if free then _check_path_collision h rest
          else Ok (Some (start_node, end_node))
      | [] => Ok None
      end
  | [] => Ok None
  end.

Definition _connect_paths (h : list Node) (path1 path2 : list nat) : res (list nat) :=
  let k1 := tree_type (deref h (hd 0%nat path1)) in
  let k2 := tree_type (deref h (hd 0%nat path2)) in
  fb <- match k1, k2 with
        | forward, backward => Ok (path1, rev path2)
        | backward, forward => Ok (path2, rev path1)
        | _, _ => Raise ValueError
        end ;;
  let combined_path := fst fb ++ snd fb in
  let combined_path :=
    if negb (list_Reqb (state (deref h start)) (state (deref h (hd 0%nat combined_path))))
    then start :: combined_path else combined_path in
  let combined_path :=
    if negb (list_Reqb (state (deref h goal)) (state (deref h (last combined_path 0%nat))))
    then combined_path ++ [goal] else combined_path in
  Ok combined_path.

(** The two outcomes of [_check_paths_collision]: the 4-tuple around a
    colliding segment, or the connected path (a list). *)
Inductive paths_result : Type :=
| Infeasible (segment_start segment_end bridge_start bridge_end : nat)
| Connected (path : list nat).

Definition _check_paths_collision (h : list Node) (path1 path2 : list nat)
    : res paths_result :=
  let bridge_start := last path1 0%nat in
  let bridge_end := last path2 0%nat in
  r1 <- _check_path_collision h path1 ;;
  match r1 with
  | Some (a, b) => Ok (Infeasible a b bridge_start bridge_end)
  | None =>
      r2 <- _check_path_collision h path2 ;;
      match r2 with
      | Some (a, b) => Ok (Infeasible a b bridge_start bridge_end)
      | None =>
          seg <- _compute_optimal_segment (state (deref h bridge_start))
                                          (state (deref h bridge_end)) ;;
          free <- _check_edge_collision (state (deref h bridge_start))
                                        (state (deref h bridge_end))
                                        (fst seg) (snd seg) time_step_default ;;
          if negb free then Ok (Infeasible bridge_start bridge_end bridge_start bridge_end)
          else
            path <- _connect_paths h path1 path2 ;;
            Ok (Connected path)
      end
  end.

(** The inner loop of [remove_infeasible_edge]: the stack walk that relabels
    a node and everything below it and moves them from [old_tree] to
    [new_tree].  The Python stack grows at its end; here its top is the head
    of the list, so [stack.extend(node.children)] pushes the children in
    reverse.  Every round removes one address from [old_tree], so the length
    of [old_tree] plus one bounds the number of rounds. *)
Fixpoint relabel_subtree (fuel : nat) (new_parent_node : nat)
    (old_tree new_tree : tree_kind) (stack : list nat) (s : store) : res store :=
  match fuel with
  | O => NoFuel
  | S f =>
      match stack with
      | [] => Ok s
      | node :: rest =>
          let h1 := update (heap s) node
                           (set_tree_type (tree_type (deref (heap s) new_parent_node))) in
          match list_remove node (tree_of old_tree s) with
          | None => Raise ValueError
          | Some old' =>
              let s1 := set_tree old_tree old' (set_heap h1 s) in
              let s2 := set_tree new_tree (tree_of new_tree s1 ++ [node]) s1 in
              relabel_subtree f new_parent_node old_tree new_tree
                              (rev (children (deref h1 node)) ++ rest) s2
          end
      end
  end.

(** The outer loop [while current_node is not start_node]. *)
Fixpoint repair_walk (fuel : nat) (start_node : nat) (old_tree new_tree : tree_kind)
    (current_node new_parent_node : nat) (s : store) : res store :=
  match fuel with
  | O => NoFuel
  | S f =>
      if Nat.eqb current_node start_node then Ok s
      else
        match parent (deref (heap s) current_node) with
        | None => Raise AttributeError
        | Some old_parent =>
            let h1 := update (heap s) current_node (set_parent (Some new_parent_node)) in
            match list_remove current_node (children (deref h1 old_parent)) with
            | None => Raise ValueError
            | Some ch =>
                let h2 := update h1 old_parent (set_children ch) in
                let h3 := update h2 new_parent_node
                                 (fun nd => set_children (children nd ++ [current_node]) nd) in
                seg <- _compute_optimal_segment (state (deref h3 new_parent_node))
                                                (state (deref h3 current_node)) ;;
                let h4 := update h3 current_node
                                 (set_segment (Some (fst seg)) (Some (snd seg))) in
                s' <- relabel_subtree (S (length (tree_of old_tree s))) new_parent_node
                                      old_tree new_tree [current_node] (set_heap h4 s) ;;
                repair_walk f start_node old_tree new_tree old_parent current_node s'
            end
        end
  end.

Definition remove_infeasible_edge
    (start_node end_node bridge_start_node bridge_end_node : nat) (s : store)
    : res store :=
  let h := heap s in
  (* Case 1: the edge is a bridge *)
  if negb (tree_kind_eqb (tree_type (deref h start_node)) (tree_type (deref h end_node)))
  then Ok s
  else
    (* Case 2: the edge is internal to a single tree *)
    let old_tree := tree_type (deref h start_node) in
    let new_tree := other_kind old_tree in
    let '(bridge_in_same_tree, bridge_in_other_tree) :=
      if tree_kind_eqb (tree_type (deref h bridge_start_node)) (tree_type (deref h end_node))
      then (bridge_start_node, bridge_end_node)
      else (bridge_end_node, bridge_start_node) in
    repair_walk (S (length (tree_of old_tree s))) start_node old_tree new_tree
                bridge_in_same_tree bridge_in_other_tree s.

(** Linking a freshly built node behind the previous one of a path. *)
Definition link_after (prev_node new_node : nat) (t : option R)
    (ti : option (list (R * primitive))) (s : store) : store :=
  let h1 := update (heap s) new_node
                   (fun nd => set_parent (Some prev_node) (set_segment t ti nd)) in
  let h2 := update h1 prev_node
                   (fun nd => set_children (children nd ++ [new_node]) nd) in
  set_heap h2 s.

Fixpoint reconstruct_loop (path : list nat) (reconstructed_path : list nat) (s : store)
    : res (list nat * store) :=
  match path with
  | [] => Ok (reconstructed_path, s)
  | node :: rest =>
      let src := deref (heap s) node in
      let '(new_node, s1) := alloc (new_Node (state src) forward None None None) s in
      s2 <- match reconstructed_path with
            | [] => Ok s1
            | _ :: _ =>
                let prev_node := last reconstructed_path 0%nat in
                if tree_kind_eqb (tree_type src) forward then
                  Ok (link_after prev_node new_node (segment_time src)
                                 (trajectory_info src) s1)
                else
                  seg <- _compute_optimal_segment (state (deref (heap s1) prev_node))
                                                  (state src) ;;
                  Ok (link_after prev_node new_node (Some (fst seg)) (Some (snd seg)) s1)
            end ;;
      reconstruct_loop rest (reconstructed_path ++ [new_node]) s2
  end.

Definition reconstruct_path (path : list nat) (s : store) : res (list nat * store) :=
  reconstruct_loop path [] s.

Fixpoint construct_loop (smoothed_path : list (list R)) (constructed_path : list nat)
    (s : store) : res (list nat * store) :=
  match smoothed_path with
  | [] => Ok (constructed_path, s)
  | st :: rest =>
      let '(new_node, s1) := alloc (new_Node st forward None None None) s in
      s2 <- match constructed_path with
            | [] => Ok s1
            | _ :: _ =>
                let prev_node := last constructed_path 0%nat in
                seg <- _compute_optimal_segment (state (deref (heap s1) prev_node)) st ;;
                Ok (link_after prev_node new_node (Some (fst seg)) (Some (snd seg)) s1)
            end ;;
      construct_loop rest (constructed_path ++ [new_node]) s2
  end.

Definition _construct_path (smoothed_path : list (list R)) (s : store)
    : res (list nat * store) :=
  construct_loop smoothed_path [] s.

Definition smooth_path (path : list nat) (max_iterations : nat) (s : store)
    : res (list nat * store) :=
  let path_state := map (fun a => state (deref (heap s) a)) path in
  let smoothed_path := FSBAS_smooth_path self path_state max_iterations in
  _construct_path smoothed_path s.

(** The draws of the random generators: round [i] of the main loop uses
    [fst (rnd i)] for [random.choice] and [snd (rnd i)] for
    [np.random.uniform]. *)
Variable rnd : nat -> nat * (nat -> R).

(** One round of the main loop of [plan]: the loop goes on with a new store,
    or [plan] returns a path. *)
Inductive step_result : Type :=
| Continue (s : store)
| Return (path : list (list R)).

Definition iteration (smooth_iterations : nat) (i : nat) (s : store) : res step_result :=
  let current_tree := if Nat.even i then forward else backward in
  let other_tree := other_kind current_tree in
  r <- extend_tree current_tree (fst (rnd i)) (snd (rnd i)) s ;;
  match fst r with
  | None => Ok (Continue (snd r))
  | Some extended_node =>
      let s1 := snd r in
      paths <- connect_trees (heap s1) (tree_of other_tree s1) extended_node
                             epsilon_default ;;
      match paths with
      | None => Ok (Continue s1)
      | Some (path1, path2) =>
          result <- _check_paths_collision (heap s1) path1 path2 ;;
          match result with
          | Connected path =>
              rp <- reconstruct_path path s1 ;;
              sp <- smooth_path (fst rp) smooth_iterations (snd rp) ;;
              Ok (Return (map (fun a => state (deref (heap (snd sp)) a)) (fst sp)))
          | Infeasible a b bs be =>
              s2 <- remove_infeasible_edge a b bs be s1 ;;
              Ok (Continue s2)
          end
      end
  end.

(** [for i in range(self.max_iters)], from round [i] with [n] rounds left. *)
Fixpoint plan_loop (smooth_iterations : nat) (n i : nat) (s : store)
    : res (option (list (list R))) :=
  match n with
  | O => Ok None
  | S m =>
      r <- iteration smooth_iterations i s ;;
      match r with
      | Continue s' => plan_loop smooth_iterations m (S i) s'
      | Return path => Ok (Some path)
      end
  end.

(** [plan] (without the plots): [Ok None] is the no-path signal. *)
Definition plan (smooth_iterations : nat) (s : store) : res (option (list (list R))) :=
  sd <- seed_trees s ;;
  if negb (fst sd) then Ok None
  else plan_loop smooth_iterations (max_iters self) 0 (snd sd).

(** The store after the first [k] rounds from round [i], when none of them
    returned or raised. *)
Fixpoint rounds (smooth_iterations : nat) (k i : nat) (s : store) : res step_result :=
  match k with
  | O => Ok (Continue s)
  | S m =>
      r <- iteration smooth_iterations i s ;;
      match r with
      | Continue s' => rounds smooth_iterations m (S i) s'
      | Return path => Ok (Return path)
      end
  end.

End Planner.


Open Scope nat_scope.

(** ** The forest invariant *)

Definition in_trees (s : store) (a : nat) : Prop :=
  In a (forward_tree s) \/ In a (backward_tree s).

Definition par (s : store) (a : nat) : option nat := parent (deref (heap s) a).

(** A state of [n] positions followed by [n] zero velocities. *)
Definition zero_velocity (n : nat) (st : list R) : Prop :=
  length st = 2 * n /\ skipn n st = repeat 0%R n.

(** [iter_parent s m a]: the node reached from [a] by [m] parent links. *)
Fixpoint iter_parent (s : store) (m : nat) (a : nat) : option nat :=
  match m with
  | O => Some a
  | S m' =>
      match par s a with
      | Some p => iter_parent s m' p
      | None => None
      end
  end.

Record forest_inv (n : nat) (s : store) : Prop := {
  inv_nodup : forall k, NoDup (tree_of k s);
  inv_disjoint : forall a, In a (forward_tree s) -> In a (backward_tree s) -> False;
  inv_bound : forall a, in_trees s a -> 2 <= a < length (heap s);
  inv_kind : forall k a, In a (tree_of k s) -> tree_type (deref (heap s) a) = k;
  inv_state : forall a, in_trees s a -> zero_velocity n (state (deref (heap s) a));
  inv_root_parent : forall k r, hd_error (tree_of k s) = Some r -> par s r = None;
  inv_root_only :
    forall k a, In a (tree_of k s) -> par s a = None -> hd_error (tree_of k s) = Some a;
  inv_parent :
    forall k a p, In a (tree_of k s) -> par s a = Some p -> In p (tree_of k s);
  inv_children :
    forall p c, in_trees s p ->
      (In c (children (deref (heap s) p)) <-> in_trees s c /\ par s c = Some p);
  inv_children_nodup : forall p, in_trees s p -> NoDup (children (deref (heap s) p));
  inv_rank :
    exists depth : nat -> nat,
      forall a p, in_trees s a -> par s a = Some p -> depth p < depth a
}.

(** ** The invariants of the repair's stack walk *)

(** The store when the stack walk starts: the invariant, except that [c]
    already hangs below [p'], a node of the other tree. *)
Record regraft_pre (n : nat) (old : tree_kind) (c p' : nat) (depth : nat -> nat)
    (s0 : store) : Prop := {
  pre_nodup : forall k, NoDup (tree_of k s0);
  pre_disjoint : forall a, In a (forward_tree s0) -> In a (backward_tree s0) -> False;
  pre_bound : forall a, in_trees s0 a -> 2 <= a < length (heap s0);
  pre_kind : forall k a, In a (tree_of k s0) -> tree_type (deref (heap s0) a) = k;
  pre_state : forall a, in_trees s0 a -> zero_velocity n (state (deref (heap s0) a));
  pre_root_parent : forall k r, hd_error (tree_of k s0) = Some r -> par s0 r = None;
  pre_root_only :
    forall k a, In a (tree_of k s0) -> par s0 a = None -> hd_error (tree_of k s0) = Some a;
  pre_parent :
    forall k a p, In a (tree_of k s0) -> a <> c -> par s0 a = Some p -> In p (tree_of k s0);
  pre_c_old : In c (tree_of old s0);
  pre_c_par : par s0 c = Some p';
  pre_p_new : In p' (tree_of (other_kind old) s0);
  pre_children :
    forall p a, in_trees s0 p ->
      (In a (children (deref (heap s0) p)) <-> in_trees s0 a /\ par s0 a = Some p);
  pre_children_nodup : forall p, in_trees s0 p -> NoDup (children (deref (heap s0) p));
  pre_rank :
    forall a p, in_trees s0 a -> a <> c -> par s0 a = Some p -> depth p < depth a
}.

(** The store during the walk: [V] lists the nodes relabelled so far, in the
    order of their visit. *)
Record walk_inv (old : tree_kind) (c : nat) (depth : nat -> nat) (s0 : store)
    (stack : list nat) (s : store) (V : list nat) : Prop := {
  w_len : length (heap s) = length (heap s0);
  w_links :
    forall a, parent (deref (heap s) a) = parent (deref (heap s0) a) /\
              children (deref (heap s) a) = children (deref (heap s0) a) /\
              state (deref (heap s) a) = state (deref (heap s0) a) /\
              segment_time (deref (heap s) a) = segment_time (deref (heap s0) a) /\
              trajectory_info (deref (heap s) a) = trajectory_info (deref (heap s0) a);
  w_type_in : forall a, In a V -> tree_type (deref (heap s) a) = other_kind old;
  w_type_out :
    forall a, ~ In a V -> tree_type (deref (heap s) a) = tree_type (deref (heap s0) a);
  w_new : tree_of (other_kind old) s = tree_of (other_kind old) s0 ++ V;
  w_old_nodup : NoDup (tree_of old s);
  w_old : forall a, In a (tree_of old s) <-> In a (tree_of old s0) /\ ~ In a V;
  w_old_hd : hd_error (tree_of old s) = hd_error (tree_of old s0);
  w_V_nodup : NoDup V;
  w_V_old : forall a, In a V -> In a (tree_of old s0);
  w_stack_nodup : NoDup stack;
  w_stack_old : forall a, In a stack -> In a (tree_of old s);
  w_c : In c V \/ In c stack;
  w_up :
    forall v, In v V \/ In v stack ->
      v = c \/ exists q, In q V /\ par s0 v = Some q;
  w_down :
    forall v z, In v V -> in_trees s0 z -> par s0 z = Some v -> In z V \/ In z stack;
  w_depth : forall v, In v V \/ In v stack -> depth c <= depth v
}.

(** The heap after the four assignments that precede the stack walk. *)
Definition regraft_heap (h : list Node) (c op p' : nat) (ch : list nat)
    (seg : R * list (R * primitive)) : list Node :=
  let h1 := update h c (set_parent (Some p')) in
  let h2 := update h1 op (set_children ch) in
  let h3 := update h2 p' (fun nd => set_children (children nd ++ [c]) nd) in
  update h3 c (set_segment (Some (fst seg)) (Some (snd seg))).


(** The shapes the constructor of [RampPlanner] expects. *)
Definition well_formed (self : RampPlanner) (start_state goal_state : list R) : Prop :=
  length (fst (position_limits self)) = dimension self /\
  length (snd (position_limits self)) = dimension self /\
  length start_state = 2 * dimension self /\
  length goal_state = 2 * dimension self.


(** [remove_infeasible_edge] is called on the 4-tuple of
    [_check_paths_collision], whose two bridge nodes are the tips of the two
    traced paths: one node of each tree. *)
Inductive reachable (self : RampPlanner) (start_state goal_state : list R)
    : store -> Prop :=
| reach_seed b s :
    seed_trees self (init_store start_state goal_state) = Ok (b, s) ->
    reachable self start_state goal_state s
| reach_extend tree k u s r s' :
    reachable self start_state goal_state s ->
    extend_tree self tree k u s = Ok (r, s') ->
    reachable self start_state goal_state s'
| reach_repair a b bs be s s' :
    reachable self start_state goal_state s ->
    in_trees s bs -> in_trees s be ->
    tree_type (deref (heap s) bs) <> tree_type (deref (heap s) be) ->
    remove_infeasible_edge self a b bs be s = Ok s' ->
    reachable self start_state goal_state s'.


Open Scope R_scope.

(** ** Auxiliary notions for the proofs about the solver *)

(** The class with all signs reversed. *)
Definition mirror (p : primitive) : primitive :=
  match p with
  | PpPm => PmPp
  | PmPp => PpPm
  | PpLpPm => PmLmPp
  | PmLmPp => PpLpPm
  end.

Definition mirror_candidate (c : option (accel * primitive)) : option (accel * primitive) :=
  match c with
  | Some (a, p) => Some (a, mirror p)
  | None => None
  end.


(** The tail of [_minimum_acceleration_interpolants], from the list of valid
    results on. *)
Definition select_min (l : list (accel * primitive)) (amax : R)
    : res (option (R * primitive)) :=
  match l with
  | [] => Raise ValueError
  | r :: rs =>
      let '(a_min, selected_primitive) :=
        min_by_key (fun p q => accel_ltb (fst p) (fst q)) r rs in
      if accel_leb a_min (amax + a_margin) then
        match a_min with
        | Fin a => Ok (Some (clip a 0 amax, selected_primitive))
        | _ => Ok None
        end
      else Ok None
  end.


(** The time-optimal duration between two states at rest, in terms of the
    distance [d = |x2 - x1| > 0]. *)
Definition rest_time (vmax amax d Ts : R) : Prop :=
  0 < Ts /\
  ((amax * Ts ^ 2 = 4 * d /\ amax * Ts <= 2 * vmax) \/
   (vmax * amax * Ts = vmax ^ 2 + amax * d /\ vmax ^ 2 <= amax * d)).


(** The two candidates that can be valid between two states at rest, for the
    distance [d]: the bang-bang one of acceleration [4 d / T^2] and the cruise
    one of acceleration [vmax^2 / (T vmax - d)]. *)
Definition rest_bang (vmax T d : R) (tag : primitive) (c : option (accel * primitive)) : Prop :=
  (2 * d <= vmax * T ->
   exists a, c = Some (Fin a, tag) /\ 0 < a /\ a * T ^ 2 = 4 * d) /\
  (vmax * T < 2 * d -> c = None).

Definition rest_cruise (vmax T d : R) (tag : primitive) (c : option (accel * primitive)) : Prop :=
  (d < T * vmax -> T * vmax <= 2 * d ->
   exists a, c = Some (Fin a, tag) /\ 0 < a /\ a * (T * vmax - d) = vmax ^ 2) /\
  (T * vmax = d -> c = Some (Inf, tag)) /\
  (T * vmax < d \/ 2 * d < T * vmax -> c = None).


(** ** The phases of a primitive *)

(** The times at which [_compute_trajectory_state] changes branch, in the
    order of its tests. *)
Definition switch_times (v1 v2 a vmax T : R) (tag : primitive) : list R :=
  match tag with
  | PpPm => [0.5 * (T + (v2 - v1) / a)]
  | PmPp => [0.5 * (T + (v1 - v2) / a)]
  | PpLpPm =>
      let t_p1 := (vmax - v1) / a in
      let t_p2 := (vmax - v2) / a in
      let t_l := T - t_p1 - t_p2 in
      [t_p1; t_p1 + t_l]
  | PmLmPp =>
      let t_p1 := (vmax + v1) / a in
      let t_p2 := (vmax + v2) / a in
      let t_l := T - t_p1 - t_p2 in
      [t_p1; t_p1 + t_l]
  end.

(** The branch taken at time [t]: the first test [t <= b] that holds. *)
Fixpoint phase_index (bounds : list R) (t : R) : nat :=
  match bounds with
  | [] => O
  | b :: rest => if Rleb t b then O else S (phase_index rest t)
  end.

(** The closed form of branch [k], read at any time [t]. *)
Definition phase_form (x1 v1 v2 a vmax T : R) (tag : primitive) (k : nat) (t : R)
    : R * R :=
  match tag, k with
  | PpPm, O => (x1 + v1 * t + 0.5 * a * t ^ 2, v1 + a * t)
  | PpPm, S _ =>
      let t_s := 0.5 * (T + (v2 - v1) / a) in
      let delta_t := t - t_s in
      let v_peak := v1 + a * t_s in
      (x1 + v1 * t_s + 0.5 * a * t_s ^ 2 + v_peak * delta_t - 0.5 * a * delta_t ^ 2,
       v_peak - a * delta_t)
  | PmPp, O => (x1 + v1 * t - 0.5 * a * t ^ 2, v1 - a * t)
  | PmPp, S _ =>
      let t_s := 0.5 * (T + (v1 - v2) / a) in
      let delta_t := t - t_s in
      let v_valley := v1 - a * t_s in
      (x1 + v1 * t_s - 0.5 * a * t_s ^ 2 + v_valley * delta_t + 0.5 * a * delta_t ^ 2,
       v_valley + a * delta_t)
  | PpLpPm, O => (x1 + v1 * t + 0.5 * a * t ^ 2, v1 + a * t)
  | PpLpPm, S O =>
      let t_p1 := (vmax - v1) / a in
      let delta_t := t - t_p1 in
      (x1 + v1 * t_p1 + 0.5 * a * t_p1 ^ 2 + vmax * delta_t, vmax)
  | PpLpPm, S (S _) =>
      let t_p1 := (vmax - v1) / a in
      let t_p2 := (vmax - v2) / a in
      let t_l := T - t_p1 - t_p2 in
      let delta_t := t - t_p1 - t_l in
      (x1 + v1 * t_p1 + 0.5 * a * t_p1 ^ 2 + vmax * t_l
       + vmax * delta_t - 0.5 * a * delta_t ^ 2,
       vmax - a * delta_t)
  | PmLmPp, O => (x1 + v1 * t - 0.5 * a * t ^ 2, v1 - a * t)
  | PmLmPp, S O =>
      let t_p1 := (vmax + v1) / a in
      let delta_t := t - t_p1 in
      (x1 + v1 * t_p1 - 0.5 * a * t_p1 ^ 2 + (- vmax) * delta_t, - vmax)
  | PmLmPp, S (S _) =>
      let t_p1 := (vmax + v1) / a in
      let t_p2 := (vmax + v2) / a in
      let t_l := T - t_p1 - t_p2 in
      let delta_t := t - t_p1 - t_l in
      (x1 + v1 * t_p1 - 0.5 * a * t_p1 ^ 2 + (- vmax) * t_l
       + (- vmax) * delta_t + 0.5 * a * delta_t ^ 2,
       - vmax + a * delta_t)
  end.

(** The switch of a bang-bang primitive lies within the duration (the margin
    [t_margin] of the solver is not used). *)
Definition switch_within (v1 v2 a T : R) (tag : primitive) : Prop :=
  match tag with
  | PpPm => 0.5 * (T + (v2 - v1) / a) <= T
  | PmPp => 0.5 * (T + (v1 - v2) / a) <= T
  | _ => True
  end.

(** ** A planner on a line *)

(** One axis, positions in [[0, 10]], [vmax = amax = 1], no obstacle. *)
Definition line_planner (iters : nat) : RampPlanner :=
  mkPlanner iters (fun _ => true) ([0], [10]) [1] [1].

(** The store of [line_planner] after seeding from rest at [x1] towards rest
    at [x2]: each tree holds its root. *)
Definition line_seeded (x1 x2 : R) : store :=
  mkStore
    [ mkNode [x1; 0] forward None (Some 0) (Some [(0, PpPm)]) [];
      mkNode [x2; 0] backward None (Some 0) (Some [(0, PpPm)]) [];
      new_Node [x1; 0] forward None None None;
      new_Node [x2; 0] backward None None None ]
    [2%nat] [3%nat].

(** The store of [line_planner] after seeding from [(0, 3)] towards rest at
    [10]: the forward tree is empty. *)
Definition line_half_seeded : store :=
  mkStore
    [ new_Node [0; 3] forward None None None;
      mkNode [10; 0] backward None (Some 0) (Some [(0, PpPm)]) [];
      new_Node [10; 0] backward None None None ]
    [] [2%nat].

(** ** A planner on a strip whose second axis is pinned *)

(** Two axes, the first in [[0, 10]], the second pinned at [0];
    [vmax = amax = 1] on both; no obstacle. *)
Definition strip_planner (iters : nat) : RampPlanner :=
  mkPlanner iters (fun _ => true) ([0; 0], [10; 0]) [1; 1] [1; 1].

(** The store of [strip_planner] after seeding from rest at [(0, 0)] towards
    rest at [(10, 0)]. *)
Definition strip_seeded : store :=
  mkStore
    [ mkNode [0; 0; 0; 0] forward None (Some 0) (Some [(0, PpPm); (0, PpPm)]) [];
      mkNode [10; 0; 0; 0] backward None (Some 0) (Some [(0, PpPm); (0, PpPm)]) [];
      new_Node [0; 0; 0; 0] forward None None None;
      new_Node [10; 0; 0; 0] backward None None None ]
    [2%nat] [3%nat].

(** ** The two bridge nodes of a repair *)

(** The pair [(bridge_in_same_tree, bridge_in_other_tree)] of
    [remove_infeasible_edge]. *)
Definition bridge_sides (s : store) (end_node bridge_start_node bridge_end_node : nat)
    : nat * nat :=
  if tree_kind_eqb (tree_type (deref (heap s) bridge_start_node))
                   (tree_type (deref (heap s) end_node))
  then (bridge_start_node, bridge_end_node)
  else (bridge_end_node, bridge_start_node).

(** The forward tree [2 -> 4 -> 5] at positions [0], [1], [2]; the backward
    tree is its root [3] at position [10]. *)
Definition line_chain (seg4 seg5 : R * list (R * primitive)) : store :=
  mkStore
    [ mkNode [0; 0] forward None (Some 0) (Some [(0, PpPm)]) [];
      mkNode [10; 0] backward None (Some 0) (Some [(0, PpPm)]) [];
      mkNode [0; 0] forward None None None [4%nat];
      new_Node [10; 0] backward None None None;
      mkNode [1; 0] forward (Some 2%nat) (Some (fst seg4)) (Some (snd seg4)) [5%nat];
      mkNode [2; 0] forward (Some 4%nat) (Some (fst seg5)) (Some (snd seg5)) [] ]
    [2%nat; 4%nat; 5%nat] [3%nat].

(** [line_chain] after the repair of the edge [(4, 5)] with the bridge
    [(3, 5)]: node [5] hangs below [3]. *)
Definition line_repaired (seg4 seg : R * list (R * primitive)) : store :=
  mkStore
    [ mkNode [0; 0] forward None (Some 0) (Some [(0, PpPm)]) [];
      mkNode [10; 0] backward None (Some 0) (Some [(0, PpPm)]) [];
      mkNode [0; 0] forward None None None [4%nat];
      mkNode [10; 0] backward None None None [5%nat];
      mkNode [1; 0] forward (Some 2%nat) (Some (fst seg4)) (Some (snd seg4)) [];
      mkNode [2; 0] backward (Some 3%nat) (Some (fst seg)) (Some (snd seg)) [] ]
    [2%nat; 4%nat] [3%nat; 5%nat].

(** ** A wall on the line *)


(** ** A moving start *)

(** The line planner seeded from a moving start, [(5, 1)], towards rest at
    [10], after two extensions and the repair of the edge [(4, 5)]: the
    forward root is the braking state [(4.5, 0)]. *)
Definition moving_repaired (seg4 seg : R * list (R * primitive)) : store :=
  mkStore
    [ mkNode [5; 1] forward None (Some 1) (Some [(1, PpPm)]) [];
      mkNode [10; 0] backward None (Some 0) (Some [(0, PpPm)]) [];
      mkNode [9 / 2; 0] forward None None None [4%nat];
      mkNode [10; 0] backward None None None [5%nat];
      mkNode [1; 0] forward (Some 2%nat) (Some (fst seg4)) (Some (snd seg4)) [];
      mkNode [2; 0] backward (Some 3%nat) (Some (fst seg)) (Some (snd seg)) [] ]
    [2%nat; 4%nat] [3%nat; 5%nat].

(** * Proofs *)

(** ** Deciding comparisons on given numbers *)

Lemma Rleb_true x y : Rleb x y = true <-> x <= y.
Proof. unfold Rleb; destruct (Rle_dec x y); split; intros; try easy; lra. Qed.

Lemma Rleb_false x y : Rleb x y = false <-> y < x.
Proof. unfold Rleb; destruct (Rle_dec x y); split; intros; try easy; lra. Qed.

Lemma Rltb_true x y : Rltb x y = true <-> x < y.
Proof. unfold Rltb; destruct (Rlt_dec x y); split; intros; try easy; lra. Qed.

Lemma Rltb_false x y : Rltb x y = false <-> y <= x.
Proof. unfold Rltb; destruct (Rlt_dec x y); split; intros; try easy; lra. Qed.

Lemma Reqb_true x y : Reqb x y = true <-> x = y.
Proof. unfold Reqb; destruct (Req_dec_T x y); split; intros; try easy. Qed.

Lemma Reqb_false x y : Reqb x y = false <-> x <> y.
Proof. unfold Reqb; destruct (Req_dec_T x y); split; intros; try easy. Qed.


Lemma solve_quadratic_roots a b c :
  0 <= b ^ 2 - 4 * a * c ->
  solve_quadratic a b c =
    [ (- b + sqrt (b ^ 2 - 4 * a * c)) / (2 * a);
      (- b - sqrt (b ^ 2 - 4 * a * c)) / (2 * a) ].
Proof.
  intros H. unfold solve_quadratic.
  rewrite (proj2 (Rltb_false _ _)) by lra. reflexivity.
Qed.

Lemma solve_quadratic_none a b c :
  b ^ 2 - 4 * a * c < 0 -> solve_quadratic a b c = [].
Proof.
  intros H. unfold solve_quadratic.
  rewrite (proj2 (Rltb_true _ _)) by lra. reflexivity.
Qed.

(** One comparison, [Rmax], [Rmin] or [Rabs] of the goal is settled by [tac]. *)
Ltac rstep tac :=
  match goal with
  | |- context [Rmax ?a ?b] =>
      first [ rewrite (Rmax_left a b) by tac | rewrite (Rmax_right a b) by tac ]
  | |- context [Rmin ?a ?b] =>
      first [ rewrite (Rmin_left a b) by tac | rewrite (Rmin_right a b) by tac ]
  | |- context [Rabs ?a] =>
      first [ rewrite (Rabs_pos_eq a) by tac | rewrite (Rabs_left a) by tac ]
  | |- context [Rleb ?a ?b] =>
      first [ rewrite (proj2 (Rleb_true a b)) by tac
            | rewrite (proj2 (Rleb_false a b)) by tac ]
  | |- context [Rltb ?a ?b] =>
      first [ rewrite (proj2 (Rltb_true a b)) by tac
            | rewrite (proj2 (Rltb_false a b)) by tac ]
  | |- context [Reqb ?a ?b] =>
      first [ rewrite (proj2 (Reqb_true a b)) by tac
            | rewrite (proj2 (Reqb_false a b)) by tac ]
  end.

Ltac rsimpl tac := repeat (rstep tac; cbn [filter andb orb negb]).

(** The square root in the goal becomes a variable [s] with [0 <= s] and
    [s * s] known. *)
Ltac name_sqrt s :=
  match goal with
  | |- context [sqrt ?e] =>
      let H := fresh "Hs" in
      assert (H : 0 <= e) by nra;
      pose proof (sqrt_sqrt e H); pose proof (sqrt_pos e);
      set (s := sqrt e) in *; clearbody s
  end.

(** ** The 1-D scenario: [vmax = 2], [amax = 1], from rest at 0 to rest at 5 *)

Lemma scenario_p_plus_p_minus :
  TimeOptimal.compute_p_plus_p_minus 0 5 0 0 2 1 = None.
Proof.
  unfold TimeOptimal.compute_p_plus_p_minus.
  rewrite solve_quadratic_roots by lra.
  name_sqrt s. cbn [filter]. rsimpl nra. reflexivity.
Qed.

Lemma scenario_p_minus_p_plus :
  TimeOptimal.compute_p_minus_p_plus 0 5 0 0 2 1 = None.
Proof.
  unfold TimeOptimal.compute_p_minus_p_plus.
  rewrite solve_quadratic_none by lra. reflexivity.
Qed.

Lemma scenario_p_plus_l_plus_p_minus :
  TimeOptimal.compute_p_plus_l_plus_p_minus 0 5 0 0 2 1 = Some 4.5.
Proof.
  unfold TimeOptimal.compute_p_plus_l_plus_p_minus.
  rsimpl lra. f_equal. lra.
Qed.

Lemma scenario_p_minus_l_plus_p_plus :
  TimeOptimal.compute_p_minus_l_plus_p_plus 0 5 0 0 2 1 = None.
Proof.
  unfold TimeOptimal.compute_p_minus_l_plus_p_plus.
  rsimpl lra. reflexivity.
Qed.

Lemma scenario_min_accel :
  MinAccel._minimum_acceleration_interpolants 0 5 0 0 2 (4.5 + safe_margin) 1
  = Ok (Some (4 / (2 * (4.5 + safe_margin) - 5), PpLpPm)).
Proof.
  unfold safe_margin.
  replace (4.5 + 1e-6) with (4500001 / 1000000) by lra.
  assert (H1 : MinAccel.compute_p_plus_p_minus 0 5 0 0 2 (4500001 / 1000000) = None).
  { unfold MinAccel.compute_p_plus_p_minus.
    rewrite solve_quadratic_roots by lra.
    match goal with |- context [sqrt ?e] => replace (sqrt e) with 20 end.
    2:{ symmetry. apply sqrt_lem_1; lra. }
    cbn [filter]. unfold t_margin. rsimpl lra. reflexivity. }
  assert (H2 : MinAccel.compute_p_minus_p_plus 0 5 0 0 2 (4500001 / 1000000) = None).
  { unfold MinAccel.compute_p_minus_p_plus.
    rewrite solve_quadratic_roots by lra.
    match goal with |- context [sqrt ?e] => replace (sqrt e) with 20 end.
    2:{ symmetry. apply sqrt_lem_1; lra. }
    cbn [filter]. rsimpl lra. reflexivity. }
  assert (H3 : MinAccel.compute_p_plus_l_plus_p_minus 0 5 0 0 2 (4500001 / 1000000)
               = Some (Fin (4 / (2 * (4500001 / 1000000) - 5)), PpLpPm)).
  { unfold MinAccel.compute_p_plus_l_plus_p_minus, MinAccel.cruise_candidate.
    rsimpl lra. do 2 f_equal. f_equal. lra. }
  assert (H4 : MinAccel.compute_p_minus_l_minus_p_plus 0 5 0 0 2 (4500001 / 1000000) = None).
  { unfold MinAccel.compute_p_minus_l_minus_p_plus, MinAccel.cruise_candidate.
    rsimpl lra. reflexivity. }
  unfold MinAccel._minimum_acceleration_interpolants, MinAccel.selected,
    MinAccel.valid_results.
  rewrite H1, H2, H3, H4. cbn. unfold a_margin, clip.
  rsimpl lra. reflexivity.
Qed.

(** C8.  With [vmax = 2], [amax = 1], from [(x, v) = (0, 0)] to [(5, 0)]: of
    the four classes only P+L+P- gives a duration, 4.5 s, which is the
    solver's answer; on that primitive (acceleration [amax = 1]) the state is
    [(2, vmax)] after 2 s, the cruise ends at 2.5 s, and the state at
    [T = 4.5] is [(5, 0)]; the segment the planner builds, at
    [T = 4.5 + safe_margin], is again of class P+L+P- and ends in [(5, 0)]. *)
Theorem scenario_1d_rest_to_rest :
  TimeOptimal.compute_p_plus_p_minus 0 5 0 0 2 1 = None /\
  TimeOptimal.compute_p_minus_p_plus 0 5 0 0 2 1 = None /\
  TimeOptimal.compute_p_plus_l_plus_p_minus 0 5 0 0 2 1 = Some 4.5 /\
  TimeOptimal.compute_p_minus_l_plus_p_plus 0 5 0 0 2 1 = None /\
  TimeOptimal._univariate_time_optimal_interpolants 0 5 0 0 2 1 = Some 4.5 /\
  _compute_trajectory_state 0 5 0 0 1 2 4.5 PpLpPm 2 = (2, 2) /\
  _compute_trajectory_state 0 5 0 0 1 2 4.5 PpLpPm 2.5 = (3, 2) /\
  _compute_trajectory_state 0 5 0 0 1 2 4.5 PpLpPm 4.5 = (5, 0) /\
  exists a,
    MinAccel._minimum_acceleration_interpolants 0 5 0 0 2 (4.5 + safe_margin) 1
    = Ok (Some (a, PpLpPm)) /\
    _compute_trajectory_state 0 5 0 0 a 2 (4.5 + safe_margin) PpLpPm
                              (4.5 + safe_margin) = (5, 0).
Proof.
  repeat split.
  - apply scenario_p_plus_p_minus.
  - apply scenario_p_minus_p_plus.
  - apply scenario_p_plus_l_plus_p_minus.
  - apply scenario_p_minus_l_plus_p_plus.
  - unfold TimeOptimal._univariate_time_optimal_interpolants, TimeOptimal.times.
    rewrite scenario_p_plus_p_minus, scenario_p_minus_p_plus,
      scenario_p_plus_l_plus_p_minus, scenario_p_minus_l_plus_p_plus.
    reflexivity.
  - unfold _compute_trajectory_state. rsimpl lra. f_equal; lra.
  - unfold _compute_trajectory_state. rsimpl lra. f_equal; lra.
  - unfold _compute_trajectory_state. rsimpl lra. f_equal; lra.
  - exists (4 / (2 * (4.5 + safe_margin) - 5)). split.
    + apply scenario_min_accel.
    + unfold safe_margin.
      replace (4 / (2 * (4.5 + 1e-6) - 5)) with (2000000 / 2000001) by lra.
      replace (4.5 + 1e-6) with (4500001 / 1000000) by lra.
      unfold _compute_trajectory_state. rsimpl lra. f_equal; lra.
Qed.

Open Scope nat_scope.

(** ** Lists, the store *)

Lemma update_length {A} (l : list A) i f : length (update l i f) = length l.
Proof.
  revert i; induction l as [|x r IH]; intros [|j]; cbn; auto.
Qed.

Lemma deref_update_same h a f :
  a < length h -> deref (update h a f) a = f (deref h a).
Proof.
  unfold deref. revert a; induction h as [|x r IH]; intros [|j] H; cbn in *; try lia; auto.
  apply IH. lia.
Qed.

Lemma deref_update_other h a b f :
  a <> b -> deref (update h a f) b = deref h b.
Proof.
  unfold deref. revert a b; induction h as [|x r IH]; intros [|j] [|k] H; cbn; auto; try lia.
Qed.

Lemma deref_app_old h nd a : a < length h -> deref (h ++ [nd]) a = deref h a.
Proof. intros H. unfold deref. apply app_nth1. assumption. Qed.

Lemma deref_app_new h nd : deref (h ++ [nd]) (length h) = nd.
Proof. unfold deref. rewrite app_nth2 by lia. rewrite Nat.sub_diag. reflexivity. Qed.

Lemma list_remove_In x l l' :
  list_remove x l = Some l' -> In x l.
Proof.
  revert l'; induction l as [|y r IH]; cbn; intros l' H; [discriminate|].
  destruct (Nat.eqb_spec x y); [left; congruence|].
  destruct (list_remove x r); [|discriminate]. right. eapply IH. reflexivity.
Qed.

Lemma list_remove_some x l : In x l -> exists l', list_remove x l = Some l'.
Proof.
  induction l as [|y r IH]; cbn; intros H; [contradiction|].
  destruct (Nat.eqb_spec x y); [eexists; reflexivity|].
  destruct H as [H|H]; [congruence|].
  destruct (IH H) as [l' ->]. eexists; reflexivity.
Qed.

Lemma list_remove_length x l l' :
  list_remove x l = Some l' -> length l = S (length l').
Proof.
  revert l'; induction l as [|y r IH]; cbn; intros l' H; [discriminate|].
  destruct (Nat.eqb_spec x y); [congruence|].
  destruct (list_remove x r) eqn:E; [|discriminate].
  injection H as <-. cbn. f_equal. apply IH. reflexivity.
Qed.

Lemma list_remove_spec x l l' :
  NoDup l -> list_remove x l = Some l' ->
  NoDup l' /\ forall a, In a l' <-> In a l /\ a <> x.
Proof.
  revert l'; induction l as [|y r IH]; cbn; intros l' Hnd H; [discriminate|].
  inversion Hnd as [|? ? Hy Hr]; subst.
  destruct (Nat.eqb_spec x y) as [->|Hne].
  - injection H as <-. split; [assumption|].
    intros a; split.
    + intros Ha. split; [right; assumption|]. intros ->. contradiction.
    + intros [[->|Ha] Hne]; [congruence|assumption].
  - destruct (list_remove x r) as [r'|] eqn:E; [|discriminate].
    injection H as <-. destruct (IH r' Hr eq_refl) as [Hnd' Hin].
    split.
    + constructor; [|assumption]. rewrite Hin. tauto.
    + intros a; cbn. rewrite Hin. split.
      * intros [->|[Ha Hx]]; split; auto.
      * intros [[->|Ha] Hx]; auto.
Qed.

Lemma list_remove_hd x l l' d :
  list_remove x l = Some l' -> hd_error l = Some d -> d <> x ->
  hd_error l' = Some d.
Proof.
  destruct l as [|y r]; cbn; intros H Hd Hne; [discriminate|].
  injection Hd as ->.
  destruct (Nat.eqb_spec x d); [congruence|].
  destruct (list_remove x r); [|discriminate]. injection H as <-. reflexivity.
Qed.

Lemma in_trees_kind s a : in_trees s a <-> exists k, In a (tree_of k s).
Proof.
  unfold in_trees. split.
  - intros [H|H]; [exists forward | exists backward]; assumption.
  - intros [[|] H]; [left | right]; assumption.
Qed.

Lemma tree_of_other_disjoint n s k a :
  forest_inv n s -> In a (tree_of k s) -> In a (tree_of (other_kind k) s) -> False.
Proof.
  intros I H1 H2. destruct k; cbn in *; eapply inv_disjoint; eauto.
Qed.

Lemma kind_cases (k k' : tree_kind) : k' = k \/ k' = other_kind k.
Proof. destruct k, k'; cbn; auto. Qed.

Lemma other_kind_neq k : other_kind k <> k.
Proof. destruct k; discriminate. Qed.

Lemma other_kind_invol k : other_kind (other_kind k) = k.
Proof. destruct k; reflexivity. Qed.

Lemma tree_of_set_tree_same k t s : tree_of k (set_tree k t s) = t.
Proof. destruct k; reflexivity. Qed.

Lemma tree_of_set_tree_other k k' t s :
  k' <> k -> tree_of k' (set_tree k t s) = tree_of k' s.
Proof. destruct k, k'; intros H; try reflexivity; congruence. Qed.

Lemma heap_set_tree k t s : heap (set_tree k t s) = heap s.
Proof. destruct k; reflexivity. Qed.

Lemma tree_of_set_heap k h s : tree_of k (set_heap h s) = tree_of k s.
Proof. destruct k; reflexivity. Qed.


Lemma pre_other_disjoint n old c p' depth s0 k a :
  regraft_pre n old c p' depth s0 ->
  In a (tree_of k s0) -> In a (tree_of (other_kind k) s0) -> False.
Proof.
  intros P H1 H2. destruct k; cbn in *; eapply pre_disjoint; eauto.
Qed.

Lemma in_trees_of s k a : In a (tree_of k s) -> in_trees s a.
Proof. destruct k; cbn; unfold in_trees; auto. Qed.

Lemma walk_step n old c p' depth s0 v rest s V old' :
  regraft_pre n old c p' depth s0 ->
  walk_inv old c depth s0 (v :: rest) s V ->
  list_remove v (tree_of old s) = Some old' ->
  let h1 := update (heap s) v (set_tree_type (tree_type (deref (heap s) p'))) in
  let s1 := set_tree old old' (set_heap h1 s) in
  let s2 := set_tree (other_kind old) (tree_of (other_kind old) s1 ++ [v]) s1 in
  walk_inv old c depth s0 (rev (children (deref h1 v)) ++ rest) s2 (V ++ [v]).
Proof.
  intros P W Hrm h1 s1 s2.
  pose proof (other_kind_neq old) as Hneq.
  assert (Hv_old : In v (tree_of old s)) by (apply (w_stack_old _ _ _ _ _ _ _ W); left; reflexivity).
  destruct (proj1 (w_old _ _ _ _ _ _ _ W v) Hv_old) as [Hv0 HvV].
  assert (Hv_tree : in_trees s0 v) by (eapply in_trees_of; eassumption).
  assert (Hv_len : v < length (heap s)).
  { rewrite (w_len _ _ _ _ _ _ _ W). apply (pre_bound _ _ _ _ _ _ P). assumption. }
  assert (Hp'V : ~ In p' V).
  { intros Hin. apply (w_V_old _ _ _ _ _ _ _ W) in Hin.
    eapply (pre_other_disjoint _ _ _ _ _ _ old p' P); [assumption|apply (pre_p_new _ _ _ _ _ _ P)]. }
  assert (Hty : tree_type (deref (heap s) p') = other_kind old).
  { rewrite (w_type_out _ _ _ _ _ _ _ W) by assumption.
    apply (pre_kind _ _ _ _ _ _ P). apply (pre_p_new _ _ _ _ _ _ P). }
  assert (Hheap2 : heap s2 = h1).
  { unfold s2, s1. rewrite !heap_set_tree. reflexivity. }
  assert (Hold2 : tree_of old s2 = old').
  { unfold s2. rewrite tree_of_set_tree_other by congruence.
    unfold s1. apply tree_of_set_tree_same. }
  assert (Hnew2 : tree_of (other_kind old) s2 = tree_of (other_kind old) s ++ [v]).
  { unfold s2. rewrite tree_of_set_tree_same. unfold s1.
    rewrite tree_of_set_tree_other by assumption. rewrite tree_of_set_heap. reflexivity. }
  assert (Hd_same : deref h1 v = set_tree_type (other_kind old) (deref (heap s) v)).
  { unfold h1. rewrite deref_update_same by assumption. rewrite Hty. reflexivity. }
  assert (Hd_other : forall a, a <> v -> deref h1 a = deref (heap s) a).
  { intros a Ha. unfold h1. apply deref_update_other. congruence. }
  destruct (list_remove_spec _ _ _ (w_old_nodup _ _ _ _ _ _ _ W) Hrm) as [Hnd' Hin'].
  assert (Hch : children (deref h1 v) = children (deref (heap s0) v)).
  { rewrite Hd_same. cbn. apply (w_links _ _ _ _ _ _ _ W). }
  assert (Hchild : forall z, In z (children (deref (heap s0) v)) ->
            in_trees s0 z /\ par s0 z = Some v /\ z <> c /\ z <> v /\
            In z (tree_of old s0) /\ ~ In z V /\ ~ In z rest).
  { intros z Hz.
    apply (pre_children _ _ _ _ _ _ P v z Hv_tree) in Hz. destruct Hz as [Hzt Hzp].
    assert (Hzc : z <> c).
    { intros ->. rewrite (pre_c_par _ _ _ _ _ _ P) in Hzp. injection Hzp as ->.
      eapply (pre_other_disjoint _ _ _ _ _ _ old v P); [assumption|apply (pre_p_new _ _ _ _ _ _ P)]. }
    assert (Hzv : z <> v).
    { intros ->. pose proof (pre_rank _ _ _ _ _ _ P v v Hzt Hzc Hzp). lia. }
    assert (Hz_old : In z (tree_of old s0)).
    { apply in_trees_kind in Hzt. destruct Hzt as [k Hk].
      destruct (kind_cases old k) as [->| ->]; [assumption|].
      pose proof (pre_parent _ _ _ _ _ _ P _ _ _ Hk Hzc Hzp).
      exfalso. eapply (pre_other_disjoint _ _ _ _ _ _ old v P); eassumption. }
    assert (HzV : ~ In z V).
    { intros Hin. destruct (w_up _ _ _ _ _ _ _ W z (or_introl Hin)) as [->|[q [Hq Hpq]]];
        [congruence|].
      rewrite Hzp in Hpq. injection Hpq as <-. contradiction. }
    assert (Hzr : ~ In z rest).
    { intros Hin.
      destruct (w_up _ _ _ _ _ _ _ W z (or_intror (or_intror Hin))) as [->|[q [Hq Hpq]]];
        [congruence|].
      rewrite Hzp in Hpq. injection Hpq as <-. contradiction. }
    repeat split; assumption. }
  pose proof (w_stack_nodup _ _ _ _ _ _ _ W) as Hsnd.
  apply NoDup_cons_iff in Hsnd. destruct Hsnd as [Hv_rest Hrest_nd].
  constructor.
  - rewrite Hheap2. unfold h1. rewrite update_length. apply (w_len _ _ _ _ _ _ _ W).
  - intros a. rewrite Hheap2. destruct (Nat.eq_dec a v) as [->|Ha].
    + rewrite Hd_same. cbn. apply (w_links _ _ _ _ _ _ _ W).
    + rewrite Hd_other by assumption. apply (w_links _ _ _ _ _ _ _ W).
  - intros a Ha. rewrite Hheap2. apply in_app_or in Ha. destruct Ha as [Ha|[<-|[]]].
    + destruct (Nat.eq_dec a v) as [->|Hne]; [contradiction|].
      rewrite Hd_other by assumption. apply (w_type_in _ _ _ _ _ _ _ W). assumption.
    + rewrite Hd_same. reflexivity.
  - intros a Ha. rewrite Hheap2.
    assert (a <> v) by (intros ->; apply Ha; apply in_or_app; right; left; reflexivity).
    rewrite Hd_other by assumption. apply (w_type_out _ _ _ _ _ _ _ W).
    intros Hin. apply Ha. apply in_or_app. left. assumption.
  - rewrite Hnew2, (w_new _ _ _ _ _ _ _ W). rewrite app_assoc. reflexivity.
  - rewrite Hold2. assumption.
  - intros a. rewrite Hold2, Hin', (w_old _ _ _ _ _ _ _ W a). rewrite in_app_iff. cbn. 
    split.
    + intros [[H1 H2] H3]. split; [assumption|]. intros [H|[H|[]]]; congruence.
    + intros [H1 H2]. split; [split|];
        [ assumption
        | intros H; apply H2; left; assumption
        | intros ->; apply H2; right; left; reflexivity ].
  - rewrite Hold2. rewrite <- (w_old_hd _ _ _ _ _ _ _ W).
    destruct (hd_error (tree_of old s)) as [d|] eqn:Ed.
    + eapply list_remove_hd; [eassumption|eassumption|].
      intros ->.
      assert (Hd0 : hd_error (tree_of old s0) = Some v)
        by (rewrite <- (w_old_hd _ _ _ _ _ _ _ W); assumption).
      pose proof (pre_root_parent _ _ _ _ _ _ P _ _ Hd0) as Hnone.
      destruct (w_up _ _ _ _ _ _ _ W v (or_intror (or_introl eq_refl))) as [->|[q [_ Hq]]].
      * rewrite (pre_c_par _ _ _ _ _ _ P) in Hnone. discriminate.
      * rewrite Hq in Hnone. discriminate.
    + destruct (tree_of old s); [contradiction|discriminate].
  - apply NoDup_app; [exact (w_V_nodup _ _ _ _ _ _ _ W) | repeat constructor; intros [] |].
    intros a Ha [<-|[]]. contradiction.
  - intros a Ha. apply in_app_or in Ha. destruct Ha as [Ha|[<-|[]]]; [|assumption].
    apply (w_V_old _ _ _ _ _ _ _ W). assumption.
  - rewrite Hch. apply NoDup_app.
    + apply NoDup_rev. apply (pre_children_nodup _ _ _ _ _ _ P). assumption.
    + assumption.
    + intros a Ha Hr. apply in_rev in Ha. apply Hchild in Ha. tauto.
  - intros a Ha. rewrite Hold2, Hin'. rewrite Hch in Ha.
    apply in_app_or in Ha. destruct Ha as [Ha|Ha].
    + apply in_rev in Ha. apply Hchild in Ha.
      destruct Ha as (_ & _ & _ & Hzv & Hz0 & HzV & _).
      split; [|assumption]. apply (w_old _ _ _ _ _ _ _ W). tauto.
    + split.
      * apply (w_stack_old _ _ _ _ _ _ _ W). right. assumption.
      * intros ->. contradiction.
  - destruct (w_c _ _ _ _ _ _ _ W) as [H|[H|H]].
    + left. apply in_or_app. left. assumption.
    + left. apply in_or_app. right. left. assumption.
    + right. apply in_or_app. right. assumption.
  - intros u Hu.
    assert (Hcases : In u V \/ u = v \/ In u (children (deref (heap s0) v)) \/ In u rest).
    { destruct Hu as [Hu|Hu].
      - apply in_app_or in Hu. destruct Hu as [Hu|[<-|[]]]; auto.
      - rewrite Hch in Hu. apply in_app_or in Hu. destruct Hu as [Hu|Hu]; auto.
        apply in_rev in Hu. auto. }
    destruct Hcases as [Hu'|[->|[Hu'|Hu']]].
    + destruct (w_up _ _ _ _ _ _ _ W u (or_introl Hu')) as [->|[q [Hq Hpq]]]; [left; reflexivity|].
      right. exists q. split; [apply in_or_app; left|]; assumption.
    + destruct (w_up _ _ _ _ _ _ _ W v (or_intror (or_introl eq_refl))) as [->|[q [Hq Hpq]]];
        [left; reflexivity|].
      right. exists q. split; [apply in_or_app; left|]; assumption.
    + apply Hchild in Hu'. right. exists v. split; [apply in_or_app; right; left; reflexivity|tauto].
    + destruct (w_up _ _ _ _ _ _ _ W u (or_intror (or_intror Hu'))) as [->|[q [Hq Hpq]]];
        [left; reflexivity|].
      right. exists q. split; [apply in_or_app; left|]; assumption.
  - intros u z Hu Hz Hpz. apply in_app_or in Hu. destruct Hu as [Hu|[<-|[]]].
    + destruct (w_down _ _ _ _ _ _ _ W u z Hu Hz Hpz) as [H|[<-|H]].
      * left. apply in_or_app. left. assumption.
      * left. apply in_or_app. right. left. reflexivity.
      * right. apply in_or_app. right. assumption.
    + right. apply in_or_app. left. rewrite Hch. apply -> in_rev.
      apply (pre_children _ _ _ _ _ _ P v z Hv_tree). split; assumption.
  - intros u Hu.
    assert (Hcases : (In u V \/ In u (v :: rest)) \/ In u (children (deref (heap s0) v))).
    { destruct Hu as [Hu|Hu].
      - apply in_app_or in Hu. destruct Hu as [Hu|[<-|[]]]; [left; left|left; right; left]; auto.
      - rewrite Hch in Hu. apply in_app_or in Hu. destruct Hu as [Hu|Hu].
        + right. apply in_rev in Hu. assumption.
        + left. right. right. assumption. }
    destruct Hcases as [Hu'|Hu'].
    + apply (w_depth _ _ _ _ _ _ _ W). assumption.
    + apply Hchild in Hu'. destruct Hu' as (Hzt & Hzp & Hzc & _).
      pose proof (pre_rank _ _ _ _ _ _ P u v Hzt Hzc Hzp).
      pose proof (w_depth _ _ _ _ _ _ _ W v (or_intror (or_introl eq_refl))). lia.
Qed.

Lemma relabel_subtree_walk n old c p' depth s0 :
  regraft_pre n old c p' depth s0 ->
  forall fuel stack s V s',
    walk_inv old c depth s0 stack s V ->
    relabel_subtree fuel p' old (other_kind old) stack s = Ok s' ->
    exists V', walk_inv old c depth s0 [] s' V'.
Proof.
  intros P fuel. induction fuel as [|f IH]; intros stack s V s' W H; [discriminate|].
  cbn [relabel_subtree] in H. destruct stack as [|v rest].
  - injection H as <-. exists V. assumption.
  - destruct (list_remove v (tree_of old s)) as [old'|] eqn:Hrm; [|discriminate].
    eapply IH; [|exact H].
    eapply walk_step; eassumption.
Qed.

(** The fuel of the stack walk is never exhausted: every round takes one
    address out of [old_tree]. *)
Lemma relabel_subtree_fuel p' old new :
  new <> old ->
  forall fuel stack s,
    length (tree_of old s) < fuel ->
    relabel_subtree fuel p' old new stack s <> NoFuel.
Proof.
  intros Hneq fuel. induction fuel as [|f IH]; intros stack s Hlen; [lia|].
  cbn [relabel_subtree]. destruct stack as [|v rest]; [discriminate|].
  destruct (list_remove v (tree_of old s)) as [old'|] eqn:Hrm; [|discriminate].
  apply IH. apply list_remove_length in Hrm.
  rewrite tree_of_set_tree_other by congruence.
  rewrite tree_of_set_tree_same. lia.
Qed.

Lemma walk_in_trees old c depth s0 s V a :
  walk_inv old c depth s0 [] s V ->
  (in_trees s a <-> in_trees s0 a).
Proof.
  intros W. rewrite !in_trees_kind. split.
  - intros [k Hk]. destruct (kind_cases old k) as [->| ->].
    + exists old. apply (w_old _ _ _ _ _ _ _ W) in Hk. tauto.
    + rewrite (w_new _ _ _ _ _ _ _ W) in Hk. apply in_app_or in Hk.
      destruct Hk as [Hk|Hk]; [exists (other_kind old); assumption|].
      exists old. apply (w_V_old _ _ _ _ _ _ _ W). assumption.
  - intros [k Hk]. destruct (in_dec Nat.eq_dec a V) as [HV|HV].
    + exists (other_kind old). rewrite (w_new _ _ _ _ _ _ _ W). apply in_or_app. auto.
    + destruct (kind_cases old k) as [->| ->].
      * exists old. apply (w_old _ _ _ _ _ _ _ W). tauto.
      * exists (other_kind old). rewrite (w_new _ _ _ _ _ _ _ W). apply in_or_app. auto.
Qed.

Lemma walk_par old c depth s0 st s V a :
  walk_inv old c depth s0 st s V -> par s a = par s0 a.
Proof. intros W. unfold par. apply (w_links _ _ _ _ _ _ _ W). Qed.

(** Where a node is once the walk is over. *)
Lemma walk_tree_of old c depth s0 s V k a :
  walk_inv old c depth s0 [] s V ->
  (In a (tree_of k s) <->
   (In a V /\ k = other_kind old) \/ (~ In a V /\ In a (tree_of k s0))).
Proof.
  intros W. destruct (kind_cases old k) as [->| ->].
  - rewrite (w_old _ _ _ _ _ _ _ W). pose proof (other_kind_neq old). intuition congruence.
  - rewrite (w_new _ _ _ _ _ _ _ W), in_app_iff.
    destruct (in_dec Nat.eq_dec a V); tauto.
Qed.

Lemma walk_done n old c p' depth s0 s V :
  regraft_pre n old c p' depth s0 ->
  walk_inv old c depth s0 [] s V ->
  forest_inv n s.
Proof.
  intros P W.
  assert (HcV : In c V) by (destruct (w_c _ _ _ _ _ _ _ W) as [H|[]]; assumption).
  assert (HVold : forall a, In a V -> ~ In a (tree_of (other_kind old) s0)).
  { intros a Ha Hn. apply (w_V_old _ _ _ _ _ _ _ W) in Ha.
    eapply (pre_other_disjoint _ _ _ _ _ _ old a P); eassumption. }
  assert (HVpar : forall a, In a V -> exists q, par s0 a = Some q).
  { intros a Ha. destruct (w_up _ _ _ _ _ _ _ W a (or_introl Ha)) as [->|[q [_ Hq]]].
    - exists p'. apply (pre_c_par _ _ _ _ _ _ P).
    - exists q. assumption. }
  constructor.
  - intros k. destruct (kind_cases old k) as [->| ->].
    + apply (w_old_nodup _ _ _ _ _ _ _ W).
    + rewrite (w_new _ _ _ _ _ _ _ W). apply NoDup_app.
      * apply (pre_nodup _ _ _ _ _ _ P).
      * apply (w_V_nodup _ _ _ _ _ _ _ W).
      * intros a Ha HV. eapply HVold; eassumption.
  - intros a HF HB.
    change (In a (tree_of forward s)) in HF. change (In a (tree_of backward s)) in HB.
    rewrite (walk_tree_of _ _ _ _ _ _ forward _ W) in HF.
    rewrite (walk_tree_of _ _ _ _ _ _ backward _ W) in HB.
    destruct HF as [[HV1 E1]|[HV1 H1]], HB as [[HV2 E2]|[HV2 H2]]; try contradiction.
    + congruence.
    + eapply (pre_disjoint _ _ _ _ _ _ P); eassumption.
  - intros a Ha. rewrite (walk_in_trees _ _ _ _ _ _ _ W) in Ha.
    rewrite (w_len _ _ _ _ _ _ _ W). apply (pre_bound _ _ _ _ _ _ P). assumption.
  - intros k a Ha. rewrite (walk_tree_of _ _ _ _ _ _ _ _ W) in Ha.
    destruct Ha as [[HV ->]|[HV Ha]].
    + apply (w_type_in _ _ _ _ _ _ _ W). assumption.
    + rewrite (w_type_out _ _ _ _ _ _ _ W) by assumption.
      apply (pre_kind _ _ _ _ _ _ P). assumption.
  - intros a Ha. rewrite (walk_in_trees _ _ _ _ _ _ _ W) in Ha.
    destruct (w_links _ _ _ _ _ _ _ W a) as (_ & _ & -> & _).
    apply (pre_state _ _ _ _ _ _ P). assumption.
  - intros k r Hr. rewrite (walk_par _ _ _ _ _ _ _ _ W).
    apply (pre_root_parent _ _ _ _ _ _ P k).
    destruct (kind_cases old k) as [->| ->].
    + rewrite <- (w_old_hd _ _ _ _ _ _ _ W). assumption.
    + rewrite (w_new _ _ _ _ _ _ _ W) in Hr.
      pose proof (pre_p_new _ _ _ _ _ _ P) as Hp.
      destruct (tree_of (other_kind old) s0); [contradiction|]. exact Hr.
  - intros k a Ha Hnone. rewrite (walk_par _ _ _ _ _ _ _ _ W) in Hnone.
    rewrite (walk_tree_of _ _ _ _ _ _ _ _ W) in Ha.
    destruct Ha as [[HV _]|[HV Ha]].
    + destruct (HVpar a HV) as [q Hq]. congruence.
    + pose proof (pre_root_only _ _ _ _ _ _ P k a Ha Hnone) as Hhd.
      destruct (kind_cases old k) as [->| ->].
      * rewrite (w_old_hd _ _ _ _ _ _ _ W). assumption.
      * rewrite (w_new _ _ _ _ _ _ _ W).
        destruct (tree_of (other_kind old) s0); [discriminate|]. exact Hhd.
  - intros k a p Ha Hp. rewrite (walk_par _ _ _ _ _ _ _ _ W) in Hp.
    rewrite (walk_tree_of _ _ _ _ _ _ _ _ W) in Ha.
    rewrite (walk_tree_of _ _ _ _ _ _ _ _ W).
    destruct Ha as [[HV ->]|[HV Ha]].
    + destruct (w_up _ _ _ _ _ _ _ W a (or_introl HV)) as [->|[q [Hq Hpq]]].
      * rewrite (pre_c_par _ _ _ _ _ _ P) in Hp. injection Hp as <-.
        right. split; [|apply (pre_p_new _ _ _ _ _ _ P)].
        intros Hin. eapply HVold; [eassumption|]. apply (pre_p_new _ _ _ _ _ _ P).
      * left. split; [congruence|reflexivity].
    + right. assert (Hac : a <> c) by congruence.
      split.
      * intros Hin.
        destruct (w_down _ _ _ _ _ _ _ W p a Hin (in_trees_of _ _ _ Ha) Hp) as [H|[]].
        contradiction.
      * eapply (pre_parent _ _ _ _ _ _ P); eassumption.
  - intros p a Hp. rewrite (walk_in_trees _ _ _ _ _ _ _ W) in Hp.
    rewrite (walk_in_trees _ _ _ _ _ _ _ W), (walk_par _ _ _ _ _ _ _ _ W).
    destruct (w_links _ _ _ _ _ _ _ W p) as (_ & -> & _).
    apply (pre_children _ _ _ _ _ _ P). assumption.
  - intros p Hp. rewrite (walk_in_trees _ _ _ _ _ _ _ W) in Hp.
    destruct (w_links _ _ _ _ _ _ _ W p) as (_ & -> & _).
    apply (pre_children_nodup _ _ _ _ _ _ P). assumption.
  - exists (fun a => if in_dec Nat.eq_dec a V then depth a + S (depth p') else depth a).
    intros a p Ha Hp. rewrite (walk_in_trees _ _ _ _ _ _ _ W) in Ha.
    rewrite (walk_par _ _ _ _ _ _ _ _ W) in Hp.
    destruct (in_dec Nat.eq_dec a V) as [HaV|HaV].
    + destruct (w_up _ _ _ _ _ _ _ W a (or_introl HaV)) as [->|[q [Hq Hpq]]].
      * rewrite (pre_c_par _ _ _ _ _ _ P) in Hp. injection Hp as <-.
        destruct (in_dec Nat.eq_dec p' V) as [Hin|_]; [|lia].
        exfalso. eapply HVold; [eassumption|]. apply (pre_p_new _ _ _ _ _ _ P).
      * assert (p = q) by congruence. subst q.
        destruct (in_dec Nat.eq_dec p V) as [_|Hn]; [|contradiction].
        destruct (Nat.eq_dec a c) as [->|Hac].
        -- rewrite (pre_c_par _ _ _ _ _ _ P) in Hp. injection Hp as <-.
           exfalso. eapply HVold; [eassumption|]. apply (pre_p_new _ _ _ _ _ _ P).
        -- pose proof (pre_rank _ _ _ _ _ _ P a p Ha Hac Hp). lia.
    + assert (Hac : a <> c) by congruence.
      destruct (in_dec Nat.eq_dec p V) as [Hin|_].
      * destruct (w_down _ _ _ _ _ _ _ W p a Hin Ha Hp) as [H|[]]. contradiction.
      * apply (pre_rank _ _ _ _ _ _ P a p Ha Hac Hp).
Qed.

(** ** One round of the repair: a node is hung below a node of the other tree *)

Lemma regraft_heap_length h c op p' ch seg :
  length (regraft_heap h c op p' ch seg) = length h.
Proof. unfold regraft_heap. rewrite !update_length. reflexivity. Qed.

Lemma regraft_heap_deref h c op p' ch seg a :
  c < length h -> op < length h -> p' < length h ->
  c <> op -> c <> p' -> op <> p' ->
  deref (regraft_heap h c op p' ch seg) a =
    if Nat.eqb a c then
      set_segment (Some (fst seg)) (Some (snd seg)) (set_parent (Some p') (deref h c))
    else if Nat.eqb a op then set_children ch (deref h op)
    else if Nat.eqb a p' then set_children (children (deref h p') ++ [c]) (deref h p')
    else deref h a.
Proof.
  intros Hc Hop Hp' H1 H2 H3. unfold regraft_heap.
  destruct (Nat.eqb_spec a c) as [->|Hac].
  - rewrite deref_update_same by (rewrite !update_length; assumption).
    rewrite deref_update_other by congruence.
    rewrite deref_update_other by congruence.
    rewrite deref_update_same by assumption. reflexivity.
  - rewrite deref_update_other by congruence.
    destruct (Nat.eqb_spec a op) as [->|Haop].
    + rewrite deref_update_other by congruence.
      rewrite deref_update_same by (rewrite !update_length; assumption).
      rewrite deref_update_other by congruence. reflexivity.
    + destruct (Nat.eqb_spec a p') as [->|Hap].
      * rewrite deref_update_same by (rewrite !update_length; assumption).
        rewrite deref_update_other by congruence.
        rewrite deref_update_other by congruence. reflexivity.
      * rewrite !deref_update_other by congruence. reflexivity.
Qed.

Lemma in_trees_set_heap h s a : in_trees (set_heap h s) a <-> in_trees s a.
Proof. reflexivity. Qed.

Lemma regraft_prelude n s old c op p' ch seg depth :
  forest_inv n s ->
  (forall a p, in_trees s a -> par s a = Some p -> depth p < depth a) ->
  In c (tree_of old s) -> par s c = Some op -> In p' (tree_of (other_kind old) s) ->
  list_remove c (children (deref (heap s) op)) = Some ch ->
  let s0 := set_heap (regraft_heap (heap s) c op p' ch seg) s in
  regraft_pre n old c p' depth s0 /\ walk_inv old c depth s0 [c] s0 [].
Proof.
  intros I Hdepth Hc Hpar Hp' Hrm s0.
  assert (Hop : In op (tree_of old s)) by (eapply inv_parent; eassumption).
  assert (Hct : in_trees s c) by (eapply in_trees_of; eassumption).
  assert (Hopt : in_trees s op) by (eapply in_trees_of; eassumption).
  assert (Hp't : in_trees s p') by (eapply in_trees_of; eassumption).
  assert (Hcop : c <> op).
  { intros E. pose proof (Hdepth c op Hct Hpar). subst. lia. }
  assert (Hcp' : c <> p').
  { intros <-. exact (tree_of_other_disjoint n s old c I Hc Hp'). }
  assert (Hopp' : op <> p').
  { intros <-. exact (tree_of_other_disjoint n s old op I Hop Hp'). }
  pose proof (proj2 (inv_bound _ _ I c Hct)) as Lc.
  pose proof (proj2 (inv_bound _ _ I op Hopt)) as Lop.
  pose proof (proj2 (inv_bound _ _ I p' Hp't)) as Lp'.
  assert (D : forall a, deref (heap s0) a =
    if Nat.eqb a c then
      set_segment (Some (fst seg)) (Some (snd seg)) (set_parent (Some p') (deref (heap s) c))
    else if Nat.eqb a op then set_children ch (deref (heap s) op)
    else if Nat.eqb a p' then
      set_children (children (deref (heap s) p') ++ [c]) (deref (heap s) p')
    else deref (heap s) a).
  { intros a. unfold s0. cbn [heap set_heap]. apply regraft_heap_deref; assumption. }
  assert (Dpar : forall a, par s0 a = if Nat.eqb a c then Some p' else par s a).
  { intros a. unfold par. rewrite D.
    destruct (Nat.eqb_spec a c) as [->|]; [reflexivity|].
    destruct (Nat.eqb_spec a op) as [->|]; [reflexivity|].
    destruct (Nat.eqb_spec a p') as [->|]; reflexivity. }
  assert (Dty : forall a, tree_type (deref (heap s0) a) = tree_type (deref (heap s) a)).
  { intros a. rewrite D. destruct (Nat.eqb_spec a c) as [->|]; [reflexivity|].
    destruct (Nat.eqb_spec a op) as [->|]; [reflexivity|].
    destruct (Nat.eqb_spec a p') as [->|]; reflexivity. }
  assert (Dst : forall a, state (deref (heap s0) a) = state (deref (heap s) a)).
  { intros a. rewrite D. destruct (Nat.eqb_spec a c) as [->|]; [reflexivity|].
    destruct (Nat.eqb_spec a op) as [->|]; [reflexivity|].
    destruct (Nat.eqb_spec a p') as [->|]; reflexivity. }
  assert (Dch : forall a, children (deref (heap s0) a) =
    if Nat.eqb a op then ch
    else if Nat.eqb a p' then children (deref (heap s) p') ++ [c]
    else children (deref (heap s) a)).
  { intros a. rewrite D. destruct (Nat.eqb_spec a c) as [->|].
    - destruct (Nat.eqb_spec c op); [contradiction|].
      destruct (Nat.eqb_spec c p'); [contradiction|]. reflexivity.
    - destruct (Nat.eqb_spec a op) as [->|]; [reflexivity|].
      destruct (Nat.eqb_spec a p') as [->|]; reflexivity. }
  destruct (list_remove_spec _ _ _ (inv_children_nodup _ _ I op Hopt) Hrm) as [Hchnd Hchin].
  assert (Hparne : forall a, a <> c -> par s0 a = par s a).
  { intros a Ha. rewrite Dpar. destruct (Nat.eqb_spec a c); [contradiction|reflexivity]. }
  assert (Hparc : par s0 c = Some p').
  { rewrite Dpar, Nat.eqb_refl. reflexivity. }
  split.
  - constructor.
    + intros k. unfold s0. rewrite tree_of_set_heap. apply (inv_nodup _ _ I).
    + apply (inv_disjoint _ _ I).
    + intros a Ha. unfold s0 at 1. cbn [heap set_heap]. rewrite regraft_heap_length.
      apply (inv_bound _ _ I). assumption.
    + intros k a Ha. rewrite Dty. unfold s0 in Ha. rewrite tree_of_set_heap in Ha.
      apply (inv_kind _ _ I). assumption.
    + intros a Ha. rewrite Dst. apply (inv_state _ _ I). assumption.
    + intros k r Hr. unfold s0 in Hr. rewrite tree_of_set_heap in Hr.
      pose proof (inv_root_parent _ _ I k r Hr) as Hn.
      rewrite Hparne; [assumption|]. intros ->. congruence.
    + intros k a Ha Hn. unfold s0 in Ha |- *. rewrite tree_of_set_heap in Ha |- *.
      destruct (Nat.eq_dec a c) as [->|Hac]; [congruence|].
      rewrite Hparne in Hn by assumption. apply (inv_root_only _ _ I); assumption.
    + intros k a p Ha Hac Hp. unfold s0 in Ha |- *. rewrite tree_of_set_heap in Ha |- *.
      rewrite Hparne in Hp by assumption. eapply (inv_parent _ _ I); eassumption.
    + unfold s0. rewrite tree_of_set_heap. assumption.
    + assumption.
    + unfold s0. rewrite tree_of_set_heap. assumption.
    + intros p a Hp. change (in_trees s0 p) with (in_trees s p) in Hp.
      change (in_trees s0 a) with (in_trees s a).
      rewrite Dch, Dpar.
      destruct (Nat.eqb_spec p op) as [->|Hpop].
      * rewrite Hchin, (inv_children _ _ I op a Hopt).
        destruct (Nat.eqb_spec a c) as [->|Hac].
        -- split; [tauto|]. intros [_ E]. congruence.
        -- tauto.
      * destruct (Nat.eqb_spec p p') as [->|Hpp'].
        -- rewrite in_app_iff, (inv_children _ _ I p' a Hp't). cbn.
           destruct (Nat.eqb_spec a c) as [->|Hac].
           ++ split; [tauto|]. intros _. right. left. reflexivity.
           ++ split; [intros [H|[H|[]]]; [assumption|congruence]|tauto].
        -- rewrite (inv_children _ _ I p a Hp).
           destruct (Nat.eqb_spec a c) as [->|Hac]; [|tauto].
           split; intros [_ E]; congruence.
    + intros p Hp. change (in_trees s0 p) with (in_trees s p) in Hp. rewrite Dch.
      destruct (Nat.eqb_spec p op) as [->|Hpop]; [assumption|].
      destruct (Nat.eqb_spec p p') as [->|Hpp'].
      * apply NoDup_app.
        -- apply (inv_children_nodup _ _ I). assumption.
        -- repeat constructor. intros [].
        -- intros a Ha [<-|[]].
           apply (inv_children _ _ I p' c Hp't) in Ha. destruct Ha as [_ E]. congruence.
      * apply (inv_children_nodup _ _ I). assumption.
    + intros a p Ha Hac Hp. rewrite Hparne in Hp by assumption.
      apply Hdepth; assumption.
  - constructor; try reflexivity.
    + intros a. repeat split; reflexivity.
    + intros a [].
    + rewrite app_nil_r. reflexivity.
    + unfold s0. rewrite tree_of_set_heap. apply (inv_nodup _ _ I).
    + intros a. tauto.
    + constructor.
    + intros a [].
    + repeat constructor. intros [].
    + intros a [<-|[]]. unfold s0. rewrite tree_of_set_heap. assumption.
    + right. left. reflexivity.
    + intros v [[]|[<-|[]]]. left. reflexivity.
    + intros v z [].
    + intros v [[]|[<-|[]]]. lia.
Qed.

Lemma iter_parent_depth n s depth :
  forest_inv n s ->
  (forall a p, in_trees s a -> par s a = Some p -> depth p < depth a) ->
  forall m k x a,
    In x (tree_of k s) -> iter_parent s m x = Some a ->
    In a (tree_of k s) /\ depth a + m <= depth x.
Proof.
  intros I Hd m. induction m as [|m IH]; intros k x a Hx Hit; cbn in Hit.
  - injection Hit as <-. split; [assumption|lia].
  - destruct (par s x) as [p|] eqn:Ep; [|discriminate].
    pose proof (inv_parent _ _ I k x p Hx Ep) as Hp.
    destruct (IH k p a Hp Hit) as [Ha Hle]. split; [assumption|].
    pose proof (Hd x p (in_trees_of _ _ _ Hx) Ep). lia.
Qed.

(** One round of the outer loop, after the segment has been recomputed. *)
Lemma repair_round n s old c p' op ch seg fuel s' :
  forest_inv n s ->
  In c (tree_of old s) -> In p' (tree_of (other_kind old) s) ->
  par s c = Some op ->
  list_remove c (children (deref (heap s) op)) = Some ch ->
  relabel_subtree fuel p' old (other_kind old) [c]
                  (set_heap (regraft_heap (heap s) c op p' ch seg) s) = Ok s' ->
  forest_inv n s' /\
  (forall a, par s' a = if Nat.eqb a c then Some p' else par s a) /\
  In c (tree_of (other_kind old) s') /\
  (forall a, In a (tree_of (other_kind old) s) -> In a (tree_of (other_kind old) s')) /\
  (forall a m, iter_parent s (S m) c = Some a -> In a (tree_of old s')) /\
  (forall a, In a (tree_of old s') -> In a (tree_of old s)) /\
  length (heap s') = length (heap s) /\
  (forall a, state (deref (heap s') a) = state (deref (heap s) a)).
Proof.
  intros I Hc Hp' Hpar Hrm Hwalk.
  destruct (inv_rank _ _ I) as [depth Hdepth].
  destruct (regraft_prelude n s old c op p' ch seg depth I Hdepth Hc Hpar Hp' Hrm)
    as [P W0].
  destruct (relabel_subtree_walk _ _ _ _ _ _ P _ _ _ _ _ W0 Hwalk) as [V W].
  set (s0 := set_heap (regraft_heap (heap s) c op p' ch seg) s) in *.
  assert (HcV : In c V) by (destruct (w_c _ _ _ _ _ _ _ W) as [H|[]]; assumption).
  assert (Hop : In op (tree_of old s)) by (eapply inv_parent; eassumption).
  assert (Hct : in_trees s c) by (eapply in_trees_of; eassumption).
  assert (Hopt : in_trees s op) by (eapply in_trees_of; eassumption).
  assert (Hp't : in_trees s p') by (eapply in_trees_of; eassumption).
  assert (Hcop : c <> op).
  { intros E. pose proof (Hdepth c op Hct Hpar). subst. lia. }
  assert (Hcp' : c <> p').
  { intros <-. exact (tree_of_other_disjoint n s old c I Hc Hp'). }
  assert (Hopp' : op <> p').
  { intros <-. exact (tree_of_other_disjoint n s old op I Hop Hp'). }
  pose proof (proj2 (inv_bound _ _ I c Hct)) as Lc.
  pose proof (proj2 (inv_bound _ _ I op Hopt)) as Lop.
  pose proof (proj2 (inv_bound _ _ I p' Hp't)) as Lp'.
  assert (D : forall a, deref (heap s0) a =
    if Nat.eqb a c then
      set_segment (Some (fst seg)) (Some (snd seg)) (set_parent (Some p') (deref (heap s) c))
    else if Nat.eqb a op then set_children ch (deref (heap s) op)
    else if Nat.eqb a p' then
      set_children (children (deref (heap s) p') ++ [c]) (deref (heap s) p')
    else deref (heap s) a).
  { intros a. unfold s0. cbn [heap set_heap]. apply regraft_heap_deref; assumption. }
  split; [eapply walk_done; eassumption|].
  split.
  { intros a. rewrite (walk_par _ _ _ _ _ _ _ _ W). unfold par. rewrite D.
    destruct (Nat.eqb_spec a c) as [->|]; [reflexivity|].
    destruct (Nat.eqb_spec a op) as [->|]; [reflexivity|].
    destruct (Nat.eqb_spec a p') as [->|]; reflexivity. }
  split.
  { rewrite (w_new _ _ _ _ _ _ _ W). apply in_or_app. right. assumption. }
  split.
  { intros a Ha. rewrite (w_new _ _ _ _ _ _ _ W). apply in_or_app. left. exact Ha. }
  split.
  { intros a m Hit. apply (w_old _ _ _ _ _ _ _ W).
    destruct (iter_parent_depth n s depth I Hdepth (S m) old c a Hc Hit) as [Ha Hle].
    split; [exact Ha|].
    intros HV. pose proof (w_depth _ _ _ _ _ _ _ W a (or_introl HV)). lia. }
  split.
  { intros a Ha. apply (w_old _ _ _ _ _ _ _ W) in Ha. exact (proj1 Ha). }
  split.
  { rewrite (w_len _ _ _ _ _ _ _ W). unfold s0. cbn [heap set_heap].
    apply regraft_heap_length. }
  intros a. destruct (w_links _ _ _ _ _ _ _ W a) as (_ & _ & -> & _). rewrite D.
  destruct (Nat.eqb_spec a c) as [->|]; [reflexivity|].
  destruct (Nat.eqb_spec a op) as [->|]; [reflexivity|].
  destruct (Nat.eqb_spec a p') as [->|]; reflexivity.
Qed.

(** Unfolding one round of [repair_walk]. *)
Lemma repair_walk_round self fuel start_node old new c p' s s' :
  repair_walk self (S fuel) start_node old new c p' s = Ok s' ->
  c = start_node /\ s' = s \/
  c <> start_node /\
  exists op ch seg s1,
    par s c = Some op /\
    (c <> op -> list_remove c (children (deref (heap s) op)) = Some ch) /\
    relabel_subtree (S (length (tree_of old s))) p' old new [c]
                    (set_heap (regraft_heap (heap s) c op p' ch seg) s) = Ok s1 /\
    repair_walk self fuel start_node old new op c s1 = Ok s'.
Proof.
  cbn [repair_walk]. destruct (Nat.eqb_spec c start_node) as [->|Hne].
  - intros H. injection H as <-. left. split; reflexivity.
  - intros H. right. split; [assumption|].
    fold (par s c) in H. destruct (par s c) as [op|] eqn:Ep; [|discriminate].
    destruct (list_remove c (children (deref (update (heap s) c (set_parent (Some p'))) op)))
      as [ch|] eqn:Hrm; [|discriminate].
    match type of H with bind ?m _ = _ => destruct m as [seg| |] eqn:Eseg end;
      try discriminate.
    cbn [bind] in H.
    match type of H with bind ?m _ = _ => destruct m as [s1| |] eqn:Erel end;
      try discriminate.
    cbn [bind] in H.
    exists op, ch, seg, s1. repeat split; try assumption.
    intros Hcop. rewrite deref_update_other in Hrm by assumption. exact Hrm.
Qed.

Lemma repair_walk_inv self n old start_node :
  forall fuel s c p' s',
    forest_inv n s ->
    In c (tree_of old s) -> In p' (tree_of (other_kind old) s) ->
    repair_walk self fuel start_node old (other_kind old) c p' s = Ok s' ->
    forest_inv n s'.
Proof.
  intros fuel. induction fuel as [|f IH]; intros s c p' s' I Hc Hp' H; [discriminate|].
  apply repair_walk_round in H.
  destruct H as [[_ ->]|[Hne (op & ch & seg & s1 & Hpar & Hrm & Hrel & Hrec)]];
    [assumption|].
  assert (Hcop : c <> op).
  { destruct (inv_rank _ _ I) as [depth Hd]. intros E.
    pose proof (Hd c op (in_trees_of _ _ _ Hc) Hpar). subst. lia. }
  destruct (repair_round n s old c p' op ch seg _ s1 I Hc Hp' Hpar (Hrm Hcop) Hrel)
    as (I1 & _ & Hc1 & _ & Hanc & _).
  eapply IH; [exact I1| |exact Hc1|exact Hrec].
  apply (Hanc op 0). cbn. rewrite Hpar. reflexivity.
Qed.

Lemma relabel_subtree_shrinks p' old new :
  new <> old ->
  forall fuel stack s s',
    relabel_subtree fuel p' old new stack s = Ok s' ->
    length (tree_of old s') <= length (tree_of old s) /\
    (stack <> [] -> length (tree_of old s') < length (tree_of old s)).
Proof.
  intros Hneq fuel. induction fuel as [|f IH]; intros stack s s' H; [discriminate|].
  cbn [relabel_subtree] in H. destruct stack as [|v rest].
  - injection H as <-. split; [lia|congruence].
  - destruct (list_remove v (tree_of old s)) as [old'|] eqn:Hrm; [|discriminate].
    apply IH in H. destruct H as [H _].
    rewrite tree_of_set_tree_other in H by congruence.
    rewrite tree_of_set_tree_same in H.
    apply list_remove_length in Hrm. split; intros; lia.
Qed.

Lemma mapM_fuel {A B} (f : A -> res B) l :
  (forall x, f x <> NoFuel) -> mapM f l <> NoFuel.
Proof.
  intros Hf. induction l as [|x r IH]; cbn; [discriminate|].
  specialize (Hf x). destruct (f x); cbn; try congruence.
  destruct (mapM f r); cbn; congruence.
Qed.

Lemma minimum_acceleration_fuel x1 x2 v1 v2 vmax T amax :
  MinAccel._minimum_acceleration_interpolants x1 x2 v1 v2 vmax T amax <> NoFuel.
Proof.
  unfold MinAccel._minimum_acceleration_interpolants.
  destruct (MinAccel.selected x1 x2 v1 v2 vmax T) as [[a p]|]; [|discriminate].
  destruct (accel_leb a (amax + a_margin)); [|discriminate].
  destruct a; discriminate.
Qed.

Lemma compute_optimal_segment_fuel self a b :
  _compute_optimal_segment self a b <> NoFuel.
Proof.
  unfold _compute_optimal_segment, _calculate_segment_time, _calculate_segment_trajectory.
  match goal with |- context [all_some ?l] => destruct (all_some l) as [[|t ts]|] end;
    cbn [bind]; try discriminate.
  match goal with |- context [mapM ?f ?l] =>
    pose proof (mapM_fuel f l (fun dim => minimum_acceleration_fuel _ _ _ _ _ _ _)) as H;
    destruct (mapM f l) as [td| |]
  end; cbn [bind]; try congruence.
  destruct (all_some td); discriminate.
Qed.

(** The fuel of the outer loop is never exhausted either: every round moves
    at least the current node out of [old_tree]. *)
Lemma repair_walk_fuel self old new start_node :
  new <> old ->
  forall fuel s c p',
    length (tree_of old s) < fuel ->
    repair_walk self fuel start_node old new c p' s <> NoFuel.
Proof.
  intros Hneq fuel. induction fuel as [|f IH]; intros s c p' Hlen; [lia|].
  cbn [repair_walk]. destruct (Nat.eqb c start_node); [discriminate|].
  destruct (parent (deref (heap s) c)) as [op|]; [|discriminate].
  destruct (list_remove c _) as [ch|]; [|discriminate].
  match goal with |- bind ?m _ <> _ =>
    pose proof (compute_optimal_segment_fuel self
                  (state (deref
                     (update (update (update (heap s) c (set_parent (Some p'))) op
                                     (set_children ch)) p'
                             (fun nd => set_children (children nd ++ [c]) nd)) p'))
                  (state (deref
                     (update (update (update (heap s) c (set_parent (Some p'))) op
                                     (set_children ch)) p'
                             (fun nd => set_children (children nd ++ [c]) nd)) c)));
    destruct m as [seg| |] eqn:Eseg end;
    cbn [bind]; try congruence.
  match goal with |- bind ?m _ <> _ => destruct m as [s1| |] eqn:Erel end;
    cbn [bind]; try discriminate.
  - apply IH.
    apply (relabel_subtree_shrinks _ _ _ Hneq) in Erel. destruct Erel as [_ Hlt].
    rewrite tree_of_set_heap in Hlt.
    assert ([c] <> []) by discriminate. specialize (Hlt H0). lia.
  - exfalso. revert Erel. apply relabel_subtree_fuel; [assumption|].
    rewrite tree_of_set_heap. lia.
Qed.

(** ** Extension *)

Lemma map2_length {A B C} (f : A -> B -> C) l m :
  length (map2 f l m) = Nat.min (length l) (length m).
Proof.
  revert m; induction l as [|x l IH]; intros [|y m]; cbn; auto.
Qed.

Lemma zero_velocity_app n pos :
  length pos = n -> zero_velocity n (pos ++ repeat 0%R n).
Proof.
  intros H. split.
  - rewrite length_app, repeat_length. lia.
  - rewrite skipn_app, H, Nat.sub_diag. rewrite <- H at 1.
    rewrite skipn_all. reflexivity.
Qed.

Lemma sample_zero_velocity self u :
  length (fst (position_limits self)) = dimension self ->
  length (snd (position_limits self)) = dimension self ->
  zero_velocity (dimension self) (_sample_free_space_state self u).
Proof.
  intros H1 H2. unfold _sample_free_space_state.
  destruct (position_limits self) as [min_pos max_pos]. cbn [fst snd] in *.
  apply zero_velocity_app.
  rewrite map2_length, length_combine, length_seq. lia.
Qed.

Lemma deref_alloc h nd a :
  deref (h ++ [nd]) a = if Nat.eqb a (length h) then nd else deref h a.
Proof.
  unfold deref. destruct (Nat.eqb_spec a (length h)) as [->|Hne].
  - rewrite app_nth2 by lia. rewrite Nat.sub_diag. reflexivity.
  - destruct (Nat.lt_ge_cases a (length h)).
    + apply app_nth1. assumption.
    + rewrite !nth_overflow; [reflexivity|lia|rewrite length_app; cbn; lia].
Qed.

Lemma nth_mod_In {A} (l : list A) k d : l <> [] -> In (nth (k mod length l) l d) l.
Proof.
  intros H. apply nth_In. apply Nat.mod_upper_bound.
  destruct l; [congruence|discriminate].
Qed.

Lemma hd_error_app {A} (l m : list A) x :
  hd_error l = Some x -> hd_error (l ++ m) = Some x.
Proof. destruct l; [discriminate|]. auto. Qed.

Lemma hd_error_app_inv {A} (l m : list A) :
  l <> [] -> hd_error (l ++ m) = hd_error l.
Proof. destruct l; [congruence|]. auto. Qed.

(** What [extend_tree] does to the store when it adds a node. *)
Lemma extend_tree_store self tree k u s r s' :
  extend_tree self tree k u s = Ok (r, s') ->
  (r = None /\ s' = s) \/
  exists t0 seg,
    tree_of tree s <> [] /\
    let sampled := nth (k mod length (tree_of tree s)) (tree_of tree s) t0 in
    let new := length (heap s) in
    let nd := new_Node (_sample_free_space_state self u)
                       (tree_type (deref (heap s) sampled))
                       (Some sampled) (Some (fst seg)) (Some (snd seg)) in
    r = Some new /\
    tree_of tree s' = tree_of tree s ++ [new] /\
    tree_of (other_kind tree) s' = tree_of (other_kind tree) s /\
    heap s' = update (heap s ++ [nd]) sampled
                     (fun p => set_children (children p ++ [new]) p).
Proof.
  unfold extend_tree. destruct (tree_of tree s) as [|t0 t] eqn:Et; [discriminate|].
  destruct (collision_checker self (_sample_free_space_state self u)); cbn [negb].
  - destruct (_compute_optimal_segment self _ _) as [seg| |]; cbn [bind]; try discriminate.
    intros H. injection H as <- <-. right. exists t0, seg.
    split; [discriminate|]. cbn zeta. cbn [alloc].
    split; [reflexivity|]. 
    split; [|split].
    + rewrite tree_of_set_heap, tree_of_set_tree_same, tree_of_set_heap. rewrite Et. reflexivity.
    + rewrite tree_of_set_heap, tree_of_set_tree_other by apply other_kind_neq.
      rewrite tree_of_set_heap. reflexivity.
    + cbn [heap set_heap]. rewrite heap_set_tree. reflexivity.
  - intros H. injection H as <- <-. left. split; reflexivity.
Qed.

Lemma extend_tree_inv self tree k u s r s' :
  length (fst (position_limits self)) = dimension self ->
  length (snd (position_limits self)) = dimension self ->
  forest_inv (dimension self) s ->
  extend_tree self tree k u s = Ok (r, s') ->
  forest_inv (dimension self) s' /\
  (forall a, r = Some a -> In a (tree_of tree s')) /\
  (forall k a, In a (tree_of k s) -> In a (tree_of k s')).
Proof.
  intros L1 L2 I H. apply extend_tree_store in H.
  destruct H as [[-> ->]|(t0 & seg & Hne & H)].
  { split; [assumption|]. split; [discriminate|auto]. }
  cbn zeta in H. destruct H as (-> & Ht & Ho & Hh).
  set (sampled := nth (k mod length (tree_of tree s)) (tree_of tree s) t0) in *.
  remember (length (heap s)) as new eqn:Hnew.
  set (nd := new_Node (_sample_free_space_state self u)
                      (tree_type (deref (heap s) sampled))
                      (Some sampled) (Some (fst seg)) (Some (snd seg))) in *.
  assert (Hs : In sampled (tree_of tree s)) by (apply nth_mod_In; assumption).
  assert (Hst : in_trees s sampled) by (eapply in_trees_of; eassumption).
  pose proof (inv_bound _ _ I sampled Hst) as [Hs2 Hsl]. rewrite <- Hnew in Hsl.
  assert (Hfresh : forall a, in_trees s a -> a <> new).
  { intros a Ha. pose proof (inv_bound _ _ I a Ha). lia. }
  assert (D : forall a, deref (heap s') a =
    if Nat.eqb a new then nd
    else if Nat.eqb a sampled
         then set_children (children (deref (heap s) sampled) ++ [new]) (deref (heap s) sampled)
         else deref (heap s) a).
  { intros a. rewrite Hh. destruct (Nat.eqb_spec a sampled) as [->|Hne'].
    - rewrite deref_update_same by (rewrite length_app; cbn; lia).
      rewrite deref_alloc. rewrite <- Hnew.
      destruct (Nat.eqb_spec sampled new); [lia|reflexivity].
    - rewrite deref_update_other by congruence. rewrite deref_alloc, <- Hnew. reflexivity. }
  assert (Dpar : forall a, par s' a = if Nat.eqb a new then Some sampled else par s a).
  { intros a. unfold par. rewrite D. destruct (Nat.eqb_spec a new); [reflexivity|].
    destruct (Nat.eqb_spec a sampled) as [->|]; reflexivity. }
  assert (Dold : forall a, a <> new ->
            tree_type (deref (heap s') a) = tree_type (deref (heap s) a) /\
            state (deref (heap s') a) = state (deref (heap s) a)).
  { intros a Ha. rewrite D. destruct (Nat.eqb_spec a new); [contradiction|].
    destruct (Nat.eqb_spec a sampled) as [->|]; split; reflexivity. }
  assert (Tin : forall k a, In a (tree_of k s') <->
                            In a (tree_of k s) \/ (a = new /\ k = tree)).
  { intros k' a. destruct (kind_cases tree k') as [->| ->].
    - rewrite Ht, in_app_iff. cbn. intuition.
    - rewrite Ho. pose proof (other_kind_neq tree). intuition congruence. }
  assert (Tall : forall a, in_trees s' a <-> in_trees s a \/ a = new).
  { intros a. rewrite !in_trees_kind. split.
    - intros [k' Hk]. apply Tin in Hk. destruct Hk as [Hk|[-> _]]; [left; eauto|right; reflexivity].
    - intros [[k' Hk]| ->]; [exists k'|exists tree]; apply Tin; auto. }
  assert (Hkind : tree_type (deref (heap s) sampled) = tree)
    by (apply (inv_kind _ _ I); assumption).
  destruct (inv_rank _ _ I) as [depth Hdepth].
  split; [|split].
  - constructor.
    + intros k'. destruct (kind_cases tree k') as [->| ->].
      * rewrite Ht. apply NoDup_app; [apply (inv_nodup _ _ I)|repeat constructor; intros []|].
        intros a Ha [<-|[]]. apply (Hfresh new); [eapply in_trees_of; eassumption|reflexivity].
      * rewrite Ho. apply (inv_nodup _ _ I).
    + intros a HF HB.
      change (In a (tree_of forward s')) in HF. change (In a (tree_of backward s')) in HB.
      apply Tin in HF. apply Tin in HB.
      destruct HF as [HF|[Ea E1]], HB as [HB|[Eb E2]].
      * eapply (inv_disjoint _ _ I); eassumption.
      * apply (Hfresh a); [eapply in_trees_of; eassumption|assumption].
      * apply (Hfresh a); [eapply in_trees_of; eassumption|assumption].
      * congruence.
    + intros a Ha. apply Tall in Ha. rewrite Hh, update_length, length_app. cbn.
      destruct Ha as [Ha| ->].
      * pose proof (inv_bound _ _ I a Ha). lia.
      * lia.
    + intros k' a Ha. apply Tin in Ha. destruct Ha as [Ha|[-> ->]].
      * rewrite (proj1 (Dold a (Hfresh a (in_trees_of _ _ _ Ha)))).
        apply (inv_kind _ _ I). assumption.
      * rewrite D, Nat.eqb_refl. cbn. assumption.
    + intros a Ha. apply Tall in Ha. destruct Ha as [Ha| ->].
      * rewrite (proj2 (Dold a (Hfresh a Ha))). apply (inv_state _ _ I). assumption.
      * rewrite D, Nat.eqb_refl. cbn. apply sample_zero_velocity; assumption.
    + intros k' r Hr. rewrite Dpar.
      assert (Hr' : hd_error (tree_of k' s) = Some r).
      { destruct (kind_cases tree k') as [->| ->].
        - rewrite Ht, hd_error_app_inv in Hr; assumption.
        - rewrite Ho in Hr. assumption. }
      assert (In r (tree_of k' s)).
      { destruct (tree_of k' s); [discriminate|]. injection Hr' as ->. left. reflexivity. }
      destruct (Nat.eqb_spec r new) as [E|_].
      * exfalso. apply (Hfresh r); [eapply in_trees_of; eassumption|assumption].
      * apply (inv_root_parent _ _ I k'). assumption.
    + intros k' a Ha Hn. rewrite Dpar in Hn. apply Tin in Ha.
      destruct (Nat.eqb_spec a new) as [E|Hne']; [discriminate|].
      destruct Ha as [Ha|[E _]]; [|contradiction].
      pose proof (inv_root_only _ _ I k' a Ha Hn) as Hhd.
      destruct (kind_cases tree k') as [->| ->].
      * rewrite Ht. apply hd_error_app. assumption.
      * rewrite Ho. assumption.
    + intros k' a p Ha Hp. rewrite Dpar in Hp. apply Tin in Ha. apply Tin.
      destruct (Nat.eqb_spec a new) as [E|Hne'].
      * injection Hp as <-. destruct Ha as [Ha|[_ ->]].
        -- exfalso. apply (Hfresh a); [eapply in_trees_of; eassumption|assumption].
        -- left. assumption.
      * destruct Ha as [Ha|[E _]]; [|contradiction].
        left. eapply (inv_parent _ _ I); eassumption.
    + intros p c Hp. rewrite Tall, Dpar. rewrite D. apply Tall in Hp.
      destruct (Nat.eqb_spec p new) as [->|Hpn].
      * cbn. split; [intros []|]. intros [Hc Hpc].
        destruct (Nat.eqb_spec c new) as [->|Hcn].
        -- injection Hpc as E. lia.
        -- destruct Hc as [Hc|E]; [|contradiction].
           apply in_trees_kind in Hc. destruct Hc as [k' Hk].
           pose proof (inv_parent _ _ I k' c new Hk Hpc) as Hin.
           apply (Hfresh new); [eapply in_trees_of; eassumption|reflexivity].
      * destruct Hp as [Hp|E]; [|contradiction].
        destruct (Nat.eqb_spec p sampled) as [->|Hps].
        -- cbn [children set_children]. rewrite in_app_iff, (inv_children _ _ I sampled c Hst).
           cbn. destruct (Nat.eqb_spec c new) as [->|Hcn].
           ++ split; [auto|]. intros _. right. left. reflexivity.
           ++ split; [intros [[H1 H2]|[H|[]]]; [auto|congruence]|].
              intros [[H1|H1] H2]; [auto|contradiction].
        -- rewrite (inv_children _ _ I p c Hp).
           destruct (Nat.eqb_spec c new) as [->|Hcn].
           ++ split.
              ** intros [Hc _]. exfalso. exact (Hfresh new Hc eq_refl).
              ** intros [_ E]. congruence.
           ++ split; [intros [H1 H2]; auto|]. intros [[H1|H1] H2]; [auto|contradiction].
    + intros p Hp. rewrite D. apply Tall in Hp.
      destruct (Nat.eqb_spec p new) as [->|Hpn]; [constructor|].
      destruct Hp as [Hp|E]; [|contradiction].
      destruct (Nat.eqb_spec p sampled) as [->|Hps]; [|apply (inv_children_nodup _ _ I); assumption].
      cbn [children set_children]. apply NoDup_app.
      * apply (inv_children_nodup _ _ I). assumption.
      * repeat constructor. intros [].
      * intros a Ha [<-|[]]. apply (inv_children _ _ I sampled new Hst) in Ha.
        exact (Hfresh new (proj1 Ha) eq_refl).
    + exists (fun a => if Nat.eqb a new then S (depth sampled) else depth a).
      intros a p Ha Hp. rewrite Dpar in Hp. apply Tall in Ha.
      destruct (Nat.eqb_spec a new) as [->|Han].
      * injection Hp as <-. destruct (Nat.eqb_spec sampled new); [lia|lia].
      * destruct Ha as [Ha|E]; [|contradiction].
        pose proof (Hdepth a p Ha Hp).
        destruct (Nat.eqb_spec p new) as [->|]; [|assumption].
        apply in_trees_kind in Ha. destruct Ha as [k' Hk].
        pose proof (inv_parent _ _ I k' a new Hk Hp) as Hin.
        exfalso. apply (Hfresh new); [eapply in_trees_of; eassumption|reflexivity].
  - intros a E. injection E as <-. rewrite Ht. apply in_or_app. right. left. reflexivity.
  - intros k' a Ha. apply Tin. left. assumption.
Qed.

(** ** Seeding *)

Lemma map_const_repeat {A B} (l : list A) (b : B) :
  map (fun _ => b) l = repeat b (length l).
Proof. induction l; cbn; congruence. Qed.

Lemma generate_max_braking_zero_velocity self s st t ti :
  length s = 2 * dimension self ->
  generate_max_braking_trajectory self s = Ok (Some (st, t, ti)) ->
  zero_velocity (dimension self) st.
Proof.
  intros Hlen. unfold generate_max_braking_trajectory.
  destruct (map2 _ (skipn (dimension self) s) (amax self)) as [|t0 ts]; [discriminate|].
  match goal with
  | |- (if negb (_check_state_limits self ?i) then _ else _) = _ -> _ =>
      set (init := i); destruct (_check_state_limits self init)
  end; cbn [negb]; [|discriminate].
  destruct (collision_checker self init); cbn [negb]; [|discriminate].
  intros H. injection H as <- _ _. unfold init.
  rewrite map_const_repeat, length_skipn, Hlen.
  replace (2 * dimension self - dimension self) with (dimension self) by lia.
  apply zero_velocity_app.
  rewrite length_map, map2_length, length_firstn, length_skipn, Hlen. lia.
Qed.

Lemma seed_one_store self tree seed_node s b s' :
  seed_one self tree seed_node s = Ok (b, s') ->
  (b = true /\ s' = s) \/
  exists st t ti,
    generate_max_braking_trajectory self (state (deref (heap s) seed_node))
    = Ok (Some (st, t, ti)) /\
    tree_of tree s' = tree_of tree s ++ [length (heap s)] /\
    tree_of (other_kind tree) s' = tree_of (other_kind tree) s /\
    heap s' = update (heap s ++ [new_Node st tree None None None]) seed_node
                     (set_segment (Some t) (Some ti)).
Proof.
  unfold seed_one.
  destruct (generate_max_braking_trajectory self _) as [[[[st t] ti]|]| |] eqn:Eg;
    cbn [bind]; try discriminate.
  - cbn [alloc].
    destruct (_check_edge_collision self _ _ _ _ _) as [free| |]; cbn [bind]; try discriminate.
    intros H. injection H as <- <-. right. exists st, t, ti.
    split; [reflexivity|]. split; [|split].
    + rewrite tree_of_set_heap, tree_of_set_tree_same, tree_of_set_heap. reflexivity.
    + rewrite tree_of_set_heap, tree_of_set_tree_other by apply other_kind_neq.
      rewrite tree_of_set_heap. reflexivity.
    + cbn [heap set_heap]. rewrite heap_set_tree. reflexivity.
  - intros H. injection H as <- <-. left. split; reflexivity.
Qed.

Lemma seed_one_inv self tree seed_node s b s' :
  forest_inv (dimension self) s ->
  tree_of tree s = [] ->
  2 <= length (heap s) -> seed_node < 2 ->
  length (state (deref (heap s) seed_node)) = 2 * dimension self ->
  seed_one self tree seed_node s = Ok (b, s') ->
  forest_inv (dimension self) s' /\
  length (heap s) <= length (heap s') /\
  tree_of (other_kind tree) s' = tree_of (other_kind tree) s /\
  (forall a, a < 2 -> state (deref (heap s') a) = state (deref (heap s) a)).
Proof.
  intros I Hemp Hlen Hseed Hshape H. apply seed_one_store in H.
  destruct H as [[-> ->]|(st & t & ti & Hg & Ht & Ho & Hh)].
  { split; [assumption|]. split; [lia|]. split; [reflexivity|]. reflexivity. }
  rewrite Hemp in Ht. cbn [app] in Ht.
  remember (length (heap s)) as new eqn:Hnew.
  set (nd := new_Node st tree None None None) in *.
  assert (Hfresh : forall a, in_trees s a -> a <> new /\ a <> seed_node).
  { intros a Ha. pose proof (inv_bound _ _ I a Ha). lia. }
  assert (D : forall a, deref (heap s') a =
    if Nat.eqb a new then nd
    else if Nat.eqb a seed_node
         then set_segment (Some t) (Some ti) (deref (heap s) seed_node)
         else deref (heap s) a).
  { intros a. rewrite Hh. destruct (Nat.eqb_spec a seed_node) as [->|Hne'].
    - rewrite deref_update_same by (rewrite length_app; cbn; lia).
      rewrite deref_alloc, <- Hnew.
      destruct (Nat.eqb_spec seed_node new); [lia|reflexivity].
    - rewrite deref_update_other by congruence. rewrite deref_alloc, <- Hnew. reflexivity. }
  assert (Dold : forall a, in_trees s a -> deref (heap s') a = deref (heap s) a).
  { intros a Ha. destruct (Hfresh a Ha) as [H1 H2]. rewrite D.
    destruct (Nat.eqb_spec a new); [contradiction|].
    destruct (Nat.eqb_spec a seed_node); [contradiction|reflexivity]. }
  assert (Dnew : deref (heap s') new = nd) by (rewrite D, Nat.eqb_refl; reflexivity).
  assert (Tin : forall k a, In a (tree_of k s') <->
                            In a (tree_of k s) \/ (a = new /\ k = tree)).
  { intros k' a. destruct (kind_cases tree k') as [->| ->].
    - rewrite Ht, Hemp. cbn. intuition.
    - rewrite Ho. pose proof (other_kind_neq tree). intuition congruence. }
  assert (Tall : forall a, in_trees s' a <-> in_trees s a \/ a = new).
  { intros a. rewrite !in_trees_kind. split.
    - intros [k' Hk]. apply Tin in Hk. destruct Hk as [Hk|[-> _]]; [left; eauto|right; reflexivity].
    - intros [[k' Hk]| ->]; [exists k'|exists tree]; apply Tin; auto. }
  assert (Hnofather : forall a, in_trees s a -> par s a <> Some new).
  { intros a Ha Hp. apply in_trees_kind in Ha. destruct Ha as [k' Hk].
    pose proof (inv_parent _ _ I k' a new Hk Hp) as Hin.
    exact (proj1 (Hfresh new (in_trees_of _ _ _ Hin)) eq_refl). }
  destruct (inv_rank _ _ I) as [depth Hdepth].
  split; [|split; [|split]].
  - constructor.
    + intros k'. destruct (kind_cases tree k') as [->| ->].
      * rewrite Ht. repeat constructor. intros [].
      * rewrite Ho. apply (inv_nodup _ _ I).
    + intros a HF HB.
      change (In a (tree_of forward s')) in HF. change (In a (tree_of backward s')) in HB.
      apply Tin in HF. apply Tin in HB.
      destruct HF as [HF|[Ea E1]], HB as [HB|[Eb E2]].
      * eapply (inv_disjoint _ _ I); eassumption.
      * exact (proj1 (Hfresh a (in_trees_of _ _ _ HF)) Eb).
      * exact (proj1 (Hfresh a (in_trees_of _ _ _ HB)) Ea).
      * congruence.
    + intros a Ha. apply Tall in Ha. rewrite Hh, update_length, length_app. cbn.
      destruct Ha as [Ha| ->].
      * pose proof (inv_bound _ _ I a Ha). lia.
      * lia.
    + intros k' a Ha. apply Tin in Ha. destruct Ha as [Ha|[-> ->]].
      * rewrite (Dold a (in_trees_of _ _ _ Ha)). apply (inv_kind _ _ I). assumption.
      * rewrite Dnew. reflexivity.
    + intros a Ha. apply Tall in Ha. destruct Ha as [Ha| ->].
      * rewrite (Dold a Ha). apply (inv_state _ _ I). assumption.
      * rewrite Dnew. cbn. eapply generate_max_braking_zero_velocity; eassumption.
    + intros k' r Hr.
      assert (Hr' : In r (tree_of k' s')).
      { destruct (tree_of k' s'); [discriminate|]. injection Hr as ->. left. reflexivity. }
      apply Tin in Hr'. unfold par. destruct Hr' as [Hr'|[-> ->]].
      * rewrite (Dold r (in_trees_of _ _ _ Hr')). apply (inv_root_parent _ _ I k').
        destruct (kind_cases tree k') as [->| ->].
        -- rewrite Hemp in Hr'. contradiction.
        -- rewrite Ho in Hr. assumption.
      * rewrite Dnew. reflexivity.
    + intros k' a Ha Hn. apply Tin in Ha. destruct Ha as [Ha|[-> ->]].
      * unfold par in Hn. rewrite (Dold a (in_trees_of _ _ _ Ha)) in Hn.
        destruct (kind_cases tree k') as [->| ->].
        -- rewrite Hemp in Ha. contradiction.
        -- rewrite Ho. apply (inv_root_only _ _ I); assumption.
      * rewrite Ht. reflexivity.
    + intros k' a p Ha Hp. apply Tin in Ha. apply Tin. unfold par in Hp.
      destruct Ha as [Ha|[-> ->]].
      * rewrite (Dold a (in_trees_of _ _ _ Ha)) in Hp.
        left. eapply (inv_parent _ _ I); eassumption.
      * rewrite Dnew in Hp. discriminate.
    + intros p c Hp. rewrite Tall. apply Tall in Hp. unfold par.
      destruct Hp as [Hp| ->].
      * rewrite (Dold p Hp), (inv_children _ _ I p c Hp). split.
        -- intros [H1 H2]. split; [left; assumption|]. rewrite (Dold c H1). assumption.
        -- intros [[H1| ->] H2].
           ++ rewrite (Dold c H1) in H2. auto.
           ++ rewrite Dnew in H2. discriminate.
      * rewrite Dnew. cbn. split; [intros []|]. intros [[H1| ->] H2].
        -- rewrite (Dold c H1) in H2. exact (Hnofather c H1 H2).
        -- rewrite Dnew in H2. discriminate.
    + intros p Hp. apply Tall in Hp. destruct Hp as [Hp| ->].
      * rewrite (Dold p Hp). apply (inv_children_nodup _ _ I). assumption.
      * rewrite Dnew. constructor.
    + exists depth. intros a p Ha Hp. apply Tall in Ha. unfold par in Hp.
      destruct Ha as [Ha| ->].
      * rewrite (Dold a Ha) in Hp. apply Hdepth; assumption.
      * rewrite Dnew in Hp. discriminate.
  - rewrite Hh, update_length, length_app. cbn. lia.
  - assumption.
  - intros a Ha. rewrite D. destruct (Nat.eqb_spec a new); [lia|].
    destruct (Nat.eqb_spec a seed_node) as [->|]; reflexivity.
Qed.

Lemma init_store_inv n start_state goal_state :
  forest_inv n (init_store start_state goal_state).
Proof.
  constructor; cbn.
  - intros []; constructor.
  - intros a [].
  - intros a [[]|[]].
  - intros [] a [].
  - intros a [[]|[]].
  - intros [] r; discriminate.
  - intros [] a [].
  - intros [] a p [].
  - intros p c [[]|[]].
  - intros p [[]|[]].
  - exists (fun _ => 0). intros a p [[]|[]].
Qed.

Lemma seed_trees_inv self start_state goal_state b s :
  well_formed self start_state goal_state ->
  seed_trees self (init_store start_state goal_state) = Ok (b, s) ->
  forest_inv (dimension self) s.
Proof.
  intros (_ & _ & Hs & Hg). unfold seed_trees.
  destruct (seed_one self forward start (init_store start_state goal_state))
    as [[b1 s1]| |] eqn:E1; cbn [bind]; try discriminate.
  assert (H1 : forest_inv (dimension self) s1 /\
               length (heap (init_store start_state goal_state)) <= length (heap s1) /\
               tree_of (other_kind forward) s1
               = tree_of (other_kind forward) (init_store start_state goal_state) /\
               (forall a, a < 2 -> state (deref (heap s1) a)
                                   = state (deref (heap (init_store start_state goal_state)) a))).
  { apply (seed_one_inv self forward start _ b1 s1); try assumption.
    - apply init_store_inv.
    - reflexivity.
    - cbn. lia.
    - unfold start. lia. }
  destruct H1 as (I1 & L1 & T1 & S1).
  cbn [fst snd]. destruct b1.
  - intros E2.
    assert (A1 : 2 <= length (heap s1)) by (cbn in L1; lia).
    assert (A2 : goal < 2) by (unfold goal; lia).
    assert (A3 : length (state (deref (heap s1) goal)) = 2 * dimension self)
      by (rewrite S1 by exact A2; exact Hg).
    exact (proj1 (seed_one_inv self backward goal s1 b s I1 T1 A1 A2 A3 E2)).
  - intros H. injection H as <- <-. assumption.
Qed.

(** ** The repair as a whole *)

Lemma in_own_tree n s a :
  forest_inv n s -> in_trees s a -> In a (tree_of (tree_type (deref (heap s) a)) s).
Proof.
  intros I Ha. apply in_trees_kind in Ha. destruct Ha as [k Hk].
  rewrite (inv_kind _ _ I k a Hk). assumption.
Qed.

Lemma tree_kind_eqb_spec a b : reflect (a = b) (tree_kind_eqb a b).
Proof. destruct a, b; constructor; congruence. Qed.

Lemma other_kind_of a b : a <> b -> a = other_kind b.
Proof. destruct a, b; cbn; congruence. Qed.

Lemma remove_infeasible_edge_inv self n s a b bs be s' :
  forest_inv n s ->
  in_trees s bs -> in_trees s be ->
  tree_type (deref (heap s) bs) <> tree_type (deref (heap s) be) ->
  remove_infeasible_edge self a b bs be s = Ok s' ->
  forest_inv n s'.
Proof.
  intros I Hbs Hbe Hdiff. unfold remove_infeasible_edge.
  destruct (tree_kind_eqb_spec (tree_type (deref (heap s) a)) (tree_type (deref (heap s) b)))
    as [Eab|Nab]; cbn [negb].
  2:{ intros H. injection H as <-. assumption. }
  pose proof (in_own_tree n s bs I Hbs) as Obs.
  pose proof (in_own_tree n s be I Hbe) as Obe.
  destruct (tree_kind_eqb_spec (tree_type (deref (heap s) bs)) (tree_type (deref (heap s) b)))
    as [Ebs|Nbs].
  - apply (repair_walk_inv self n); [assumption| |].
    + rewrite Eab, <- Ebs. assumption.
    + rewrite Eab, <- Ebs. rewrite <- (other_kind_of _ _ (not_eq_sym Hdiff)). assumption.
  - assert (Ebe : tree_type (deref (heap s) be) = tree_type (deref (heap s) b)).
    { destruct (tree_type (deref (heap s) be)), (tree_type (deref (heap s) bs)),
        (tree_type (deref (heap s) b)); congruence. }
    apply (repair_walk_inv self n); [assumption| |].
    + rewrite Eab, <- Ebe. assumption.
    + rewrite Eab, <- Ebe. rewrite <- (other_kind_of _ _ Hdiff). assumption.
Qed.

Lemma remove_infeasible_edge_fuel self a b bs be s :
  remove_infeasible_edge self a b bs be s <> NoFuel.
Proof.
  unfold remove_infeasible_edge.
  destruct (negb _); [discriminate|].
  destruct (tree_kind_eqb _ _); apply repair_walk_fuel; try apply other_kind_neq; lia.
Qed.

(** ** What the invariant says about the parent links *)

Lemma forest_chain n s depth :
  forest_inv n s ->
  (forall a p, in_trees s a -> par s a = Some p -> depth p < depth a) ->
  forall d k a,
    depth a <= d -> In a (tree_of k s) ->
    exists m r l,
      iter_parent s m a = Some r /\ par s r = None /\
      length l = S m /\ NoDup l /\ incl l (tree_of k s) /\
      (forall x, In x l -> depth x <= depth a).
Proof.
  intros I Hd d. induction d as [|d IH]; intros k a Hle Ha.
  - destruct (par s a) as [p|] eqn:Ep.
    + pose proof (Hd a p (in_trees_of _ _ _ Ha) Ep). lia.
    + exists 0, a, [a]. cbn. repeat split; auto.
      * repeat constructor. intros [].
      * intros x [<-|[]]. assumption.
      * intros x [<-|[]]. lia.
  - destruct (par s a) as [p|] eqn:Ep.
    + pose proof (Hd a p (in_trees_of _ _ _ Ha) Ep) as Hlt.
      pose proof (inv_parent _ _ I k a p Ha Ep) as Hp.
      destruct (IH k p ltac:(lia) Hp) as (m & r & l & Hit & Hr & Hlen & Hnd & Hincl & Hdep).
      exists (S m), r, (a :: l). cbn [iter_parent]. rewrite Ep.
      repeat split; auto.
      * cbn. lia.
      * constructor; [|assumption]. intros Hin. apply Hdep in Hin. lia.
      * intros x [<-|Hx]; [assumption|apply Hincl; assumption].
      * intros x [<-|Hx]; [lia|]. apply Hdep in Hx. lia.
    + exists 0, a, [a]. cbn. repeat split; auto.
      * repeat constructor. intros [].
      * intros x [<-|[]]. assumption.
      * intros x [<-|[]]. lia.
Qed.

Lemma forest_reaches_root n s k a :
  forest_inv n s -> In a (tree_of k s) ->
  exists r m,
    hd_error (tree_of k s) = Some r /\ par s r = None /\
    iter_parent s m a = Some r /\ m < length (tree_of k s).
Proof.
  intros I Ha. destruct (inv_rank _ _ I) as [depth Hd].
  destruct (forest_chain n s depth I Hd (depth a) k a (le_n _) Ha)
    as (m & r & l & Hit & Hr & Hlen & Hnd & Hincl & _).
  exists r, m.
  destruct (iter_parent_depth n s depth I Hd m k a r Ha Hit) as [Hrk _].
  repeat split; auto.
  - apply (inv_root_only _ _ I); assumption.
  - pose proof (NoDup_incl_length Hnd Hincl). lia.
Qed.

Lemma forest_acyclic n s k a m :
  forest_inv n s -> In a (tree_of k s) -> iter_parent s (S m) a <> Some a.
Proof.
  intros I Ha Hit. destruct (inv_rank _ _ I) as [depth Hd].
  destruct (iter_parent_depth n s depth I Hd (S m) k a a Ha Hit) as [_ H]. lia.
Qed.

Lemma forest_one_root n s k a m r' :
  forest_inv n s -> In a (tree_of k s) ->
  hd_error (tree_of (other_kind k) s) = Some r' ->
  iter_parent s m a <> Some r'.
Proof.
  intros I Ha Hr' Hit. destruct (inv_rank _ _ I) as [depth Hd].
  destruct (iter_parent_depth n s depth I Hd m k a r' Ha Hit) as [H _].
  apply (tree_of_other_disjoint n s k r' I H).
  destruct (tree_of (other_kind k) s); [discriminate|].
  injection Hr' as ->. left. reflexivity.
Qed.

(** ** Tracing a path *)

Lemma trace_up_shape fuel h x acc l :
  trace_up fuel h x acc = Ok l -> exists l', l = acc ++ x :: l'.
Proof.
  revert x acc; induction fuel as [|f IH]; intros x acc H; [discriminate|].
  cbn [trace_up] in H. destruct (parent (deref h x)) as [p|].
  - apply IH in H. destruct H as [l' ->]. exists (p :: l').
    rewrite <- app_assoc. reflexivity.
  - injection H as <-. exists []. reflexivity.
Qed.

Lemma trace_path_last h x path :
  _trace_path h x = Ok path -> last path 0 = x /\ path <> [].
Proof.
  unfold _trace_path. destruct (trace_up _ h x []) as [l| |] eqn:E; cbn [bind]; try discriminate.
  intros H. injection H as <-. apply trace_up_shape in E. destruct E as [l' ->].
  cbn [app rev]. split.
  - apply last_last.
  - destruct (rev l'); discriminate.
Qed.

(** Under the invariant, the fuel of [_trace_path] suffices: the nodes met
    on the way up are distinct addresses of the store. *)
Lemma trace_up_fuel n s depth k :
  forest_inv n s ->
  (forall a p, in_trees s a -> par s a = Some p -> depth p < depth a) ->
  forall fuel x acc,
    In x (tree_of k s) ->
    NoDup acc -> (forall a, In a acc -> In a (tree_of k s) /\ depth x < depth a) ->
    length (heap s) < fuel + length acc ->
    trace_up fuel (heap s) x acc <> NoFuel.
Proof.
  intros I Hd fuel. induction fuel as [|f IH]; intros x acc Hx Hnd Hacc Hlen.
  - exfalso. cbn in Hlen.
    assert (Hincl : incl acc (seq 0 (length (heap s)))).
    { intros a Ha. apply in_seq. destruct (Hacc a Ha) as [Hin _].
      pose proof (inv_bound _ _ I a (in_trees_of _ _ _ Hin)). lia. }
    pose proof (NoDup_incl_length Hnd Hincl) as Hle. rewrite length_seq in Hle. lia.
  - cbn [trace_up]. fold (par s x). destruct (par s x) as [p|] eqn:Ep; [|discriminate].
    pose proof (Hd x p (in_trees_of _ _ _ Hx) Ep) as Hlt.
    apply IH.
    + eapply (inv_parent _ _ I); eassumption.
    + apply NoDup_app; [assumption|repeat constructor; intros []|].
      intros a Ha [<-|[]]. destruct (Hacc x Ha) as [_ H]. lia.
    + intros a Ha. apply in_app_or in Ha. destruct Ha as [Ha|[<-|[]]].
      * destruct (Hacc a Ha) as [H1 H2]. split; [assumption|lia].
      * split; [assumption|lia].
    + rewrite length_app. cbn. lia.
Qed.

Lemma trace_path_fuel n s x :
  forest_inv n s -> in_trees s x -> _trace_path (heap s) x <> NoFuel.
Proof.
  intros I Hx. destruct (inv_rank _ _ I) as [depth Hd].
  apply in_trees_kind in Hx. destruct Hx as [k Hk].
  unfold _trace_path.
  pose proof (trace_up_fuel n s depth k I Hd (S (length (heap s))) x [] Hk) as H.
  destruct (trace_up _ (heap s) x []); cbn [bind]; try discriminate.
  apply H; [constructor|intros a []|cbn; lia].
Qed.

Lemma nearest_from_index x data : forall best i,
  snd best < i ->
  snd (nearest_from x best i data) < i + length data.
Proof.
  induction data as [|row rest IH]; intros best i Hb; cbn [nearest_from length].
  - lia.
  - destruct (Rltb _ _).
    + specialize (IH (euclidean row x, i) (S i)). cbn [snd] in IH. specialize (IH ltac:(lia)). lia.
    + specialize (IH best (S i) ltac:(lia)). lia.
Qed.

Lemma kdtree_query_index data x q :
  kdtree_query data x = Ok q -> snd q < length data.
Proof.
  unfold kdtree_query. destruct data as [|row rest]; [discriminate|].
  intros H. injection H as <-.
  match goal with |- snd (nearest_from ?x ?b ?i ?d) < _ =>
    pose proof (nearest_from_index x d b i) as Hi end.
  cbn [snd] in Hi. specialize (Hi ltac:(lia)). cbn [length]. lia.
Qed.

Lemma find_nearest_node_in self h tree target nd :
  _find_nearest_node self h tree target = Ok nd -> In (fst nd) tree.
Proof.
  unfold _find_nearest_node.
  destruct (kdtree_query _ _) as [q| |] eqn:E; cbn [bind]; try discriminate.
  intros H. injection H as <-. cbn [fst].
  apply kdtree_query_index in E. rewrite !length_map in E.
  apply nth_In. assumption.
Qed.

(** ** The stores that seeding, extensions and repairs can produce *)

Lemma reachable_inv self start_state goal_state s :
  well_formed self start_state goal_state ->
  reachable self start_state goal_state s ->
  forest_inv (dimension self) s.
Proof.
  intros W R. induction R as [b s H|tree k u s r s' R IH H|a b bs be s s' R IH Hbs Hbe Hd H].
  - eapply seed_trees_inv; eassumption.
  - destruct W as (L1 & L2 & _).
    exact (proj1 (extend_tree_inv self tree k u s r s' L1 L2 IH H)).
  - exact (remove_infeasible_edge_inv self _ s a b bs be s' IH Hbs Hbe Hd H).
Qed.

Lemma check_paths_bridge self h path1 path2 a b bs be :
  _check_paths_collision self h path1 path2 = Ok (Infeasible a b bs be) ->
  bs = last path1 0 /\ be = last path2 0.
Proof.
  unfold _check_paths_collision.
  destruct (_check_path_collision self h path1) as [[[a1 b1]|]| |]; cbn [bind]; try discriminate.
  { intros H. injection H as _ _ <- <-. split; reflexivity. }
  destruct (_check_path_collision self h path2) as [[[a1 b1]|]| |]; cbn [bind]; try discriminate.
  { intros H. injection H as _ _ <- <-. split; reflexivity. }
  destruct (_compute_optimal_segment self _ _) as [seg| |]; cbn [bind]; try discriminate.
  destruct (_check_edge_collision self _ _ _ _ _) as [free| |]; cbn [bind]; try discriminate.
  destruct free; cbn [negb].
  - destruct (_connect_paths h path1 path2); cbn [bind]; discriminate.
  - intros H. injection H as _ _ <- <-. split; reflexivity.
Qed.

Lemma connect_trees_tips self h tree node eps path1 path2 :
  connect_trees self h tree node eps = Ok (Some (path1, path2)) ->
  In (last path1 0) tree /\ last path2 0 = node.
Proof.
  unfold connect_trees.
  destruct (_find_nearest_node self h tree node) as [nd| |] eqn:E; cbn [bind]; try discriminate.
  destruct (Rltb eps (snd nd)); [discriminate|].
  destruct (_trace_path h (fst nd)) as [p1| |] eqn:E1; cbn [bind]; try discriminate.
  destruct (_trace_path h node) as [p2| |] eqn:E2; cbn [bind]; try discriminate.
  intros H. injection H as <- <-.
  apply trace_path_last in E1. apply trace_path_last in E2.
  destruct E1 as [-> _], E2 as [-> _]. split; [|reflexivity].
  eapply find_nearest_node_in. eassumption.
Qed.

Lemma iteration_reachable self FSBAS rnd si i start_state goal_state s s' :
  well_formed self start_state goal_state ->
  reachable self start_state goal_state s ->
  iteration self FSBAS rnd si i s = Ok (Continue s') ->
  reachable self start_state goal_state s'.
Proof.
  intros W R. unfold iteration.
  set (cur := if Nat.even i then forward else backward).
  destruct (extend_tree self cur (fst (rnd i)) (snd (rnd i)) s) as [[r s1]| |] eqn:Ee;
    cbn [bind]; try discriminate.
  assert (R1 : reachable self start_state goal_state s1) by (eapply reach_extend; eassumption).
  cbn [fst snd]. destruct r as [nd|].
  2:{ intros H. injection H as <-. assumption. }
  destruct (connect_trees self (heap s1) (tree_of (other_kind cur) s1) nd epsilon_default)
    as [[[path1 path2]|]| |] eqn:Ec; cbn [bind]; try discriminate.
  2:{ intros H. injection H as <-. assumption. }
  destruct (_check_paths_collision self (heap s1) path1 path2) as [[a b bs be|path]| |] eqn:Ek;
    cbn [bind]; try discriminate.
  - destruct (remove_infeasible_edge self a b bs be s1) as [s2| |] eqn:Er;
      cbn [bind]; try discriminate.
    intros H. injection H as <-.
    apply check_paths_bridge in Ek. destruct Ek as [-> ->].
    apply connect_trees_tips in Ec. destruct Ec as [Hn Hx].
    pose proof (reachable_inv _ _ _ _ W R) as I.
    pose proof (reachable_inv _ _ _ _ W R1) as I1.
    destruct W as (L1 & L2 & _).
    destruct (extend_tree_inv self cur _ _ s (Some nd) s1 L1 L2 I Ee) as (_ & Hnd & _).
    specialize (Hnd nd eq_refl). rewrite Hx in *.
    eapply reach_repair; [exact R1| | | |exact Er].
    + eapply in_trees_of; eassumption.
    + eapply in_trees_of; eassumption.
    + rewrite (inv_kind _ _ I1 _ _ Hn), (inv_kind _ _ I1 _ _ Hnd). apply other_kind_neq.
  - destruct (reconstruct_path self path s1) as [rp| |]; cbn [bind]; try discriminate.
    destruct (smooth_path self FSBAS (fst rp) si (snd rp)); cbn [bind]; discriminate.
Qed.

Lemma rounds_reachable self FSBAS rnd si start_state goal_state :
  well_formed self start_state goal_state ->
  forall k i s s',
    reachable self start_state goal_state s ->
    rounds self FSBAS rnd si k i s = Ok (Continue s') ->
    reachable self start_state goal_state s'.
Proof.
  intros W k. induction k as [|k IH]; intros i s s' R H; cbn [rounds] in H.
  - injection H as <-. assumption.
  - destruct (iteration self FSBAS rnd si i s) as [[s1|p]| |] eqn:E; cbn [bind] in H;
      try discriminate.
    eapply IH; [|exact H]. eapply iteration_reachable; eassumption.
Qed.

(** ** No loop of the embedding runs out of fuel *)

Lemma check_edge_collision_fuel self a b t ti ts :
  _check_edge_collision self a b t ti ts <> NoFuel.
Proof.
  unfold _check_edge_collision, sample_times.
  destruct (Reqb t 0); [discriminate|].
  destruct (_ <? 0)%Z; cbn [bind]; discriminate.
Qed.

Lemma check_edge_of_fuel self h a b : check_edge_of self h a b <> NoFuel.
Proof.
  unfold check_edge_of.
  destruct (segment_time (deref h b)) as [t|]; [|discriminate].
  destruct (trajectory_info (deref h b)) as [ti|].
  - apply check_edge_collision_fuel.
  - destruct (Reqb t 0); [discriminate|].
    unfold sample_times. destruct (_ <? 0)%Z; cbn [bind]; [discriminate|].
    destruct (linspace _ _); [discriminate|].
    destruct (Nat.eqb _ 0); discriminate.
Qed.

Lemma check_path_collision_fuel self h path :
  _check_path_collision self h path <> NoFuel.
Proof.
  induction path as [|x rest IH]; cbn [_check_path_collision]; [discriminate|].
  destruct rest as [|y rest']; [discriminate|].
  pose proof (check_edge_of_fuel self h x y) as H.
  destruct (check_edge_of self h x y) as [free| |]; cbn [bind]; try congruence.
  destruct free; [assumption|discriminate].
Qed.

Lemma check_paths_collision_fuel self h p1 p2 :
  _check_paths_collision self h p1 p2 <> NoFuel.
Proof.
  unfold _check_paths_collision.
  pose proof (check_path_collision_fuel self h p1) as H1.
  destruct (_check_path_collision self h p1) as [[[a1 b1]|]| |]; cbn [bind]; try congruence.
  pose proof (check_path_collision_fuel self h p2) as H2.
  destruct (_check_path_collision self h p2) as [[[a1 b1]|]| |]; cbn [bind]; try congruence.
  pose proof (compute_optimal_segment_fuel self (state (deref h (last p1 0)))
                (state (deref h (last p2 0)))) as H3.
  destruct (_compute_optimal_segment self _ _) as [seg| |]; cbn [bind]; try congruence.
  pose proof (check_edge_collision_fuel self (state (deref h (last p1 0)))
                (state (deref h (last p2 0))) (fst seg) (snd seg) time_step_default) as H4.
  destruct (_check_edge_collision self _ _ _ _ _) as [free| |]; cbn [bind]; try congruence.
  destruct free; cbn [negb]; [|discriminate].
  unfold _connect_paths.
  destruct (tree_type _), (tree_type _); cbn [bind]; discriminate.
Qed.

Lemma reconstruct_loop_fuel self path : forall acc s,
  reconstruct_loop self path acc s <> NoFuel.
Proof.
  induction path as [|x rest IH]; intros acc s; cbn [reconstruct_loop]; [discriminate|].
  cbn [alloc]. destruct acc as [|y acc']; cbn [bind]; [apply IH|].
  destruct (tree_kind_eqb _ _); cbn [bind]; [apply IH|].
  match goal with |- context [_compute_optimal_segment self ?a ?b] =>
    pose proof (compute_optimal_segment_fuel self a b) as H;
    destruct (_compute_optimal_segment self a b) as [seg| |] end;
    cbn [bind]; try congruence; try apply IH.
Qed.

Lemma construct_loop_fuel self sp : forall acc s,
  construct_loop self sp acc s <> NoFuel.
Proof.
  induction sp as [|x rest IH]; intros acc s; cbn [construct_loop]; [discriminate|].
  cbn [alloc]. destruct acc as [|y acc']; cbn [bind]; [apply IH|].
  match goal with |- context [_compute_optimal_segment self ?a ?b] =>
    pose proof (compute_optimal_segment_fuel self a b) as H;
    destruct (_compute_optimal_segment self a b) as [seg| |] end;
    cbn [bind]; try congruence; try apply IH.
Qed.

Lemma extend_tree_fuel self tree k u s : extend_tree self tree k u s <> NoFuel.
Proof.
  unfold extend_tree. destruct (tree_of tree s); [discriminate|].
  destruct (negb _); [discriminate|].
  match goal with |- context [_compute_optimal_segment self ?a ?b] =>
    pose proof (compute_optimal_segment_fuel self a b) as H;
    destruct (_compute_optimal_segment self a b) as [seg| |] end;
    cbn [bind]; try congruence.
  cbn [alloc]. discriminate.
Qed.

Lemma iteration_fuel self FSBAS rnd si i start_state goal_state s :
  well_formed self start_state goal_state ->
  reachable self start_state goal_state s ->
  iteration self FSBAS rnd si i s <> NoFuel.
Proof.
  intros W R. unfold iteration.
  set (cur := if Nat.even i then forward else backward).
  pose proof (extend_tree_fuel self cur (fst (rnd i)) (snd (rnd i)) s) as He.
  destruct (extend_tree self cur (fst (rnd i)) (snd (rnd i)) s) as [[r s1]| |] eqn:Ee;
    cbn [bind]; try congruence.
  assert (R1 : reachable self start_state goal_state s1) by (eapply reach_extend; eassumption).
  pose proof (reachable_inv _ _ _ _ W R) as I.
  pose proof (reachable_inv _ _ _ _ W R1) as I1.
  cbn [fst snd]. destruct r as [nd|]; [|discriminate].
  assert (Hnd : in_trees s1 nd).
  { destruct W as (L1 & L2 & _).
    destruct (extend_tree_inv self cur _ _ s (Some nd) s1 L1 L2 I Ee) as (_ & Hnd & _).
    eapply in_trees_of. apply Hnd. reflexivity. }
  unfold connect_trees.
  destruct (_find_nearest_node self (heap s1) (tree_of (other_kind cur) s1) nd)
    as [nr| |] eqn:En; cbn [bind]; try discriminate.
  2:{ unfold _find_nearest_node, kdtree_query in En.
      destruct (map _ _); cbn [bind] in En; discriminate. }
  destruct (Rltb _ _); cbn [bind]; [discriminate|].
  apply find_nearest_node_in in En.
  pose proof (trace_path_fuel _ s1 (fst nr) I1 (in_trees_of _ _ _ En)) as H1.
  destruct (_trace_path (heap s1) (fst nr)) as [p1| |]; cbn [bind]; try congruence.
  pose proof (trace_path_fuel _ s1 nd I1 Hnd) as H2.
  destruct (_trace_path (heap s1) nd) as [p2| |]; cbn [bind]; try congruence.
  pose proof (check_paths_collision_fuel self (heap s1) p1 p2) as H3.
  destruct (_check_paths_collision self (heap s1) p1 p2) as [[a b bs be|path]| |];
    cbn [bind]; try congruence.
  - pose proof (remove_infeasible_edge_fuel self a b bs be s1) as H4.
    destruct (remove_infeasible_edge self a b bs be s1); cbn [bind]; congruence.
  - unfold reconstruct_path.
    pose proof (reconstruct_loop_fuel self path [] s1) as H4.
    destruct (reconstruct_loop self path [] s1) as [rp| |]; cbn [bind]; try congruence.
    unfold smooth_path, _construct_path.
    match goal with |- context [construct_loop self ?a ?b ?c] =>
      pose proof (construct_loop_fuel self a b c) as H5;
      destruct (construct_loop self a b c) end; cbn [bind]; congruence.
Qed.

Open Scope R_scope.

(** * The solver *)

(** ** Minima *)

Lemma list_min_in x l : In (list_min x l) (x :: l).
Proof.
  unfold list_min. revert x; induction l as [|y l IH]; intros x; cbn [fold_left].
  - left. reflexivity.
  - destruct (IH (Rmin x y)) as [H|H].
    + rewrite <- H. unfold Rmin. destruct (Rle_dec x y); [left|right; left]; reflexivity.
    + right. right. assumption.
Qed.

Lemma list_min_le x l y : In y (x :: l) -> list_min x l <= y.
Proof.
  unfold list_min. revert x y; induction l as [|z l IH]; intros x y Hy; cbn [fold_left].
  - destruct Hy as [<-|[]]. lra.
  - assert (Hm : fold_left Rmin l (Rmin x z) <= Rmin x z) by (apply IH; left; reflexivity).
    destruct Hy as [<-|[<-|Hy]].
    + pose proof (Rmin_l x z). lra.
    + pose proof (Rmin_r x z). lra.
    + apply IH. right. assumption.
Qed.

Lemma min_by_key_in {A} (ltb : A -> A -> bool) x l : In (min_by_key ltb x l) (x :: l).
Proof.
  unfold min_by_key. revert x; induction l as [|y l IH]; intros x; cbn [fold_left].
  - left. reflexivity.
  - destruct (IH (if ltb y x then y else x)) as [H|H].
    + rewrite <- H. destruct (ltb y x); [right; left|left]; reflexivity.
    + right. right. assumption.
Qed.

Lemma keep_some_in {A} (x : A) l : In x (TimeOptimal.keep_some l) <-> In (Some x) l.
Proof.
  unfold TimeOptimal.keep_some. rewrite in_flat_map. split.
  - intros [[y|] [H1 H2]]; [|contradiction]. destruct H2 as [<-|[]]. assumption.
  - intros H. exists (Some x). split; [assumption|left; reflexivity].
Qed.


Lemma selected_in x1 x2 v1 v2 vmax T r :
  MinAccel.selected x1 x2 v1 v2 vmax T = Some r ->
  In r (MinAccel.valid_results x1 x2 v1 v2 vmax T).
Proof.
  unfold MinAccel.selected.
  destruct (MinAccel.valid_results x1 x2 v1 v2 vmax T) as [|r0 rs]; [discriminate|].
  intros H. injection H as <-. apply min_by_key_in.
Qed.

(** ** Mirror symmetry of the two solvers *)

Lemma filter_ext_in' {A} (f g : A -> bool) l :
  (forall x, In x l -> f x = g x) -> filter f l = filter g l.
Proof.
  induction l as [|x l IH]; intros H; cbn; [reflexivity|].
  rewrite (H x (or_introl eq_refl)), IH; [reflexivity|].
  intros y Hy. apply H. right. assumption.
Qed.

Lemma topt_mirror_ppm x1 x2 v1 v2 vmax amax :
  TimeOptimal.compute_p_plus_p_minus (- x1) (- x2) (- v1) (- v2) vmax amax
  = TimeOptimal.compute_p_minus_p_plus x1 x2 v1 v2 vmax amax.
Proof.
  unfold TimeOptimal.compute_p_plus_p_minus, TimeOptimal.compute_p_minus_p_plus.
  replace (2 * - v1) with (- 2 * v1) by ring.
  replace (((- v1) ^ 2 - (- v2) ^ 2) / (2 * amax) + - x1 - - x2)
    with ((v1 ^ 2 - v2 ^ 2) / (2 * amax) + x2 - x1) by (unfold Rdiv; ring).
  replace ((- v2 - - v1) / amax) with ((v1 - v2) / amax) by (unfold Rdiv; ring).
  replace ((vmax - - v1) / amax) with ((vmax + v1) / amax) by (unfold Rdiv; ring).
  replace ((- v1 - - v2) / amax) with ((v2 - v1) / amax) by (unfold Rdiv; ring).
  reflexivity.
Qed.

Lemma topt_mirror_pmp x1 x2 v1 v2 vmax amax :
  TimeOptimal.compute_p_minus_p_plus (- x1) (- x2) (- v1) (- v2) vmax amax
  = TimeOptimal.compute_p_plus_p_minus x1 x2 v1 v2 vmax amax.
Proof.
  rewrite <- topt_mirror_ppm. rewrite !Ropp_involutive. reflexivity.
Qed.

Lemma topt_mirror_plp x1 x2 v1 v2 vmax amax :
  TimeOptimal.compute_p_plus_l_plus_p_minus (- x1) (- x2) (- v1) (- v2) vmax amax
  = TimeOptimal.compute_p_minus_l_plus_p_plus x1 x2 v1 v2 vmax amax.
Proof.
  unfold TimeOptimal.compute_p_plus_l_plus_p_minus, TimeOptimal.compute_p_minus_l_plus_p_plus.
  replace ((vmax - - v1) / amax) with ((vmax + v1) / amax) by (unfold Rdiv; ring).
  replace ((vmax - - v2) / amax) with ((vmax + v2) / amax) by (unfold Rdiv; ring).
  replace (((- v2) ^ 2 + (- v1) ^ 2 - 2 * vmax ^ 2) / (2 * vmax * amax) + (- x2 - - x1) / vmax)
    with ((v2 ^ 2 + v1 ^ 2 - 2 * vmax ^ 2) / (2 * vmax * amax) - (x2 - x1) / vmax)
    by (unfold Rdiv; ring).
  reflexivity.
Qed.

Lemma topt_mirror_pmlp x1 x2 v1 v2 vmax amax :
  TimeOptimal.compute_p_minus_l_plus_p_plus (- x1) (- x2) (- v1) (- v2) vmax amax
  = TimeOptimal.compute_p_plus_l_plus_p_minus x1 x2 v1 v2 vmax amax.
Proof.
  rewrite <- topt_mirror_plp. rewrite !Ropp_involutive. reflexivity.
Qed.


Lemma macc_mirror_ppm x1 x2 v1 v2 vmax T :
  MinAccel.compute_p_plus_p_minus (- x1) (- x2) (- v1) (- v2) vmax T
  = mirror_candidate (MinAccel.compute_p_minus_p_plus x1 x2 v1 v2 vmax T).
Proof.
  unfold MinAccel.compute_p_plus_p_minus, MinAccel.compute_p_minus_p_plus.
  replace (2 * T * (- v1 + - v2) + 4 * (- x1 - - x2))
    with (- 2 * T * (v1 + v2) - 4 * (x1 - x2)) by ring.
  replace (- (- v2 - - v1) ^ 2) with (- (v2 - v1) ^ 2) by ring.
  match goal with |- context [filter ?f ?l] =>
    match goal with |- context [filter ?g l] =>
      tryif constr_eq f g then fail else
        (assert (E : filter f l = filter g l); [|rewrite E])
    end
  end.
  { apply filter_ext_in'. intros a _. destruct (Rleb a 0); [reflexivity|].
    replace ((- v2 - - v1) / a) with ((v1 - v2) / a) by (unfold Rdiv; ring).
    replace (- v1 + a * (0.5 * (T + (v1 - v2) / a)))
      with (- (v1 - a * (0.5 * (T + (v1 - v2) / a)))) by ring.
    rewrite Rabs_Ropp. reflexivity. }
  match goal with |- context [filter ?f ?l] => destruct (filter f l) end; reflexivity.
Qed.

Lemma mirror_involutive p : mirror (mirror p) = p.
Proof. destruct p; reflexivity. Qed.

Lemma mirror_candidate_involutive c : mirror_candidate (mirror_candidate c) = c.
Proof. destruct c as [[a p]|]; cbn; [rewrite mirror_involutive|]; reflexivity. Qed.

Lemma macc_mirror_pmp x1 x2 v1 v2 vmax T :
  MinAccel.compute_p_minus_p_plus (- x1) (- x2) (- v1) (- v2) vmax T
  = mirror_candidate (MinAccel.compute_p_plus_p_minus x1 x2 v1 v2 vmax T).
Proof.
  rewrite <- (Ropp_involutive x1), <- (Ropp_involutive x2),
    <- (Ropp_involutive v1), <- (Ropp_involutive v2) at 2.
  rewrite macc_mirror_ppm, mirror_candidate_involutive. reflexivity.
Qed.

Lemma cruise_candidate_mirror T num den n1 n2 tag :
  MinAccel.cruise_candidate T num den n1 n2 (mirror tag)
  = mirror_candidate (MinAccel.cruise_candidate T num den n1 n2 tag).
Proof.
  unfold MinAccel.cruise_candidate.
  destruct (Reqb den 0).
  - destruct (Reqb num 0); [reflexivity|]. destruct (Rltb T 0); reflexivity.
  - destruct (Rleb (num / den) 0); [reflexivity|].
    destruct (_ || _); reflexivity.
Qed.

Lemma macc_mirror_plp x1 x2 v1 v2 vmax T :
  MinAccel.compute_p_plus_l_plus_p_minus (- x1) (- x2) (- v1) (- v2) vmax T
  = mirror_candidate (MinAccel.compute_p_minus_l_minus_p_plus x1 x2 v1 v2 vmax T).
Proof.
  unfold MinAccel.compute_p_plus_l_plus_p_minus, MinAccel.compute_p_minus_l_minus_p_plus.
  rewrite <- cruise_candidate_mirror. cbn [mirror]. f_equal; ring.
Qed.

Lemma macc_mirror_pmlp x1 x2 v1 v2 vmax T :
  MinAccel.compute_p_minus_l_minus_p_plus (- x1) (- x2) (- v1) (- v2) vmax T
  = mirror_candidate (MinAccel.compute_p_plus_l_plus_p_minus x1 x2 v1 v2 vmax T).
Proof.
  unfold MinAccel.compute_p_plus_l_plus_p_minus, MinAccel.compute_p_minus_l_minus_p_plus.
  rewrite <- cruise_candidate_mirror. cbn [mirror]. f_equal; ring.
Qed.


(** ** Rest-to-rest segments: [v1 = v2 = 0] *)

(** A quotient of the goal becomes a variable [q] with [q * b = a]. *)
Ltac name_div q :=
  match goal with
  | |- context [?a / ?b] =>
      let H := fresh "Hq" in
      assert (H : (a / b) * b = a) by (field; nra);
      set (q := a / b) in *; clearbody q
  end.

Lemma mul_le_reg a x y : 0 < a -> x * a <= y * a -> x <= y.
Proof. intros Ha H. apply (Rmult_le_reg_r a); assumption. Qed.

Lemma mul_lt_reg a x y : 0 < a -> x * a < y * a -> x < y.
Proof. intros Ha H. apply (Rmult_lt_reg_r a); assumption. Qed.

Lemma sq_le_reg x y : 0 <= x -> 0 <= y -> x * x <= y * y -> x <= y.
Proof. intros. nra. Qed.

Lemma sq_lt_reg x y : 0 <= x -> 0 <= y -> x * x < y * y -> x < y.
Proof. intros. nra. Qed.

Lemma topt_rest_ppm x1 x2 vmax amax :
  0 < vmax -> 0 < amax -> x1 < x2 ->
  (amax * (x2 - x1) <= vmax ^ 2 ->
   exists Ts, TimeOptimal.compute_p_plus_p_minus x1 x2 0 0 vmax amax = Some Ts /\
              0 < Ts /\ amax * Ts ^ 2 = 4 * (x2 - x1) /\ amax * Ts <= 2 * vmax) /\
  (vmax ^ 2 < amax * (x2 - x1) ->
   TimeOptimal.compute_p_plus_p_minus x1 x2 0 0 vmax amax = None).
Proof.
  intros Hv Ha Hd. unfold TimeOptimal.compute_p_plus_p_minus.
  rewrite solve_quadratic_roots.
  2:{ replace ((0 ^ 2 - 0 ^ 2) / (2 * amax)) with 0 by (field; lra). nra. }
  replace ((0 ^ 2 - 0 ^ 2) / (2 * amax)) with 0 by (field; lra).
  replace ((0 - 0) / amax) with 0 by (field; lra).
  name_sqrt s.
  assert (Hs2 : s * s = 4 * amax * (x2 - x1)) by lra.
  assert (Hspos : 0 < s) by nra.
  set (tp := (- (2 * 0) + s) / (2 * amax)).
  assert (Htp : tp * (2 * amax) = s) by (unfold tp; field; lra).
  set (tm := (- (2 * 0) - s) / (2 * amax)).
  assert (Htm : tm * (2 * amax) = - s) by (unfold tm; field; lra).
  set (u := (vmax - 0) / amax).
  assert (Hu : u * amax = vmax) by (unfold u; field; lra).
  clearbody tp tm u.
  assert (Htp0 : 0 < tp) by nra.
  assert (Htm0 : tm < 0) by nra.
  rewrite (Rmax_left 0 0) by lra. cbn [filter].
  rewrite (proj2 (Rleb_true 0 tp)) by lra.
  rewrite (proj2 (Rleb_false 0 tm)) by lra. cbn [andb].
  split.
  - intros Hle.
    assert (Hs_le : s <= 2 * vmax) by (apply sq_le_reg; nra).
    assert (Htu : tp <= u) by (apply (mul_le_reg (2 * amax)); nra).
    rewrite (proj2 (Rleb_true tp u)) by assumption. cbn [andb].
    eexists. split; [reflexivity|].
    replace ((0 - 0) / amax) with 0 by (field; lra).
    repeat split; nra.
  - intros Hlt.
    assert (Hs_gt : 2 * vmax < s) by (apply sq_lt_reg; nra).
    assert (Htu : u < tp) by (apply (mul_lt_reg (2 * amax)); nra).
    rewrite (proj2 (Rleb_false tp u)) by assumption. reflexivity.
Qed.

Lemma topt_rest_pmp x1 x2 vmax amax :
  0 < vmax -> 0 < amax -> x1 < x2 ->
  TimeOptimal.compute_p_minus_p_plus x1 x2 0 0 vmax amax = None.
Proof.
  intros Hv Ha Hd. unfold TimeOptimal.compute_p_minus_p_plus.
  rewrite solve_quadratic_none; [reflexivity|].
  replace ((0 ^ 2 - 0 ^ 2) / (2 * amax)) with 0 by (field; lra). nra.
Qed.

Lemma topt_rest_plp x1 x2 vmax amax :
  0 < vmax -> 0 < amax -> x1 < x2 ->
  (vmax ^ 2 <= amax * (x2 - x1) ->
   exists Ts, TimeOptimal.compute_p_plus_l_plus_p_minus x1 x2 0 0 vmax amax = Some Ts /\
              0 < Ts /\ vmax * amax * Ts = vmax ^ 2 + amax * (x2 - x1)) /\
  (amax * (x2 - x1) < vmax ^ 2 ->
   TimeOptimal.compute_p_plus_l_plus_p_minus x1 x2 0 0 vmax amax = None).
Proof.
  intros Hv Ha Hd. unfold TimeOptimal.compute_p_plus_l_plus_p_minus.
  set (u := (vmax - 0) / amax).
  assert (Hu : u * amax = vmax) by (unfold u; field; lra).
  set (tl := (0 ^ 2 + 0 ^ 2 - 2 * vmax ^ 2) / (2 * vmax * amax) + (x2 - x1) / vmax).
  assert (Htl : tl * (vmax * amax) = amax * (x2 - x1) - vmax ^ 2) by (unfold tl; field; lra).
  clearbody u tl.
  assert (Hu0 : 0 < u) by nra.
  rewrite (proj2 (Rltb_false u 0)) by lra. cbn [orb].
  assert (Hva : 0 < vmax * amax) by nra.
  split.
  - intros Hle. rewrite (proj2 (Rltb_false tl 0)) by nra.
    eexists. split; [reflexivity|]. split; nra.
  - intros Hlt. rewrite (proj2 (Rltb_true tl 0)) by nra. reflexivity.
Qed.

Lemma topt_rest_pmlp x1 x2 vmax amax :
  0 < vmax -> 0 < amax -> x1 < x2 ->
  TimeOptimal.compute_p_minus_l_plus_p_plus x1 x2 0 0 vmax amax = None.
Proof.
  intros Hv Ha Hd. unfold TimeOptimal.compute_p_minus_l_plus_p_plus.
  set (u := (vmax + 0) / amax).
  assert (Hu : u * amax = vmax) by (unfold u; field; lra).
  set (tl := (0 ^ 2 + 0 ^ 2 - 2 * vmax ^ 2) / (2 * vmax * amax) - (x2 - x1) / vmax).
  assert (Htl : tl * (vmax * amax) = - amax * (x2 - x1) - vmax ^ 2) by (unfold tl; field; lra).
  clearbody u tl.
  assert (Hu0 : 0 < u) by nra.
  assert (Hva : 0 < vmax * amax) by nra.
  rewrite (proj2 (Rltb_false u 0)) by lra. cbn [orb].
  rewrite (proj2 (Rltb_true tl 0)) by nra. reflexivity.
Qed.

(** The time-optimal duration between two states at rest, [x1 < x2]: the
    bang-bang time [2 sqrt (d / amax)] while the peak stays within [vmax],
    the cruise time [vmax / amax + d / vmax] beyond. *)
Lemma topt_rest_forward x1 x2 vmax amax :
  0 < vmax -> 0 < amax -> x1 < x2 ->
  exists Ts,
    TimeOptimal._univariate_time_optimal_interpolants x1 x2 0 0 vmax amax = Some Ts /\
    0 < Ts /\
    ((amax * Ts ^ 2 = 4 * (x2 - x1) /\ amax * Ts <= 2 * vmax) \/
     (vmax * amax * Ts = vmax ^ 2 + amax * (x2 - x1) /\ vmax ^ 2 <= amax * (x2 - x1))).
Proof.
  intros Hv Ha Hd.
  unfold TimeOptimal._univariate_time_optimal_interpolants, TimeOptimal.times.
  rewrite (topt_rest_pmp x1 x2 vmax amax Hv Ha Hd), (topt_rest_pmlp x1 x2 vmax amax Hv Ha Hd).
  destruct (topt_rest_ppm x1 x2 vmax amax Hv Ha Hd) as [A1 A2].
  destruct (topt_rest_plp x1 x2 vmax amax Hv Ha Hd) as [C1 C2].
  destruct (Rlt_le_dec (amax * (x2 - x1)) (vmax ^ 2)) as [Hlt|Hge].
  - destruct (A1 ltac:(lra)) as (Ts & -> & H1 & H2 & H3). rewrite (C2 Hlt).
    exists Ts. cbn. auto.
  - destruct (C1 Hge) as (Tc & -> & H1 & H2).
    destruct (Rle_lt_dec (amax * (x2 - x1)) (vmax ^ 2)) as [Hle|Hgt].
    + destruct (A1 Hle) as (Ts & -> & H3 & H4 & H5). cbn. unfold list_min. cbn.
      unfold Rmin. destruct (Rle_dec Ts Tc).
      * exists Ts. auto.
      * exists Tc. auto.
    + rewrite (A2 Hgt). exists Tc. cbn. auto.
Qed.


Lemma macc_rest_ppm x1 x2 vmax T :
  0 < vmax -> 0 < T -> x1 < x2 ->
  (2 * (x2 - x1) <= vmax * T ->
   exists a, MinAccel.compute_p_plus_p_minus x1 x2 0 0 vmax T = Some (Fin a, PpPm) /\
             0 < a /\ a * T ^ 2 = 4 * (x2 - x1)) /\
  (vmax * T < 2 * (x2 - x1) ->
   MinAccel.compute_p_plus_p_minus x1 x2 0 0 vmax T = None).
Proof.
  intros Hv HT Hd. unfold MinAccel.compute_p_plus_p_minus.
  rewrite solve_quadratic_roots by nra.
  match goal with |- context [sqrt ?e] => replace (sqrt e) with (4 * (x2 - x1)) end.
  2:{ symmetry. apply sqrt_lem_1; nra. }
  set (a1 := (- (2 * T * (0 + 0) + 4 * (x1 - x2)) + 4 * (x2 - x1)) / (2 * T ^ 2)).
  assert (Ha1 : a1 * T ^ 2 = 4 * (x2 - x1)) by (unfold a1; field; nra).
  replace ((- (2 * T * (0 + 0) + 4 * (x1 - x2)) - 4 * (x2 - x1)) / (2 * T ^ 2)) with 0
    by (field; nra).
  clearbody a1.
  assert (Ha1pos : 0 < a1) by nra.
  cbn [filter].
  rewrite (proj2 (Rleb_false a1 0)) by lra.
  rewrite (proj2 (Rleb_true 0 0)) by lra.
  replace ((0 - 0) / a1) with 0 by (field; lra).
  unfold t_margin.
  rewrite (proj2 (Rltb_true 0 (0.5 * (T + 0)))) by lra.
  rewrite (proj2 (Rltb_true (0.5 * (T + 0)) (T + 1e-4))) by lra.
  rewrite Rabs_pos_eq by nra. cbn [andb].
  split.
  - intros Hle.
    assert (H : 0 + a1 * (0.5 * (T + 0)) <= vmax).
    { apply (mul_le_reg T); [assumption|]. nra. }
    rewrite (proj2 (Rleb_true _ vmax)) by exact H.
    exists a1. cbn. auto.
  - intros Hlt.
    assert (H : vmax < 0 + a1 * (0.5 * (T + 0))).
    { apply (mul_lt_reg T); [assumption|]. nra. }
    rewrite (proj2 (Rleb_false _ vmax)) by exact H. reflexivity.
Qed.

Lemma macc_rest_pmp x1 x2 vmax T :
  0 < vmax -> 0 < T -> x1 < x2 ->
  MinAccel.compute_p_minus_p_plus x1 x2 0 0 vmax T = None.
Proof.
  intros Hv HT Hd. unfold MinAccel.compute_p_minus_p_plus.
  rewrite solve_quadratic_roots by nra.
  match goal with |- context [sqrt ?e] => replace (sqrt e) with (4 * (x2 - x1)) end.
  2:{ symmetry. apply sqrt_lem_1; nra. }
  replace ((- (- 2 * T * (0 + 0) - 4 * (x1 - x2)) + 4 * (x2 - x1)) / (2 * T ^ 2)) with 0
    by (field; nra).
  set (a2 := (- (- 2 * T * (0 + 0) - 4 * (x1 - x2)) - 4 * (x2 - x1)) / (2 * T ^ 2)).
  assert (Ha2 : a2 * T ^ 2 = - 4 * (x2 - x1)) by (unfold a2; field; nra).
  clearbody a2.
  assert (Ha2neg : a2 < 0) by nra.
  cbn [filter].
  rewrite (proj2 (Rleb_true 0 0)) by lra.
  rewrite (proj2 (Rleb_true a2 0)) by lra. reflexivity.
Qed.

Lemma macc_rest_plp x1 x2 vmax T :
  0 < vmax -> 0 < T -> x1 < x2 ->
  (x2 - x1 < T * vmax -> T * vmax <= 2 * (x2 - x1) ->
   exists a, MinAccel.compute_p_plus_l_plus_p_minus x1 x2 0 0 vmax T
             = Some (Fin a, PpLpPm) /\
             0 < a /\ a * (T * vmax - (x2 - x1)) = vmax ^ 2) /\
  (T * vmax = x2 - x1 ->
   MinAccel.compute_p_plus_l_plus_p_minus x1 x2 0 0 vmax T = Some (Inf, PpLpPm)) /\
  (T * vmax < x2 - x1 \/ 2 * (x2 - x1) < T * vmax ->
   MinAccel.compute_p_plus_l_plus_p_minus x1 x2 0 0 vmax T = None).
Proof.
  intros Hv HT Hd.
  unfold MinAccel.compute_p_plus_l_plus_p_minus, MinAccel.cruise_candidate.
  replace (vmax ^ 2 - vmax * (0 + 0) + 0.5 * (0 ^ 2 + 0 ^ 2)) with (vmax ^ 2) by ring.
  replace (vmax - 0) with vmax by ring.
  set (den := T * vmax - (x2 - x1)).
  split; [|split].
  - intros H1 H2. assert (Hden : 0 < den) by (unfold den; lra).
    rewrite (proj2 (Reqb_false den 0)) by lra.
    set (a := vmax ^ 2 / den).
    assert (Ha : a * den = vmax ^ 2) by (unfold a; field; lra).
    clearbody a.
    assert (Hapos : 0 < a) by nra.
    rewrite (proj2 (Rleb_false a 0)) by lra.
    set (tp := vmax / a).
    assert (Htp : tp * a = vmax) by (unfold tp; field; lra).
    clearbody tp.
    assert (Htp0 : 0 < tp) by nra.
    assert (Htpd : tp * vmax = den).
    { apply (Rmult_eq_reg_r a); [|lra]. nra. }
    rewrite (proj2 (Rltb_false tp 0)) by lra. cbn [orb].
    assert (Htl : 0 <= T - tp - tp).
    { apply (mul_le_reg vmax); [assumption|]. unfold den in Htpd. nra. }
    rewrite (proj2 (Rltb_false (T - tp - tp) 0)) by lra.
    exists a. auto.
  - intros H. rewrite (proj2 (Reqb_true den 0)) by (unfold den; lra).
    rewrite (proj2 (Reqb_false (vmax ^ 2) 0)) by nra.
    rewrite (proj2 (Rltb_false T 0)) by lra. reflexivity.
  - intros [H|H].
    + assert (Hden : den < 0) by (unfold den; lra).
      rewrite (proj2 (Reqb_false den 0)) by lra.
      set (a := vmax ^ 2 / den).
      assert (Ha : a * den = vmax ^ 2) by (unfold a; field; lra).
      clearbody a.
      assert (Haneg : a < 0) by nra.
      rewrite (proj2 (Rleb_true a 0)) by lra. reflexivity.
    + assert (Hden : 0 < den) by (unfold den; lra).
      rewrite (proj2 (Reqb_false den 0)) by lra.
      set (a := vmax ^ 2 / den).
      assert (Ha : a * den = vmax ^ 2) by (unfold a; field; lra).
      clearbody a.
      assert (Hapos : 0 < a) by nra.
      rewrite (proj2 (Rleb_false a 0)) by lra.
      set (tp := vmax / a).
      assert (Htp : tp * a = vmax) by (unfold tp; field; lra).
      clearbody tp.
      assert (Htp0 : 0 < tp) by nra.
      assert (Htpd : tp * vmax = den).
      { apply (Rmult_eq_reg_r a); [|lra]. nra. }
      rewrite (proj2 (Rltb_false tp 0)) by lra. cbn [orb].
      assert (Htl : T - tp - tp < 0).
      { apply (mul_lt_reg vmax); [assumption|]. unfold den in Htpd. nra. }
      rewrite (proj2 (Rltb_true (T - tp - tp) 0)) by lra. reflexivity.
Qed.

Lemma macc_rest_pmlp x1 x2 vmax T :
  0 < vmax -> 0 < T -> x1 < x2 ->
  MinAccel.compute_p_minus_l_minus_p_plus x1 x2 0 0 vmax T = None.
Proof.
  intros Hv HT Hd.
  unfold MinAccel.compute_p_minus_l_minus_p_plus, MinAccel.cruise_candidate.
  replace (vmax ^ 2 + vmax * (0 + 0) + 0.5 * (0 ^ 2 + 0 ^ 2)) with (vmax ^ 2) by ring.
  replace (vmax + 0) with vmax by ring.
  set (den := T * vmax + (x2 - x1)).
  assert (Hden : 0 < den) by (unfold den; nra).
  rewrite (proj2 (Reqb_false den 0)) by lra.
  set (a := vmax ^ 2 / den).
  assert (Ha : a * den = vmax ^ 2) by (unfold a; field; lra).
  clearbody a.
  assert (Hapos : 0 < a) by nra.
  rewrite (proj2 (Rleb_false a 0)) by lra.
  set (tp := vmax / a).
  assert (Htp : tp * a = vmax) by (unfold tp; field; lra).
  clearbody tp.
  assert (Htp0 : 0 < tp) by nra.
  assert (Htpd : tp * vmax = den).
  { apply (Rmult_eq_reg_r a); [|lra]. nra. }
  rewrite (proj2 (Rltb_false tp 0)) by lra. cbn [orb].
  assert (Htl : T - tp - tp < 0).
  { apply (mul_lt_reg vmax); [assumption|]. unfold den in Htpd. nra. }
  rewrite (proj2 (Rltb_true (T - tp - tp) 0)) by lra. reflexivity.
Qed.


Lemma minimum_acceleration_select x1 x2 v1 v2 vmax T amax :
  MinAccel._minimum_acceleration_interpolants x1 x2 v1 v2 vmax T amax
  = select_min (MinAccel.valid_results x1 x2 v1 v2 vmax T) amax.
Proof.
  unfold MinAccel._minimum_acceleration_interpolants, MinAccel.selected, select_min.
  destruct (MinAccel.valid_results x1 x2 v1 v2 vmax T); reflexivity.
Qed.

Lemma Rmin_comm' a b : Rmin a b = Rmin b a.
Proof. apply Rmin_comm. Qed.

Lemma topt_mirror x1 x2 v1 v2 vmax amax :
  TimeOptimal._univariate_time_optimal_interpolants (- x1) (- x2) (- v1) (- v2) vmax amax
  = TimeOptimal._univariate_time_optimal_interpolants x1 x2 v1 v2 vmax amax.
Proof.
  unfold TimeOptimal._univariate_time_optimal_interpolants, TimeOptimal.times.
  rewrite topt_mirror_ppm, topt_mirror_pmp, topt_mirror_plp, topt_mirror_pmlp.
  destruct (TimeOptimal.compute_p_plus_p_minus x1 x2 v1 v2 vmax amax) as [a|],
    (TimeOptimal.compute_p_minus_p_plus x1 x2 v1 v2 vmax amax) as [b|],
    (TimeOptimal.compute_p_plus_l_plus_p_minus x1 x2 v1 v2 vmax amax) as [c|],
    (TimeOptimal.compute_p_minus_l_plus_p_plus x1 x2 v1 v2 vmax amax) as [d|];
    cbn; unfold list_min; cbn; try reflexivity; f_equal;
    unfold Rmin; repeat destruct (Rle_dec _ _); lra.
Qed.

Lemma topt_rest x1 x2 vmax amax :
  0 < vmax -> 0 < amax -> x1 <> x2 ->
  exists Ts,
    TimeOptimal._univariate_time_optimal_interpolants x1 x2 0 0 vmax amax = Some Ts /\
    rest_time vmax amax (Rabs (x2 - x1)) Ts.
Proof.
  intros Hv Ha Hne. destruct (Rlt_le_dec x1 x2) as [Hlt|Hge].
  - rewrite Rabs_pos_eq by lra. apply topt_rest_forward; assumption.
  - assert (Hgt : - x1 < - x2) by lra.
    destruct (topt_rest_forward (- x1) (- x2) vmax amax Hv Ha Hgt) as (Ts & H1 & H2).
    exists Ts. split.
    + rewrite <- H1. rewrite <- topt_mirror, Ropp_0. reflexivity.
    + rewrite Rabs_left by lra. unfold rest_time.
      replace (- (x2 - x1)) with (- x2 - - x1) by ring. exact H2.
Qed.

Lemma macc_rest_results x1 x2 vmax T :
  0 < vmax -> 0 < T -> x1 <> x2 ->
  exists cA cC tagA tagC,
    MinAccel.valid_results x1 x2 0 0 vmax T = TimeOptimal.keep_some [cA; cC] /\
    rest_bang vmax T (Rabs (x2 - x1)) tagA cA /\
    rest_cruise vmax T (Rabs (x2 - x1)) tagC cC.
Proof.
  intros Hv HT Hne. unfold MinAccel.valid_results.
  destruct (Rlt_le_dec x1 x2) as [Hlt|Hge].
  - rewrite Rabs_pos_eq by lra.
    rewrite (macc_rest_pmp x1 x2 vmax T Hv HT Hlt), (macc_rest_pmlp x1 x2 vmax T Hv HT Hlt).
    exists (MinAccel.compute_p_plus_p_minus x1 x2 0 0 vmax T),
      (MinAccel.compute_p_plus_l_plus_p_minus x1 x2 0 0 vmax T), PpPm, PpLpPm.
    split; [|split].
    + destruct (MinAccel.compute_p_plus_p_minus x1 x2 0 0 vmax T); reflexivity.
    + apply macc_rest_ppm; assumption.
    + apply macc_rest_plp; assumption.
  - assert (Hgt : - x1 < - x2) by lra.
    rewrite Rabs_left by lra. replace (- (x2 - x1)) with (- x2 - - x1) by ring.
    pose proof (macc_mirror_ppm (- x1) (- x2) 0 0 vmax T) as E1.
    pose proof (macc_mirror_pmp (- x1) (- x2) 0 0 vmax T) as E2.
    pose proof (macc_mirror_plp (- x1) (- x2) 0 0 vmax T) as E3.
    pose proof (macc_mirror_pmlp (- x1) (- x2) 0 0 vmax T) as E4.
    rewrite !Ropp_involutive, !Ropp_0 in E1, E2, E3, E4.
    rewrite E1, E2, E3, E4.
    rewrite (macc_rest_pmp (- x1) (- x2) vmax T Hv HT Hgt),
      (macc_rest_pmlp (- x1) (- x2) vmax T Hv HT Hgt).
    exists (mirror_candidate (MinAccel.compute_p_plus_p_minus (- x1) (- x2) 0 0 vmax T)),
      (mirror_candidate (MinAccel.compute_p_plus_l_plus_p_minus (- x1) (- x2) 0 0 vmax T)),
      PmPp, PmLmPp.
    split; [|split].
    + cbn [mirror_candidate].
      destruct (mirror_candidate (MinAccel.compute_p_plus_p_minus (- x1) (- x2) 0 0 vmax T));
        reflexivity.
    + destruct (macc_rest_ppm (- x1) (- x2) vmax T Hv HT Hgt) as [A1 A2]. split.
      * intros H. destruct (A1 H) as (a & -> & H1 & H2). exists a. cbn. auto.
      * intros H. rewrite (A2 H). reflexivity.
    + destruct (macc_rest_plp (- x1) (- x2) vmax T Hv HT Hgt) as (C1 & C2 & C3).
      split; [|split].
      * intros H H'. destruct (C1 H H') as (a & -> & H1 & H2). exists a. cbn. auto.
      * intros H. rewrite (C2 H). reflexivity.
      * intros H. rewrite (C3 H). reflexivity.
Qed.


Lemma sq_mono x y : 0 <= x -> x <= y -> x ^ 2 <= y ^ 2.
Proof. intros. apply pow_incr. lra. Qed.


Lemma clip_id a amax : 0 < a -> a <= amax -> clip a 0 amax = a.
Proof.
  intros H1 H2. unfold clip. rewrite Rmax_left by lra. apply Rmin_left. assumption.
Qed.

Lemma select_min_single a tag amax :
  0 < a -> a <= amax ->
  select_min [(Fin a, tag)] amax = Ok (Some (a, tag)).
Proof.
  intros H1 H2. unfold select_min, min_by_key. cbn [fold_left accel_leb].
  unfold a_margin. rewrite (proj2 (Rleb_true a (amax + 1e-6))) by lra.
  rewrite clip_id by assumption. reflexivity.
Qed.

(** At a duration that is at least the time-optimal one, a segment between
    two different states at rest has a valid primitive within [amax]. *)
Lemma rest_select_ok vmax amax d Ts T tagA tagC cA cC :
  0 < vmax -> 0 < amax -> 0 < d ->
  rest_time vmax amax d Ts -> Ts <= T ->
  rest_bang vmax T d tagA cA -> rest_cruise vmax T d tagC cC ->
  exists a tag,
    select_min (TimeOptimal.keep_some [cA; cC]) amax = Ok (Some (a, tag)) /\
    0 < a <= amax /\
    In (Fin a, tag) (TimeOptimal.keep_some [cA; cC]).
Proof.
  intros Hv Ha Hd (HTs & Hcase) HT (A1 & A2) (C1 & C2 & C3).
  assert (HTpos : 0 < T) by lra.
  assert (Hlow : d < T * vmax).
  { destruct Hcase as [[E1 E2]|[E1 E2]].
    - assert (2 * d <= Ts * vmax) by nra. nra.
    - assert (d < Ts * vmax) by nra. nra. }
  destruct (Rlt_le_dec (2 * d) (T * vmax)) as [Hbig|Hsmall].
  - (* only the bang-bang candidate *)
    destruct (A1 ltac:(lra)) as (a & -> & Hapos & HaT).
    rewrite (C3 (or_intror Hbig)). cbn [TimeOptimal.keep_some flat_map app].
    assert (Hale : a <= amax).
    { destruct Hcase as [[E1 E2]|[E1 E2]].
      - pose proof (sq_mono Ts T ltac:(lra) HT).
        assert (amax * Ts ^ 2 <= amax * T ^ 2) by nra.
        apply (mul_le_reg (T ^ 2)); nra.
      - assert (H1 : vmax ^ 2 + amax * d <= vmax * amax * T) by nra.
        assert (H2 : 4 * d * vmax ^ 2 <= amax * (T * vmax) ^ 2) by nra.
        apply (mul_le_reg ((T * vmax) ^ 2)); [nra|]. nra. }
    exists a, tagA. rewrite select_min_single by assumption.
    split; [reflexivity|]. split; [lra|]. left. reflexivity.
  - destruct (Rle_lt_dec (2 * d) (T * vmax)) as [Heq|Hlt].
    + (* both candidates, with the same acceleration *)
      destruct (A1 ltac:(lra)) as (a & -> & Hapos & HaT).
      destruct (C1 Hlow Hsmall) as (a' & -> & Ha'pos & Ha').
      cbn [TimeOptimal.keep_some flat_map app].
      assert (HTv : T * vmax = 2 * d) by lra.
      assert (Ea : a' = a).
      { apply (Rmult_eq_reg_r (d * T ^ 2)); [|nra].
        replace (a' * (d * T ^ 2)) with ((a' * (T * vmax - d)) * T ^ 2)
          by (rewrite HTv; ring).
        rewrite Ha'. replace (a * (d * T ^ 2)) with ((a * T ^ 2) * d) by ring.
        rewrite HaT. nra. }
      subst a'.
      assert (Hale : a <= amax).
      { destruct Hcase as [[E1 E2]|[E1 E2]].
        - pose proof (sq_mono Ts T ltac:(lra) HT).
          assert (amax * Ts ^ 2 <= amax * T ^ 2) by nra.
          apply (mul_le_reg (T ^ 2)); nra.
        - apply (mul_le_reg (T * vmax - d)); [lra|]. rewrite Ha'. nra. }
      exists a, tagA. split; [|split; [lra|left; reflexivity]].
      unfold select_min, min_by_key. cbn [fold_left fst accel_ltb].
      rewrite (proj2 (Rltb_false a a)) by lra. cbn [accel_leb].
      unfold a_margin. rewrite (proj2 (Rleb_true a (amax + 1e-6))) by lra.
      rewrite clip_id by assumption. reflexivity.
    + (* only the cruise candidate *)
      rewrite (A2 ltac:(lra)).
      destruct (C1 Hlow Hsmall) as (a' & -> & Ha'pos & Ha').
      cbn [TimeOptimal.keep_some flat_map app].
      assert (Hale : a' <= amax).
      { apply (mul_le_reg (T * vmax - d)); [lra|]. rewrite Ha'.
        destruct Hcase as [[E1 E2]|[E1 E2]].
        - exfalso.
          assert (H1 : amax * Ts * Ts <= 2 * vmax * Ts) by nra.
          assert (H2 : 2 * d <= vmax * Ts) by nra.
          nra.
        - nra. }
      exists a', tagC. rewrite select_min_single by assumption.
      split; [reflexivity|]. split; [lra|]. left. reflexivity.
Qed.



(** ** Two states at rest with the same position *)

Lemma topt_rest_same x vmax amax :
  0 < vmax -> 0 < amax ->
  TimeOptimal._univariate_time_optimal_interpolants x x 0 0 vmax amax = Some 0.
Proof.
  intros Hv Ha.
  assert (HA : TimeOptimal.compute_p_plus_p_minus x x 0 0 vmax amax = Some 0).
  { unfold TimeOptimal.compute_p_plus_p_minus.
    replace ((0 ^ 2 - 0 ^ 2) / (2 * amax) + x - x) with 0 by (field; lra).
    rewrite solve_quadratic_roots by nra.
    replace ((2 * 0) ^ 2 - 4 * amax * 0) with 0 by ring. rewrite sqrt_0.
    replace ((- (2 * 0) + 0) / (2 * amax)) with 0 by (field; lra).
    replace ((0 - 0) / amax) with 0 by (field; lra).
    set (u := (vmax - 0) / amax).
    assert (Hu : u * amax = vmax) by (unfold u; field; lra). clearbody u.
    assert (0 < u) by nra.
    rewrite (Rmax_left 0 0) by lra. cbn [filter].
    rewrite (proj2 (Rleb_true 0 0)) by lra.
    rewrite (proj2 (Rleb_true 0 u)) by lra. cbn [andb]. f_equal. lra. }
  assert (HB : TimeOptimal.compute_p_minus_p_plus x x 0 0 vmax amax = Some 0).
  { unfold TimeOptimal.compute_p_minus_p_plus.
    replace ((0 ^ 2 - 0 ^ 2) / (2 * amax) + x - x) with 0 by (field; lra).
    rewrite solve_quadratic_roots by nra.
    replace ((- 2 * 0) ^ 2 - 4 * amax * 0) with 0 by ring. rewrite sqrt_0.
    replace ((- (- 2 * 0) + 0) / (2 * amax)) with 0 by (field; lra).
    replace ((0 - 0) / amax) with 0 by (field; lra).
    set (u := (vmax + 0) / amax).
    assert (Hu : u * amax = vmax) by (unfold u; field; lra). clearbody u.
    assert (0 < u) by nra.
    rewrite (Rmax_left 0 0) by lra. cbn [filter].
    rewrite (proj2 (Rleb_true 0 0)) by lra.
    rewrite (proj2 (Rleb_true 0 u)) by lra. cbn [andb]. f_equal. lra. }
  assert (HC : TimeOptimal.compute_p_plus_l_plus_p_minus x x 0 0 vmax amax = None).
  { unfold TimeOptimal.compute_p_plus_l_plus_p_minus.
    set (u := (vmax - 0) / amax).
    assert (Hu : u * amax = vmax) by (unfold u; field; lra).
    set (tl := (0 ^ 2 + 0 ^ 2 - 2 * vmax ^ 2) / (2 * vmax * amax) + (x - x) / vmax).
    assert (Htl : tl * amax = - vmax) by (unfold tl; field; lra).
    clearbody u tl.
    assert (0 < u) by nra. assert (tl < 0) by nra.
    rewrite (proj2 (Rltb_false u 0)) by lra.
    rewrite (proj2 (Rltb_true tl 0)) by lra. reflexivity. }
  assert (HD : TimeOptimal.compute_p_minus_l_plus_p_plus x x 0 0 vmax amax = None).
  { unfold TimeOptimal.compute_p_minus_l_plus_p_plus.
    set (u := (vmax + 0) / amax).
    assert (Hu : u * amax = vmax) by (unfold u; field; lra).
    set (tl := (0 ^ 2 + 0 ^ 2 - 2 * vmax ^ 2) / (2 * vmax * amax) - (x - x) / vmax).
    assert (Htl : tl * amax = - vmax) by (unfold tl; field; lra).
    clearbody u tl.
    assert (0 < u) by nra. assert (tl < 0) by nra.
    rewrite (proj2 (Rltb_false u 0)) by lra.
    rewrite (proj2 (Rltb_true tl 0)) by lra. reflexivity. }
  unfold TimeOptimal._univariate_time_optimal_interpolants, TimeOptimal.times.
  rewrite HA, HB, HC, HD. cbn. unfold list_min. cbn.
  rewrite Rmin_left by lra. reflexivity.
Qed.

(** With no displacement and no velocity every class is discarded: the
    bang-bang roots are [0], and the cruise classes would need two ramps of
    duration [T] each. *)
Lemma macc_rest_same_raises x vmax T amax :
  0 < vmax -> 0 < T ->
  MinAccel._minimum_acceleration_interpolants x x 0 0 vmax T amax = Raise ValueError.
Proof.
  intros Hv HT.
  assert (HA : MinAccel.compute_p_plus_p_minus x x 0 0 vmax T = None).
  { unfold MinAccel.compute_p_plus_p_minus.
    replace (2 * T * (0 + 0) + 4 * (x - x)) with 0 by ring.
    replace (- (0 - 0) ^ 2) with 0 by ring.
    rewrite solve_quadratic_roots by nra.
    replace (0 ^ 2 - 4 * T ^ 2 * 0) with 0 by ring. rewrite sqrt_0.
    replace ((- 0 + 0) / (2 * T ^ 2)) with 0 by (field; nra).
    replace ((- 0 - 0) / (2 * T ^ 2)) with 0 by (field; nra).
    cbn [filter]. rewrite (proj2 (Rleb_true 0 0)) by lra. reflexivity. }
  assert (HB : MinAccel.compute_p_minus_p_plus x x 0 0 vmax T = None).
  { unfold MinAccel.compute_p_minus_p_plus.
    replace (- 2 * T * (0 + 0) - 4 * (x - x)) with 0 by ring.
    replace (- (0 - 0) ^ 2) with 0 by ring.
    rewrite solve_quadratic_roots by nra.
    replace (0 ^ 2 - 4 * T ^ 2 * 0) with 0 by ring. rewrite sqrt_0.
    replace ((- 0 + 0) / (2 * T ^ 2)) with 0 by (field; nra).
    replace ((- 0 - 0) / (2 * T ^ 2)) with 0 by (field; nra).
    cbn [filter]. rewrite (proj2 (Rleb_true 0 0)) by lra. reflexivity. }
  assert (Hcruise : forall tag,
            MinAccel.cruise_candidate T (vmax ^ 2) (T * vmax) vmax vmax tag = None).
  { intros tag. unfold MinAccel.cruise_candidate.
    rewrite (proj2 (Reqb_false (T * vmax) 0)) by nra.
    set (a := vmax ^ 2 / (T * vmax)).
    assert (Ha : a * T = vmax) by (unfold a; field; lra). clearbody a.
    assert (Hapos : 0 < a) by nra.
    rewrite (proj2 (Rleb_false a 0)) by lra.
    replace (vmax / a) with T by (rewrite <- Ha; field; lra).
    rewrite (proj2 (Rltb_false T 0)) by lra. cbn [orb].
    rewrite (proj2 (Rltb_true (T - T - T) 0)) by lra. reflexivity. }
  assert (HC : MinAccel.compute_p_plus_l_plus_p_minus x x 0 0 vmax T = None).
  { unfold MinAccel.compute_p_plus_l_plus_p_minus.
    replace (vmax ^ 2 - vmax * (0 + 0) + 0.5 * (0 ^ 2 + 0 ^ 2)) with (vmax ^ 2) by ring.
    replace (T * vmax - (x - x)) with (T * vmax) by ring.
    replace (vmax - 0) with vmax by ring. apply Hcruise. }
  assert (HD : MinAccel.compute_p_minus_l_minus_p_plus x x 0 0 vmax T = None).
  { unfold MinAccel.compute_p_minus_l_minus_p_plus.
    replace (vmax ^ 2 + vmax * (0 + 0) + 0.5 * (0 ^ 2 + 0 ^ 2)) with (vmax ^ 2) by ring.
    replace (T * vmax + (x - x)) with (T * vmax) by ring.
    replace (vmax + 0) with vmax by ring. apply Hcruise. }
  unfold MinAccel._minimum_acceleration_interpolants, MinAccel.selected,
    MinAccel.valid_results.
  rewrite HA, HB, HC, HD. reflexivity.
Qed.

(** ** The two solvers between two different states at rest *)

Lemma macc_rest_ok x1 x2 vmax amax Ts T :
  0 < vmax -> 0 < amax -> x1 <> x2 ->
  TimeOptimal._univariate_time_optimal_interpolants x1 x2 0 0 vmax amax = Some Ts ->
  Ts <= T ->
  exists a tag,
    MinAccel._minimum_acceleration_interpolants x1 x2 0 0 vmax T amax = Ok (Some (a, tag)) /\
    0 < a <= amax.
Proof.
  intros Hv Ha Hne HTs HT.
  destruct (topt_rest x1 x2 vmax amax Hv Ha Hne) as (Ts' & E & Hrt).
  rewrite HTs in E. injection E as <-.
  assert (Hd : 0 < Rabs (x2 - x1)) by (apply Rabs_pos_lt; lra).
  assert (HTpos : 0 < T) by (destruct Hrt; lra).
  destruct (macc_rest_results x1 x2 vmax T Hv HTpos Hne)
    as (cA & cC & tagA & tagC & Ev & HA & HC).
  destruct (rest_select_ok vmax amax _ Ts T tagA tagC cA cC Hv Ha Hd Hrt HT HA HC)
    as (a & tag & Hsel & Hrange & _).
  exists a, tag. rewrite minimum_acceleration_select, Ev. auto.
Qed.


(** ** The phases of a primitive and its two ends *)

Lemma compute_trajectory_state_phase x1 x2 v1 v2 a vmax T tag t :
  _compute_trajectory_state x1 x2 v1 v2 a vmax T tag t
  = phase_form x1 v1 v2 a vmax T tag
               (phase_index (switch_times v1 v2 a vmax T tag) t) t.
Proof.
  destruct tag; cbn [_compute_trajectory_state switch_times phase_index].
  - destruct (Rleb t _); reflexivity.
  - destruct (Rleb t _); reflexivity.
  - destruct (Rleb t ((vmax - v1) / a)); [reflexivity|].
    destruct (Rleb t _); reflexivity.
  - destruct (Rleb t ((vmax + v1) / a)); [reflexivity|].
    destruct (Rleb t _); reflexivity.
Qed.

(** The closed forms of two adjoining branches agree at the time where the
    branch changes. *)
Lemma phase_forms_agree x1 v1 v2 a vmax T tag k b :
  a <> 0 ->
  nth_error (switch_times v1 v2 a vmax T tag) k = Some b ->
  phase_form x1 v1 v2 a vmax T tag k b = phase_form x1 v1 v2 a vmax T tag (S k) b.
Proof.
  intros Ha Hb. destruct tag; cbn [switch_times] in Hb.
  - destruct k as [|[|k]]; cbn in Hb; try discriminate. injection Hb as <-.
    cbn [phase_form]. f_equal; ring.
  - destruct k as [|[|k]]; cbn in Hb; try discriminate. injection Hb as <-.
    cbn [phase_form]. f_equal; ring.
  - destruct k as [|[|[|k]]]; cbn in Hb; try discriminate; injection Hb as <-;
      cbn [phase_form]; f_equal; field; assumption.
  - destruct k as [|[|[|k]]]; cbn in Hb; try discriminate; injection Hb as <-;
      cbn [phase_form]; f_equal; field; assumption.
Qed.

(** ** What a candidate of [valid_results] satisfies *)

Lemma solve_quadratic_in a b c r :
  a <> 0 -> In r (solve_quadratic a b c) -> a * r ^ 2 + b * r + c = 0.
Proof.
  intros Ha. unfold solve_quadratic.
  destruct (Rltb (b ^ 2 - 4 * a * c) 0) eqn:E; [intros []|].
  apply Rltb_false in E.
  pose proof (sqrt_sqrt _ E) as Hs. set (s := sqrt _) in *. clearbody s.
  intros [<-|[<-|[]]]; field_simplify_eq; try assumption; nra.
Qed.

Lemma cruise_candidate_inv T num den n1 n2 tag a tag' :
  MinAccel.cruise_candidate T num den n1 n2 tag = Some (Fin a, tag') ->
  tag' = tag /\ den <> 0 /\ a * den = num /\ 0 < a /\
  0 <= n1 / a /\ 0 <= n2 / a /\ 0 <= T - n1 / a - n2 / a.
Proof.
  unfold MinAccel.cruise_candidate.
  destruct (Reqb den 0) eqn:Ed.
  { destruct (Reqb num 0); [discriminate|]. destruct (Rltb T 0); discriminate. }
  apply Reqb_false in Ed.
  destruct (Rleb (num / den) 0) eqn:Ea; [discriminate|]. apply Rleb_false in Ea.
  destruct (Rltb (n1 / (num / den)) 0) eqn:E1; [discriminate|].
  destruct (Rltb (n2 / (num / den)) 0) eqn:E2; [discriminate|].
  destruct (Rltb (T - n1 / (num / den) - n2 / (num / den)) 0) eqn:E3; [discriminate|].
  cbn [orb]. intros H. injection H as <- <-.
  apply Rltb_false in E1, E2, E3.
  repeat split; try assumption. field. assumption.
Qed.

Lemma cruise_candidate_tag T num den n1 n2 tag c tag' :
  MinAccel.cruise_candidate T num den n1 n2 tag = Some (c, tag') -> tag' = tag.
Proof.
  unfold MinAccel.cruise_candidate.
  repeat match goal with
         | |- context [if ?b then _ else _] => destruct b
         end; intros H; try discriminate; injection H as _ <-; reflexivity.
Qed.

Lemma p_plus_p_minus_inv x1 x2 v1 v2 vmax T c tag :
  T <> 0 ->
  MinAccel.compute_p_plus_p_minus x1 x2 v1 v2 vmax T = Some (c, tag) ->
  tag = PpPm /\ exists a, c = Fin a /\ 0 < a /\
  T ^ 2 * a ^ 2 + (2 * T * (v1 + v2) + 4 * (x1 - x2)) * a - (v2 - v1) ^ 2 = 0 /\
  0 < 0.5 * (T + (v2 - v1) / a) < T + t_margin /\
  Rabs (v1 + a * (0.5 * (T + (v2 - v1) / a))) <= vmax.
Proof.
  intros HT. unfold MinAccel.compute_p_plus_p_minus.
  set (f := fun a : R => _). set (sols := solve_quadratic _ _ _).
  destruct (filter f sols) as [|a0 rest] eqn:E; [discriminate|].
  intros H. injection H as <- <-. split; [reflexivity|].
  exists (list_min a0 rest). split; [reflexivity|].
  pose proof (list_min_in a0 rest) as Hin. rewrite <- E in Hin.
  apply filter_In in Hin. destruct Hin as [Hin Hf].
  apply solve_quadratic_in in Hin; [|apply pow_nonzero; assumption].
  set (a := list_min a0 rest) in *. clearbody a. unfold f in Hf.
  destruct (Rleb a 0) eqn:Ea; [discriminate|]. apply Rleb_false in Ea.
  apply andb_prop in Hf. destruct Hf as [Hf H3].
  apply andb_prop in Hf. destruct Hf as [H1 H2].
  apply Rltb_true in H1, H2. apply Rleb_true in H3.
  repeat split; assumption.
Qed.

Lemma p_minus_p_plus_inv x1 x2 v1 v2 vmax T c tag :
  T <> 0 ->
  MinAccel.compute_p_minus_p_plus x1 x2 v1 v2 vmax T = Some (c, tag) ->
  tag = PmPp /\ exists a, c = Fin a /\ 0 < a /\
  T ^ 2 * a ^ 2 + (- 2 * T * (v1 + v2) - 4 * (x1 - x2)) * a - (v2 - v1) ^ 2 = 0 /\
  0 < 0.5 * (T + (v1 - v2) / a) < T + t_margin /\
  Rabs (v1 - a * (0.5 * (T + (v1 - v2) / a))) <= vmax.
Proof.
  intros HT. unfold MinAccel.compute_p_minus_p_plus.
  set (f := fun a : R => _). set (sols := solve_quadratic _ _ _).
  destruct (filter f sols) as [|a0 rest] eqn:E; [discriminate|].
  intros H. injection H as <- <-. split; [reflexivity|].
  exists (list_min a0 rest). split; [reflexivity|].
  pose proof (list_min_in a0 rest) as Hin. rewrite <- E in Hin.
  apply filter_In in Hin. destruct Hin as [Hin Hf].
  apply solve_quadratic_in in Hin; [|apply pow_nonzero; assumption].
  set (a := list_min a0 rest) in *. clearbody a. unfold f in Hf.
  destruct (Rleb a 0) eqn:Ea; [discriminate|]. apply Rleb_false in Ea.
  apply andb_prop in Hf. destruct Hf as [Hf H3].
  apply andb_prop in Hf. destruct Hf as [H1 H2].
  apply Rltb_true in H1, H2. apply Rleb_true in H3.
  repeat split; assumption.
Qed.

(** The four cases of a finite candidate of [valid_results]. *)
Lemma valid_results_inv x1 x2 v1 v2 vmax T a tag :
  T <> 0 ->
  In (Fin a, tag) (MinAccel.valid_results x1 x2 v1 v2 vmax T) ->
  0 < a /\
  match tag with
  | PpPm =>
      T ^ 2 * a ^ 2 + (2 * T * (v1 + v2) + 4 * (x1 - x2)) * a - (v2 - v1) ^ 2 = 0 /\
      0 < 0.5 * (T + (v2 - v1) / a) < T + t_margin
  | PmPp =>
      T ^ 2 * a ^ 2 + (- 2 * T * (v1 + v2) - 4 * (x1 - x2)) * a - (v2 - v1) ^ 2 = 0 /\
      0 < 0.5 * (T + (v1 - v2) / a) < T + t_margin
  | PpLpPm =>
      a * (T * vmax - (x2 - x1)) = vmax ^ 2 - vmax * (v1 + v2) + 0.5 * (v1 ^ 2 + v2 ^ 2) /\
      0 <= (vmax - v1) / a /\ 0 <= (vmax - v2) / a /\
      0 <= T - (vmax - v1) / a - (vmax - v2) / a
  | PmLmPp =>
      a * (T * vmax + (x2 - x1)) = vmax ^ 2 + vmax * (v1 + v2) + 0.5 * (v1 ^ 2 + v2 ^ 2) /\
      0 <= (vmax + v1) / a /\ 0 <= (vmax + v2) / a /\
      0 <= T - (vmax + v1) / a - (vmax + v2) / a
  end.
Proof.
  intros HT Hin. unfold MinAccel.valid_results in Hin. apply keep_some_in in Hin.
  destruct Hin as [H|[H|[H|[H|[]]]]].
  - apply p_plus_p_minus_inv in H; [|assumption].
    destruct H as (-> & a' & E & Ha & Hq & Hts & _). injection E as <-. tauto.
  - apply p_minus_p_plus_inv in H; [|assumption].
    destruct H as (-> & a' & E & Ha & Hq & Hts & _). injection E as <-. tauto.
  - apply cruise_candidate_inv in H. destruct H as (-> & _ & H). tauto.
  - apply cruise_candidate_inv in H. destruct H as (-> & _ & H). tauto.
Qed.

(** ** The two ends of a candidate *)

Lemma pair_eq (a b c d : R) : a = c -> b = d -> (a, b) = (c, d).
Proof. intros -> ->. reflexivity. Qed.

Lemma state_at_start x1 x2 v1 v2 vmax T a tag :
  T <> 0 ->
  In (Fin a, tag) (MinAccel.valid_results x1 x2 v1 v2 vmax T) ->
  _compute_trajectory_state x1 x2 v1 v2 a vmax T tag 0 = (x1, v1).
Proof.
  intros HT Hin. apply valid_results_inv in Hin; [|assumption].
  destruct Hin as [Ha Hin].
  destruct tag; cbn [_compute_trajectory_state].
  - destruct Hin as (_ & Hts & _).
    rewrite (proj2 (Rleb_true _ _)) by lra. apply pair_eq; ring.
  - destruct Hin as (_ & Hts & _).
    rewrite (proj2 (Rleb_true _ _)) by lra. apply pair_eq; ring.
  - destruct Hin as (_ & H1 & _).
    rewrite (proj2 (Rleb_true 0 _)) by lra. apply pair_eq; ring.
  - destruct Hin as (_ & H1 & _).
    rewrite (proj2 (Rleb_true 0 _)) by lra. apply pair_eq; ring.
Qed.

Lemma state_at_end x1 x2 v1 v2 vmax T a tag :
  T <> 0 ->
  In (Fin a, tag) (MinAccel.valid_results x1 x2 v1 v2 vmax T) ->
  switch_within v1 v2 a T tag ->
  _compute_trajectory_state x1 x2 v1 v2 a vmax T tag T = (x2, v2).
Proof.
  intros HT Hin Hsw. apply valid_results_inv in Hin; [|assumption].
  destruct Hin as [Ha Hin].
  destruct tag; cbn [_compute_trajectory_state switch_within] in *.
  - destruct Hin as (Hq & Hts).
    set (q := (v2 - v1) / a) in *.
    assert (Hqa : q * a = v2 - v1) by (unfold q; field; lra). clearbody q.
    destruct (Rleb T (0.5 * (T + q))) eqn:E.
    + apply Rleb_true in E. assert (q = T) by lra. subst q.
      apply pair_eq; [|lra].
      assert (a * (x2 - x1 - v1 * T - 0.5 * a * T ^ 2) = 0) by nra.
      assert (x2 - x1 - v1 * T - 0.5 * a * T ^ 2 = 0) by nra. lra.
    + apply pair_eq; [|nra].
      assert (a * (x1 + v1 * (0.5 * (T + q)) + 0.5 * a * (0.5 * (T + q)) ^ 2
                   + (v1 + a * (0.5 * (T + q))) * (T - 0.5 * (T + q))
                   - 0.5 * a * (T - 0.5 * (T + q)) ^ 2 - x2) = 0) by nra.
      nra.
  - destruct Hin as (Hq & Hts).
    set (q := (v1 - v2) / a) in *.
    assert (Hqa : q * a = v1 - v2) by (unfold q; field; lra). clearbody q.
    destruct (Rleb T (0.5 * (T + q))) eqn:E.
    + apply Rleb_true in E. assert (q = T) by lra. subst q.
      apply pair_eq; [|lra].
      assert (a * (x2 - x1 - v1 * T + 0.5 * a * T ^ 2) = 0) by nra.
      assert (x2 - x1 - v1 * T + 0.5 * a * T ^ 2 = 0) by nra. lra.
    + apply pair_eq; [|nra].
      assert (a * (x1 + v1 * (0.5 * (T + q)) - 0.5 * a * (0.5 * (T + q)) ^ 2
                   + (v1 - a * (0.5 * (T + q))) * (T - 0.5 * (T + q))
                   + 0.5 * a * (T - 0.5 * (T + q)) ^ 2 - x2) = 0) by nra.
      nra.
  - destruct Hin as (Hq & H1 & H2 & H3).
    set (p1 := (vmax - v1) / a) in *. set (p2 := (vmax - v2) / a) in *.
    assert (Hp1 : p1 * a = vmax - v1) by (unfold p1; field; lra).
    assert (Hp2 : p2 * a = vmax - v2) by (unfold p2; field; lra).
    clearbody p1 p2.
    assert (Hx : a * (x1 + v1 * p1 + 0.5 * a * p1 ^ 2 + vmax * (T - p1 - p2)
                      + vmax * p2 - 0.5 * a * p2 ^ 2 - x2) = 0) by nra.
    assert (Hx' : x1 + v1 * p1 + 0.5 * a * p1 ^ 2 + vmax * (T - p1 - p2)
                  + vmax * p2 - 0.5 * a * p2 ^ 2 - x2 = 0) by nra.
    destruct (Rleb T p1) eqn:E1; [|destruct (Rleb T (p1 + (T - p1 - p2))) eqn:E2].
    + apply Rleb_true in E1. assert (p1 = T) by lra. assert (p2 = 0) by lra. subst p1 p2.
      apply pair_eq; nra.
    + apply Rleb_true in E2. assert (p2 = 0) by lra. subst p2.
      apply pair_eq; nra.
    + apply pair_eq; nra.
  - destruct Hin as (Hq & H1 & H2 & H3).
    set (p1 := (vmax + v1) / a) in *. set (p2 := (vmax + v2) / a) in *.
    assert (Hp1 : p1 * a = vmax + v1) by (unfold p1; field; lra).
    assert (Hp2 : p2 * a = vmax + v2) by (unfold p2; field; lra).
    clearbody p1 p2.
    assert (Hx : a * (x1 + v1 * p1 - 0.5 * a * p1 ^ 2 + (- vmax) * (T - p1 - p2)
                      + (- vmax) * p2 + 0.5 * a * p2 ^ 2 - x2) = 0) by nra.
    assert (Hx' : x1 + v1 * p1 - 0.5 * a * p1 ^ 2 + (- vmax) * (T - p1 - p2)
                  + (- vmax) * p2 + 0.5 * a * p2 ^ 2 - x2 = 0) by nra.
    destruct (Rleb T p1) eqn:E1; [|destruct (Rleb T (p1 + (T - p1 - p2))) eqn:E2].
    + apply Rleb_true in E1. assert (p1 = T) by lra. assert (p2 = 0) by lra. subst p1 p2.
      apply pair_eq; nra.
    + apply Rleb_true in E2. assert (p2 = 0) by lra. subst p2.
      apply pair_eq; nra.
    + apply pair_eq; nra.
Qed.

(** ** What [_minimum_acceleration_interpolants] returns *)

Lemma minimum_acceleration_returns x1 x2 v1 v2 vmax T amax a tag :
  MinAccel._minimum_acceleration_interpolants x1 x2 v1 v2 vmax T amax = Ok (Some (a, tag)) ->
  exists a_min,
    MinAccel.selected x1 x2 v1 v2 vmax T = Some (Fin a_min, tag) /\
    a_min <= amax + a_margin /\ a = clip a_min 0 amax.
Proof.
  unfold MinAccel._minimum_acceleration_interpolants.
  destruct (MinAccel.selected x1 x2 v1 v2 vmax T) as [[c tag']|]; [|discriminate].
  destruct (accel_leb c (amax + a_margin)) eqn:E; [|discriminate].
  destruct c as [a_min| |]; try discriminate.
  intros H. injection H as <- <-. exists a_min.
  cbn in E. apply Rleb_true in E. auto.
Qed.

Lemma clip_pos a amax : 0 < a -> 0 < amax -> 0 < clip a 0 amax <= amax.
Proof.
  intros Ha Hm. unfold clip. rewrite Rmax_left by lra.
  unfold Rmin. destruct (Rle_dec a amax); lra.
Qed.

(** A bang-bang instance whose switch falls after the duration: the
    velocities are [0] and [1], the duration is [1], and the switch of the
    selected P+P- primitive is at [1.00005]. *)
Lemma late_switch_instance :
  MinAccel._minimum_acceleration_interpolants 0 (199999999 / 400040000) 0 1 2 1 1
  = Ok (Some (10000 / 10001, PpPm)).
Proof.
  assert (H1 : MinAccel.compute_p_plus_p_minus 0 (199999999 / 400040000) 0 1 2 1
               = Some (Fin (10000 / 10001), PpPm)).
  { unfold MinAccel.compute_p_plus_p_minus.
    rewrite solve_quadratic_roots by lra.
    match goal with |- context [sqrt ?e] => replace (sqrt e) with (200020001 / 100010000) end.
    2:{ symmetry. apply sqrt_lem_1; lra. }
    match goal with |- context [(?n + 200020001 / 100010000) / ?d] =>
      replace ((n + 200020001 / 100010000) / d) with (10000 / 10001) by lra end.
    match goal with |- context [(?n - 200020001 / 100010000) / ?d] =>
      replace ((n - 200020001 / 100010000) / d) with (- (10001 / 10000)) by lra end.
    replace ((1 - 0) / (10000 / 10001)) with (10001 / 10000) by (field; lra).
    cbn [filter]. unfold t_margin. rsimpl lra. reflexivity. }
  assert (H2 : MinAccel.compute_p_minus_p_plus 0 (199999999 / 400040000) 0 1 2 1
               = Some (Fin (10001 / 10000), PmPp)).
  { unfold MinAccel.compute_p_minus_p_plus.
    rewrite solve_quadratic_roots by lra.
    match goal with |- context [sqrt ?e] => replace (sqrt e) with (200020001 / 100010000) end.
    2:{ symmetry. apply sqrt_lem_1; lra. }
    match goal with |- context [(?n + 200020001 / 100010000) / ?d] =>
      replace ((n + 200020001 / 100010000) / d) with (10001 / 10000) by lra end.
    match goal with |- context [(?n - 200020001 / 100010000) / ?d] =>
      replace ((n - 200020001 / 100010000) / d) with (- (10000 / 10001)) by lra end.
    replace ((0 - 1) / (10001 / 10000)) with (- (10000 / 10001)) by (field; lra).
    cbn [filter]. unfold t_margin. rsimpl lra. reflexivity. }
  assert (H3 : MinAccel.compute_p_plus_l_plus_p_minus 0 (199999999 / 400040000) 0 1 2 1 = None).
  { unfold MinAccel.compute_p_plus_l_plus_p_minus, MinAccel.cruise_candidate.
    rsimpl lra. reflexivity. }
  assert (H4 : MinAccel.compute_p_minus_l_minus_p_plus 0 (199999999 / 400040000) 0 1 2 1 = None).
  { unfold MinAccel.compute_p_minus_l_minus_p_plus, MinAccel.cruise_candidate.
    rsimpl lra. reflexivity. }
  unfold MinAccel._minimum_acceleration_interpolants, MinAccel.selected,
    MinAccel.valid_results.
  rewrite H1, H2, H3, H4. cbn. unfold accel_leb, a_margin, clip.
  rsimpl lra. reflexivity.
Qed.

(** A rest-to-rest instance just below the optimal duration [2]: the
    smallest candidate, [4 / T ^ 2], is within [a_margin] above [amax = 1]
    and is returned clipped to [1]. *)
Lemma clipped_instance :
  MinAccel._minimum_acceleration_interpolants 0 1 0 0 2 (19999999 / 10000000) 1
  = Ok (Some (1, PpPm)).
Proof.
  assert (H1 : MinAccel.compute_p_plus_p_minus 0 1 0 0 2 (19999999 / 10000000)
               = Some (Fin (4 / (19999999 / 10000000) ^ 2), PpPm)).
  { unfold MinAccel.compute_p_plus_p_minus.
    rewrite solve_quadratic_roots by lra.
    match goal with |- context [sqrt ?e] => replace (sqrt e) with 4 end.
    2:{ symmetry. apply sqrt_lem_1; lra. }
    cbn [filter]. unfold t_margin. rsimpl lra.
    unfold list_min. cbn [fold_left]. do 3 f_equal. lra. }
  assert (H2 : MinAccel.compute_p_minus_p_plus 0 1 0 0 2 (19999999 / 10000000) = None).
  { unfold MinAccel.compute_p_minus_p_plus.
    rewrite solve_quadratic_roots by lra.
    match goal with |- context [sqrt ?e] => replace (sqrt e) with 4 end.
    2:{ symmetry. apply sqrt_lem_1; lra. }
    cbn [filter]. rsimpl lra. reflexivity. }
  assert (H3 : MinAccel.compute_p_plus_l_plus_p_minus 0 1 0 0 2 (19999999 / 10000000) = None).
  { unfold MinAccel.compute_p_plus_l_plus_p_minus, MinAccel.cruise_candidate.
    rsimpl lra. reflexivity. }
  assert (H4 : MinAccel.compute_p_minus_l_minus_p_plus 0 1 0 0 2 (19999999 / 10000000) = None).
  { unfold MinAccel.compute_p_minus_l_minus_p_plus, MinAccel.cruise_candidate.
    rsimpl lra. reflexivity. }
  unfold MinAccel._minimum_acceleration_interpolants, MinAccel.selected,
    MinAccel.valid_results.
  rewrite H1, H2, H3, H4. cbn. unfold accel_leb, a_margin, clip.
  rsimpl lra. reflexivity.
Qed.

(** C7.  For every primitive [(a, tag)] that
    [_minimum_acceleration_interpolants] returns at a duration [0 < T] and a
    limit [0 < amax]: the returned acceleration is positive;
    [_compute_trajectory_state] is, at every time, the closed form of the
    branch its tests select; the closed forms of two adjoining branches give
    the same position and velocity at the time where the branch changes; and
    when the returned acceleration is the selected candidate itself (it was
    not clipped to [amax]) and the switch of a bang-bang primitive is not
    later than [T], the state at [0] is [(x1, v1)] and the state at [T] is
    [(x2, v2)], exactly. *)
Theorem state_evaluation_continuity x1 x2 v1 v2 vmax T amax a tag :
  0 < T -> 0 < amax ->
  MinAccel._minimum_acceleration_interpolants x1 x2 v1 v2 vmax T amax = Ok (Some (a, tag)) ->
  0 < a /\
  (forall t,
     _compute_trajectory_state x1 x2 v1 v2 a vmax T tag t
     = phase_form x1 v1 v2 a vmax T tag
                  (phase_index (switch_times v1 v2 a vmax T tag) t) t) /\
  (forall k b,
     nth_error (switch_times v1 v2 a vmax T tag) k = Some b ->
     phase_form x1 v1 v2 a vmax T tag k b = phase_form x1 v1 v2 a vmax T tag (S k) b) /\
  (MinAccel.selected x1 x2 v1 v2 vmax T = Some (Fin a, tag) ->
   switch_within v1 v2 a T tag ->
   _compute_trajectory_state x1 x2 v1 v2 a vmax T tag 0 = (x1, v1) /\
   _compute_trajectory_state x1 x2 v1 v2 a vmax T tag T = (x2, v2)).
Proof.
  intros HT Hamax Hret.
  destruct (minimum_acceleration_returns _ _ _ _ _ _ _ _ _ Hret)
    as (a_min & Hsel & Hle & Hclip).
  assert (HT0 : T <> 0) by lra.
  pose proof (selected_in _ _ _ _ _ _ _ Hsel) as Hin.
  destruct (valid_results_inv _ _ _ _ _ _ _ _ HT0 Hin) as [Hpos _].
  assert (Ha : 0 < a) by (rewrite Hclip; apply clip_pos; assumption).
  split; [assumption|]. split; [|split].
  - intros t. apply compute_trajectory_state_phase.
  - intros k b. apply phase_forms_agree. lra.
  - intros Hsel' Hsw.
    pose proof (selected_in _ _ _ _ _ _ _ Hsel') as Hin'.
    split.
    + exact (state_at_start _ _ _ _ _ _ _ _ HT0 Hin').
    + exact (state_at_end _ _ _ _ _ _ _ _ HT0 Hin' Hsw).
Qed.

Lemma state_evaluation_continuity_witness :
  0 < 4.5 + safe_margin /\ 0 < 1 /\
  _compute_trajectory_state 0 5 0 0 (4 / (2 * (4.5 + safe_margin) - 5)) 2
                            (4.5 + safe_margin) PpLpPm 0 = (0, 0) /\
  _compute_trajectory_state 0 5 0 0 (4 / (2 * (4.5 + safe_margin) - 5)) 2
                            (4.5 + safe_margin) PpLpPm (4.5 + safe_margin) = (5, 0).
Proof.
  assert (HT : 0 < 4.5 + safe_margin) by (unfold safe_margin; lra).
  assert (Ha : 0 < 1) by lra.
  split; [exact HT|]. split; [exact Ha|].
  refine (proj2 (proj2 (proj2
    (state_evaluation_continuity 0 5 0 0 2 (4.5 + safe_margin) 1 _ PpLpPm
       HT Ha scenario_min_accel))) _ I).
  pose proof scenario_min_accel as H.
  apply minimum_acceleration_returns in H.
  destruct H as (a_min & Hsel & Hle & Hclip).
  rewrite Hsel. do 3 f_equal.
  pose proof (selected_in _ _ _ _ _ _ _ Hsel) as Hin.
  apply valid_results_inv in Hin; [|lra].
  rewrite Hclip. destruct Hin as (Hpos & Hq & _).
  assert (a_min = 4 / (2 * (4.5 + safe_margin) - 5)).
  { unfold safe_margin in *. apply (Rmult_eq_reg_r ((4.5 + 1e-6) * 2 - (5 - 0))); [|lra].
    rewrite Hq. field. lra. }
  symmetry. apply clip_id; [assumption|]. rewrite H. unfold safe_margin.
  apply (Rmult_le_reg_r (2 * (4.5 + 1e-6) - 5)); [lra|].
  unfold Rdiv. rewrite Rmult_assoc, Rinv_l by lra. lra.
Defined.

(** The two restrictions cannot be dropped.  With the switch after the
    duration ([late_switch_instance]) the velocity at [T = 1] is
    [10000 / 10001], not [v2 = 1]; with the acceleration clipped
    ([clipped_instance]) the position at [T] is [(T / 2) ^ 2], not
    [x2 = 1]. *)
Lemma state_at_T_counterexample :
  (MinAccel._minimum_acceleration_interpolants 0 (199999999 / 400040000) 0 1 2 1 1
   = Ok (Some (10000 / 10001, PpPm)) /\
   snd (_compute_trajectory_state 0 (199999999 / 400040000) 0 1 (10000 / 10001) 2 1 PpPm 1)
   = 10000 / 10001 /\
   10000 / 10001 <> 1) /\
  (MinAccel._minimum_acceleration_interpolants 0 1 0 0 2 (19999999 / 10000000) 1
   = Ok (Some (1, PpPm)) /\
   fst (_compute_trajectory_state 0 1 0 0 1 2 (19999999 / 10000000) PpPm
                                  (19999999 / 10000000))
   = (19999999 / 20000000) ^ 2 /\
   (19999999 / 20000000) ^ 2 <> 1).
Proof.
  split; split; [apply late_switch_instance| |apply clipped_instance|].
  - split; [|lra]. unfold _compute_trajectory_state.
    replace ((1 - 0) / (10000 / 10001)) with (10001 / 10000) by (field; lra).
    rsimpl lra. cbn [snd]. lra.
  - split; [|lra]. unfold _compute_trajectory_state.
    replace ((0 - 0) / 1) with 0 by lra.
    rsimpl lra. cbn [fst]. lra.
Qed.

(** ** Optimality and existence between states at rest *)

Lemma unit_step_time :
  TimeOptimal._univariate_time_optimal_interpolants 0 1 0 0 2 1 = Some 2.
Proof.
  assert (H1 : TimeOptimal.compute_p_plus_p_minus 0 1 0 0 2 1 = Some 2).
  { unfold TimeOptimal.compute_p_plus_p_minus.
    rewrite solve_quadratic_roots by lra.
    match goal with |- context [sqrt ?e] => replace (sqrt e) with 2 end.
    2:{ symmetry. apply sqrt_lem_1; lra. }
    cbn [filter]. rsimpl lra. f_equal. lra. }
  assert (H2 : TimeOptimal.compute_p_minus_p_plus 0 1 0 0 2 1 = None).
  { unfold TimeOptimal.compute_p_minus_p_plus.
    rewrite solve_quadratic_none by lra. reflexivity. }
  assert (H3 : TimeOptimal.compute_p_plus_l_plus_p_minus 0 1 0 0 2 1 = None).
  { unfold TimeOptimal.compute_p_plus_l_plus_p_minus. rsimpl lra. reflexivity. }
  assert (H4 : TimeOptimal.compute_p_minus_l_plus_p_plus 0 1 0 0 2 1 = None).
  { unfold TimeOptimal.compute_p_minus_l_plus_p_plus. rsimpl lra. reflexivity. }
  unfold TimeOptimal._univariate_time_optimal_interpolants, TimeOptimal.times.
  rewrite H1, H2, H3, H4. reflexivity.
Qed.







(** * The planner *)

(** ** Sampling an edge *)

Lemma Int_part_nonneg x : 0 <= x -> (0 <= Int_part x)%Z.
Proof.
  intros Hx. destruct (base_Int_part x) as [_ H].
  assert (H1 : -1 < IZR (Int_part x)) by lra.
  apply lt_IZR in H1. lia.
Qed.

Lemma int_trunc_floor x : 0 <= x -> int_trunc x = Int_part x.
Proof. intros Hx. unfold int_trunc. rewrite (proj2 (Rleb_true 0 x)) by lra. reflexivity. Qed.






Lemma check_samples_true self f times :
  check_samples self f times = true <->
  forall t, In t times -> collision_checker self (f t) = true.
Proof.
  induction times as [|t rest IH]; cbn [check_samples].
  - split; [intros _ t []|reflexivity].
  - destruct (collision_checker self (f t)) eqn:E; cbn [negb].
    + rewrite IH. split.
      * intros H u [<-|Hu]; auto.
      * intros H u Hu. apply H. right. assumption.
    + split; [discriminate|]. intros H. rewrite <- E. apply H. left. reflexivity.
Qed.









(** ** Failures that leave [plan] *)

Lemma line_braking iters x :
  0 <= x <= 10 ->
  generate_max_braking_trajectory (line_planner iters) [x; 0]
  = Ok (Some ([x; 0], 0, [(0, PpPm)])).
Proof.
  intros Hx. unfold generate_max_braking_trajectory, _check_state_limits.
  cbn [line_planner dimension vmax amax length firstn skipn map2 position_limits
       collision_checker].
  replace (Rabs 0 / 1) with 0 by (rewrite Rabs_R0; lra).
  unfold list_max. cbn [fold_left].
  rewrite (proj2 (Rltb_false 0 0)) by lra.
  cbn [map fst snd app combine forallb].
  rewrite (proj2 (Rleb_true 0 x)), (proj2 (Rleb_true x 10)) by lra.
  reflexivity.
Qed.

Lemma line_seed iters x1 x2 :
  0 <= x1 <= 10 -> 0 <= x2 <= 10 ->
  seed_trees (line_planner iters) (init_store [x1; 0] [x2; 0])
  = Ok (true, line_seeded x1 x2).
Proof.
  intros H1 H2. unfold seed_trees, seed_one, init_store, start, goal.
  cbn [heap deref start nth state new_Node].
  rewrite line_braking by assumption. cbn [bind].
  unfold alloc, _check_edge_collision.
  rewrite (proj2 (Reqb_true 0 0)) by reflexivity.
  cbn [bind fst snd heap set_heap set_tree tree_of forward_tree backward_tree app
       length update deref goal nth state set_segment new_Node].
  rewrite line_braking by assumption. cbn [bind].
  rewrite (proj2 (Reqb_true 0 0)) by reflexivity.
  cbn. reflexivity.
Qed.

Lemma line_segment_same iters x :
  _compute_optimal_segment (line_planner iters) [x; 0] [x; 0] = Raise ValueError.
Proof.
  unfold _compute_optimal_segment, _calculate_segment_time, _calculate_segment_trajectory,
    axis.
  cbn [line_planner dimension vmax amax length seq map nth Nat.mul Nat.add].
  rewrite topt_rest_same by lra. cbn [all_some bind].
  unfold list_max. cbn [fold_left mapM].
  rewrite macc_rest_same_raises by (unfold safe_margin; lra).
  reflexivity.
Qed.

Lemma line_sample iters u :
  _sample_free_space_state (line_planner iters) u = [0 + (10 - 0) * u 0%nat; 0].
Proof. reflexivity. Qed.

Lemma strip_braking iters x :
  0 <= x <= 10 ->
  generate_max_braking_trajectory (strip_planner iters) [x; 0; 0; 0]
  = Ok (Some ([x; 0; 0; 0], 0, [(0, PpPm); (0, PpPm)])).
Proof.
  intros Hx. unfold generate_max_braking_trajectory, _check_state_limits.
  cbn [strip_planner dimension vmax amax length firstn skipn map2 position_limits
       collision_checker].
  replace (Rabs 0 / 1) with 0 by (rewrite Rabs_R0; lra).
  unfold list_max. cbn [fold_left]. rewrite (Rmax_left 0 0) by lra.
  rewrite (proj2 (Rltb_false 0 0)) by lra.
  cbn [map fst snd app combine forallb].
  rewrite (proj2 (Rleb_true 0 x)), (proj2 (Rleb_true x 10)) by lra.
  rewrite (proj2 (Rleb_true 0 0)) by lra.
  reflexivity.
Qed.

Lemma strip_seed iters :
  seed_trees (strip_planner iters) (init_store [0; 0; 0; 0] [10; 0; 0; 0])
  = Ok (true, strip_seeded).
Proof.
  unfold seed_trees, seed_one, init_store, start, goal.
  cbn [heap deref nth state new_Node].
  rewrite strip_braking by lra. cbn [bind].
  unfold alloc, _check_edge_collision.
  rewrite (proj2 (Reqb_true 0 0)) by reflexivity.
  cbn [bind fst snd heap set_heap set_tree tree_of forward_tree backward_tree app
       length update deref nth state set_segment new_Node].
  rewrite strip_braking by lra. cbn [bind].
  rewrite (proj2 (Reqb_true 0 0)) by reflexivity.
  cbn. reflexivity.
Qed.

(** Every segment of the strip that starts and ends at rest raises: on the
    pinned axis the two positions are equal. *)
Lemma strip_segment_raises iters x1 x2 :
  _compute_optimal_segment (strip_planner iters) [x1; 0; 0; 0] [x2; 0; 0; 0]
  = Raise ValueError.
Proof.
  unfold _compute_optimal_segment, _calculate_segment_time, _calculate_segment_trajectory,
    axis.
  cbn [strip_planner dimension vmax amax length seq map nth Nat.mul Nat.add].
  assert (Hv : 0 < 1) by lra.
  rewrite (topt_rest_same 0 1 1 Hv Hv).
  destruct (Req_dec x1 x2) as [->|Hne].
  - rewrite (topt_rest_same x2 1 1 Hv Hv). cbn [all_some bind].
    unfold list_max. cbn [fold_left mapM]. rewrite (Rmax_left 0 0) by lra.
    rewrite macc_rest_same_raises by (unfold safe_margin; lra). reflexivity.
  - destruct (topt_rest x1 x2 1 1 Hv Hv Hne) as (Ts & E & Hpos & _).
    rewrite E. cbn [all_some bind]. unfold list_max. cbn [fold_left mapM].
    rewrite (Rmax_left Ts 0) by lra.
    assert (HT : Ts <= Ts + safe_margin) by (unfold safe_margin; lra).
    destruct (macc_rest_ok x1 x2 1 1 Ts (Ts + safe_margin) Hv Hv Hne E HT)
      as (a & tag & Ea & _).
    rewrite Ea. cbn [bind].
    rewrite macc_rest_same_raises by (unfold safe_margin; lra). reflexivity.
Qed.

Lemma strip_sample iters u :
  _sample_free_space_state (strip_planner iters) u
  = [0 + (10 - 0) * u 0%nat; 0 + (0 - 0) * u 1%nat; 0; 0].
Proof. reflexivity. Qed.

Lemma strip_plan_raises FSBAS rnd iters smooth_iterations :
  plan (strip_planner (S iters)) FSBAS rnd smooth_iterations
       (init_store [0; 0; 0; 0] [10; 0; 0; 0])
  = Raise ValueError.
Proof.
  unfold plan. rewrite strip_seed. cbn [bind fst snd negb].
  cbn [strip_planner max_iters plan_loop].
  change (mkPlanner (S iters) (fun _ => true) ([0; 0], [10; 0]) [1; 1] [1; 1])
    with (strip_planner (S iters)).
  unfold iteration. cbn [Nat.even]. unfold extend_tree.
  rewrite strip_sample.
  cbn [strip_seeded tree_of forward_tree length].
  rewrite Nat.mod_1_r.
  cbn [nth strip_planner collision_checker negb].
  change (state (deref (heap strip_seeded) 2)) with [0; 0; 0; 0].
  replace (0 + (0 - 0) * snd (rnd 0%nat) 1%nat) with 0 by ring.
  change (mkPlanner (S iters) (fun _ => true) ([0; 0], [10; 0]) [1; 1] [1; 1])
    with (strip_planner (S iters)).
  rewrite strip_segment_raises. reflexivity.
Qed.

Lemma line_plan_raises FSBAS rnd iters smooth_iterations :
  snd (rnd 0%nat) 0%nat = 0 ->
  extend_tree (line_planner (S iters)) forward (fst (rnd 0%nat)) (snd (rnd 0%nat))
              (line_seeded 0 10) = Raise ValueError /\
  plan (line_planner (S iters)) FSBAS rnd smooth_iterations (init_store [0; 0] [10; 0])
  = Raise ValueError.
Proof.
  intros Hu.
  assert (He : extend_tree (line_planner (S iters)) forward (fst (rnd 0%nat))
                           (snd (rnd 0%nat)) (line_seeded 0 10) = Raise ValueError).
  { unfold extend_tree. rewrite line_sample, Hu.
    cbn [line_seeded tree_of forward_tree length].
    rewrite Nat.mod_1_r.
    cbn [nth line_planner collision_checker negb heap deref state].
    replace (0 + (10 - 0) * 0) with 0 by lra.
    change (state (deref (heap (line_seeded 0 10)) 2)) with [0; 0].
    rewrite line_segment_same. reflexivity. }
  split; [exact He|].
  unfold plan. rewrite line_seed by lra. cbn [bind fst snd negb].
  cbn [line_planner max_iters plan_loop].
  change (mkPlanner (S iters) (fun _ => true) ([0], [10]) [1] [1])
    with (line_planner (S iters)).
  unfold iteration. cbn [Nat.even]. rewrite He. reflexivity.
Qed.

(** C3.  A failure of the solver on one segment leaves [plan].  On the strip
    whose second axis is pinned, from rest at [(0, 0)] towards rest at
    [(10, 0)] with at least one round allowed: whatever is drawn, the sampled
    state and the root have the same position on the second axis,
    [_minimum_acceleration_interpolants] finds no candidate there, and its
    [ValueError] passes through [_compute_optimal_segment], [extend_tree] and
    [plan].  The same happens on the line when the first position drawn is
    the lower limit. *)
Theorem plan_lets_solver_failure_escape FSBAS rnd iters smooth_iterations :
  plan (strip_planner (S iters)) FSBAS rnd smooth_iterations
       (init_store [0; 0; 0; 0] [10; 0; 0; 0])
  = Raise ValueError /\
  (snd (rnd 0%nat) 0%nat = 0 ->
   plan (line_planner (S iters)) FSBAS rnd smooth_iterations (init_store [0; 0] [10; 0])
   = Raise ValueError).
Proof.
  split.
  - apply strip_plan_raises.
  - intros Hu. apply (line_plan_raises FSBAS rnd iters smooth_iterations Hu).
Qed.

Lemma plan_lets_solver_failure_escape_witness :
  plan (strip_planner 1) (fun _ path _ => path) (fun _ => (0%nat, fun _ => 0)) 10
       (init_store [0; 0; 0; 0] [10; 0; 0; 0])
  = Raise ValueError /\
  plan (line_planner 1) (fun _ path _ => path) (fun _ => (0%nat, fun _ => 0)) 10
       (init_store [0; 0] [10; 0])
  = Raise ValueError.
Proof.
  pose proof (plan_lets_solver_failure_escape
                (fun _ path _ => path) (fun _ => (0%nat, fun _ => 0)) 0 10) as H.
  split; [exact (proj1 H)|exact (proj2 H eq_refl)].
Defined.

Lemma line_braking_outside iters :
  generate_max_braking_trajectory (line_planner iters) [0; 3] = Ok None.
Proof.
  unfold generate_max_braking_trajectory, _check_state_limits.
  cbn [line_planner dimension vmax amax length firstn skipn map2 position_limits
       collision_checker].
  replace (Rabs 3 / 1) with 3 by (rewrite Rabs_pos_eq; lra).
  unfold list_max. cbn [fold_left].
  rewrite (proj2 (Rltb_true 0 3)) by lra.
  cbn [map fst snd app combine forallb].
  rewrite (proj2 (Rleb_false 0 (0 + - 0.5 * (3 / 3) * 3 ^ 2))) by lra.
  reflexivity.
Qed.

(** C4.  On the line with start state [(0, 3)]: braking at [amax = 1] ends
    at position [-4.5], outside the limits, so
    [generate_max_braking_trajectory] returns the triple of [None]s;
    [seed_trees] skips that tree and still returns [True], with the forward
    tree empty; [plan] enters its loop and the first [extend_tree] raises
    [IndexError] ([random.choice] of an empty list).  Only a colliding braking
    edge makes [seed_trees] return [False], and then [plan] returns
    [None]. *)
Theorem plan_raises_after_failed_seed FSBAS rnd iters smooth_iterations :
  generate_max_braking_trajectory (line_planner (S iters)) [0; 3] = Ok None /\
  seed_trees (line_planner (S iters)) (init_store [0; 3] [10; 0])
  = Ok (true, line_half_seeded) /\
  plan (line_planner (S iters)) FSBAS rnd smooth_iterations (init_store [0; 3] [10; 0])
  = Raise IndexError /\
  (forall self s s',
     seed_trees self s = Ok (false, s') ->
     plan self FSBAS rnd smooth_iterations s = Ok None).
Proof.
  assert (Hs : seed_trees (line_planner (S iters)) (init_store [0; 3] [10; 0])
               = Ok (true, line_half_seeded)).
  { unfold seed_trees, seed_one, init_store, start, goal.
    cbn [heap deref nth state new_Node].
    rewrite line_braking_outside. cbn [bind fst snd heap deref nth state new_Node].
    rewrite line_braking by lra. cbn [bind].
    unfold alloc, _check_edge_collision.
    rewrite (proj2 (Reqb_true 0 0)) by reflexivity.
    cbn. reflexivity. }
  split; [apply line_braking_outside|]. split; [exact Hs|]. split.
  - unfold plan. rewrite Hs. cbn [bind fst snd negb].
    cbn [line_planner max_iters plan_loop]. unfold iteration. cbn [Nat.even].
    unfold extend_tree. cbn [line_half_seeded tree_of forward_tree]. reflexivity.
  - intros self s s' H. unfold plan. rewrite H. reflexivity.
Qed.

Open Scope nat_scope.

(** ** The states of the nodes never change *)

Lemma update_state h i f a :
  (forall nd, state (f nd) = state nd) ->
  state (deref (update h i f) a) = state (deref h a).
Proof.
  intros Hf. unfold deref. revert i a.
  induction h as [|x h IH]; intros i a; [reflexivity|].
  destruct i as [|i], a as [|a]; cbn [update nth]; auto.
Qed.

Lemma relabel_subtree_states p' old new :
  forall fuel stack s s',
    relabel_subtree fuel p' old new stack s = Ok s' ->
    length (heap s') = length (heap s) /\
    forall a, state (deref (heap s') a) = state (deref (heap s) a).
Proof.
  intros fuel. induction fuel as [|f IH]; intros stack s s' H; [discriminate|].
  cbn [relabel_subtree] in H. destruct stack as [|v rest].
  - injection H as <-. split; reflexivity.
  - destruct (list_remove v (tree_of old s)) as [old'|]; [|discriminate].
    apply IH in H. destruct H as [HL HS].
    rewrite !heap_set_tree in HL, HS. cbn [heap set_heap] in HL, HS.
    rewrite update_length in HL. split; [assumption|].
    intros a. rewrite HS. apply update_state. reflexivity.
Qed.

Lemma repair_walk_states self start_node old new :
  forall fuel c p' s s',
    repair_walk self fuel start_node old new c p' s = Ok s' ->
    length (heap s') = length (heap s) /\
    forall a, state (deref (heap s') a) = state (deref (heap s) a).
Proof.
  intros fuel. induction fuel as [|f IH]; intros c p' s s' H; [discriminate|].
  cbn [repair_walk] in H.
  destruct (Nat.eqb c start_node).
  { injection H as <-. split; reflexivity. }
  destruct (parent (deref (heap s) c)) as [op|]; [|discriminate].
  destruct (list_remove c _) as [ch|]; [|discriminate].
  destruct (_compute_optimal_segment self _ _) as [seg| |]; cbn [bind] in H;
    try discriminate.
  destruct (relabel_subtree _ _ _ _ _ _) as [s1| |] eqn:E; cbn [bind] in H;
    try discriminate.
  apply IH in H. destruct H as [HL HS].
  apply relabel_subtree_states in E. destruct E as [EL ES].
  cbn [heap set_heap] in EL, ES. rewrite !update_length in EL.
  split; [congruence|].
  intros a. rewrite HS, ES.
  repeat (rewrite update_state; [|reflexivity]). reflexivity.
Qed.

Lemma remove_infeasible_edge_states self a b bs be s s' :
  remove_infeasible_edge self a b bs be s = Ok s' ->
  length (heap s') = length (heap s) /\
  forall x, state (deref (heap s') x) = state (deref (heap s) x).
Proof.
  unfold remove_infeasible_edge.
  destruct (negb _).
  { intros H. injection H as <-. split; reflexivity. }
  destruct (tree_kind_eqb _ _); apply repair_walk_states.
Qed.

Lemma extend_tree_states self tree k u s r s' :
  extend_tree self tree k u s = Ok (r, s') ->
  length (heap s) <= length (heap s') /\
  forall a, a < length (heap s) ->
            state (deref (heap s') a) = state (deref (heap s) a).
Proof.
  intros H. apply extend_tree_store in H.
  destruct H as [[_ ->]|(t0 & seg & _ & H)]; [split; auto|].
  cbn zeta in H. destruct H as (_ & _ & _ & Hh). rewrite Hh.
  rewrite update_length, length_app. cbn [length]. split; [lia|].
  intros a Ha. rewrite update_state by reflexivity.
  rewrite deref_app_old by assumption. reflexivity.
Qed.

Lemma seed_one_states self tree seed_node s b s' :
  seed_one self tree seed_node s = Ok (b, s') ->
  length (heap s) <= length (heap s') /\
  forall a, a < length (heap s) ->
            state (deref (heap s') a) = state (deref (heap s) a).
Proof.
  intros H. apply seed_one_store in H.
  destruct H as [[_ ->]|(st & t & ti & _ & _ & _ & Hh)]; [split; auto|].
  rewrite Hh. rewrite update_length, length_app. cbn [length]. split; [lia|].
  intros a Ha. rewrite update_state by reflexivity.
  rewrite deref_app_old by assumption. reflexivity.
Qed.

Lemma seed_trees_states self start_state goal_state b s :
  seed_trees self (init_store start_state goal_state) = Ok (b, s) ->
  2 <= length (heap s) /\
  state (deref (heap s) start) = start_state /\
  state (deref (heap s) goal) = goal_state.
Proof.
  unfold seed_trees.
  destruct (seed_one self forward start _) as [[b1 s1]| |] eqn:E1; cbn [bind];
    try discriminate.
  apply seed_one_states in E1. cbn [init_store heap length] in E1.
  destruct E1 as [L1 S1]. cbn [fst snd].
  assert (H1 : state (deref (heap s1) start) = start_state)
    by (rewrite S1 by (unfold start; lia); reflexivity).
  assert (H2 : state (deref (heap s1) goal) = goal_state)
    by (rewrite S1 by (unfold goal; lia); reflexivity).
  destruct b1.
  - intros E2. apply seed_one_states in E2. destruct E2 as [L2 S2].
    split; [lia|]. rewrite !S2 by (unfold start, goal; lia). auto.
  - intros H. injection H as <- <-. auto.
Qed.

Lemma reachable_seeds self start_state goal_state s :
  reachable self start_state goal_state s ->
  2 <= length (heap s) /\
  state (deref (heap s) start) = start_state /\
  state (deref (heap s) goal) = goal_state.
Proof.
  induction 1 as [b s H|tree k u s r s' _ IH H|a b bs be s s' _ IH _ _ _ H].
  - eapply seed_trees_states; eassumption.
  - apply extend_tree_states in H. destruct H as [L S], IH as (L0 & IH1 & IH2).
    split; [lia|]. rewrite !S by (unfold start, goal; lia). auto.
  - apply remove_infeasible_edge_states in H. destruct H as [L S], IH as (L0 & IH1 & IH2).
    split; [lia|]. rewrite !S. auto.
Qed.

(** C10.  In every store that seeding, extensions and repairs produce, each
    node of the two tree lists has [n] positions followed by [n] velocities
    that are exactly [0]; the two seed nodes ([self.start], [self.goal]) are
    in neither list and keep the start and goal states, whatever their
    velocities; an extension leaves the states of the existing nodes
    unchanged and its new node is at rest; a repair changes no state. *)
Theorem tree_nodes_at_rest self start_state goal_state s :
  well_formed self start_state goal_state ->
  reachable self start_state goal_state s ->
  (forall a, in_trees s a ->
             zero_velocity (dimension self) (state (deref (heap s) a))) /\
  (~ in_trees s start /\ ~ in_trees s goal) /\
  (state (deref (heap s) start) = start_state /\
   state (deref (heap s) goal) = goal_state) /\
  (forall tree k u r s',
     extend_tree self tree k u s = Ok (r, s') ->
     (forall a, a < length (heap s) ->
                state (deref (heap s') a) = state (deref (heap s) a)) /\
     (forall a, r = Some a ->
                In a (tree_of tree s') /\
                zero_velocity (dimension self) (state (deref (heap s') a)))) /\
  (forall a b bs be s',
     remove_infeasible_edge self a b bs be s = Ok s' ->
     forall x, state (deref (heap s') x) = state (deref (heap s) x)).
Proof.
  intros Hwf Hr.
  pose proof (reachable_inv _ _ _ _ Hwf Hr) as I.
  split; [exact (inv_state _ _ I)|]. split; [|split; [|split]].
  - split; intros H; apply (inv_bound _ _ I) in H; unfold start, goal in H; lia.
  - apply (reachable_seeds _ _ _ _ Hr).
  - intros tree k u r s' He. split.
    + apply (extend_tree_states _ _ _ _ _ _ _ He).
    + intros a ->. destruct Hwf as (W1 & W2 & _).
      destruct (extend_tree_inv _ _ _ _ _ _ _ W1 W2 I He) as (I' & Hin & _).
      pose proof (Hin a eq_refl) as Ha. split; [assumption|].
      apply (inv_state _ _ I'). eapply in_trees_of; eassumption.
  - intros a b bs be s' H. apply (remove_infeasible_edge_states _ _ _ _ _ _ _ H).
Qed.

Lemma line_well_formed iters x1 x2 :
  well_formed (line_planner iters) [x1; 0%R] [x2; 0%R].
Proof. repeat split. Qed.

Lemma line_seeded_reachable iters :
  reachable (line_planner iters) [0%R; 0%R] [10%R; 0%R] (line_seeded 0 10).
Proof. apply (reach_seed _ _ _ true). apply line_seed; lra. Qed.


(** ** The forest *)

(** C6.  In every store that seeding, extensions and repairs produce (the
    repairs being called, as [plan] does, with one bridge node in each tree):
    from every node of a tree list the parent links lead to the root of that
    tree, the first node of the list, in fewer steps than the list has nodes;
    no chain of parent links returns to its origin; no node is in both lists,
    and no chain of parent links leads to the root of the other tree.  The
    next extension or repair returns or raises: its loops end. *)
Theorem forest_invariant self start_state goal_state s :
  well_formed self start_state goal_state ->
  reachable self start_state goal_state s ->
  (forall k a, In a (tree_of k s) ->
     (exists r m,
        hd_error (tree_of k s) = Some r /\ par s r = None /\
        iter_parent s m a = Some r /\ m < length (tree_of k s)) /\
     (forall m, iter_parent s (S m) a <> Some a) /\
     ~ In a (tree_of (other_kind k) s) /\
     (forall m r', hd_error (tree_of (other_kind k) s) = Some r' ->
                   iter_parent s m a <> Some r')) /\
  (forall tree k u, extend_tree self tree k u s <> NoFuel) /\
  (forall a b bs be, remove_infeasible_edge self a b bs be s <> NoFuel).
Proof.
  intros Hwf Hr.
  pose proof (reachable_inv _ _ _ _ Hwf Hr) as I.
  split; [|split].
  - intros k a Ha. split; [|split; [|split]].
    + exact (forest_reaches_root _ _ _ _ I Ha).
    + intros m. exact (forest_acyclic _ _ _ _ m I Ha).
    + intros Hb. exact (tree_of_other_disjoint _ _ _ _ I Ha Hb).
    + intros m r' Hr'. exact (forest_one_root _ _ _ _ m r' I Ha Hr').
  - intros tree k u. apply extend_tree_fuel.
  - intros a b bs be. apply remove_infeasible_edge_fuel.
Qed.


Open Scope R_scope.

Open Scope nat_scope.

(** ** The extent of the repair's walk *)

Lemma iter_parent_step s m c a :
  iter_parent s (S m) c = Some a ->
  exists op, par s c = Some op /\ iter_parent s m op = Some a.
Proof.
  cbn [iter_parent]. destruct (par s c) as [op|]; [|discriminate].
  intros H. exists op. auto.
Qed.

Lemma iter_parent_add s i : forall j x y z,
  iter_parent s i x = Some y -> iter_parent s j y = Some z ->
  iter_parent s (i + j) x = Some z.
Proof.
  induction i as [|i IH]; intros j x y z Hi Hj.
  - cbn in Hi. injection Hi as ->. assumption.
  - cbn [iter_parent Nat.add] in *. destruct (par s x) as [p|]; [|discriminate].
    eapply IH; eassumption.
Qed.

(** Two stores whose parent links differ only at [c] have the same chains,
    as long as the chain does not pass through [c]. *)
Lemma iter_parent_agree s s1 c p' :
  (forall x, par s1 x = if Nat.eqb x c then Some p' else par s x) ->
  forall j x,
    (forall i, i < j -> iter_parent s i x <> Some c) ->
    iter_parent s1 j x = iter_parent s j x.
Proof.
  intros Hpar j. induction j as [|j IH]; intros x Hav; [reflexivity|].
  cbn [iter_parent]. rewrite Hpar.
  destruct (Nat.eqb_spec x c) as [->|Hne].
  { exfalso. apply (Hav 0); [lia|reflexivity]. }
  destruct (par s x) as [p|] eqn:E; [|reflexivity].
  apply IH. intros i Hi Hc. apply (Hav (S i)); [lia|].
  cbn [iter_parent]. rewrite E. assumption.
Qed.

Lemma chain_avoids_origin n s k c i j x :
  forest_inv n s -> In c (tree_of k s) ->
  iter_parent s (S i) c = Some x -> iter_parent s j x <> Some c.
Proof.
  intros I Hc Hx Hj.
  pose proof (iter_parent_add s (S i) j c x c Hx Hj) as H.
  cbn [Nat.add] in H. exact (forest_acyclic n s k c (i + j) I Hc H).
Qed.

Lemma chain_in_tree n s k m x a :
  forest_inv n s -> In x (tree_of k s) -> iter_parent s m x = Some a ->
  In a (tree_of k s).
Proof.
  intros I Hx Ha. destruct (inv_rank _ _ I) as [depth Hd].
  exact (proj1 (iter_parent_depth n s depth I Hd m k x a Hx Ha)).
Qed.

(** The walk from [c], whose [m]-th ancestor is [start_node]: the [m] nodes
    below [start_node] on the chain are hung the other way round below [p'] in
    the other tree; [start_node] and its ancestors stay where they are. *)
Lemma repair_walk_chain self n old start_node :
  forall m fuel s c p' s',
    forest_inv n s ->
    In c (tree_of old s) -> In p' (tree_of (other_kind old) s) ->
    iter_parent s m c = Some start_node ->
    repair_walk self fuel start_node old (other_kind old) c p' s = Ok s' ->
    forest_inv n s' /\
    (forall i x, i < m -> iter_parent s i c = Some x ->
       In x (tree_of (other_kind old) s') /\
       par s' x = match i with O => Some p' | S j => iter_parent s j c end) /\
    (forall j x, iter_parent s j start_node = Some x ->
       In x (tree_of old s') /\ par s' x = par s x) /\
    (forall x, In x (tree_of (other_kind old) s) -> In x (tree_of (other_kind old) s')) /\
    (forall x, (forall i, i < m -> iter_parent s i c <> Some x) -> par s' x = par s x).
Proof.
  intros m. induction m as [|m IH]; intros fuel s c p' s' I Hc Hp' Hm H.
  - cbn in Hm. injection Hm as ->.
    destruct fuel as [|fuel]; [discriminate|].
    cbn [repair_walk] in H. rewrite Nat.eqb_refl in H. injection H as <-.
    split; [assumption|]. split; [intros i x Hi; lia|].
    split; [|split; [auto|auto]].
    intros j x Hx. split; [|reflexivity].
    eapply chain_in_tree; eassumption.
  - destruct (iter_parent_step _ _ _ _ Hm) as (op & Hpar & Hop).
    assert (Hca : c <> start_node).
    { intros ->. exact (forest_acyclic n s old start_node m I Hc Hm). }
    assert (Hcop : c <> op).
    { intros <-. apply (forest_acyclic n s old c 0 I Hc). cbn. rewrite Hpar. reflexivity. }
    destruct fuel as [|fuel]; [discriminate|].
    apply repair_walk_round in H.
    destruct H as [[E _]|(_ & op' & ch & seg & s1 & Hpar' & Hrm & Hrel & Hrest)];
      [contradiction|].
    rewrite Hpar in Hpar'. injection Hpar' as <-.
    specialize (Hrm Hcop).
    destruct (repair_round n s old c p' op ch seg _ s1 I Hc Hp' Hpar Hrm Hrel)
      as (I1 & P1 & Hc1 & Hmono1 & Hanc1 & _ & _ & _).
    assert (Hop1 : In op (tree_of old s1)).
    { apply (Hanc1 op 0). cbn. rewrite Hpar. reflexivity. }
    assert (Hopc : forall j, iter_parent s j op <> Some c).
    { intros j. apply (chain_avoids_origin n s old c 0 j op I Hc).
      cbn. rewrite Hpar. reflexivity. }
    assert (Hagree : forall j, iter_parent s1 j op = iter_parent s j op).
    { intros j. apply (iter_parent_agree s s1 c p' P1). intros i _. apply Hopc. }
    assert (Hop' : iter_parent s1 m op = Some start_node) by (rewrite Hagree; assumption).
    destruct (IH fuel s1 op c s' I1 Hop1 Hc1 Hop' Hrest)
      as (I' & Hchain & Hup & Hmono & Hframe).
    assert (Hstart : forall j x, iter_parent s j start_node = Some x -> x <> c).
    { intros j x Hx ->.
      exact (chain_avoids_origin n s old c m j start_node I Hc Hm Hx). }
    assert (Hagree_a : forall j, iter_parent s1 j start_node = iter_parent s j start_node).
    { intros j. apply (iter_parent_agree s s1 c p' P1). intros i _ Hi.
      exact (Hstart i c Hi eq_refl). }
    split; [assumption|]. split; [|split; [|split]].
    + intros i x Hi Hx. destruct i as [|i].
      * cbn in Hx. injection Hx as <-. split; [apply Hmono; assumption|].
        rewrite Hframe.
        -- rewrite P1, Nat.eqb_refl. reflexivity.
        -- intros i _. rewrite Hagree. apply Hopc.
      * assert (Hx' : iter_parent s i op = Some x).
        { cbn [iter_parent] in Hx. rewrite Hpar in Hx. assumption. }
        assert (Hi' : i < m) by lia.
        rewrite <- Hagree in Hx'.
        destruct (Hchain i x Hi' Hx') as [Hin Hp]. split; [assumption|].
        rewrite Hp. destruct i as [|j]; [reflexivity|].
        rewrite Hagree. cbn [iter_parent]. rewrite Hpar. reflexivity.
    + intros j x Hx.
      assert (Hx1 : iter_parent s1 j start_node = Some x) by (rewrite Hagree_a; assumption).
      destruct (Hup j x Hx1) as [Hin Hp]. split; [assumption|].
      rewrite Hp, P1.
      destruct (Nat.eqb_spec x c) as [->|]; [|reflexivity].
      exfalso. exact (Hstart j c Hx eq_refl).
    + intros x Hx. apply Hmono, Hmono1. assumption.
    + intros x Hx.
      assert (Hxc : x <> c).
      { intros ->. apply (Hx 0); [lia|reflexivity]. }
      rewrite Hframe.
      * rewrite P1. destruct (Nat.eqb_spec x c); [contradiction|reflexivity].
      * intros i Hi. rewrite Hagree. intros Hxi. apply (Hx (S i)); [lia|].
        cbn [iter_parent]. rewrite Hpar. assumption.
Qed.

(** C5.  [remove_infeasible_edge] on an edge [(a, b)] whose two ends have
    the same tree type, with one bridge node in each tree, when [a] is the
    [m]-th ancestor of the bridge node [c0] of that tree: the walk starts at
    [c0], follows the old parents and stops when it reaches [a], the start
    node of the failing edge, not the root.  The [m] nodes of the chain below
    [a] move to the other tree with their links inverted ([c0] hangs below the
    other bridge node, every other one below its former child); [a] and all
    its ancestors up to the root keep their parents and stay in their tree,
    whose root is unchanged; every node off the chain keeps its parent; no
    state changes; the invariant of the forest holds again. *)
Theorem repair_walk_extent self n s a b bs be m s' :
  forest_inv n s ->
  tree_type (deref (heap s) a) = tree_type (deref (heap s) b) ->
  in_trees s bs -> in_trees s be ->
  tree_type (deref (heap s) bs) <> tree_type (deref (heap s) be) ->
  iter_parent s m (fst (bridge_sides s b bs be)) = Some a ->
  remove_infeasible_edge self a b bs be s = Ok s' ->
  let old := tree_type (deref (heap s) a) in
  let c0 := fst (bridge_sides s b bs be) in
  let p0 := snd (bridge_sides s b bs be) in
  forest_inv n s' /\
  (forall i x, i < m -> iter_parent s i c0 = Some x ->
     In x (tree_of (other_kind old) s') /\
     par s' x = match i with O => Some p0 | S j => iter_parent s j c0 end) /\
  (forall j x, iter_parent s j a = Some x ->
     In x (tree_of old s') /\ par s' x = par s x) /\
  hd_error (tree_of old s') = hd_error (tree_of old s) /\
  (forall x, (forall i, i < m -> iter_parent s i c0 <> Some x) -> par s' x = par s x) /\
  (forall x, state (deref (heap s') x) = state (deref (heap s) x)).
Proof.
  intros I Eab Hbs Hbe Hdiff Hm H old c0 p0.
  pose proof (proj2 (remove_infeasible_edge_states _ _ _ _ _ _ _ H)) as Hstates.
  assert (Hsides : In c0 (tree_of old s) /\ In p0 (tree_of (other_kind old) s) /\
                   repair_walk self (S (length (tree_of old s))) a old (other_kind old)
                               c0 p0 s = Ok s').
  { unfold remove_infeasible_edge in H. unfold c0, p0, bridge_sides in *.
    destruct (tree_kind_eqb_spec (tree_type (deref (heap s) a))
                                 (tree_type (deref (heap s) b))) as [_|N];
      [|contradiction].
    cbn [negb] in H.
    pose proof (in_own_tree n s bs I Hbs) as Obs.
    pose proof (in_own_tree n s be I Hbe) as Obe.
    destruct (tree_kind_eqb_spec (tree_type (deref (heap s) bs))
                                 (tree_type (deref (heap s) b))) as [Ebs|Nbs];
      cbn [fst snd].
    - split; [|split; [|exact H]].
      + unfold old. rewrite Eab, <- Ebs. assumption.
      + unfold old. rewrite Eab, <- Ebs.
        rewrite <- (other_kind_of _ _ (not_eq_sym Hdiff)). assumption.
    - assert (Ebe : tree_type (deref (heap s) be) = tree_type (deref (heap s) b)).
      { destruct (tree_type (deref (heap s) be)), (tree_type (deref (heap s) bs)),
          (tree_type (deref (heap s) b)); congruence. }
      split; [|split; [|exact H]].
      + unfold old. rewrite Eab, <- Ebe. assumption.
      + unfold old. rewrite Eab, <- Ebe.
        rewrite <- (other_kind_of _ _ Hdiff). assumption. }
  destruct Hsides as (Hc0 & Hp0 & Hwalk).
  destruct (repair_walk_chain self n old a m _ s c0 p0 s' I Hc0 Hp0 Hm Hwalk)
    as (I' & Hchain & Hup & _ & Hframe).
  split; [assumption|]. split; [assumption|]. split; [assumption|].
  split; [|split; assumption].
  assert (Ha : In a (tree_of old s)) by (eapply chain_in_tree; eassumption).
  destruct (forest_reaches_root n s old a I Ha) as (r & k & Hhd & Hr & Hk & _).
  destruct (Hup k r Hk) as [Hin Hp]. rewrite Hr in Hp.
  rewrite Hhd. exact (inv_root_only _ _ I' old r Hin Hp).
Qed.

(** ** A repair on the line *)

Open Scope R_scope.

Lemma line_segment_rest iters x1 x2 :
  x1 <> x2 ->
  exists seg, _compute_optimal_segment (line_planner iters) [x1; 0] [x2; 0] = Ok seg.
Proof.
  intros Hne.
  unfold _compute_optimal_segment, _calculate_segment_time, _calculate_segment_trajectory,
    axis.
  cbn [line_planner dimension vmax amax length seq map nth Nat.mul Nat.add].
  assert (Hv : 0 < 1) by lra.
  destruct (topt_rest x1 x2 1 1 Hv Hv Hne) as (Ts & E & _).
  rewrite E. cbn [all_some bind]. unfold list_max. cbn [fold_left mapM].
  assert (HT : Ts <= Ts + safe_margin) by (unfold safe_margin; lra).
  destruct (macc_rest_ok x1 x2 1 1 Ts (Ts + safe_margin) Hv Hv Hne E HT)
    as (a & tag & Ea & _).
  rewrite Ea. cbn. eexists. reflexivity.
Qed.

Lemma line_sample_at iters u x :
  u 0%nat = x / 10 ->
  _sample_free_space_state (line_planner iters) u = [x; 0].
Proof.
  intros Hu. rewrite line_sample, Hu. f_equal. field.
Qed.

Lemma line_chain_reachable iters :
  exists seg4 seg5,
    reachable (line_planner iters) [0; 0] [10; 0] (line_chain seg4 seg5).
Proof.
  destruct (line_segment_rest iters 0 1) as [seg4 H4]; [lra|].
  destruct (line_segment_rest iters 1 2) as [seg5 H5]; [lra|].
  exists seg4, seg5.
  set (s1 := mkStore
    [ mkNode [0; 0] forward None (Some 0) (Some [(0, PpPm)]) [];
      mkNode [10; 0] backward None (Some 0) (Some [(0, PpPm)]) [];
      mkNode [0; 0] forward None None None [4%nat];
      new_Node [10; 0] backward None None None;
      mkNode [1; 0] forward (Some 2%nat) (Some (fst seg4)) (Some (snd seg4)) [] ]
    [2%nat; 4%nat] [3%nat]).
  assert (R1 : reachable (line_planner iters) [0; 0] [10; 0] s1).
  { apply (reach_extend _ _ _ forward 0%nat (fun _ => 1 / 10) (line_seeded 0 10)
                        (Some 4%nat)).
    - apply line_seeded_reachable.
    - unfold extend_tree. rewrite (line_sample_at iters _ 1) by reflexivity.
      cbn [line_seeded tree_of forward_tree length].
      rewrite Nat.mod_1_r.
      cbn [nth line_planner collision_checker negb].
      change (state (deref (heap (line_seeded 0 10)) 2)) with [0; 0].
      change (mkPlanner iters (fun _ => true) ([0], [10]) [1] [1])
        with (line_planner iters).
      rewrite H4. reflexivity. }
  apply (reach_extend _ _ _ forward 1%nat (fun _ => 2 / 10) s1 (Some 5%nat)).
  - exact R1.
  - unfold extend_tree. rewrite (line_sample_at iters _ 2) by reflexivity.
    cbn [s1 tree_of forward_tree length].
    change (1 mod 2)%nat with 1%nat.
    cbn [nth line_planner collision_checker negb].
    change (state (deref (heap s1) 4)) with [1; 0].
    change (mkPlanner iters (fun _ => true) ([0], [10]) [1] [1])
      with (line_planner iters).
    rewrite H5. reflexivity.
Qed.

Lemma line_repair iters seg4 seg5 :
  exists seg,
    remove_infeasible_edge (line_planner iters) 4 5 3 5 (line_chain seg4 seg5)
    = Ok (line_repaired seg4 seg).
Proof.
  destruct (line_segment_rest iters 10 2) as [seg H]; [lra|].
  exists seg. unfold remove_infeasible_edge.
  cbn -[_compute_optimal_segment IZR line_planner].
  rewrite H. reflexivity.
Qed.

Open Scope nat_scope.

(** On the line, in a store the planner can produce: the forward tree is
    [2 -> 4 -> 5] with root [2]; the repair of the edge [(4, 5)] with the
    bridge [(3, 5)] returns, and afterwards node [4], which lies between the
    failing edge and the root, still hangs below the root [2] in the forward
    tree: the walk ended at [4], not at the root, and only node [5] went over
    to the backward tree. *)
Lemma repair_stops_below_root :
  exists seg4 seg5 seg,
    let s := line_chain seg4 seg5 in
    let s' := line_repaired seg4 seg in
    reachable (line_planner 0) [0%R; 0%R] [10%R; 0%R] s /\
    hd_error (forward_tree s) = Some 2 /\
    par s 5 = Some 4 /\ par s 4 = Some 2 /\ par s 2 = None /\
    remove_infeasible_edge (line_planner 0) 4 5 3 5 s = Ok s' /\
    par s' 4 = Some 2 /\ In 4 (forward_tree s') /\ ~ In 4 (backward_tree s') /\
    par s' 5 = Some 3 /\ backward_tree s' = [3; 5].
Proof.
  destruct (line_chain_reachable 0) as (seg4 & seg5 & Hr).
  destruct (line_repair 0 seg4 seg5) as (seg & Hrep).
  exists seg4, seg5, seg. cbn zeta.
  split; [exact Hr|]. split; [reflexivity|].
  split; [reflexivity|]. split; [reflexivity|]. split; [reflexivity|].
  split; [exact Hrep|]. split; [reflexivity|].
  split; [right; left; reflexivity|].
  split; [|split; reflexivity].
  cbn. intros [H|[H|[]]]; discriminate.
Qed.

Lemma repair_walk_extent_witness :
  exists seg4 seg5 seg,
    let s := line_chain seg4 seg5 in
    let s' := line_repaired seg4 seg in
    forest_inv 1 s /\
    tree_type (deref (heap s) 4) = tree_type (deref (heap s) 5) /\
    in_trees s 3 /\ in_trees s 5 /\
    tree_type (deref (heap s) 3) <> tree_type (deref (heap s) 5) /\
    iter_parent s 1 (fst (bridge_sides s 5 3 5)) = Some 4 /\
    remove_infeasible_edge (line_planner 0) 4 5 3 5 s = Ok s' /\
    forest_inv 1 s' /\
    hd_error (tree_of forward s') = hd_error (tree_of forward s).
Proof.
  destruct (line_chain_reachable 0) as (seg4 & seg5 & Hr).
  destruct (line_repair 0 seg4 seg5) as (seg & Hrep).
  exists seg4, seg5, seg. cbn zeta.
  pose proof (reachable_inv _ _ _ _ (line_well_formed 0 0 10) Hr) as I.
  assert (H1 : tree_type (deref (heap (line_chain seg4 seg5)) 4)
               = tree_type (deref (heap (line_chain seg4 seg5)) 5)) by reflexivity.
  assert (H2 : in_trees (line_chain seg4 seg5) 3) by (right; left; reflexivity).
  assert (H3 : in_trees (line_chain seg4 seg5) 5)
    by (left; right; right; left; reflexivity).
  assert (H4 : tree_type (deref (heap (line_chain seg4 seg5)) 3)
               <> tree_type (deref (heap (line_chain seg4 seg5)) 5))
    by (cbn; discriminate).
  assert (H5 : iter_parent (line_chain seg4 seg5) 1
                 (fst (bridge_sides (line_chain seg4 seg5) 5 3 5)) = Some 4)
    by reflexivity.
  pose proof (repair_walk_extent (line_planner 0) 1 (line_chain seg4 seg5) 4 5 3 5 1
                (line_repaired seg4 seg) I H1 H2 H3 H4 H5 Hrep) as W.
  cbn zeta in W. destruct W as (I' & _ & _ & Hroot & _).
  repeat (split; [assumption|]). exact Hroot.
Defined.

Open Scope R_scope.

(** * Further properties of the planner *)

Open Scope R_scope.

(** * Further properties of the solver *)

(** X1.  [solve_quadratic] returns exactly the real roots: for [a <> 0], a
    number is in the returned list if and only if it satisfies
    [a r^2 + b r + c = 0]. *)
Theorem solve_quadratic_spec a b c r :
  a <> 0 ->
  (In r (solve_quadratic a b c) <-> a * r ^ 2 + b * r + c = 0).
Proof.
  intros Ha. split; [apply solve_quadratic_in; assumption|].
  intros Hr.
  assert (Hc : c = - (a * r ^ 2 + b * r)) by lra.
  assert (Hd : b ^ 2 - 4 * a * c = (2 * a * r + b) * (2 * a * r + b))
    by (rewrite Hc; ring).
  assert (Hd0 : 0 <= b ^ 2 - 4 * a * c).
  { rewrite Hd. pose proof (Rle_0_sqr (2 * a * r + b)) as Hsq. unfold Rsqr in Hsq. lra. }
  rewrite solve_quadratic_roots by assumption.
  pose proof (sqrt_sqrt _ Hd0) as Hs. set (s := sqrt _) in *. clearbody s.
  assert (Hprod : (s - (2 * a * r + b)) * (s + (2 * a * r + b)) = 0) by nra.
  apply Rmult_integral in Hprod. destruct Hprod as [H|H].
  - left. field_simplify_eq; [lra|assumption].
  - right. left. field_simplify_eq; [lra|assumption].
Qed.

Lemma solve_quadratic_spec_witness :
  2 <> 0 /\ (In 1 (solve_quadratic 2 (-6) 4) <-> 2 * 1 ^ 2 + (-6) * 1 + 4 = 0).
Proof.
  assert (H : 2 <> 0) by lra.
  split; [exact H|]. exact (solve_quadratic_spec 2 (-6) 4 1 H).
Defined.

(** X2.  [_univariate_time_optimal_interpolants] depends on the two positions
    only through their difference, and gives the same duration for the
    mirrored instance (all positions and velocities negated). *)
Theorem time_optimal_symmetries x1 x2 v1 v2 vmax amax d :
  TimeOptimal._univariate_time_optimal_interpolants (x1 + d) (x2 + d) v1 v2 vmax amax
  = TimeOptimal._univariate_time_optimal_interpolants x1 x2 v1 v2 vmax amax /\
  TimeOptimal._univariate_time_optimal_interpolants (- x1) (- x2) (- v1) (- v2) vmax amax
  = TimeOptimal._univariate_time_optimal_interpolants x1 x2 v1 v2 vmax amax.
Proof.
  split; [|apply topt_mirror].
  unfold TimeOptimal._univariate_time_optimal_interpolants, TimeOptimal.times,
    TimeOptimal.compute_p_plus_p_minus, TimeOptimal.compute_p_minus_p_plus,
    TimeOptimal.compute_p_plus_l_plus_p_minus, TimeOptimal.compute_p_minus_l_plus_p_plus.
  replace ((v1 ^ 2 - v2 ^ 2) / (2 * amax) + (x1 + d) - (x2 + d))
    with ((v1 ^ 2 - v2 ^ 2) / (2 * amax) + x1 - x2) by ring.
  replace ((v1 ^ 2 - v2 ^ 2) / (2 * amax) + (x2 + d) - (x1 + d))
    with ((v1 ^ 2 - v2 ^ 2) / (2 * amax) + x2 - x1) by ring.
  replace (x2 + d - (x1 + d)) with (x2 - x1) by ring.
  reflexivity.
Qed.

(** The duration of each class is never negative. *)
Lemma topt_classes_nonneg x1 x2 v1 v2 vmax amax T :
  In T (TimeOptimal.times x1 x2 v1 v2 vmax amax) -> 0 <= T.
Proof.
  unfold TimeOptimal.times. intros H. apply keep_some_in in H.
  destruct H as [H|[H|[H|[H|[]]]]].
  - unfold TimeOptimal.compute_p_plus_p_minus in H.
    set (f := fun t : R => _) in H. set (sols := solve_quadratic _ _ _) in H.
    destruct (filter f sols) as [|t rest] eqn:E; [discriminate|].
    injection H as <-.
    assert (Hin : In t (filter f sols)) by (rewrite E; left; reflexivity).
    apply filter_In in Hin. destruct Hin as [_ Hf]. unfold f in Hf.
    apply andb_prop in Hf. destruct Hf as [H1 _]. apply Rleb_true in H1.
    pose proof (Rmax_l ((v2 - v1) / amax) 0). pose proof (Rmax_r ((v2 - v1) / amax) 0).
    replace ((v1 - v2) / amax) with (- ((v2 - v1) / amax)) by (unfold Rdiv; ring).
    lra.
  - unfold TimeOptimal.compute_p_minus_p_plus in H.
    set (f := fun t : R => _) in H. set (sols := solve_quadratic _ _ _) in H.
    destruct (filter f sols) as [|t rest] eqn:E; [discriminate|].
    injection H as <-.
    assert (Hin : In t (filter f sols)) by (rewrite E; left; reflexivity).
    apply filter_In in Hin. destruct Hin as [_ Hf]. unfold f in Hf.
    apply andb_prop in Hf. destruct Hf as [H1 _]. apply Rleb_true in H1.
    pose proof (Rmax_l ((v1 - v2) / amax) 0). pose proof (Rmax_r ((v1 - v2) / amax) 0).
    replace ((v2 - v1) / amax) with (- ((v1 - v2) / amax)) by (unfold Rdiv; ring).
    lra.
  - unfold TimeOptimal.compute_p_plus_l_plus_p_minus in H.
    destruct (Rltb ((vmax - v1) / amax) 0) eqn:E1; [discriminate|].
    destruct (Rltb ((vmax - v2) / amax) 0) eqn:E2; [discriminate|].
    destruct (Rltb _ 0) eqn:E3 in H; [discriminate|].
    cbn [orb] in H. injection H as <-.
    apply Rltb_false in E1, E2, E3. lra.
  - unfold TimeOptimal.compute_p_minus_l_plus_p_plus in H.
    destruct (Rltb ((vmax + v1) / amax) 0) eqn:E1; [discriminate|].
    destruct (Rltb ((vmax + v2) / amax) 0) eqn:E2; [discriminate|].
    destruct (Rltb _ 0) eqn:E3 in H; [discriminate|].
    cbn [orb] in H. injection H as <-.
    apply Rltb_false in E1, E2, E3. lra.
Qed.

(** X3.  A duration returned by [_univariate_time_optimal_interpolants] is
    never negative, and it is the duration of one of the four classes, the
    smallest of those that gave one. *)
Theorem time_optimal_nonneg x1 x2 v1 v2 vmax amax T :
  0 < vmax -> 0 < amax ->
  TimeOptimal._univariate_time_optimal_interpolants x1 x2 v1 v2 vmax amax = Some T ->
  0 <= T /\
  In T (TimeOptimal.times x1 x2 v1 v2 vmax amax) /\
  (forall T', In T' (TimeOptimal.times x1 x2 v1 v2 vmax amax) -> T <= T').
Proof.
  intros _ _. unfold TimeOptimal._univariate_time_optimal_interpolants.
  destruct (TimeOptimal.times x1 x2 v1 v2 vmax amax) as [|t ts] eqn:E; [discriminate|].
  intros H. injection H as <-.
  pose proof (list_min_in t ts) as Hin.
  split; [|split].
  - apply (topt_classes_nonneg x1 x2 v1 v2 vmax amax). rewrite E. assumption.
  - assumption.
  - intros T' HT'. apply list_min_le. assumption.
Qed.

Lemma time_optimal_nonneg_witness :
  0 < 2 /\ 0 < 1 /\
  TimeOptimal._univariate_time_optimal_interpolants 0 1 0 0 2 1 = Some 2 /\
  0 <= 2.
Proof.
  assert (Hv : 0 < 2) by lra. assert (Ha : 0 < 1) by lra.
  split; [exact Hv|]. split; [exact Ha|]. split; [exact unit_step_time|].
  exact (proj1 (time_optimal_nonneg 0 1 0 0 2 1 2 Hv Ha unit_step_time)).
Defined.






(** X6.  A primitive returned by [_minimum_acceleration_interpolants] has an
    acceleration in [(0, amax]], and that acceleration is a candidate of the
    selected class or lies at most [a_margin] below one. *)
Theorem returned_acceleration_bounds x1 x2 v1 v2 vmax T amax a tag :
  0 < T -> 0 < amax ->
  MinAccel._minimum_acceleration_interpolants x1 x2 v1 v2 vmax T amax = Ok (Some (a, tag)) ->
  0 < a <= amax /\
  exists a_min,
    In (Fin a_min, tag) (MinAccel.valid_results x1 x2 v1 v2 vmax T) /\
    a <= a_min <= a + a_margin.
Proof.
  intros HT Hamax Hret.
  destruct (minimum_acceleration_returns _ _ _ _ _ _ _ _ _ Hret)
    as (a_min & Hsel & Hle & Hclip).
  pose proof (selected_in _ _ _ _ _ _ _ Hsel) as Hin.
  assert (HT0 : T <> 0) by lra.
  destruct (valid_results_inv _ _ _ _ _ _ _ _ HT0 Hin) as [Hpos _].
  split; [rewrite Hclip; apply clip_pos; assumption|].
  exists a_min. split; [assumption|].
  rewrite Hclip. unfold clip. rewrite Rmax_left by lra.
  unfold Rmin. destruct (Rle_dec a_min amax); unfold a_margin in *; lra.
Qed.

Lemma returned_acceleration_bounds_witness :
  0 < 19999999 / 10000000 /\ 0 < 1 /\
  MinAccel._minimum_acceleration_interpolants 0 1 0 0 2 (19999999 / 10000000) 1
  = Ok (Some (1, PpPm)) /\
  0 < 1 <= 1.
Proof.
  assert (HT : 0 < 19999999 / 10000000) by lra. assert (Ha : 0 < 1) by lra.
  split; [exact HT|]. split; [exact Ha|]. split; [exact clipped_instance|].
  exact (proj1 (returned_acceleration_bounds 0 1 0 0 2 (19999999 / 10000000) 1 1 PpPm
                  HT Ha clipped_instance)).
Defined.

Lemma Rabs_le_between x a : Rabs x <= a -> - a <= x <= a.
Proof. unfold Rabs. destruct (Rcase_abs x); lra. Qed.

(** The peak velocity of a bang-bang candidate is within [vmax]. *)
Lemma valid_results_peak x1 x2 v1 v2 vmax T a tag :
  T <> 0 ->
  In (Fin a, tag) (MinAccel.valid_results x1 x2 v1 v2 vmax T) ->
  match tag with
  | PpPm => Rabs (v1 + a * (0.5 * (T + (v2 - v1) / a))) <= vmax
  | PmPp => Rabs (v1 - a * (0.5 * (T + (v1 - v2) / a))) <= vmax
  | _ => True
  end.
Proof.
  intros HT Hin. unfold MinAccel.valid_results in Hin. apply keep_some_in in Hin.
  destruct Hin as [H|[H|[H|[H|[]]]]].
  - apply p_plus_p_minus_inv in H; [|assumption].
    destruct H as (-> & a' & E & _ & _ & _ & Hpk). injection E as <-. assumption.
  - apply p_minus_p_plus_inv in H; [|assumption].
    destruct H as (-> & a' & E & _ & _ & _ & Hpk). injection E as <-. assumption.
  - apply cruise_candidate_tag in H. subst tag. exact I.
  - apply cruise_candidate_tag in H. subst tag. exact I.
Qed.

(** X7.  Along a candidate of [_minimum_acceleration_interpolants] whose
    switch is not later than [T], between two velocities within [vmax]: the
    velocity that [_compute_trajectory_state] gives stays within [vmax] at
    every time of [[0, T]]. *)
Theorem velocity_within_limit x1 x2 v1 v2 vmax T a tag t :
  0 < T ->
  In (Fin a, tag) (MinAccel.valid_results x1 x2 v1 v2 vmax T) ->
  switch_within v1 v2 a T tag ->
  Rabs v1 <= vmax -> Rabs v2 <= vmax ->
  0 <= t <= T ->
  Rabs (snd (_compute_trajectory_state x1 x2 v1 v2 a vmax T tag t)) <= vmax.
Proof.
  intros HT Hin Hsw Hv1 Hv2 Ht.
  assert (HT0 : T <> 0) by lra.
  pose proof (valid_results_peak _ _ _ _ _ _ _ _ HT0 Hin) as Hpk.
  destruct (valid_results_inv _ _ _ _ _ _ _ _ HT0 Hin) as [Ha Hinv].
  apply Rabs_le_between in Hv1, Hv2. apply Rabs_le.
  destruct tag; cbn [_compute_trajectory_state switch_within] in *.
  - destruct Hinv as (_ & Hts). apply Rabs_le_between in Hpk.
    set (q := (v2 - v1) / a) in *.
    assert (Hqa : q * a = v2 - v1) by (unfold q; field; lra). clearbody q.
    set (ts := 0.5 * (T + q)) in *.
    assert (Hts2 : 2 * ts = T + q) by (unfold ts; lra). clearbody ts.
    destruct (Rleb t ts) eqn:E; cbn [snd].
    + apply Rleb_true in E. nra.
    + apply Rleb_false in E. nra.
  - destruct Hinv as (_ & Hts). apply Rabs_le_between in Hpk.
    set (q := (v1 - v2) / a) in *.
    assert (Hqa : q * a = v1 - v2) by (unfold q; field; lra). clearbody q.
    set (ts := 0.5 * (T + q)) in *.
    assert (Hts2 : 2 * ts = T + q) by (unfold ts; lra). clearbody ts.
    destruct (Rleb t ts) eqn:E; cbn [snd].
    + apply Rleb_true in E. nra.
    + apply Rleb_false in E. nra.
  - destruct Hinv as (_ & H1 & H2 & H3).
    set (p1 := (vmax - v1) / a) in *. set (p2 := (vmax - v2) / a) in *.
    assert (Hp1 : p1 * a = vmax - v1) by (unfold p1; field; lra).
    assert (Hp2 : p2 * a = vmax - v2) by (unfold p2; field; lra).
    clearbody p1 p2.
    destruct (Rleb t p1) eqn:E1; [|destruct (Rleb t (p1 + (T - p1 - p2))) eqn:E2];
      cbn [snd].
    + apply Rleb_true in E1. nra.
    + lra.
    + apply Rleb_false in E2. nra.
  - destruct Hinv as (_ & H1 & H2 & H3).
    set (p1 := (vmax + v1) / a) in *. set (p2 := (vmax + v2) / a) in *.
    assert (Hp1 : p1 * a = vmax + v1) by (unfold p1; field; lra).
    assert (Hp2 : p2 * a = vmax + v2) by (unfold p2; field; lra).
    clearbody p1 p2.
    destruct (Rleb t p1) eqn:E1; [|destruct (Rleb t (p1 + (T - p1 - p2))) eqn:E2];
      cbn [snd].
    + apply Rleb_true in E1. nra.
    + lra.
    + apply Rleb_false in E2. nra.
Qed.

(** Between two different states at rest, at a duration not below the optimal
    one, the returned primitive is a candidate itself (nothing was clipped),
    and the switch of a bang-bang primitive is at [T / 2]. *)
Lemma rest_returned_candidate x1 x2 vmax amax Ts T a tag :
  0 < vmax -> 0 < amax -> x1 <> x2 ->
  TimeOptimal._univariate_time_optimal_interpolants x1 x2 0 0 vmax amax = Some Ts ->
  Ts <= T ->
  MinAccel._minimum_acceleration_interpolants x1 x2 0 0 vmax T amax = Ok (Some (a, tag)) ->
  0 < T /\ 0 < a <= amax /\
  In (Fin a, tag) (MinAccel.valid_results x1 x2 0 0 vmax T) /\
  switch_within 0 0 a T tag.
Proof.
  intros Hv Ha Hne HTs HT Hret.
  destruct (topt_rest x1 x2 vmax amax Hv Ha Hne) as (Ts' & E & Hrt).
  rewrite HTs in E. injection E as <-.
  assert (Hd : 0 < Rabs (x2 - x1)) by (apply Rabs_pos_lt; lra).
  assert (HTpos : 0 < T) by (destruct Hrt; lra).
  destruct (macc_rest_results x1 x2 vmax T Hv HTpos Hne)
    as (cA & cC & tagA & tagC & Ev & HA & HC).
  destruct (rest_select_ok vmax amax _ Ts T tagA tagC cA cC Hv Ha Hd Hrt HT HA HC)
    as (a' & tag' & Hsel & Hrange & Hin).
  rewrite minimum_acceleration_select, Ev, Hsel in Hret. injection Hret as <- <-.
  split; [assumption|]. split; [assumption|]. split; [rewrite Ev; assumption|].
  destruct tag'; cbn [switch_within]; try exact I.
  - replace ((0 - 0) / a') with 0 by (field; lra). lra.
  - replace ((0 - 0) / a') with 0 by (field; lra). lra.
Qed.

Lemma velocity_within_limit_witness :
  exists a tag,
    0 < 3 /\
    In (Fin a, tag) (MinAccel.valid_results 0 1 0 0 2 3) /\
    switch_within 0 0 a 3 tag /\
    Rabs 0 <= 2 /\ Rabs 0 <= 2 /\ 0 <= 1 <= 3 /\
    Rabs (snd (_compute_trajectory_state 0 1 0 0 a 2 3 tag 1)) <= 2.
Proof.
  assert (Hv : 0 < 2) by lra. assert (Ha : 0 < 1) by lra. assert (Hne : 0 <> 1) by lra.
  assert (HT : 2 <= 3) by lra.
  destruct (macc_rest_ok 0 1 2 1 2 3 Hv Ha Hne unit_step_time HT) as (a & tag & Hret & _).
  destruct (rest_returned_candidate 0 1 2 1 2 3 a tag Hv Ha Hne unit_step_time HT Hret)
    as (HT3 & _ & Hin & Hsw).
  assert (H0 : Rabs 0 <= 2) by (rewrite Rabs_R0; lra).
  assert (Ht : 0 <= 1 <= 3) by lra.
  exists a, tag.
  repeat (split; [first [exact HT3 | exact Hin | exact Hsw | exact H0 | exact Ht]|]).
  exact (velocity_within_limit 0 1 0 0 2 3 a tag 1 HT3 Hin Hsw H0 H0 Ht).
Defined.

(** X8.  A segment between two different states at rest, at a duration not
    below the time-optimal one (as [_compute_optimal_segment] builds them
    between nodes of the trees): the primitive that
    [_minimum_acceleration_interpolants] returns leaves [(x1, 0)] at time [0],
    arrives at [(x2, 0)] at time [T] exactly, and its velocity stays within
    [vmax] in between. *)
Theorem rest_segment_endpoints x1 x2 vmax amax Ts T a tag :
  0 < vmax -> 0 < amax -> x1 <> x2 ->
  TimeOptimal._univariate_time_optimal_interpolants x1 x2 0 0 vmax amax = Some Ts ->
  Ts <= T ->
  MinAccel._minimum_acceleration_interpolants x1 x2 0 0 vmax T amax = Ok (Some (a, tag)) ->
  _compute_trajectory_state x1 x2 0 0 a vmax T tag 0 = (x1, 0) /\
  _compute_trajectory_state x1 x2 0 0 a vmax T tag T = (x2, 0) /\
  (forall t, 0 <= t <= T ->
             Rabs (snd (_compute_trajectory_state x1 x2 0 0 a vmax T tag t)) <= vmax).
Proof.
  intros Hv Ha Hne HTs HT Hret.
  destruct (rest_returned_candidate x1 x2 vmax amax Ts T a tag Hv Ha Hne HTs HT Hret)
    as (HTpos & _ & Hin & Hsw).
  assert (HT0 : T <> 0) by lra.
  assert (H0 : Rabs 0 <= vmax) by (rewrite Rabs_R0; lra).
  split; [exact (state_at_start _ _ _ _ _ _ _ _ HT0 Hin)|].
  split; [exact (state_at_end _ _ _ _ _ _ _ _ HT0 Hin Hsw)|].
  intros t Ht. pose proof (valid_results_peak _ _ _ _ _ _ _ _ HT0 Hin) as Hpk.
  apply Rabs_le.
  destruct (valid_results_inv _ _ _ _ _ _ _ _ HT0 Hin) as [Hapos Hinv].
  apply Rabs_le_between in H0.
  destruct tag; cbn [_compute_trajectory_state switch_within] in *.
  - destruct Hinv as (_ & Hts). apply Rabs_le_between in Hpk.
    set (q := (0 - 0) / a) in *.
    assert (Hqa : q * a = 0 - 0) by (unfold q; field; lra). clearbody q.
    set (ts := 0.5 * (T + q)) in *.
    assert (Hts2 : 2 * ts = T + q) by (unfold ts; lra). clearbody ts.
    destruct (Rleb t ts) eqn:E; cbn [snd].
    + apply Rleb_true in E. nra.
    + apply Rleb_false in E. nra.
  - destruct Hinv as (_ & Hts). apply Rabs_le_between in Hpk.
    set (q := (0 - 0) / a) in *.
    assert (Hqa : q * a = 0 - 0) by (unfold q; field; lra). clearbody q.
    set (ts := 0.5 * (T + q)) in *.
    assert (Hts2 : 2 * ts = T + q) by (unfold ts; lra). clearbody ts.
    destruct (Rleb t ts) eqn:E; cbn [snd].
    + apply Rleb_true in E. nra.
    + apply Rleb_false in E. nra.
  - destruct Hinv as (_ & H1 & H2 & H3).
    set (p1 := (vmax - 0) / a) in *.
    assert (Hp1 : p1 * a = vmax - 0) by (unfold p1; field; lra).
    clearbody p1.
    destruct (Rleb t p1) eqn:E1; [|destruct (Rleb t (p1 + (T - p1 - p1))) eqn:E2];
      cbn [snd].
    + apply Rleb_true in E1. nra.
    + lra.
    + apply Rleb_false in E2. nra.
  - destruct Hinv as (_ & H1 & H2 & H3).
    set (p1 := (vmax + 0) / a) in *.
    assert (Hp1 : p1 * a = vmax + 0) by (unfold p1; field; lra).
    clearbody p1.
    destruct (Rleb t p1) eqn:E1; [|destruct (Rleb t (p1 + (T - p1 - p1))) eqn:E2];
      cbn [snd].
    + apply Rleb_true in E1. nra.
    + lra.
    + apply Rleb_false in E2. nra.
Qed.

Lemma rest_segment_endpoints_witness :
  exists a tag,
    0 < 2 /\ 0 < 1 /\ 0 <> 1 /\
    TimeOptimal._univariate_time_optimal_interpolants 0 1 0 0 2 1 = Some 2 /\
    2 <= 3 /\
    MinAccel._minimum_acceleration_interpolants 0 1 0 0 2 3 1 = Ok (Some (a, tag)) /\
    _compute_trajectory_state 0 1 0 0 a 2 3 tag 3 = (1, 0).
Proof.
  assert (Hv : 0 < 2) by lra. assert (Ha : 0 < 1) by lra. assert (Hne : 0 <> 1) by lra.
  assert (HT : 2 <= 3) by lra.
  destruct (macc_rest_ok 0 1 2 1 2 3 Hv Ha Hne unit_step_time HT) as (a & tag & Hret & _).
  exists a, tag.
  repeat (split; [first [exact Hv | exact Ha | exact Hne | exact unit_step_time
                        | exact HT | exact Hret]|]).
  exact (proj1 (proj2 (rest_segment_endpoints 0 1 2 1 2 3 a tag Hv Ha Hne
                         unit_step_time HT Hret))).
Defined.

Open Scope R_scope.

(** * Further properties of the planner *)

(** ** Segments in several dimensions *)

Lemma list_max_ge x l y : In y (x :: l) -> y <= list_max x l.
Proof.
  unfold list_max. revert x y; induction l as [|z l IH]; intros x y Hy; cbn [fold_left].
  - destruct Hy as [<-|[]]. lra.
  - assert (Hm : Rmax x z <= fold_left Rmax l (Rmax x z)) by (apply IH; left; reflexivity).
    destruct Hy as [<-|[<-|Hy]].
    + pose proof (Rmax_l x z). lra.
    + pose proof (Rmax_r x z). lra.
    + apply IH. right. assumption.
Qed.

Lemma list_max_in x l : In (list_max x l) (x :: l).
Proof.
  unfold list_max. revert x; induction l as [|y l IH]; intros x; cbn [fold_left].
  - left. reflexivity.
  - destruct (IH (Rmax x y)) as [H|H].
    + rewrite <- H. unfold Rmax. destruct (Rle_dec x y); [right; left|left]; reflexivity.
    + right. right. assumption.
Qed.


Lemma all_some_none {A B} (f : A -> option B) l x :
  In x l -> f x = None -> all_some (map f l) = None.
Proof.
  induction l as [|y l IH]; intros Hin Hx; [destruct Hin|].
  cbn [map all_some]. destruct Hin as [->|Hin].
  - rewrite Hx. reflexivity.
  - destruct (f y); [|reflexivity]. rewrite (IH Hin Hx). reflexivity.
Qed.

Lemma all_some_inv {A B} (f : A -> option B) l r :
  all_some (map f l) = Some r ->
  length r = length l /\
  forall i x d, nth_error l i = Some x -> f x = Some (nth i r d).
Proof.
  revert r; induction l as [|y l IH]; intros r H.
  - cbn in H. injection H as <-. split; [reflexivity|]. intros [|i] x d Hx; discriminate.
  - cbn [map all_some] in H. destruct (f y) as [b|] eqn:Ey; [|discriminate].
    destruct (all_some (map f l)) as [r'|] eqn:Er; [|discriminate].
    injection H as <-. destruct (IH r' eq_refl) as [HL Hn].
    split; [cbn; lia|]. intros [|i] x d Hx; cbn in *.
    + injection Hx as <-. assumption.
    + apply Hn. assumption.
Qed.



Lemma map_nth_seq_firstn {A} (l : list A) d n :
  (n <= length l)%nat -> map (fun i => nth i l d) (seq 0 n) = firstn n l.
Proof.
  revert l; induction n as [|n IH]; intros l Hn; [reflexivity|].
  destruct l as [|x l]; [cbn in Hn; lia|].
  cbn [seq map nth firstn]. f_equal.
  rewrite <- seq_shift, map_map. cbn [nth]. apply IH. cbn in Hn. lia.
Qed.

Lemma map_nth_seq_skipn {A} (l : list A) d n m :
  length l = (n + m)%nat -> map (fun i => nth (n + i) l d) (seq 0 m) = skipn n l.
Proof.
  revert l; induction n as [|n IH]; intros l Hl.
  - cbn [Nat.add skipn]. rewrite map_nth_seq_firstn by lia.
    apply firstn_all2. cbn in Hl. lia.
  - destruct l as [|x l]; [cbn in Hl; lia|].
    cbn [Nat.add nth skipn]. apply IH. cbn in Hl. lia.
Qed.

Lemma zero_velocity_axis self s dim :
  zero_velocity (dimension self) s -> (dim < dimension self)%nat ->
  axis self s 1 dim = 0.
Proof.
  intros [HL Hs] Hd. unfold axis. rewrite Nat.mul_1_l.
  rewrite <- (firstn_skipn (dimension self) s) at 1.
  rewrite app_nth2; rewrite length_firstn, Nat.min_l by lia; [|lia].
  replace (dimension self + dim - dimension self)%nat with dim by lia.
  rewrite Hs. apply nth_repeat.
Qed.

(** X9.  [_calculate_segment_time] returns the largest of the per-axis
    time-optimal durations plus [safe_margin]: every axis has its own optimal
    duration at least [safe_margin] below the result, and one axis attains
    it.  With no axis at all it raises [ValueError] ([np.max] of an empty
    array); when an axis has no time-optimal primitive ([None]) it raises
    [TypeError]. *)
Theorem calculate_segment_time_spec self a b :
  let axis_time := fun dim =>
    TimeOptimal._univariate_time_optimal_interpolants
      (axis self a 0 dim) (axis self b 0 dim) (axis self a 1 dim) (axis self b 1 dim)
      (nth dim (vmax self) 0) (nth dim (amax self) 0) in
  (dimension self = 0%nat -> _calculate_segment_time self a b = Raise ValueError) /\
  ((exists dim, (dim < dimension self)%nat /\ axis_time dim = None) ->
   _calculate_segment_time self a b = Raise TypeError) /\
  (forall T, _calculate_segment_time self a b = Ok T ->
     (forall dim, (dim < dimension self)%nat ->
        exists t, axis_time dim = Some t /\ t + safe_margin <= T) /\
     (exists dim, (dim < dimension self)%nat /\ axis_time dim = Some (T - safe_margin))).
Proof.
  intros axis_time. unfold _calculate_segment_time. fold axis_time.
  split; [|split].
  - intros ->. reflexivity.
  - intros (dim & Hd & E).
    rewrite (all_some_none axis_time (seq 0 (dimension self)) dim); [reflexivity| |exact E].
    apply in_seq. lia.
  - intros T H.
    destruct (all_some (map axis_time (seq 0 (dimension self)))) as [[|t ts]|] eqn:E;
      try discriminate.
    injection H as <-.
    destruct (all_some_inv _ _ _ E) as [HL Hn]. rewrite length_seq in HL.
    split.
    + intros dim Hd. exists (nth dim (t :: ts) 0). split.
      * apply Hn. rewrite nth_error_nth' with (d := 0%nat) by (rewrite length_seq; lia).
        rewrite seq_nth by lia. reflexivity.
      * assert (nth dim (t :: ts) 0 <= list_max t ts).
        { apply list_max_ge. apply nth_In. lia. }
        lra.
    + destruct (In_nth _ _ 0 (list_max_in t ts)) as (dim & Hd & Hmax).
      exists dim. split; [lia|].
      replace (list_max t ts + safe_margin - safe_margin) with (list_max t ts) by ring.
      rewrite <- Hmax. apply Hn.
      rewrite nth_error_nth' with (d := 0%nat) by (rewrite length_seq; lia).
      rewrite seq_nth by lia. reflexivity.
Qed.








Open Scope R_scope.

(** ** Limits and samples *)

Lemma map2_nth {A B C} (f : A -> B -> C) l m i da db dc :
  (i < length l)%nat -> (i < length m)%nat ->
  nth i (map2 f l m) dc = f (nth i l da) (nth i m db).
Proof.
  revert m i; induction l as [|x l IH]; intros m i Hl Hm; [cbn in Hl; lia|].
  destruct m as [|y m]; [cbn in Hm; lia|].
  destruct i as [|i]; cbn [map2 nth]; [reflexivity|].
  apply IH; cbn in *; lia.
Qed.

Lemma forallb_combine_nth {A B} (f : A * B -> bool) (l : list A) (m : list B) da db :
  length l = length m ->
  (forallb f (combine l m) = true <->
   forall i, (i < length l)%nat -> f (nth i l da, nth i m db) = true).
Proof.
  revert m; induction l as [|x l IH]; intros m Hlen.
  - cbn. split; [intros _ i Hi; lia|reflexivity].
  - destruct m as [|y m]; [discriminate|]. cbn [combine forallb length].
    rewrite andb_true_iff, IH by (cbn in Hlen; lia). split.
    + intros [H0 H] [|i] Hi; cbn [nth]; [assumption|apply H; lia].
    + intros H. split; [exact (H 0%nat ltac:(lia))|].
      intros i Hi. exact (H (S i) ltac:(lia)).
Qed.

Lemma check_state_limits_inner self s :
  length (fst (position_limits self)) = dimension self ->
  length (snd (position_limits self)) = dimension self ->
  (dimension self <= length s)%nat ->
  (_check_state_limits self s = true <->
   forall dim, (dim < dimension self)%nat ->
     nth dim (fst (position_limits self)) 0 <= nth dim s 0
     <= nth dim (snd (position_limits self)) 0).
Proof.
  intros Hlo Hhi Hs. unfold _check_state_limits.
  destruct (position_limits self) as [pos_min pos_max]. cbn [fst snd] in *.
  rewrite (forallb_combine_nth _ _ _ 0 (0, 0)).
  2:{ rewrite length_firstn, length_combine. lia. }
  rewrite length_firstn, Nat.min_l by lia.
  split; intros H dim Hd; specialize (H dim Hd).
  - rewrite combine_nth in H by lia.
    apply andb_prop in H. destruct H as [H1 H2].
    apply Rleb_true in H1, H2.
    rewrite nth_firstn in H1, H2.
    destruct (Nat.ltb_spec dim (dimension self)); [lra|lia].
  - rewrite combine_nth by lia. rewrite nth_firstn.
    destruct (Nat.ltb_spec dim (dimension self)); [|lia].
    apply andb_true_intro. split; apply Rleb_true; lra.
Qed.

(** X12.  [_check_state_limits] looks at the positions only: with limits of
    the planner's dimension and a state at least that long, it returns [True]
    exactly when every position lies between its two limits, both included;
    the velocities play no part: replacing them by any list leaves the result
    as it is. *)
Theorem check_state_limits_spec self s :
  length (fst (position_limits self)) = dimension self ->
  length (snd (position_limits self)) = dimension self ->
  (dimension self <= length s)%nat ->
  (_check_state_limits self s = true <->
   forall dim, (dim < dimension self)%nat ->
     nth dim (fst (position_limits self)) 0 <= nth dim s 0
     <= nth dim (snd (position_limits self)) 0) /\
  (forall velocity,
     _check_state_limits self (firstn (dimension self) s ++ velocity)
     = _check_state_limits self s).
Proof.
  intros Hlo Hhi Hs. split.
  - apply check_state_limits_inner; assumption.
  - intros velocity. unfold _check_state_limits.
    destruct (position_limits self) as [pos_min pos_max].
    rewrite firstn_app, length_firstn, Nat.min_l by assumption.
    rewrite Nat.sub_diag, firstn_firstn, Nat.min_id. cbn [firstn].
    rewrite app_nil_r. reflexivity.
Qed.

Lemma check_state_limits_spec_witness :
  length (fst (position_limits (line_planner 0))) = dimension (line_planner 0) /\
  length (snd (position_limits (line_planner 0))) = dimension (line_planner 0) /\
  (dimension (line_planner 0) <= length [3; 7])%nat /\
  (_check_state_limits (line_planner 0) [3; 7] = true <->
   forall dim, (dim < dimension (line_planner 0))%nat ->
     nth dim (fst (position_limits (line_planner 0))) 0 <= nth dim [3; 7] 0
     <= nth dim (snd (position_limits (line_planner 0))) 0).
Proof.
  assert (H1 : length (fst (position_limits (line_planner 0))) = dimension (line_planner 0))
    by reflexivity.
  assert (H2 : length (snd (position_limits (line_planner 0))) = dimension (line_planner 0))
    by reflexivity.
  assert (H3 : (dimension (line_planner 0) <= length [3; 7])%nat) by (cbn; lia).
  split; [exact H1|]. split; [exact H2|]. split; [exact H3|].
  exact (proj1 (check_state_limits_spec (line_planner 0) [3; 7] H1 H2 H3)).
Defined.

(** X13.  A state drawn by [_sample_free_space_state] (each unit sample in
    [[0, 1)], each lower limit not above the upper one) is at rest, every one
    of its positions lies between its limits, and it passes
    [_check_state_limits]. *)
Theorem sample_within_limits self u :
  length (fst (position_limits self)) = dimension self ->
  length (snd (position_limits self)) = dimension self ->
  (forall dim, (dim < dimension self)%nat ->
     nth dim (fst (position_limits self)) 0 <= nth dim (snd (position_limits self)) 0) ->
  (forall j, 0 <= u j < 1) ->
  zero_velocity (dimension self) (_sample_free_space_state self u) /\
  (forall dim, (dim < dimension self)%nat ->
     nth dim (_sample_free_space_state self u) 0
     = nth dim (fst (position_limits self)) 0
       + (nth dim (snd (position_limits self)) 0 - nth dim (fst (position_limits self)) 0)
         * u dim) /\
  _check_state_limits self (_sample_free_space_state self u) = true.
Proof.
  intros Hlo Hhi Hord Hu.
  pose proof (sample_zero_velocity self u Hlo Hhi) as Hz.
  assert (Hnth : forall dim, (dim < dimension self)%nat ->
     nth dim (_sample_free_space_state self u) 0
     = nth dim (fst (position_limits self)) 0
       + (nth dim (snd (position_limits self)) 0 - nth dim (fst (position_limits self)) 0)
         * u dim).
  { intros dim Hd. unfold _sample_free_space_state.
    destruct (position_limits self) as [pos_min pos_max]. cbn [fst snd] in *.
    rewrite app_nth1.
    2:{ rewrite map2_length, length_combine, length_seq. lia. }
    rewrite (map2_nth _ _ _ _ (0, 0) 0%nat).
    2:{ rewrite length_combine. lia. }
    2:{ rewrite length_seq. lia. }
    rewrite combine_nth by lia. rewrite seq_nth by lia. cbn [fst snd Nat.add].
    reflexivity. }
  split; [assumption|]. split; [assumption|].
  apply check_state_limits_inner; try assumption.
  - destruct Hz as [HL _]. lia.
  - intros dim Hd. rewrite Hnth by assumption.
    specialize (Hord dim Hd). specialize (Hu dim). nra.
Qed.

Open Scope nat_scope.

(** ** Tracing a path, in full *)

Lemma trace_up_chain s : forall fuel x acc l,
  trace_up fuel (heap s) x acc = Ok l ->
  exists chain m,
    l = acc ++ chain /\ length chain = S m /\
    (forall i, i <= m -> nth_error chain i = iter_parent s i x) /\
    exists r, iter_parent s m x = Some r /\ par s r = None.
Proof.
  intros fuel. induction fuel as [|f IH]; intros x acc l H; [discriminate|].
  cbn [trace_up] in H. destruct (parent (deref (heap s) x)) as [p|] eqn:E.
  - apply IH in H. destruct H as (chain & m & -> & HL & Hn & r & Hr & Hroot).
    exists (x :: chain), (S m). split; [rewrite <- app_assoc; reflexivity|].
    split; [cbn; lia|]. split.
    + intros [|i] Hi; [reflexivity|]. cbn [nth_error iter_parent]. unfold par. rewrite E.
      apply Hn. lia.
    + exists r. split; [|assumption]. cbn [iter_parent]. unfold par. rewrite E. assumption.
  - injection H as <-. exists [x], 0. split; [reflexivity|]. split; [reflexivity|].
    split.
    + intros i Hi. assert (i = 0) by lia. subst i. reflexivity.
    + exists x. split; [reflexivity|]. exact E.
Qed.

Lemma trace_up_no_raise h e : forall fuel x acc, trace_up fuel h x acc <> Raise e.
Proof.
  intros fuel. induction fuel as [|f IH]; intros x acc; [discriminate|].
  cbn [trace_up]. destruct (parent (deref h x)); [apply IH|discriminate].
Qed.

Lemma iter_parent_last s m x :
  iter_parent s (S m) x
  = match iter_parent s m x with Some y => par s y | None => None end.
Proof.
  revert x; induction m as [|m IH]; intros x.
  - cbn. destruct (par s x); reflexivity.
  - cbn [iter_parent] in *. destruct (par s x) as [p|]; [|reflexivity].
    apply (IH p).
Qed.

Lemma iter_parent_split s i : forall j x y z,
  iter_parent s (i + j) x = Some z -> iter_parent s i x = Some y ->
  iter_parent s j y = Some z.
Proof.
  induction i as [|i IH]; intros j x y z Hz Hy.
  - cbn in Hy. injection Hy as <-. exact Hz.
  - cbn [iter_parent Nat.add] in *. destruct (par s x) as [p|]; [|discriminate].
    eapply IH; eassumption.
Qed.

(** X14.  In a store that satisfies the forest invariant, [_trace_path] on a
    node [x] of a tree returns the list of its ancestors from the root down
    to [x] itself: the first element is the root of that tree, the last one is
    [x], every element is the parent of the next, and the list is no longer
    than the tree. *)
Theorem trace_path_spec n s k x :
  forest_inv n s -> In x (tree_of k s) ->
  exists path m,
    _trace_path (heap s) x = Ok path /\
    length path = S m /\ m < length (tree_of k s) /\
    (forall i, i <= m -> nth_error path i = iter_parent s (m - i) x) /\
    nth_error path 0 = hd_error (tree_of k s) /\
    nth_error path m = Some x /\
    (forall i a b, nth_error path i = Some a -> nth_error path (S i) = Some b ->
                   par s b = Some a) /\
    (forall a, In a path -> In a (tree_of k s)).
Proof.
  intros I Hx.
  pose proof (trace_path_fuel n s x I (in_trees_of _ _ _ Hx)) as Hfuel.
  unfold _trace_path in *.
  destruct (trace_up (S (length (heap s))) (heap s) x []) as [l|e|] eqn:E;
    cbn [bind] in *; [| |congruence].
  2:{ exfalso. exact (trace_up_no_raise _ _ _ _ _ E). }
  destruct (trace_up_chain s _ _ _ _ E) as (chain & m & Hl & HL & Hn & r & Hr & Hroot).
  cbn [app] in Hl. subst chain.
  assert (Hrin : In r (tree_of k s)) by (eapply chain_in_tree; eassumption).
  pose proof (inv_root_only _ _ I k r Hrin Hroot) as Hhd.
  assert (Hrev : forall i, i <= m -> nth_error (rev l) i = iter_parent s (m - i) x).
  { intros i Hi. rewrite nth_error_rev.
    destruct (Nat.ltb_spec i (length l)); [|lia].
    replace (length l - S i) with (m - i) by lia. apply Hn. lia. }
  assert (Hm : m < length (tree_of k s)).
  { destruct (forest_reaches_root n s k x I Hx) as (r' & m' & Hhd' & _ & Hm' & Hlt).
    destruct (Nat.lt_trichotomy m m') as [Hlt'|[->|Hgt]]; [lia|assumption|].
    exfalso. rewrite Hhd in Hhd'. injection Hhd' as <-.
    replace m with (m' + S (m - m' - 1)) in Hr by lia.
    assert (Hcyc : iter_parent s (S (m - m' - 1)) r = Some r)
      by exact (iter_parent_split s m' _ x r r Hr Hm').
    exact (forest_acyclic n s k r _ I Hrin Hcyc). }
  exists (rev l), m. split; [reflexivity|]. split; [rewrite length_rev; assumption|].
  split; [assumption|]. split; [assumption|]. split; [|split; [|split]].
  - rewrite Hrev by lia. rewrite Nat.sub_0_r, Hr. symmetry. assumption.
  - rewrite Hrev by lia. rewrite Nat.sub_diag. reflexivity.
  - intros i a b Ha Hb.
    assert (Hi : S i <= m).
    { assert (S i < length (rev l)) by (apply nth_error_Some; congruence).
      rewrite length_rev in *. lia. }
    rewrite Hrev in Ha, Hb by lia.
    replace (m - i) with (S (m - S i)) in Ha by lia.
    rewrite iter_parent_last, Hb in Ha. assumption.
  - intros a Ha. apply In_nth_error in Ha. destruct Ha as [i Hi].
    assert (Hlt : i <= m).
    { assert (i < length (rev l)) by (apply nth_error_Some; congruence).
      rewrite length_rev in *. lia. }
    rewrite Hrev in Hi by assumption. exact (chain_in_tree n s k _ x a I Hx Hi).
Qed.

Open Scope nat_scope.

(** ** Joining and checking paths *)

Lemma list_Reqb_eq l m : list_Reqb l m = true -> l = m.
Proof.
  revert m; induction l as [|x l IH]; intros [|y m] H; try discriminate; [reflexivity|].
  cbn [list_Reqb] in H. apply andb_prop in H. destruct H as [H1 H2].
  apply Reqb_true in H1. subst y. f_equal. apply IH. assumption.
Qed.

Lemma last_cons_nonempty {A} (x : A) l d : l <> [] -> last (x :: l) d = last l d.
Proof. destruct l; [congruence|reflexivity]. Qed.

Lemma hd_app_nonempty {A} (l m : list A) d : l <> [] -> hd d (l ++ m) = hd d l.
Proof. destruct l; [congruence|reflexivity]. Qed.

(** X15.  [_connect_paths] on two non-empty paths: when the two first nodes
    have the same tree type it raises [ValueError]; otherwise it returns a
    path that holds every node of the two paths, begins with a node whose
    state is the start state and ends with a node whose state is the goal
    state (the seed nodes are added when the roots are elsewhere). *)
Theorem connect_paths_endpoints h path1 path2 :
  path1 <> [] -> path2 <> [] ->
  (tree_type (deref h (hd 0 path1)) = tree_type (deref h (hd 0 path2)) ->
   _connect_paths h path1 path2 = Raise ValueError) /\
  (tree_type (deref h (hd 0 path1)) <> tree_type (deref h (hd 0 path2)) ->
   exists path,
     _connect_paths h path1 path2 = Ok path /\ path <> [] /\
     state (deref h (hd 0 path)) = state (deref h start) /\
     state (deref h (last path 0)) = state (deref h goal) /\
     (forall a, In a path1 \/ In a path2 -> In a path) /\
     (forall a, In a path -> In a path1 \/ In a path2 \/ a = start \/ a = goal)).
Proof.
  intros H1 H2. unfold _connect_paths.
  set (k1 := tree_type (deref h (hd 0 path1))).
  set (k2 := tree_type (deref h (hd 0 path2))).
  split.
  - intros E. rewrite <- E. destruct k1; reflexivity.
  - intros Hne.
    assert (Hfb : exists fw bw,
      match k1, k2 with
      | forward, backward => Ok (path1, rev path2)
      | backward, forward => Ok (path2, rev path1)
      | _, _ => Raise ValueError
      end = Ok (fw, bw) /\ fw <> [] /\ bw <> [] /\
      (forall a, In a (fw ++ bw) <-> In a path1 \/ In a path2)).
    { assert (Hrev : forall l : list nat, l <> [] -> rev l <> []).
      { intros l Hl E. apply Hl. rewrite <- (rev_involutive l), E. reflexivity. }
      destruct k1, k2; try congruence.
      - exists path1, (rev path2). repeat split; auto.
        + intros Ha. apply in_app_or in Ha. rewrite <- in_rev in Ha. assumption.
        + intros Ha. apply in_or_app. rewrite <- in_rev. assumption.
      - exists path2, (rev path1). repeat split; auto.
        + intros Ha. apply in_app_or in Ha. rewrite <- in_rev in Ha. tauto.
        + intros Ha. apply in_or_app. rewrite <- in_rev. tauto. }
    destruct Hfb as (fw & bw & -> & Hfw & Hbw & Hmem). cbn [bind fst snd].
    set (c0 := fw ++ bw).
    assert (Hc0 : c0 <> []) by (unfold c0; destruct fw; [congruence|discriminate]).
    set (c1 := if negb (list_Reqb (state (deref h start)) (state (deref h (hd 0 c0))))
               then start :: c0 else c0).
    assert (Hc1 : c1 <> [] /\ state (deref h (hd 0 c1)) = state (deref h start) /\
                  last c1 0 = last c0 0 /\
                  (forall a, In a c1 -> a = start \/ In a c0) /\
                  (forall a, In a c0 -> In a c1)).
    { unfold c1.
      destruct (list_Reqb (state (deref h start)) (state (deref h (hd 0 c0)))) eqn:E;
        cbn [negb].
      - apply list_Reqb_eq in E. repeat split; auto.
      - repeat split; try discriminate; auto.
        + apply last_cons_nonempty. assumption.
        + intros a [<-|Ha]; auto.
        + intros a Ha. right. assumption. }
    destruct Hc1 as (Hne1 & Hhd1 & Hlast1 & Hmem1 & Hmem1').
    exists (if negb (list_Reqb (state (deref h goal)) (state (deref h (last c1 0))))
            then c1 ++ [goal] else c1).
    split; [reflexivity|].
    destruct (list_Reqb (state (deref h goal)) (state (deref h (last c1 0)))) eqn:E;
      cbn [negb].
    + apply list_Reqb_eq in E. repeat split; auto.
      * intros a Ha. apply Hmem1'. apply Hmem. assumption.
      * intros a Ha. apply Hmem1 in Ha. destruct Ha as [->|Ha]; [tauto|].
        apply Hmem in Ha. tauto.
    + repeat split.
      * destruct c1; discriminate.
      * rewrite hd_app_nonempty by assumption. assumption.
      * rewrite last_last. reflexivity.
      * intros a Ha. apply in_or_app. left. apply Hmem1'. apply Hmem. assumption.
      * intros a Ha. apply in_app_or in Ha. destruct Ha as [Ha|[<-|[]]]; [|tauto].
        apply Hmem1 in Ha. destruct Ha as [->|Ha]; [tauto|].
        apply Hmem in Ha. tauto.
Qed.

(** X16.  [_check_path_collision] reports the first edge of the path that is
    not collision-free: it returns [None] exactly when the check of every two
    consecutive nodes returns [True], and when it returns a pair, that pair is
    two consecutive nodes whose check returned [False] while every earlier
    pair passed. *)
Theorem check_path_collision_spec self h path :
  (_check_path_collision self h path = Ok None <->
   forall i a b, nth_error path i = Some a -> nth_error path (S i) = Some b ->
                 check_edge_of self h a b = Ok true) /\
  (forall a b, _check_path_collision self h path = Ok (Some (a, b)) ->
     exists i,
       nth_error path i = Some a /\ nth_error path (S i) = Some b /\
       check_edge_of self h a b = Ok false /\
       forall j a' b', j < i -> nth_error path j = Some a' ->
                       nth_error path (S j) = Some b' ->
                       check_edge_of self h a' b' = Ok true).
Proof.
  induction path as [|x rest IH].
  - split.
    + split; [intros _ [|i] a b H; discriminate|reflexivity].
    + intros a b H. discriminate.
  - destruct rest as [|y rest'].
    + split.
      * split; [|reflexivity]. intros _ [|[|i]] a b Ha Hb; discriminate.
      * intros a b H. discriminate.
    + change (_check_path_collision self h (x :: y :: rest'))
        with (free <- check_edge_of self h x y ;;
              if free then _check_path_collision self h (y :: rest')
              else Ok (Some (x, y))).
      destruct IH as [IH1 IH2].
      destruct (check_edge_of self h x y) as [[|]|e|] eqn:E; cbn [bind].
      * split.
        -- rewrite IH1. split.
           ++ intros H [|i] a b Ha Hb.
              ** cbn in Ha, Hb. injection Ha as <-. injection Hb as <-. assumption.
              ** apply (H i); assumption.
           ++ intros H i a b Ha Hb. apply (H (S i)); assumption.
        -- intros a b H. destruct (IH2 a b H) as (i & Ha & Hb & Hf & Hbefore).
           exists (S i). repeat split; try assumption.
           intros [|j] a' b' Hj Ha' Hb'.
           ++ cbn in Ha', Hb'. injection Ha' as <-. injection Hb' as <-. assumption.
           ++ apply (Hbefore j); [lia|assumption|assumption].
      * split.
        -- split; [discriminate|]. intros H.
           specialize (H 0 x y eq_refl eq_refl). congruence.
        -- intros a b H. injection H as <- <-. exists 0.
           repeat split; try assumption. intros j a' b' Hj. lia.
      * split.
        -- split; [discriminate|]. intros H.
           specialize (H 0 x y eq_refl eq_refl). congruence.
        -- intros a b H. discriminate.
      * split.
        -- split; [discriminate|]. intros H.
           specialize (H 0 x y eq_refl eq_refl). congruence.
        -- intros a b H. discriminate.
Qed.

Open Scope nat_scope.

(** ** What a repair keeps *)

Lemma list_remove_mem x l l' :
  list_remove x l = Some l' -> forall a, In a l <-> a = x \/ In a l'.
Proof.
  revert l'; induction l as [|y l IH]; intros l' H; [discriminate|].
  cbn [list_remove] in H. destruct (Nat.eqb_spec x y) as [->|Hne].
  - injection H as <-. intros a. cbn. intuition congruence.
  - destruct (list_remove x l) as [r|]; [|discriminate]. injection H as <-.
    intros a. cbn [In]. rewrite (IH r eq_refl a). intuition congruence.
Qed.

Lemma relabel_subtree_members p' old :
  forall fuel stack s s',
    relabel_subtree fuel p' old (other_kind old) stack s = Ok s' ->
    (forall a, in_trees s' a <-> in_trees s a) /\
    length (forward_tree s') + length (backward_tree s')
    = length (forward_tree s) + length (backward_tree s).
Proof.
  intros fuel. induction fuel as [|f IH]; intros stack s s' H; [discriminate|].
  cbn [relabel_subtree] in H. destruct stack as [|v rest].
  - injection H as <-. split; [tauto|reflexivity].
  - destruct (list_remove v (tree_of old s)) as [old'|] eqn:Hrm; [|discriminate].
    apply IH in H. destruct H as [Hmem Hlen].
    pose proof (list_remove_mem _ _ _ Hrm) as Hm.
    pose proof (list_remove_length _ _ _ Hrm) as Hl.
    destruct old; cbn [other_kind set_tree set_heap tree_of forward_tree backward_tree heap]
      in *; unfold in_trees in *;
      cbn [forward_tree backward_tree] in *.
    + split.
      * intros a. rewrite Hmem, in_app_iff, (Hm a). cbn [In]. intuition congruence.
      * rewrite Hlen, length_app. cbn [length]. lia.
    + split.
      * intros a. rewrite Hmem, in_app_iff, (Hm a). cbn [In]. intuition congruence.
      * rewrite Hlen, length_app. cbn [length]. lia.
Qed.

Lemma repair_walk_members self start_node old :
  forall fuel c p' s s',
    repair_walk self fuel start_node old (other_kind old) c p' s = Ok s' ->
    (forall a, in_trees s' a <-> in_trees s a) /\
    length (forward_tree s') + length (backward_tree s')
    = length (forward_tree s) + length (backward_tree s).
Proof.
  intros fuel. induction fuel as [|f IH]; intros c p' s s' H; [discriminate|].
  cbn [repair_walk] in H.
  destruct (Nat.eqb c start_node).
  { injection H as <-. split; [tauto|reflexivity]. }
  destruct (parent (deref (heap s) c)) as [op|]; [|discriminate].
  destruct (list_remove c _) as [ch|]; [|discriminate].
  destruct (_compute_optimal_segment self _ _) as [seg| |]; cbn [bind] in H;
    try discriminate.
  destruct (relabel_subtree _ _ _ _ _ _) as [s1| |] eqn:E; cbn [bind] in H;
    try discriminate.
  apply IH in H. destruct H as [Hmem Hlen].
  apply relabel_subtree_members in E. destruct E as [Emem Elen].
  split.
  - intros a. rewrite Hmem, Emem. apply in_trees_set_heap.
  - rewrite Hlen, Elen. reflexivity.
Qed.

(** X17.  A repair that returns discards nothing: the nodes held by the two
    tree lists together are the same before and after
    [remove_infeasible_edge], their number is unchanged, and no object is
    created. *)
Theorem repair_keeps_every_node self a b bs be s s' :
  remove_infeasible_edge self a b bs be s = Ok s' ->
  (forall x, in_trees s' x <-> in_trees s x) /\
  length (forward_tree s') + length (backward_tree s')
  = length (forward_tree s) + length (backward_tree s) /\
  length (heap s') = length (heap s).
Proof.
  intros H.
  pose proof (proj1 (remove_infeasible_edge_states _ _ _ _ _ _ _ H)) as HL.
  unfold remove_infeasible_edge in H.
  destruct (negb _).
  { injection H as <-. split; [tauto|]. split; reflexivity. }
  destruct (tree_kind_eqb _ _); apply repair_walk_members in H;
    destruct H as [H1 H2]; auto.
Qed.

(** The walk from a node none of whose ancestors is [start_node] reaches the
    root, whose parent is [None]. *)
Lemma repair_walk_off_chain self n old start_node :
  forall m fuel s c p' s',
    forest_inv n s ->
    In c (tree_of old s) -> In p' (tree_of (other_kind old) s) ->
    (exists r, iter_parent s m c = Some r /\ par s r = None) ->
    (forall j, iter_parent s j c <> Some start_node) ->
    repair_walk self fuel start_node old (other_kind old) c p' s <> Ok s'.
Proof.
  intros m. induction m as [|m IH]; intros fuel s c p' s' I Hc Hp' (r & Hr & Hroot) Hoff H.
  - cbn in Hr. injection Hr as <-.
    destruct fuel as [|fuel]; [discriminate|]. cbn [repair_walk] in H.
    destruct (Nat.eqb_spec c start_node) as [->|Hne].
    { apply (Hoff 0). reflexivity. }
    unfold par in Hroot. rewrite Hroot in H. discriminate.
  - destruct (iter_parent_step _ _ _ _ Hr) as (op & Hpar & Hop).
    assert (Hca : c <> start_node) by (intros ->; apply (Hoff 0); reflexivity).
    assert (Hcop : c <> op).
    { intros <-. apply (forest_acyclic n s old c 0 I Hc). cbn. rewrite Hpar. reflexivity. }
    destruct fuel as [|fuel]; [discriminate|].
    apply repair_walk_round in H.
    destruct H as [[E _]|(_ & op' & ch & seg & s1 & Hpar' & Hrm & Hrel & Hrest)];
      [contradiction|].
    rewrite Hpar in Hpar'. injection Hpar' as <-.
    specialize (Hrm Hcop).
    destruct (repair_round n s old c p' op ch seg _ s1 I Hc Hp' Hpar Hrm Hrel)
      as (I1 & P1 & Hc1 & _ & Hanc1 & _ & _ & _).
    assert (Hop1 : In op (tree_of old s1)).
    { apply (Hanc1 op 0). cbn. rewrite Hpar. reflexivity. }
    assert (Hopc : forall j, iter_parent s j op <> Some c).
    { intros j. apply (chain_avoids_origin n s old c 0 j op I Hc).
      cbn. rewrite Hpar. reflexivity. }
    assert (Hagree : forall j, iter_parent s1 j op = iter_parent s j op).
    { intros j. apply (iter_parent_agree s s1 c p' P1). intros i _. apply Hopc. }
    apply (IH fuel s1 op c s' I1 Hop1 Hc1); [| |exact Hrest].
    + exists r. split; [rewrite Hagree; assumption|].
      rewrite P1. destruct (Nat.eqb_spec r c) as [->|]; [|assumption].
      congruence.
    + intros j. rewrite Hagree. intros Hj. apply (Hoff (S j)).
      cbn [iter_parent]. rewrite Hpar. assumption.
Qed.

(** X18.  [remove_infeasible_edge] on an edge inside one tree needs its
    start node among the ancestors of the bridge node of that tree: when it is
    not, the walk climbs to the root, whose [parent] is [None], and the call
    raises instead of returning ([AttributeError] at the root, unless
    [_compute_optimal_segment] raised on the way). *)
Theorem repair_needs_ancestor self n s a b bs be :
  forest_inv n s ->
  tree_type (deref (heap s) a) = tree_type (deref (heap s) b) ->
  in_trees s bs -> in_trees s be ->
  tree_type (deref (heap s) bs) <> tree_type (deref (heap s) be) ->
  (forall m, iter_parent s m (fst (bridge_sides s b bs be)) <> Some a) ->
  exists e, remove_infeasible_edge self a b bs be s = Raise e.
Proof.
  intros I Eab Hbs Hbe Hdiff Hoff.
  pose proof (remove_infeasible_edge_fuel self a b bs be s) as Hfuel.
  destruct (remove_infeasible_edge self a b bs be s) as [s'|e|] eqn:H;
    [|exists e; reflexivity|congruence].
  exfalso. set (old := tree_type (deref (heap s) a)).
  set (c0 := fst (bridge_sides s b bs be)) in *.
  set (p0 := snd (bridge_sides s b bs be)).
  assert (Hsides : In c0 (tree_of old s) /\ In p0 (tree_of (other_kind old) s) /\
                   repair_walk self (S (length (tree_of old s))) a old (other_kind old)
                               c0 p0 s = Ok s').
  { unfold remove_infeasible_edge in H. unfold c0, p0, bridge_sides in *.
    destruct (tree_kind_eqb_spec (tree_type (deref (heap s) a))
                                 (tree_type (deref (heap s) b))) as [_|N];
      [|contradiction].
    cbn [negb] in H.
    pose proof (in_own_tree n s bs I Hbs) as Obs.
    pose proof (in_own_tree n s be I Hbe) as Obe.
    destruct (tree_kind_eqb_spec (tree_type (deref (heap s) bs))
                                 (tree_type (deref (heap s) b))) as [Ebs|Nbs];
      cbn [fst snd].
    - split; [|split; [|exact H]].
      + unfold old. rewrite Eab, <- Ebs. assumption.
      + unfold old. rewrite Eab, <- Ebs.
        rewrite <- (other_kind_of _ _ (not_eq_sym Hdiff)). assumption.
    - assert (Ebe : tree_type (deref (heap s) be) = tree_type (deref (heap s) b)).
      { destruct (tree_type (deref (heap s) be)), (tree_type (deref (heap s) bs)),
          (tree_type (deref (heap s) b)); congruence. }
      split; [|split; [|exact H]].
      + unfold old. rewrite Eab, <- Ebe. assumption.
      + unfold old. rewrite Eab, <- Ebe.
        rewrite <- (other_kind_of _ _ Hdiff). assumption. }
  destruct Hsides as (Hc0 & Hp0 & Hwalk).
  destruct (forest_reaches_root n s old c0 I Hc0) as (r & m & _ & Hroot & Hm & _).
  refine (repair_walk_off_chain self n old a m (S (length (tree_of old s))) s c0 p0 s'
            I Hc0 Hp0 _ Hoff Hwalk).
  exists r. auto.
Qed.

Open Scope nat_scope.

(** ** Rebuilding the path found *)

Lemma deref_link_after prev_node new_node t ti s a :
  a <> prev_node -> a <> new_node ->
  deref (heap (link_after prev_node new_node t ti s)) a = deref (heap s) a.
Proof.
  intros H1 H2. unfold link_after. cbn [heap set_heap].
  rewrite !deref_update_other by congruence. reflexivity.
Qed.

Lemma link_after_old prev_node new_node t ti s a :
  a <> new_node ->
  state (deref (heap (link_after prev_node new_node t ti s)) a) = state (deref (heap s) a) /\
  parent (deref (heap (link_after prev_node new_node t ti s)) a) = parent (deref (heap s) a) /\
  tree_type (deref (heap (link_after prev_node new_node t ti s)) a)
  = tree_type (deref (heap s) a).
Proof.
  intros H. unfold link_after. cbn [heap set_heap].
  destruct (Nat.eq_dec a prev_node) as [->|Hne].
  - destruct (Nat.lt_ge_cases prev_node (length (heap s))) as [Hlt|Hge].
    + rewrite deref_update_same by (rewrite update_length; assumption).
      rewrite deref_update_other by congruence. repeat split; reflexivity.
    + unfold deref. rewrite !nth_overflow by (rewrite ?update_length; lia).
      repeat split; reflexivity.
  - rewrite !deref_update_other by congruence. repeat split; reflexivity.
Qed.

Lemma link_after_new prev_node new_node t ti s :
  new_node < length (heap s) -> prev_node <> new_node ->
  state (deref (heap (link_after prev_node new_node t ti s)) new_node)
  = state (deref (heap s) new_node) /\
  parent (deref (heap (link_after prev_node new_node t ti s)) new_node) = Some prev_node /\
  tree_type (deref (heap (link_after prev_node new_node t ti s)) new_node)
  = tree_type (deref (heap s) new_node).
Proof.
  intros Hlt Hne. unfold link_after. cbn [heap set_heap].
  rewrite deref_update_other by congruence.
  rewrite deref_update_same by assumption. repeat split; reflexivity.
Qed.

Lemma link_after_shape prev_node new_node t ti s :
  forward_tree (link_after prev_node new_node t ti s) = forward_tree s /\
  backward_tree (link_after prev_node new_node t ti s) = backward_tree s /\
  length (heap (link_after prev_node new_node t ti s)) = length (heap s).
Proof.
  unfold link_after. cbn [heap set_heap forward_tree backward_tree].
  rewrite !update_length. repeat split; reflexivity.
Qed.

Lemma last_In {A} (l : list A) d : l <> [] -> In (last l d) l.
Proof.
  induction l as [|x l IH]; [congruence|]. intros _.
  destruct l as [|y l]; [left; reflexivity|].
  right. apply IH. discriminate.
Qed.

(** One round of [reconstruct_path]: a new object at the end of the store,
    linked behind the last node built so far. *)
Lemma reconstruct_round self base node acc s s2 :
  base <= length (heap s) ->
  (forall a, In a acc -> base <= a < length (heap s)) ->
  (let src := deref (heap s) node in
   let '(new_node, s1) := alloc (new_Node (state src) forward None None None) s in
   match acc with
   | [] => Ok s1
   | _ :: _ =>
       let prev_node := last acc 0 in
       if tree_kind_eqb (tree_type src) forward then
         Ok (link_after prev_node new_node (segment_time src) (trajectory_info src) s1)
       else
         seg <- _compute_optimal_segment self (state (deref (heap s1) prev_node))
                                         (state src) ;;
         Ok (link_after prev_node new_node (Some (fst seg)) (Some (snd seg)) s1)
   end) = Ok s2 ->
  forward_tree s2 = forward_tree s /\ backward_tree s2 = backward_tree s /\
  length (heap s2) = S (length (heap s)) /\
  (forall a, a < base -> deref (heap s2) a = deref (heap s) a) /\
  (forall a, a < length (heap s) ->
     state (deref (heap s2) a) = state (deref (heap s) a) /\
     parent (deref (heap s2) a) = parent (deref (heap s) a) /\
     tree_type (deref (heap s2) a) = tree_type (deref (heap s) a)) /\
  state (deref (heap s2) (length (heap s))) = state (deref (heap s) node) /\
  tree_type (deref (heap s2) (length (heap s))) = forward /\
  parent (deref (heap s2) (length (heap s)))
  = match acc with [] => None | _ :: _ => Some (last acc 0) end.
Proof.
  intros Hbase Hacc. cbn zeta. unfold alloc.
  set (nd := new_Node (state (deref (heap s) node)) forward None None None).
  set (s1 := set_heap (heap s ++ [nd]) s).
  assert (Hs1 : forward_tree s1 = forward_tree s /\ backward_tree s1 = backward_tree s /\
                length (heap s1) = S (length (heap s)) /\
                (forall a, a < length (heap s) -> deref (heap s1) a = deref (heap s) a) /\
                deref (heap s1) (length (heap s)) = nd).
  { unfold s1. cbn [heap set_heap forward_tree backward_tree].
    rewrite length_app. cbn [length]. repeat split; try reflexivity; try lia.
    - intros a Ha. apply deref_app_old. assumption.
    - apply deref_app_new. }
  destruct Hs1 as (F1 & B1 & L1 & O1 & N1).
  destruct acc as [|a0 acc'].
  - intros H. injection H as <-.
    repeat split; try assumption.
    + intros a Ha. apply O1. lia.
    + rewrite O1 by assumption. reflexivity.
    + rewrite O1 by assumption. reflexivity.
    + rewrite O1 by assumption. reflexivity.
    + rewrite N1. reflexivity.
    + rewrite N1. reflexivity.
    + rewrite N1. reflexivity.
  - set (prev := last (a0 :: acc') 0).
    assert (Hprev : base <= prev < length (heap s)).
    { apply Hacc. unfold prev. apply last_In. discriminate. }
    assert (Hlink : forall t ti,
      let s2' := link_after prev (length (heap s)) t ti s1 in
      forward_tree s2' = forward_tree s /\ backward_tree s2' = backward_tree s /\
      length (heap s2') = S (length (heap s)) /\
      (forall a, a < base -> deref (heap s2') a = deref (heap s) a) /\
      (forall a, a < length (heap s) ->
         state (deref (heap s2') a) = state (deref (heap s) a) /\
         parent (deref (heap s2') a) = parent (deref (heap s) a) /\
         tree_type (deref (heap s2') a) = tree_type (deref (heap s) a)) /\
      state (deref (heap s2') (length (heap s))) = state (deref (heap s) node) /\
      tree_type (deref (heap s2') (length (heap s))) = forward /\
      parent (deref (heap s2') (length (heap s))) = Some prev).
    { intros t ti s2'. subst s2'.
      destruct (link_after_shape prev (length (heap s)) t ti s1) as (F2 & B2 & L2).
      destruct (link_after_new prev (length (heap s)) t ti s1 ltac:(lia) ltac:(lia))
        as (S2 & P2 & T2).
      split; [congruence|]. split; [congruence|]. split; [congruence|].
      split; [|split; [|split; [|split]]].
      - intros a Ha. rewrite deref_link_after by lia. apply O1. lia.
      - intros a Ha.
        destruct (link_after_old prev (length (heap s)) t ti s1 a ltac:(lia))
          as (Hs & Hp & Ht).
        rewrite Hs, Hp, Ht, O1 by assumption. repeat split; reflexivity.
      - rewrite S2, N1. reflexivity.
      - rewrite T2, N1. reflexivity.
      - assumption. }
    destruct (tree_kind_eqb (tree_type (deref (heap s) node)) forward).
    + intros H. injection H as <-. apply Hlink.
    + destruct (_compute_optimal_segment self _ _) as [seg| |]; cbn [bind];
        try discriminate.
      intros H. injection H as <-. apply Hlink.
Qed.

Lemma reconstruct_loop_frame self base :
  forall path acc s rp s',
    reconstruct_loop self path acc s = Ok (rp, s') ->
    base <= length (heap s) ->
    (forall a, In a acc -> base <= a < length (heap s)) ->
    (forall a, In a path -> a < base) ->
    forward_tree s' = forward_tree s /\ backward_tree s' = backward_tree s /\
    length (heap s') = length (heap s) + length path /\
    (forall a, a < base -> deref (heap s') a = deref (heap s) a) /\
    rp = acc ++ seq (length (heap s)) (length path) /\
    (forall a, a < length (heap s) ->
       state (deref (heap s') a) = state (deref (heap s) a) /\
       parent (deref (heap s') a) = parent (deref (heap s) a) /\
       tree_type (deref (heap s') a) = tree_type (deref (heap s) a)) /\
    (forall i a, nth_error path i = Some a ->
       state (deref (heap s') (length (heap s) + i)) = state (deref (heap s) a) /\
       tree_type (deref (heap s') (length (heap s) + i)) = forward /\
       parent (deref (heap s') (length (heap s) + i))
       = match i with
         | O => match acc with [] => None | _ :: _ => Some (last acc 0) end
         | S j => Some (length (heap s) + j)
         end).
Proof.
  intros path. induction path as [|node rest IH]; intros acc s rp s' H Hbase Hacc Hpath.
  - cbn in H. injection H as <- <-. cbn [length seq]. rewrite app_nil_r, Nat.add_0_r.
    split; [reflexivity|]. split; [reflexivity|]. split; [reflexivity|].
    split; [reflexivity|]. split; [reflexivity|]. split; [auto|].
    intros [|i] x Hx; discriminate.
  - cbn [reconstruct_loop] in H.
    cbn zeta in H. unfold alloc in H.
    match type of H with
    | bind ?m _ = _ => destruct m as [s2| |] eqn:E2; cbn [bind] in H; try discriminate
    end.
    pose proof (reconstruct_round self base node acc s s2 Hbase Hacc) as R.
    cbn zeta in R. unfold alloc in R. specialize (R E2).
    destruct R as (F2 & B2 & L2 & O2 & K2 & NS & NT & NP).
    apply IH in H.
    + destruct H as (F & B & L & O & Hrp & K & New).
      split; [congruence|]. split; [congruence|].
      split; [rewrite L, L2; cbn [length]; lia|].
      split; [intros a Ha; rewrite O, O2 by assumption; reflexivity|].
      split; [rewrite Hrp, L2, <- app_assoc; reflexivity|].
      split.
      * intros a Ha. destruct (K a ltac:(lia)) as (K1 & K3 & K4).
        destruct (K2 a Ha) as (K1' & K3' & K4'). repeat split; congruence.
      * intros [|i] a Ha.
        -- cbn in Ha. injection Ha as <-. rewrite Nat.add_0_r.
           destruct (K (length (heap s)) ltac:(lia)) as (K1 & K3 & K4).
           repeat split; congruence.
        -- cbn [nth_error] in Ha. destruct (New i a Ha) as (N1 & N2 & N3).
           rewrite L2 in N1, N2, N3.
           replace (length (heap s) + S i) with (S (length (heap s)) + i) by lia.
           split; [|split; [assumption|]].
           ++ rewrite N1. apply f_equal. apply O2. apply Hpath. right.
              eapply nth_error_In. eassumption.
           ++ rewrite N3. destruct i as [|j].
              ** destruct (acc ++ [length (heap s)]) eqn:Eacc.
                 { destruct acc; discriminate. }
                 rewrite <- Eacc, last_last. f_equal. lia.
              ** f_equal. lia.
    + lia.
    + intros a Ha. apply in_app_or in Ha. destruct Ha as [Ha|[<-|[]]].
      * specialize (Hacc a Ha). lia.
      * lia.
    + intros a Ha. apply Hpath. right. assumption.
Qed.

(** X19.  [reconstruct_path] works on copies.  On a path of existing nodes it
    leaves the two tree lists and every existing node as they are, creates one
    new object per node of the path, in the same order and with the same
    states, all of tree type ['forward'], and links them into one chain: the
    first has no parent, every other one has the one before it as parent. *)
Theorem reconstruct_path_copies self path s rp s' :
  (forall a, In a path -> a < length (heap s)) ->
  reconstruct_path self path s = Ok (rp, s') ->
  forward_tree s' = forward_tree s /\ backward_tree s' = backward_tree s /\
  (forall a, a < length (heap s) -> deref (heap s') a = deref (heap s) a) /\
  rp = seq (length (heap s)) (length path) /\
  map (fun a => state (deref (heap s') a)) rp = map (fun a => state (deref (heap s) a)) path /\
  (forall i a, nth_error rp i = Some a ->
     tree_type (deref (heap s') a) = forward /\
     parent (deref (heap s') a) = match i with O => None | S j => nth_error rp j end).
Proof.
  intros Hpath H. unfold reconstruct_path in H.
  destruct (reconstruct_loop_frame self (length (heap s)) path [] s rp s' H
              (Nat.le_refl _) (fun a (Ha : In a []) => match Ha with end) Hpath)
    as (F & B & L & O & Hrp & K & New).
  cbn [app] in Hrp.
  split; [assumption|]. split; [assumption|]. split; [assumption|].
  split; [assumption|]. split.
  - rewrite Hrp. apply nth_ext with (d := []) (d' := []).
    + rewrite !length_map, length_seq. reflexivity.
    + intros i Hi. rewrite length_map, length_seq in Hi.
      rewrite (nth_indep _ [] (state (deref (heap s') 0)))
        by (rewrite length_map, length_seq; assumption).
      rewrite (map_nth (fun a => state (deref (heap s') a))).
      rewrite seq_nth by assumption.
      rewrite (nth_indep _ [] (state (deref (heap s) 0))) by (rewrite length_map; assumption).
      rewrite (map_nth (fun a => state (deref (heap s) a))).
      apply New. apply nth_error_nth'. assumption.
  - intros i a Ha. rewrite Hrp in Ha.
    assert (Hi : i < length path).
    { assert (i < length (seq (length (heap s)) (length path)))
        by (apply nth_error_Some; congruence).
      rewrite length_seq in *. assumption. }
    rewrite nth_error_nth' with (d := 0) in Ha by (rewrite length_seq; assumption).
    rewrite seq_nth in Ha by assumption. injection Ha as <-.
    destruct (nth_error path i) as [x|] eqn:Ex.
    2:{ apply nth_error_None in Ex. lia. }
    destruct (New i x Ex) as (_ & N2 & N3). split; [assumption|].
    rewrite N3. destruct i as [|j]; [reflexivity|].
    rewrite Hrp. rewrite nth_error_nth' with (d := 0) by (rewrite length_seq; lia).
    rewrite seq_nth by lia. reflexivity.
Qed.

Open Scope R_scope.

(** ** The braking edge of a seed *)

(** One axis of the braking edge: from rest at [p - v T / 2] the primitive
    [(|v / T|, P+P-)] reaches [(p, v)] after [T]. *)
Lemma braking_axis p v T vmax :
  0 < T -> v <> 0 ->
  let a := v / T in
  let x1 := p + - 0.5 * a * T ^ 2 in
  _compute_trajectory_state x1 p 0 v (Rabs a) vmax T PpPm 0 = (x1, 0) /\
  _compute_trajectory_state x1 p 0 v (Rabs a) vmax T PpPm T = (p, v).
Proof.
  intros HT Hv a x1.
  assert (Ha : a * T = v) by (unfold a; field; lra).
  destruct (Rlt_le_dec 0 v) as [Hpos|Hneg].
  - assert (Hapos : 0 < a) by nra.
    rewrite (Rabs_pos_eq a) by lra.
    unfold _compute_trajectory_state.
    replace ((v - 0) / a) with T by (rewrite <- Ha; field; lra).
    rewrite (proj2 (Rleb_true 0 _)) by lra.
    rewrite (proj2 (Rleb_true T _)) by lra.
    split; apply pair_eq; unfold x1; try ring; nra.
  - assert (Haneg : a < 0) by nra.
    rewrite (Rabs_left a) by lra.
    unfold _compute_trajectory_state.
    replace ((v - 0) / - a) with (- T) by (rewrite <- Ha; field; lra).
    replace (0.5 * (T + - T)) with 0 by ring.
    rewrite (proj2 (Rleb_true 0 0)) by lra.
    rewrite (proj2 (Rleb_false T 0)) by lra.
    split; apply pair_eq; unfold x1; try ring; nra.
Qed.

Lemma list_max_map2_ge (f : R -> R -> R) l m t0 ts i :
  map2 f l m = t0 :: ts -> (i < length l)%nat -> (i < length m)%nat ->
  f (nth i l 0) (nth i m 0) <= list_max t0 ts.
Proof.
  intros E Hl Hm. apply list_max_ge. rewrite <- E.
  rewrite <- (map2_nth f l m i 0 0 0) by assumption.
  apply nth_In. rewrite map2_length. lia.
Qed.

(** X20.  When [generate_max_braking_trajectory] returns a braking state for
    a state all of whose velocities are non-zero (state of length [2 n],
    [n] positive acceleration limits): the duration is positive, the
    acceleration recorded for each axis is within that axis' limit, the
    braking state is at rest, and the recorded segment leads from the braking
    state, at time [0], exactly to the given state, at the end of the
    duration. *)
Theorem braking_edge_reaches_seed self s st T ti :
  length s = (2 * dimension self)%nat ->
  length (amax self) = dimension self ->
  (forall dim, (dim < dimension self)%nat ->
     0 < nth dim (amax self) 0 /\ axis self s 1 dim <> 0) ->
  generate_max_braking_trajectory self s = Ok (Some (st, T, ti)) ->
  0 < T /\
  zero_velocity (dimension self) st /\
  (forall dim, (dim < dimension self)%nat ->
     snd (nth dim ti (0, PpPm)) = PpPm /\
     0 < fst (nth dim ti (0, PpPm)) <= nth dim (amax self) 0) /\
  _get_state_in_segment self st s T ti 0
  = (firstn (dimension self) st, skipn (dimension self) st) /\
  _get_state_in_segment self st s T ti T
  = (firstn (dimension self) s, skipn (dimension self) s).
Proof.
  intros Hs Ham Hpos H.
  pose proof (generate_max_braking_zero_velocity self s st T ti Hs H) as Hz.
  unfold generate_max_braking_trajectory in H.
  set (n := dimension self) in *.
  set (position := firstn n s) in *. set (velocity := skipn n s) in *.
  assert (Lp : length position = n) by (unfold position; rewrite length_firstn; lia).
  assert (Lv : length velocity = n) by (unfold velocity; rewrite length_skipn; lia).
  assert (Hvel : forall dim, (dim < n)%nat -> nth dim velocity 0 = axis self s 1 dim).
  { intros dim Hd. unfold axis, velocity. fold n. rewrite Nat.mul_1_l.
    rewrite nth_skipn. reflexivity. }
  assert (Hposn : forall dim, (dim < n)%nat -> nth dim position 0 = axis self s 0 dim).
  { intros dim Hd. unfold axis, position. rewrite Nat.mul_0_l. cbn [Nat.add].
    rewrite nth_firstn. destruct (Nat.ltb_spec dim n); [reflexivity|lia]. }
  destruct (map2 (fun v a => Rabs v / a) velocity (amax self)) as [|t0 ts] eqn:Et;
    [discriminate|].
  set (t_max := list_max t0 ts) in *.
  assert (Hn : (0 < n)%nat).
  { apply (f_equal (@length R)) in Et. rewrite map2_length in Et. cbn in Et. lia. }
  assert (Htime : forall dim, (dim < n)%nat ->
            Rabs (nth dim velocity 0) / nth dim (amax self) 0 <= t_max).
  { intros dim Hd.
    apply (list_max_map2_ge (fun v a => Rabs v / a) velocity (amax self) t0 ts dim Et); lia. }
  assert (HT : 0 < t_max).
  { pose proof (Htime 0%nat Hn) as H0. destruct (Hpos 0%nat Hn) as [Ha Hv].
    rewrite Hvel in H0 by assumption.
    assert (0 < Rabs (axis self s 1 0) / nth 0 (amax self) 0).
    { apply Rdiv_lt_0_compat; [apply Rabs_pos_lt|]; assumption. }
    lra. }
  rewrite (proj2 (Rltb_true 0 t_max)) in H by assumption.
  set (per_dim := map2 (fun p v => (p + - 0.5 * (v / t_max) * t_max ^ 2,
                                    (Rabs (v / t_max), PpPm))) position velocity) in *.
  destruct (negb (_check_state_limits self _)); [discriminate|].
  destruct (negb (collision_checker self _)); [discriminate|].
  injection H as <- <- <-.
  assert (Lper : length per_dim = n) by (unfold per_dim; rewrite map2_length; lia).
  assert (Hper : forall dim, (dim < n)%nat ->
            nth dim per_dim (0, (0, PpPm))
            = (nth dim position 0 + - 0.5 * (nth dim velocity 0 / t_max) * t_max ^ 2,
               (Rabs (nth dim velocity 0 / t_max), PpPm))).
  { intros dim Hd. unfold per_dim.
    rewrite (map2_nth _ position velocity dim 0 0) by lia. reflexivity. }
  assert (Hti : forall dim, (dim < n)%nat ->
            nth dim (map snd per_dim) (0, PpPm)
            = (Rabs (nth dim velocity 0 / t_max), PpPm)).
  { intros dim Hd.
    change (0, PpPm) with (snd (0, (0, PpPm))). rewrite map_nth, Hper by assumption.
    reflexivity. }
  assert (Hst0 : forall dim, (dim < n)%nat ->
            axis self (map fst per_dim ++ map (fun _ => 0) velocity) 0 dim
            = nth dim position 0 + - 0.5 * (nth dim velocity 0 / t_max) * t_max ^ 2).
  { intros dim Hd. unfold axis. rewrite Nat.mul_0_l. cbn [Nat.add].
    rewrite app_nth1 by (rewrite length_map; lia).
    change 0 with (fst (0, (0, PpPm))) at 1. rewrite map_nth, Hper by assumption.
    reflexivity. }
  assert (Hst1 : forall dim, (dim < n)%nat ->
            axis self (map fst per_dim ++ map (fun _ => 0) velocity) 1 dim = 0).
  { intros dim Hd. apply zero_velocity_axis; assumption. }
  split; [assumption|]. split; [assumption|]. split; [|split].
  - intros dim Hd. rewrite Hti by assumption. cbn [fst snd].
    split; [reflexivity|].
    destruct (Hpos dim Hd) as [Ha Hv]. rewrite <- Hvel in Hv by assumption.
    pose proof (Htime dim Hd) as Hle.
    unfold Rdiv. rewrite Rabs_mult, (Rabs_pos_eq (/ t_max)).
    2:{ left. apply Rinv_0_lt_compat. assumption. }
    pose proof (Rabs_pos_lt _ Hv) as Hvp.
    split.
    + apply Rmult_lt_0_compat; [assumption|apply Rinv_0_lt_compat; assumption].
    + apply (Rmult_le_reg_r t_max); [assumption|].
      rewrite Rmult_assoc, Rinv_l by lra.
      apply (Rmult_le_compat_r (nth dim (amax self) 0)) in Hle; [|lra].
      unfold Rdiv in Hle. rewrite Rmult_assoc, Rinv_l in Hle by lra. lra.
  - unfold _get_state_in_segment. fold n. rewrite !map_map.
    assert (Hax : forall dim, In dim (seq 0 n) ->
      (let '(acc, trajectory_type) := nth dim (map snd per_dim) (0, PpPm) in
       _compute_trajectory_state
         (axis self (map fst per_dim ++ map (fun _ => 0) velocity) 0 dim)
         (axis self s 0 dim)
         (axis self (map fst per_dim ++ map (fun _ => 0) velocity) 1 dim)
         (axis self s 1 dim) acc (nth dim (vmax self) 0) t_max trajectory_type 0)
      = (axis self (map fst per_dim ++ map (fun _ => 0) velocity) 0 dim, 0)).
    { intros dim Hd. apply in_seq in Hd. assert (Hd' : (dim < n)%nat) by lia.
      rewrite Hti, Hst1, Hst0 by assumption.
      rewrite <- Hposn, <- Hvel by assumption.
      destruct (Hpos dim Hd') as [_ Hv]. rewrite <- Hvel in Hv by assumption.
      exact (proj1 (braking_axis _ _ t_max (nth dim (vmax self) 0) HT Hv)). }
    f_equal.
    + rewrite <- (map_nth_seq_firstn _ 0) by (destruct Hz; lia).
      apply map_ext_in. intros dim Hd. rewrite (Hax dim Hd). cbn [fst].
      unfold axis. rewrite Nat.mul_0_l. reflexivity.
    + destruct Hz as [_ Hsk]. rewrite Hsk.
      transitivity (map (fun _ : nat => 0) (seq 0 n));
        [|rewrite map_const_repeat, length_seq; reflexivity].
      apply map_ext_in. intros dim Hd. rewrite (Hax dim Hd). reflexivity.
  - unfold _get_state_in_segment. fold n. rewrite !map_map.
    assert (Hax : forall dim, In dim (seq 0 n) ->
      (let '(acc, trajectory_type) := nth dim (map snd per_dim) (0, PpPm) in
       _compute_trajectory_state
         (axis self (map fst per_dim ++ map (fun _ => 0) velocity) 0 dim)
         (axis self s 0 dim)
         (axis self (map fst per_dim ++ map (fun _ => 0) velocity) 1 dim)
         (axis self s 1 dim) acc (nth dim (vmax self) 0) t_max trajectory_type t_max)
      = (axis self s 0 dim, axis self s 1 dim)).
    { intros dim Hd. apply in_seq in Hd. assert (Hd' : (dim < n)%nat) by lia.
      rewrite Hti, Hst1, Hst0 by assumption.
      rewrite <- Hposn, <- Hvel by assumption.
      destruct (Hpos dim Hd') as [_ Hv]. rewrite <- Hvel in Hv by assumption.
      exact (proj2 (braking_axis _ _ t_max (nth dim (vmax self) 0) HT Hv)). }
    f_equal.
    + transitivity (map (fun i => nth i s 0) (seq 0 n));
        [|apply map_nth_seq_firstn; lia].
      apply map_ext_in. intros dim Hd. rewrite (Hax dim Hd). cbn [fst].
      unfold axis. rewrite Nat.mul_0_l. reflexivity.
    + transitivity (map (fun i => nth (n + i) s 0) (seq 0 n));
        [|apply map_nth_seq_skipn; lia].
      apply map_ext_in. intros dim Hd. rewrite (Hax dim Hd). cbn [snd].
      unfold axis. fold n. rewrite Nat.mul_1_l. reflexivity.
Qed.

Open Scope R_scope.

Lemma sample_within_limits_witness :
  let self := line_planner 0 in
  let u := fun _ : nat => 1 / 2 in
  length (fst (position_limits self)) = dimension self /\
  length (snd (position_limits self)) = dimension self /\
  (forall dim, (dim < dimension self)%nat ->
     nth dim (fst (position_limits self)) 0 <= nth dim (snd (position_limits self)) 0) /\
  (forall j : nat, 0 <= u j < 1) /\
  zero_velocity (dimension self) (_sample_free_space_state self u) /\
  _check_state_limits self (_sample_free_space_state self u) = true.
Proof.
  cbn zeta.
  assert (H1 : length (fst (position_limits (line_planner 0))) = dimension (line_planner 0))
    by reflexivity.
  assert (H2 : length (snd (position_limits (line_planner 0))) = dimension (line_planner 0))
    by reflexivity.
  assert (H3 : forall dim, (dim < dimension (line_planner 0))%nat ->
     nth dim (fst (position_limits (line_planner 0))) 0
     <= nth dim (snd (position_limits (line_planner 0))) 0).
  { intros [|dim] Hd; cbn in *; [lra|lia]. }
  assert (H4 : forall j : nat, 0 <= (fun _ : nat => 1 / 2) j < 1) by (intros _; lra).
  pose proof (sample_within_limits (line_planner 0) (fun _ => 1 / 2) H1 H2 H3 H4) as W.
  split; [exact H1|]. split; [exact H2|]. split; [exact H3|]. split; [exact H4|].
  split; [exact (proj1 W)|exact (proj2 (proj2 W))].
Defined.

Lemma braking_edge_reaches_seed_witness :
  let self := line_planner 0 in
  exists st T ti,
    length [5; 1] = (2 * dimension self)%nat /\
    length (amax self) = dimension self /\
    (forall dim, (dim < dimension self)%nat ->
       0 < nth dim (amax self) 0 /\ axis self [5; 1] 1 dim <> 0) /\
    generate_max_braking_trajectory self [5; 1] = Ok (Some (st, T, ti)) /\
    0 < T /\ zero_velocity (dimension self) st /\
    _get_state_in_segment self st [5; 1] T ti T = ([5], [1]).
Proof.
  cbn zeta.
  assert (H1 : length [5; 1] = (2 * dimension (line_planner 0))%nat) by reflexivity.
  assert (H2 : length (amax (line_planner 0)) = dimension (line_planner 0)) by reflexivity.
  assert (H3 : forall dim, (dim < dimension (line_planner 0))%nat ->
       0 < nth dim (amax (line_planner 0)) 0 /\ axis (line_planner 0) [5; 1] 1 dim <> 0).
  { intros [|dim] Hd; cbn in *; [split; lra|lia]. }
  assert (H4 : exists r, generate_max_braking_trajectory (line_planner 0) [5; 1]
                         = Ok (Some r)).
  { unfold generate_max_braking_trajectory, _check_state_limits.
    cbn [line_planner dimension vmax amax length firstn skipn map2 position_limits
         collision_checker].
    unfold list_max. cbn [fold_left].
    replace (Rabs 1 / 1) with 1 by (rewrite Rabs_R1; lra).
    rewrite (proj2 (Rltb_true 0 1)) by lra.
    cbn [map fst snd app combine forallb].
    rewrite (proj2 (Rleb_true 0 _)), (proj2 (Rleb_true _ 10)) by lra.
    eexists. reflexivity. }
  destruct H4 as [[[st T] ti] H4].
  exists st, T, ti.
  pose proof (braking_edge_reaches_seed (line_planner 0) [5; 1] st T ti H1 H2 H3 H4) as W.
  split; [exact H1|]. split; [exact H2|]. split; [exact H3|]. split; [exact H4|].
  split; [exact (proj1 W)|]. split; [exact (proj1 (proj2 W))|].
  exact (proj2 (proj2 (proj2 (proj2 W)))).
Defined.

Open Scope nat_scope.

Lemma trace_path_spec_witness :
  exists seg4 seg5 path,
    let s := line_chain seg4 seg5 in
    forest_inv 1 s /\ In 5 (tree_of forward s) /\
    _trace_path (heap s) 5 = Ok path /\
    nth_error path 0 = hd_error (tree_of forward s) /\
    (forall a, In a path -> In a (tree_of forward s)).
Proof.
  destruct (line_chain_reachable 0) as (seg4 & seg5 & Hr).
  pose proof (reachable_inv _ _ _ _ (line_well_formed 0 0 10) Hr) as I.
  assert (H5 : In 5 (tree_of forward (line_chain seg4 seg5)))
    by (right; right; left; reflexivity).
  destruct (trace_path_spec 1 (line_chain seg4 seg5) forward 5 I H5)
    as (path & m & Hp & _ & _ & _ & Hroot & _ & _ & Hin).
  exists seg4, seg5, path. cbn zeta.
  split; [exact I|]. split; [exact H5|]. split; [exact Hp|]. split; [exact Hroot|exact Hin].
Defined.

Lemma connect_paths_endpoints_witness :
  let h := heap (line_seeded 0 10) in
  [2] <> [] /\ [3] <> [] /\
  tree_type (deref h (hd 0 [2])) <> tree_type (deref h (hd 0 [3])) /\
  exists path,
    _connect_paths h [2] [3] = Ok path /\
    state (deref h (hd 0 path)) = state (deref h start) /\
    state (deref h (last path 0)) = state (deref h goal).
Proof.
  cbn zeta.
  assert (H1 : [2] <> @nil nat) by discriminate.
  assert (H2 : [3] <> @nil nat) by discriminate.
  assert (H3 : tree_type (deref (heap (line_seeded 0 10)) (hd 0 [2]))
               <> tree_type (deref (heap (line_seeded 0 10)) (hd 0 [3])))
    by (cbn; discriminate).
  destruct (proj2 (connect_paths_endpoints (heap (line_seeded 0 10)) [2] [3] H1 H2) H3)
    as (path & Hp & _ & Hs & Hg & _).
  split; [exact H1|]. split; [exact H2|]. split; [exact H3|].
  exists path. split; [exact Hp|]. split; [exact Hs|exact Hg].
Defined.

Lemma repair_keeps_every_node_witness :
  exists seg4 seg5 seg,
    let s := line_chain seg4 seg5 in
    let s' := line_repaired seg4 seg in
    remove_infeasible_edge (line_planner 0) 4 5 3 5 s = Ok s' /\
    (forall x, in_trees s' x <-> in_trees s x) /\
    length (heap s') = length (heap s).
Proof.
  destruct (line_chain_reachable 0) as (seg4 & seg5 & _).
  destruct (line_repair 0 seg4 seg5) as (seg & Hrep).
  exists seg4, seg5, seg. cbn zeta.
  pose proof (repair_keeps_every_node (line_planner 0) 4 5 3 5 (line_chain seg4 seg5)
                (line_repaired seg4 seg) Hrep) as W.
  split; [exact Hrep|]. split; [exact (proj1 W)|exact (proj2 (proj2 W))].
Defined.

Lemma repair_needs_ancestor_witness :
  exists seg4 seg5 e,
    let s := line_chain seg4 seg5 in
    forest_inv 1 s /\
    tree_type (deref (heap s) 5) = tree_type (deref (heap s) 5) /\
    in_trees s 3 /\ in_trees s 4 /\
    tree_type (deref (heap s) 3) <> tree_type (deref (heap s) 4) /\
    (forall m, iter_parent s m (fst (bridge_sides s 5 3 4)) <> Some 5) /\
    remove_infeasible_edge (line_planner 0) 5 5 3 4 s = Raise e.
Proof.
  destruct (line_chain_reachable 0) as (seg4 & seg5 & Hr).
  pose proof (reachable_inv _ _ _ _ (line_well_formed 0 0 10) Hr) as I.
  assert (H1 : tree_type (deref (heap (line_chain seg4 seg5)) 5)
               = tree_type (deref (heap (line_chain seg4 seg5)) 5)) by reflexivity.
  assert (H2 : in_trees (line_chain seg4 seg5) 3) by (right; left; reflexivity).
  assert (H3 : in_trees (line_chain seg4 seg5) 4) by (left; right; left; reflexivity).
  assert (H4 : tree_type (deref (heap (line_chain seg4 seg5)) 3)
               <> tree_type (deref (heap (line_chain seg4 seg5)) 4))
    by (cbn; discriminate).
  assert (H5 : forall m, iter_parent (line_chain seg4 seg5) m
                           (fst (bridge_sides (line_chain seg4 seg5) 5 3 4)) <> Some 5).
  { intros [|[|[|m]]]; cbn; discriminate. }
  destruct (repair_needs_ancestor (line_planner 0) 1 (line_chain seg4 seg5) 5 5 3 4
              I H1 H2 H3 H4 H5) as [e He].
  exists seg4, seg5, e. cbn zeta.
  repeat (split; [assumption|]). exact He.
Defined.

Lemma reconstruct_path_copies_witness :
  exists rp s',
    let s := line_seeded 0 10 in
    (forall a, In a [2; 3] -> a < length (heap s)) /\
    reconstruct_path (line_planner 0) [2; 3] s = Ok (rp, s') /\
    forward_tree s' = forward_tree s /\ backward_tree s' = backward_tree s /\
    rp = seq (length (heap s)) (length [2; 3]).
Proof.
  assert (H1 : forall a, In a [2; 3] -> a < length (heap (line_seeded 0 10))).
  { intros a [<-|[<-|[]]]; cbn; lia. }
  assert (H2 : exists r, reconstruct_path (line_planner 0) [2; 3] (line_seeded 0 10)
                         = Ok r).
  { destruct (line_segment_rest 0 0 10) as [seg Hseg]; [lra|].
    unfold reconstruct_path.
    cbn -[_compute_optimal_segment IZR line_planner].
    rewrite Hseg. cbn -[IZR]. eexists. reflexivity. }
  destruct H2 as [[rp s'] H2].
  exists rp, s'. cbn zeta.
  pose proof (reconstruct_path_copies (line_planner 0) [2; 3] (line_seeded 0 10) rp s'
                H1 H2) as W.
  split; [exact H1|]. split; [exact H2|]. split; [exact (proj1 W)|].
  split; [exact (proj1 (proj2 W))|exact (proj1 (proj2 (proj2 (proj2 W))))].
Defined.

Open Scope R_scope.

Open Scope nat_scope.

(** ** What one extension does *)

(** X21.  [extend_tree] on a tree list whose nodes exist.  On an empty list
    it raises [IndexError]; when the drawn state is rejected by the collision
    checker it returns [None] and changes nothing.  When it returns a node,
    that node is one new object, appended to the given list while the other
    list is untouched; its state is the drawn state; its parent [p] is a node
    of the given list, whose tree type it takes over and whose children gain
    it as last element; the segment it stores is the one
    [_compute_optimal_segment] returns from the state of [p] to the drawn
    state; every other node is as before. *)
Theorem extend_tree_effect self tree k u s :
  (forall a, In a (tree_of tree s) -> a < length (heap s)) ->
  let random_state := _sample_free_space_state self u in
  (tree_of tree s = [] -> extend_tree self tree k u s = Raise IndexError) /\
  (tree_of tree s <> [] -> collision_checker self random_state = false ->
   extend_tree self tree k u s = Ok (None, s)) /\
  (forall r s', extend_tree self tree k u s = Ok (Some r, s') ->
     r = length (heap s) /\
     length (heap s') = S (length (heap s)) /\
     tree_of tree s' = tree_of tree s ++ [r] /\
     tree_of (other_kind tree) s' = tree_of (other_kind tree) s /\
     collision_checker self random_state = true /\
     exists p seg,
       In p (tree_of tree s) /\
       _compute_optimal_segment self (state (deref (heap s) p)) random_state = Ok seg /\
       deref (heap s') r
       = mkNode random_state (tree_type (deref (heap s) p)) (Some p)
                (Some (fst seg)) (Some (snd seg)) [] /\
       deref (heap s') p
       = set_children (children (deref (heap s) p) ++ [r]) (deref (heap s) p) /\
       forall a, a < length (heap s) -> a <> p -> deref (heap s') a = deref (heap s) a).
Proof.
  intros Hex random_state. split; [|split].
  - intros E. unfold extend_tree. rewrite E. reflexivity.
  - intros Hne Hc. unfold extend_tree.
    destruct (tree_of tree s) as [|t0 t]; [congruence|].
    fold random_state. rewrite Hc. reflexivity.
  - intros r s' H.
    assert (Hc : collision_checker self random_state = true).
    { unfold extend_tree in H. destruct (tree_of tree s); [discriminate|].
      fold random_state in H.
      destruct (collision_checker self random_state); [reflexivity|discriminate]. }
    assert (Hseg : exists t0 seg,
      tree_of tree s <> [] /\
      _compute_optimal_segment self
        (state (deref (heap s)
                  (nth (k mod length (tree_of tree s)) (tree_of tree s) t0)))
        random_state = Ok seg /\
      r = length (heap s) /\
      tree_of tree s' = tree_of tree s ++ [length (heap s)] /\
      tree_of (other_kind tree) s' = tree_of (other_kind tree) s /\
      heap s'
      = update (heap s ++
                [new_Node random_state
                   (tree_type (deref (heap s)
                      (nth (k mod length (tree_of tree s)) (tree_of tree s) t0)))
                   (Some (nth (k mod length (tree_of tree s)) (tree_of tree s) t0))
                   (Some (fst seg)) (Some (snd seg))])
               (nth (k mod length (tree_of tree s)) (tree_of tree s) t0)
               (fun p => set_children (children p ++ [length (heap s)]) p)).
    { unfold extend_tree in H.
      destruct (tree_of tree s) as [|t0 t] eqn:Et; [discriminate|].
      fold random_state in H. rewrite Hc in H. cbn [negb] in H.
      destruct (_compute_optimal_segment self _ random_state) as [seg| |] eqn:Es;
        cbn [bind] in H; try discriminate.
      cbn [alloc] in H. injection H as <- <-.
      exists t0, seg. split; [discriminate|]. split; [exact Es|].
      split; [reflexivity|]. split; [|split].
      - rewrite tree_of_set_heap, tree_of_set_tree_same, tree_of_set_heap, Et.
        reflexivity.
      - rewrite tree_of_set_heap, tree_of_set_tree_other by apply other_kind_neq.
        rewrite tree_of_set_heap. reflexivity.
      - cbn [heap set_heap]. rewrite heap_set_tree. reflexivity. }
    destruct Hseg as (t0 & seg & Hne & Es & -> & Ht & Ho & Hh).
    set (p := nth (k mod length (tree_of tree s)) (tree_of tree s) t0) in *.
    assert (Hp : In p (tree_of tree s)) by (apply nth_mod_In; assumption).
    pose proof (Hex p Hp) as Hpl.
    split; [reflexivity|]. split.
    { rewrite Hh, update_length, length_app. cbn [length]. lia. }
    split; [exact Ht|]. split; [exact Ho|]. split; [exact Hc|].
    exists p, seg. split; [exact Hp|]. split; [exact Es|]. split; [|split].
    + rewrite Hh, deref_update_other by lia.
      rewrite deref_alloc, Nat.eqb_refl. reflexivity.
    + rewrite Hh, deref_update_same by (rewrite length_app; cbn [length]; lia).
      rewrite deref_app_old by assumption. reflexivity.
    + intros a Ha Hap. rewrite Hh, deref_update_other by congruence.
      apply deref_app_old. assumption.
Qed.

Open Scope R_scope.

Lemma extend_tree_effect_witness :
  exists r s',
    let s := line_seeded 0 10 in
    (forall a, In a (tree_of forward s) -> (a < length (heap s))%nat) /\
    extend_tree (line_planner 0) forward 0 (fun _ => 1 / 10) s = Ok (Some r, s') /\
    r = length (heap s) /\
    tree_of forward s' = tree_of forward s ++ [r] /\
    tree_of backward s' = tree_of backward s.
Proof.
  assert (H1 : forall a, In a (tree_of forward (line_seeded 0 10)) ->
                         (a < length (heap (line_seeded 0 10)))%nat).
  { intros a [<-|[]]. cbn. lia. }
  assert (H2 : exists r s',
             extend_tree (line_planner 0) forward 0 (fun _ => 1 / 10) (line_seeded 0 10)
             = Ok (Some r, s')).
  { destruct (line_segment_rest 0 0 1) as [seg4 H4]; [lra|].
    unfold extend_tree. rewrite (line_sample_at 0 _ 1) by reflexivity.
    cbn [line_seeded tree_of forward_tree length].
    rewrite Nat.mod_1_r.
    cbn [nth line_planner collision_checker negb].
    change (state (deref (heap (line_seeded 0 10)) 2)) with [0; 0].
    change (mkPlanner 0 (fun _ => true) ([0], [10]) [1] [1]) with (line_planner 0).
    rewrite H4. cbn [bind alloc]. eexists. eexists. reflexivity. }
  destruct H2 as (r & s' & H2).
  exists r, s'. cbn zeta.
  pose proof (proj2 (proj2 (extend_tree_effect (line_planner 0) forward 0
                              (fun _ => 1 / 10) (line_seeded 0 10) H1)) r s' H2) as W.
  split; [exact H1|]. split; [exact H2|]. split; [exact (proj1 W)|].
  split; [exact (proj1 (proj2 (proj2 W)))|exact (proj1 (proj2 (proj2 (proj2 W))))].
Defined.

Open Scope R_scope.

(** ** Seeding from states at rest *)

Lemma map2_repeat_l {A B C} (f : A -> B -> C) (x : A) (c : C) (m : list B) :
  (forall b, f x b = c) -> map2 f (repeat x (length m)) m = repeat c (length m).
Proof.
  intros H. induction m as [|b m IH]; [reflexivity|].
  cbn [length repeat map2]. rewrite H, IH. reflexivity.
Qed.

Lemma map2_repeat_r {A B C} (f : A -> B -> C) (y : B) (g : A -> C) (l : list A) :
  (forall a, f a y = g a) -> map2 f l (repeat y (length l)) = map g l.
Proof.
  intros H. induction l as [|a l IH]; [reflexivity|].
  cbn [length repeat map2 map]. rewrite H, IH. reflexivity.
Qed.

Lemma list_max_repeat x n : list_max x (repeat x n) = x.
Proof.
  pose proof (list_max_in x (repeat x n)) as H. destruct H as [H|H]; [congruence|].
  apply repeat_spec in H. assumption.
Qed.

(** A state at rest is its own braking state, reached in no time. *)
Lemma braking_at_rest self s :
  (0 < dimension self)%nat -> length (amax self) = dimension self ->
  zero_velocity (dimension self) s ->
  generate_max_braking_trajectory self s
  = if negb (_check_state_limits self s) then Ok None
    else if negb (collision_checker self s) then Ok None
    else Ok (Some (s, 0, repeat (0, PpPm) (dimension self))).
Proof.
  intros Hn Ham [HL Hsk]. unfold generate_max_braking_trajectory.
  set (n := dimension self) in *.
  rewrite Hsk. rewrite <- Ham at 1.
  rewrite (map2_repeat_l (fun v a => Rabs v / a) 0 0 (amax self)).
  2:{ intros b. rewrite Rabs_R0. unfold Rdiv. apply Rmult_0_l. }
  rewrite Ham. destruct n as [|m] eqn:En; [lia|]. cbn [repeat].
  rewrite list_max_repeat. rewrite (proj2 (Rltb_false 0 0)) by lra.
  change (0 :: repeat 0 m) with (repeat 0 (S m)).
  assert (Lf : length (firstn (S m) s) = S m) by (rewrite length_firstn; lia).
  set (position := firstn (S m) s) in *.
  replace (repeat 0 (S m)) with (repeat 0 (length position))
    by (rewrite Lf; reflexivity).
  rewrite (map2_repeat_r (fun (p v : R) => (p, (0, PpPm))) 0
             (fun p => (p, (0, PpPm)))) by reflexivity.
  rewrite !map_map. cbn [fst snd]. rewrite map_id.
  rewrite !map_const_repeat, repeat_length, Lf. unfold position.
  replace (firstn (S m) s ++ repeat 0 (S m)) with s.
  2:{ rewrite <- Hsk. symmetry. apply firstn_skipn. }
  reflexivity.
Qed.

(** X22.  Seeding from rest.  With at least one axis and positive
    acceleration limits, when the start and the goal state are at rest, within
    the position limits and collision-free, [seed_trees] returns [True]: each
    tree holds one root, a new node without parent whose state is the state
    of its seed node, and each seed node records a segment of duration [0]
    with one [(0, 'P+P-')] entry per axis. *)
Theorem seed_trees_at_rest self start_state goal_state :
  (0 < dimension self)%nat -> length (amax self) = dimension self ->
  (forall dim, (dim < dimension self)%nat -> 0 < nth dim (amax self) 0) ->
  zero_velocity (dimension self) start_state ->
  zero_velocity (dimension self) goal_state ->
  _check_state_limits self start_state = true ->
  collision_checker self start_state = true ->
  _check_state_limits self goal_state = true ->
  collision_checker self goal_state = true ->
  seed_trees self (init_store start_state goal_state)
  = Ok (true,
        mkStore
          [ mkNode start_state forward None (Some 0)
                   (Some (repeat (0, PpPm) (dimension self))) [];
            mkNode goal_state backward None (Some 0)
                   (Some (repeat (0, PpPm) (dimension self))) [];
            new_Node start_state forward None None None;
            new_Node goal_state backward None None None ]
          [2%nat] [3%nat]).
Proof.
  intros Hn Ham _ Hs Hg Ls Cs Lg Cg.
  unfold seed_trees, seed_one, init_store, start, goal.
  cbn [heap deref nth state new_Node].
  rewrite (braking_at_rest self start_state Hn Ham Hs), Ls, Cs. cbn [negb bind].
  unfold alloc, _check_edge_collision.
  rewrite (proj2 (Reqb_true 0 0)) by reflexivity.
  cbn [bind fst snd heap set_heap set_tree tree_of forward_tree backward_tree app
       length update deref nth state set_segment new_Node].
  rewrite (braking_at_rest self goal_state Hn Ham Hg), Lg, Cg. cbn [negb bind].
  rewrite (proj2 (Reqb_true 0 0)) by reflexivity.
  cbn. reflexivity.
Qed.

Lemma seed_trees_at_rest_witness :
  let self := line_planner 0 in
  (0 < dimension self)%nat /\ length (amax self) = dimension self /\
  (forall dim, (dim < dimension self)%nat -> 0 < nth dim (amax self) 0) /\
  zero_velocity (dimension self) [0; 0] /\
  zero_velocity (dimension self) [10; 0] /\
  _check_state_limits self [0; 0] = true /\
  collision_checker self [0; 0] = true /\
  _check_state_limits self [10; 0] = true /\
  collision_checker self [10; 0] = true /\
  seed_trees self (init_store [0; 0] [10; 0]) = Ok (true, line_seeded 0 10).
Proof.
  cbn zeta.
  assert (H1 : (0 < dimension (line_planner 0))%nat) by (cbn; lia).
  assert (H2 : length (amax (line_planner 0)) = dimension (line_planner 0))
    by reflexivity.
  assert (H3 : forall dim, (dim < dimension (line_planner 0))%nat ->
                           0 < nth dim (amax (line_planner 0)) 0).
  { intros [|dim] Hd; cbn in *; [lra|lia]. }
  assert (H4 : zero_velocity (dimension (line_planner 0)) [0; 0])
    by (split; reflexivity).
  assert (H5 : zero_velocity (dimension (line_planner 0)) [10; 0])
    by (split; reflexivity).
  assert (H6 : _check_state_limits (line_planner 0) [0; 0] = true).
  { apply check_state_limits_inner; [reflexivity|reflexivity|cbn; lia|].
    intros [|dim] Hd; cbn in *; [lra|lia]. }
  assert (H7 : collision_checker (line_planner 0) [0; 0] = true) by reflexivity.
  assert (H8 : _check_state_limits (line_planner 0) [10; 0] = true).
  { apply check_state_limits_inner; [reflexivity|reflexivity|cbn; lia|].
    intros [|dim] Hd; cbn in *; [lra|lia]. }
  assert (H9 : collision_checker (line_planner 0) [10; 0] = true) by reflexivity.
  repeat (split; [assumption|]).
  exact (seed_trees_at_rest (line_planner 0) [0; 0] [10; 0] H1 H2 H3 H4 H5 H6 H7 H8 H9).
Defined.

Open Scope R_scope.

(** ** Time optimality for moving end states *)




Lemma sqrt_gt_of_sq x y : 0 <= y -> y * y < x -> y < sqrt x.
Proof.
  intros Hy H. rewrite <- (sqrt_square y Hy). apply sqrt_lt_1; nra.
Qed.
















Open Scope nat_scope.

Lemma line_repaired_reachable iters :
  exists seg4 seg,
    reachable (line_planner iters) [0%R; 0%R] [10%R; 0%R] (line_repaired seg4 seg).
Proof.
  destruct (line_chain_reachable iters) as (seg4 & seg5 & Hr).
  destruct (line_repair iters seg4 seg5) as (seg & Hrep).
  exists seg4, seg.
  apply (reach_repair _ _ _ 4 5 3 5 (line_chain seg4 seg5)).
  - exact Hr.
  - right. left. reflexivity.
  - left. right. right. left. reflexivity.
  - cbn. discriminate.
  - exact Hrep.
Qed.

(** Calls of [remove_infeasible_edge] that [plan] never makes.  On the
    forward tree [2 -> 4 -> 5], for the edge [(4, 5)]: with both bridge nodes
    in the forward tree ([5] and [4]) the call returns, and node [5] is then
    held in [backward_tree] although its parent links lead to [2], the root
    of the forward tree, and never to the backward root [3]; with the goal
    seed node, which is in neither list, as the bridge node of the other side,
    the call returns, and node [5] is held in [backward_tree] below the seed
    node and never reaches the root [3]. *)
Lemma bridge_outside_breaks_forest :
  exists seg4 seg5 s1 s2,
    let s := line_chain seg4 seg5 in
    reachable (line_planner 0) [0%R; 0%R] [10%R; 0%R] s /\
    (In 5 (forward_tree s) /\ In 4 (forward_tree s) /\
     remove_infeasible_edge (line_planner 0) 4 5 5 4 s = Ok s1 /\
     In 5 (backward_tree s1) /\ hd_error (backward_tree s1) = Some 3 /\
     (forall m, iter_parent s1 m 5 <> Some 3) /\
     hd_error (forward_tree s1) = Some 2 /\ iter_parent s1 2 5 = Some 2) /\
    (~ in_trees s goal /\
     tree_type (deref (heap s) goal) <> tree_type (deref (heap s) 5) /\
     remove_infeasible_edge (line_planner 0) 4 5 goal 5 s = Ok s2 /\
     In 5 (backward_tree s2) /\ hd_error (backward_tree s2) = Some 3 /\
     (forall m, iter_parent s2 m 5 <> Some 3)).
Proof.
  destruct (line_chain_reachable 0) as (seg4 & seg5 & Hr).
  destruct (line_segment_rest 0 1 2) as [sega Ha]; [lra|].
  destruct (line_segment_rest 0 10 2) as [segb Hb]; [lra|].
  exists seg4, seg5. do 2 eexists. cbn zeta.
  split; [exact Hr|]. split.
  - split; [right; right; left; reflexivity|].
    split; [right; left; reflexivity|].
    split.
    { unfold remove_infeasible_edge.
      cbn -[_compute_optimal_segment IZR line_planner].
      rewrite Ha. reflexivity. }
    split; [right; left; reflexivity|]. split; [reflexivity|].
    split; [|split; reflexivity].
    intros [|[|[|m]]]; cbn; discriminate.
  - split.
    { unfold in_trees, goal. cbn. intros [[H|[H|[H|[]]]]|[H|[]]]; discriminate. }
    split; [cbn; discriminate|].
    split.
    { unfold remove_infeasible_edge, goal.
      cbn -[_compute_optimal_segment IZR line_planner].
      rewrite Hb. reflexivity. }
    split; [right; left; reflexivity|]. split; [reflexivity|].
    intros [|[|[|m]]]; cbn; discriminate.
Qed.

(** The forest after two extensions and one repair. *)
Lemma forest_invariant_witness :
  exists seg4 seg,
    let s := line_repaired seg4 seg in
    well_formed (line_planner 0) [0%R; 0%R] [10%R; 0%R] /\
    reachable (line_planner 0) [0%R; 0%R] [10%R; 0%R] s /\
    In 5 (tree_of backward s) /\
    (exists r m,
       hd_error (tree_of backward s) = Some r /\ par s r = None /\
       iter_parent s m 5 = Some r /\ m < length (tree_of backward s)) /\
    ~ In 5 (tree_of forward s).
Proof.
  destruct (line_repaired_reachable 0) as (seg4 & seg & Hr).
  exists seg4, seg. cbn zeta.
  assert (H5 : In 5 (tree_of backward (line_repaired seg4 seg)))
    by (right; left; reflexivity).
  pose proof (proj1 (forest_invariant _ _ _ _ (line_well_formed 0 0 10) Hr)
                backward 5 H5) as W.
  split; [apply line_well_formed|]. split; [exact Hr|]. split; [exact H5|].
  split; [exact (proj1 W)|exact (proj1 (proj2 (proj2 W)))].
Defined.

Open Scope R_scope.

(** Without obstacles every edge of non-negative duration is free. *)
Lemma line_edge_free iters a b T ti :
  0 <= T ->
  _check_edge_collision (line_planner iters) a b T ti time_step_default = Ok true.
Proof.
  intros HT. unfold _check_edge_collision.
  destruct (Reqb T 0); [reflexivity|].
  assert (Hq : 0 <= T / time_step_default).
  { unfold time_step_default. apply Rmult_le_pos; [assumption|].
    left. apply Rinv_0_lt_compat. lra. }
  pose proof (Int_part_nonneg _ Hq) as Hfloor.
  unfold sample_times. rewrite int_trunc_floor by assumption.
  destruct (Z.ltb_spec (Int_part (T / time_step_default) + 1) 0); [lia|].
  cbn [bind]. f_equal. apply check_samples_true. intros t _. reflexivity.
Qed.

Lemma line_braking_moving iters :
  generate_max_braking_trajectory (line_planner iters) [5; 1]
  = Ok (Some ([9 / 2; 0], 1, [(1, PpPm)])).
Proof.
  unfold generate_max_braking_trajectory, _check_state_limits.
  cbn [line_planner dimension vmax amax length firstn skipn map2 position_limits
       collision_checker].
  unfold list_max. cbn [fold_left].
  replace (Rabs 1 / 1) with 1 by (rewrite Rabs_R1; lra).
  rewrite (proj2 (Rltb_true 0 1)) by lra.
  cbn [map fst snd app combine forallb].
  replace (1 / 1) with 1 by lra. rewrite Rabs_R1.
  replace (5 + -0.5 * 1 * 1 ^ 2) with (9 / 2) by lra.
  rewrite (proj2 (Rleb_true 0 _)), (proj2 (Rleb_true _ 10)) by lra.
  reflexivity.
Qed.

Lemma moving_seed iters :
  seed_trees (line_planner iters) (init_store [5; 1] [10; 0])
  = Ok (true,
        mkStore
          [ mkNode [5; 1] forward None (Some 1) (Some [(1, PpPm)]) [];
            mkNode [10; 0] backward None (Some 0) (Some [(0, PpPm)]) [];
            new_Node [9 / 2; 0] forward None None None;
            new_Node [10; 0] backward None None None ]
          [2%nat] [3%nat]).
Proof.
  unfold seed_trees, seed_one, init_store, start, goal.
  cbn [heap deref nth state new_Node].
  rewrite line_braking_moving. cbn [bind].
  unfold alloc.
  cbn [bind fst snd heap set_heap set_tree tree_of forward_tree backward_tree app
       length update deref nth state set_segment new_Node].
  rewrite line_edge_free by lra.
  cbn [bind fst snd heap set_heap set_tree tree_of forward_tree backward_tree app
       length update deref nth state set_segment new_Node].
  rewrite line_braking by lra. cbn [bind].
  cbn [bind fst snd heap set_heap set_tree tree_of forward_tree backward_tree app
       length update deref nth state set_segment new_Node].
  rewrite line_edge_free by lra. cbn. reflexivity.
Qed.

Lemma moving_repaired_reachable iters :
  exists seg4 seg,
    reachable (line_planner iters) [5; 1] [10; 0] (moving_repaired seg4 seg).
Proof.
  destruct (line_segment_rest iters (9 / 2) 1) as [seg4 H4]; [lra|].
  destruct (line_segment_rest iters 1 2) as [seg5 H5]; [lra|].
  destruct (line_segment_rest iters 10 2) as [seg H]; [lra|].
  exists seg4, seg.
  set (s0 := mkStore
    [ mkNode [5; 1] forward None (Some 1) (Some [(1, PpPm)]) [];
      mkNode [10; 0] backward None (Some 0) (Some [(0, PpPm)]) [];
      new_Node [9 / 2; 0] forward None None None;
      new_Node [10; 0] backward None None None ]
    [2%nat] [3%nat]).
  set (s1 := mkStore
    [ mkNode [5; 1] forward None (Some 1) (Some [(1, PpPm)]) [];
      mkNode [10; 0] backward None (Some 0) (Some [(0, PpPm)]) [];
      mkNode [9 / 2; 0] forward None None None [4%nat];
      new_Node [10; 0] backward None None None;
      mkNode [1; 0] forward (Some 2%nat) (Some (fst seg4)) (Some (snd seg4)) [] ]
    [2%nat; 4%nat] [3%nat]).
  set (s2 := mkStore
    [ mkNode [5; 1] forward None (Some 1) (Some [(1, PpPm)]) [];
      mkNode [10; 0] backward None (Some 0) (Some [(0, PpPm)]) [];
      mkNode [9 / 2; 0] forward None None None [4%nat];
      new_Node [10; 0] backward None None None;
      mkNode [1; 0] forward (Some 2%nat) (Some (fst seg4)) (Some (snd seg4)) [5%nat];
      mkNode [2; 0] forward (Some 4%nat) (Some (fst seg5)) (Some (snd seg5)) [] ]
    [2%nat; 4%nat; 5%nat] [3%nat]).
  assert (R0 : reachable (line_planner iters) [5; 1] [10; 0] s0).
  { apply (reach_seed _ _ _ true). apply moving_seed. }
  assert (R1 : reachable (line_planner iters) [5; 1] [10; 0] s1).
  { apply (reach_extend _ _ _ forward 0%nat (fun _ => 1 / 10) s0 (Some 4%nat)).
    - exact R0.
    - unfold extend_tree. rewrite (line_sample_at iters _ 1) by reflexivity.
      cbn [s0 tree_of forward_tree length].
      rewrite Nat.mod_1_r.
      cbn [nth line_planner collision_checker negb].
      change (state (deref (heap s0) 2)) with [9 / 2; 0].
      change (mkPlanner iters (fun _ => true) ([0], [10]) [1] [1])
        with (line_planner iters).
      rewrite H4. reflexivity. }
  assert (R2 : reachable (line_planner iters) [5; 1] [10; 0] s2).
  { apply (reach_extend _ _ _ forward 1%nat (fun _ => 2 / 10) s1 (Some 5%nat)).
    - exact R1.
    - unfold extend_tree. rewrite (line_sample_at iters _ 2) by reflexivity.
      cbn [s1 tree_of forward_tree length].
      change (1 mod 2)%nat with 1%nat.
      cbn [nth line_planner collision_checker negb].
      change (state (deref (heap s1) 4)) with [1; 0].
      change (mkPlanner iters (fun _ => true) ([0], [10]) [1] [1])
        with (line_planner iters).
      rewrite H5. reflexivity. }
  apply (reach_repair _ _ _ 4%nat 5%nat 3%nat 5%nat s2).
  - exact R2.
  - right. left. reflexivity.
  - left. right. right. left. reflexivity.
  - cbn. discriminate.
  - unfold remove_infeasible_edge.
    cbn -[_compute_optimal_segment IZR line_planner].
    rewrite H. reflexivity.
Qed.

Lemma moving_well_formed iters :
  well_formed (line_planner iters) [5; 1] [10; 0].
Proof. repeat split. Qed.

(** From a moving start: the seed node keeps its velocity and is in neither
    list; the root, the leaf and the repaired node are at rest. *)
Lemma tree_nodes_at_rest_witness :
  exists seg4 seg,
    let s := moving_repaired seg4 seg in
    well_formed (line_planner 0) [5; 1] [10; 0] /\
    reachable (line_planner 0) [5; 1] [10; 0] s /\
    in_trees s 2 /\ in_trees s 4 /\ in_trees s 5 /\
    (forall a, in_trees s a -> zero_velocity 1 (state (deref (heap s) a))) /\
    ~ in_trees s start /\
    state (deref (heap s) start) = [5; 1].
Proof.
  destruct (moving_repaired_reachable 0) as (seg4 & seg & Hr).
  exists seg4, seg. cbn zeta.
  pose proof (tree_nodes_at_rest _ _ _ _ (moving_well_formed 0) Hr) as W.
  split; [apply moving_well_formed|]. split; [exact Hr|].
  split; [left; left; reflexivity|].
  split; [left; right; left; reflexivity|].
  split; [right; right; left; reflexivity|].
  split; [exact (proj1 W)|].
  split; [exact (proj1 (proj1 (proj2 W)))|exact (proj1 (proj1 (proj2 (proj2 W))))].
Defined.
